(** * pg-copy-streams: the COPY sub-protocol decoders and the inbound flusher

    A shallow embedding of [copy-to.js] and [copy-both.js], and what holds
    of it.

    - [Wire]      bytes, the 32-bit big-endian length field, frames.
    - [CopyTo]    [copy-to.js]: the [Transform] whose [_transform] re-parses
                  its [_remainder] from the frame header on every call.
    - [CopyBoth]  [copy-both.js]: the [Duplex] whose [_parse] is a three-state
                  decoder over a byte accumulator, with the write side
                  ([_write], [_writev], [flush], [flushChunk], [_final],
                  [_startCopyIn]).
    - [WireFacts], [CopyToFacts], [CopyBothFacts]
                  the lemmas about each of them.
    - [Transfers] the two decoders side by side: detach, ErrorResponse,
                  codes without a case, a second copy start.
    - [Runs]      runs on concrete streams, with the codes of PostgreSQL.

    JavaScript numbers that the code computes with are integers far below
    2^53, so they are modelled by [Z] without rounding. *)

From Stdlib Require Import ZArith List Bool Lia.
From Stdlib Require Import Init.Byte Strings.Byte.
From coqutil Require Import Byte.
Import ListNotations.

Local Open Scope Z_scope.

(** A Node [Buffer] (and the contents of an [obuf] BufferList) is a list of
    bytes. *)
Definition Buffer := list byte.

(** Results of code that can throw or loop.  [Diverge] is what a fuelled
    loop returns when its fuel is spent. *)
Inductive Exn := TypeError | RangeError | AssertionError.

Inductive Result (A : Type) : Type :=
| Ok (a : A)
| Throw (e : Exn)
| Diverge.

Arguments Ok {A} a.
Arguments Throw {A} e.
Arguments Diverge {A}.

Definition bind {A B} (r : Result A) (k : A -> Result B) : Result B :=
  match r with
  | Ok a => k a
  | Throw e => Throw e
  | Diverge => Diverge
  end.

Notation "'let*' x ':=' r 'in' k" := (bind r (fun x => k))
  (at level 10, x pattern, r at level 100, k at level 200).

Definition rmap {A B} (f : A -> B) (r : Result A) : Result B :=
  match r with
  | Ok a => Ok (f a)
  | Throw e => Throw e
  | Diverge => Diverge
  end.

(** ** Wire format *)
Module Wire.

Definition len (b : Buffer) : Z := Z.of_nat (length b).

(** [buf.readUInt32BE()] on four bytes. *)
Definition be32 (b0 b1 b2 b3 : byte) : Z :=
  byte.unsigned b0 * 2 ^ 24 + byte.unsigned b1 * 2 ^ 16
  + byte.unsigned b2 * 2 ^ 8 + byte.unsigned b3.

(** [buf.readUInt32BE(off)]: the caller has checked that four bytes are
    there; absent bytes read as zero only to keep the function total. *)
Definition readUInt32BE (b : Buffer) (off : Z) : Z :=
  match skipn (Z.to_nat off) b with
  | b0 :: b1 :: b2 :: b3 :: _ => be32 b0 b1 b2 b3
  | _ => 0
  end.

(** The four bytes [buf.writeUInt32BE(v, _)] stores, for [v] in range. *)
Definition encodeUInt32BE (v : Z) : Buffer :=
  [ byte.of_Z (v / 2 ^ 24); byte.of_Z (v / 2 ^ 16);
    byte.of_Z (v / 2 ^ 8); byte.of_Z v ].

(** [buf.writeUInt32BE(v, off)] throws ERR_OUT_OF_RANGE outside
    [0, 2^32 - 1]. *)
Definition writeUInt32BE (v : Z) : Result Buffer :=
  if (0 <=? v) && (v <? 2 ^ 32) then Ok (encodeUInt32BE v)
  else Throw RangeError.

(** [buf.slice(start, end)] for non-negative indices (all the indices the
    code computes are), clamped to the buffer. *)
Definition slice (b : Buffer) (s e : Z) : Buffer :=
  firstn (Z.to_nat (e - s)) (skipn (Z.to_nat s) b).

(** [buf[i]], read inside the bounds. *)
Definition at_ (b : Buffer) (i : Z) : byte := nth (Z.to_nat i) b x00.

(** A frame: code, declared length, payload. *)
Record Frame := mkFrame {
  fcode : byte;
  declaredLength : Z;
  payload : Buffer
}.

(** The data-model invariant: the declared length counts itself and the
    payload, and fits the 32-bit field. *)
Definition wf_frame (f : Frame) : Prop :=
  declaredLength f = len (payload f) + 4 /\ declaredLength f < 2 ^ 32.

Definition wf_frameb (f : Frame) : bool :=
  (declaredLength f =? len (payload f) + 4) && (declaredLength f <? 2 ^ 32).

Definition header (f : Frame) : Buffer :=
  fcode f :: encodeUInt32BE (declaredLength f).

Definition encode (f : Frame) : Buffer := header f ++ payload f.

Definition encode_all (fs : list Frame) : Buffer := flat_map encode fs.

(** A frame built from its code and payload. *)
Definition frame (c : byte) (p : Buffer) : Frame := mkFrame c (len p + 4) p.

End Wire.

(** ** message-formats.js

    Both files [require('./message-formats')], a table of one-byte message
    codes that is not among the sources at hand.  It is a parameter of the
    development: every definition below takes the table [code] and compares
    bytes against its fields, in the order of the source's [switch]. *)
Record MessageFormats := mkMessageFormats {
  ErrorResponse : byte;
  CopyInResponse : byte;
  CopyOutResponse : byte;
  CopyBothResponse : byte;
  CopyDone : byte;
  CopyData : byte;
  NotificationResponse : byte;
  NoticeResponse : byte;
  ParameterStatus : byte
}.

(** Modelled from the spec: the table of [message-formats.js], which is
    not among the sources.  The spec names the codes and not their values;
    the values are those of the PostgreSQL wire protocol, to which the
    comments of the source refer.  Only the runs on concrete streams use
    this table: every other statement is about any table (of distinct
    codes, where it says so). *)
Definition pg : MessageFormats := {|
  ErrorResponse := "E"%byte;
  CopyInResponse := "G"%byte;
  CopyOutResponse := "H"%byte;
  CopyBothResponse := "W"%byte;
  CopyDone := "c"%byte;
  CopyData := "d"%byte;
  NotificationResponse := "A"%byte;
  NoticeResponse := "N"%byte;
  ParameterStatus := "S"%byte
|}.

(** The codes of a table are pairwise distinct. *)
Definition codes (code : MessageFormats) : list byte :=
  [ErrorResponse code; CopyInResponse code; CopyOutResponse code;
   CopyBothResponse code; CopyDone code; CopyData code;
   NotificationResponse code; NoticeResponse code; ParameterStatus code].

Fixpoint nodupb (l : list byte) : bool :=
  match l with
  | [] => true
  | x :: l' => negb (existsb (Byte.eqb x) l') && nodupb l'
  end.

Definition distinct (code : MessageFormats) : bool := nodupb (codes code).

(** [x === code.Y] on bytes. *)
Definition is_code (x y : byte) : bool := Byte.eqb x y.

(** ** What a stream instance does to the world around it

    Calls into Node's stream machinery, the connection and the consumer are
    recorded, in order, in a trace. *)
Inductive ErrorMessage :=
| UnexpectedCopyOutResponse            (* 'Unexpected CopyOutResponse message (H)' *)
| UnexpectedMessage (messageCode : byte). (* 'Unexpected PostgreSQL message ' + code *)

(** The write callbacks the [Writable] base class passes in are opaque to the
    code; they are told apart by a number. *)
Definition Callback := nat.

(** The two listeners [flush] registers with [once('drain', _)]. *)
Inductive DrainListener :=
| FlushAgain (callback : Callback)     (* this.flush.bind(this, callback) *)
| JustCall (callback : Callback).      (* callback *)

Inductive Event :=
| Query                                (* connection.query(this.text) *)
| Push (b : Buffer)                    (* this.push(buffer) *)
| PushNull                             (* this.push(null) *)
| EmitError (e : ErrorMessage)         (* this.emit('error', new Error(..)) *)
| Unpipe                               (* connectionStream.unpipe(this) *)
| HandBack (unreadBuffer : Buffer)     (* this._pgDataHandler(unreadBuffer) *)
| ResumeNextTick                       (* process.nextTick(() => connectionStream.resume()) *)
| Pause                                (* connectionStream.pause() *)
| Write (b : Buffer)                   (* this.connection.stream.write(b) *)
| Cork                                 (* this.cork() *)
| Uncork                               (* this.uncork() *)
| Call (cb : Callback).                (* cb() *)

Definition Trace := list Event.

(** Projections of a trace. *)
Definition pushed (t : Trace) : list Buffer :=
  flat_map (fun e => match e with Push b => [b] | _ => [] end) t.

Definition forwarded (t : Trace) : Buffer := concat (pushed t).

Definition errors (t : Trace) : list ErrorMessage :=
  flat_map (fun e => match e with EmitError m => [m] | _ => [] end) t.

Definition handedBack (t : Trace) : list Buffer :=
  flat_map (fun e => match e with HandBack b => [b] | _ => [] end) t.

Definition sent (t : Trace) : list Buffer :=
  flat_map (fun e => match e with Write b => [b] | _ => [] end) t.

Definition called (t : Trace) : list Callback :=
  flat_map (fun e => match e with Call c => [c] | _ => [] end) t.

Definition ended (t : Trace) : bool :=
  existsb (fun e => match e with PushNull => true | _ => false end) t.

(** ** copy-to.js *)
Module CopyTo.
Import Wire.

Section WithCodes.
Variable code : MessageFormats.

(** The instance.  [_remainder] is [undefined] or [false] ([None]) or a
    Buffer; [piped] says whether [connection.stream.pipe(this)] is in force;
    [events] is the trace.  [consumed] is a ghost field, kept for the byte
    accounting only: the bytes of the frames [_transform] has stepped over
    (the source keeps no such record). *)
Record CopyStreamQuery := mkCopyStreamQuery {
  _remainder : option Buffer;
  _gotCopyOutResponse : bool;
  rowCount : Z;
  piped : bool;
  events : Trace;
  consumed : Buffer
}.

Definition init : CopyStreamQuery :=
  {| _remainder := None; _gotCopyOutResponse := false; rowCount := 0;
     piped := false; events := []; consumed := [] |}.

Definition emit (e : Event) (s : CopyStreamQuery) : CopyStreamQuery :=
  {| _remainder := _remainder s; _gotCopyOutResponse := _gotCopyOutResponse s;
     rowCount := rowCount s; piped := piped s; events := events s ++ [e];
     consumed := consumed s |}.

Definition set_remainder (r : option Buffer) (s : CopyStreamQuery) :=
  {| _remainder := r; _gotCopyOutResponse := _gotCopyOutResponse s;
     rowCount := rowCount s; piped := piped s; events := events s;
     consumed := consumed s |}.

Definition set_gotCopyOutResponse (b : bool) (s : CopyStreamQuery) :=
  {| _remainder := _remainder s; _gotCopyOutResponse := b;
     rowCount := rowCount s; piped := piped s; events := events s;
     consumed := consumed s |}.

Definition set_rowCount (n : Z) (s : CopyStreamQuery) :=
  {| _remainder := _remainder s; _gotCopyOutResponse := _gotCopyOutResponse s;
     rowCount := n; piped := piped s; events := events s;
     consumed := consumed s |}.

Definition set_piped (b : bool) (s : CopyStreamQuery) :=
  {| _remainder := _remainder s; _gotCopyOutResponse := _gotCopyOutResponse s;
     rowCount := rowCount s; piped := b; events := events s;
     consumed := consumed s |}.

Definition consume (b : Buffer) (s : CopyStreamQuery) :=
  {| _remainder := _remainder s; _gotCopyOutResponse := _gotCopyOutResponse s;
     rowCount := rowCount s; piped := piped s; events := events s;
     consumed := consumed s ++ b |}.

(** [submit]: the query is sent and the connection stream piped into the
    instance.  The connection's own 'data' listener stays registered: the
    original consumer keeps receiving every chunk. *)
Definition submit (s : CopyStreamQuery) : CopyStreamQuery :=
  set_piped true (emit Query s).

(** [_detach]: unpipe, and resume the connection stream at the next tick.
    Nothing is handed to anyone. *)
Definition _detach (s : CopyStreamQuery) : CopyStreamQuery :=
  emit ResumeNextTick (set_piped false (emit Unpipe s)).

Definition Byte1Len : Z := 1.
Definition Int32Len : Z := 4.

(** The locals of [_transform] that the loop changes.  [buffer] stands for
    the pair ([buffer], [buffer_offset]) of the source: the bytes copied
    into [buffer] so far, [buffer_offset] being their number. *)
Record Locals := mkLocals {
  offset : Z;
  needPush : bool;
  buffer : Buffer
}.

Definition pushBufferIfneeded (l : Locals) (s : CopyStreamQuery)
  : Locals * CopyStreamQuery :=
  if needPush l && (0 <? len (buffer l))
  then (mkLocals (offset l) (needPush l) [], emit (Push (buffer l)) s)
  else (l, s).

(** The [switch (messageCode)]: either the function returns ([Return_],
    after [return cb()]), or control reaches the statements after the switch
    ([Break_]).  [emit('error', _)] is taken to return: the instance has an
    'error' listener, as a query stream used with [pg] does. *)
Inductive Switch :=
| Return_ (s : CopyStreamQuery)
| Break_ (l : Locals) (s : CopyStreamQuery).

Definition switch (messageCode : byte) (cb : Callback) (l : Locals)
  (s : CopyStreamQuery) : Switch :=
  if is_code messageCode (CopyOutResponse code) then
    if negb (_gotCopyOutResponse s)
    then Break_ l (set_gotCopyOutResponse true s)
    else Break_ l (emit (EmitError UnexpectedCopyOutResponse) s)
  else if is_code messageCode (CopyData code) then
    Break_ (mkLocals (offset l) true (buffer l)) s
  else if is_code messageCode (ParameterStatus code)
       || is_code messageCode (NoticeResponse code)
       || is_code messageCode (NotificationResponse code) then
    Break_ l s
  else if is_code messageCode (ErrorResponse code)
       || is_code messageCode (CopyDone code) then
    let (_, s1) := pushBufferIfneeded l s in
    Return_ (emit (Call cb) (emit PushNull (_detach s1)))
  else
    Break_ l (emit (EmitError (UnexpectedMessage messageCode)) s).

(** How the [while] loop of [_transform] is left. *)
Inductive LoopExit :=
| Returned (s : CopyStreamQuery)
| Fell (l : Locals) (s : CopyStreamQuery).

(** The [while (chunk.length - offset >= Byte1Len + Int32Len)] loop; one
    unit of fuel per pass. *)
Fixpoint transform_loop (fuel : nat) (chunk : Buffer) (cb : Callback)
  (l : Locals) (s : CopyStreamQuery) : Result LoopExit :=
  match fuel with
  | O => Diverge
  | S fuel' =>
    if len chunk - offset l >=? Byte1Len + Int32Len then
      let messageCode := at_ chunk (offset l) in
      match switch messageCode cb l s with
      | Return_ s1 => Ok (Returned s1)
      | Break_ l1 s1 =>
        let length := readUInt32BE chunk (offset l1 + Byte1Len) in
        if len chunk >=? offset l1 + Byte1Len + length then
          let offset1 := offset l1 + (Byte1Len + Int32Len) in
          let row := slice chunk offset1 (offset1 + length - Int32Len) in
          let offset2 := offset1 + (length - Int32Len) in
          let s2 := consume (slice chunk (offset l1) offset2) s1 in
          if needPush l1 then
            transform_loop fuel' chunk cb
              (mkLocals offset2 true (buffer l1 ++ row))
              (set_rowCount (rowCount s2 + 1) s2)
          else
            transform_loop fuel' chunk cb
              (mkLocals offset2 false (buffer l1)) s2
        else
          (* we need more chunks for a complete message *)
          Ok (Fell l1 s1)
      end
    else Ok (Fell l s)
  end.

(** [_transform(chunk, enc, cb)].  Every pass of the loop moves [offset]
    forward by at least one byte, so [chunk.length + 1] passes are enough
    (see [CopyToFacts.transform_total]). *)
Definition _transform (chunk0 : Buffer) (cb : Callback) (s : CopyStreamQuery)
  : Result CopyStreamQuery :=
  let chunk := match _remainder s with
               | Some r => r ++ chunk0
               | None => chunk0
               end in
  let* exit := transform_loop (S (length chunk)) chunk cb
                 (mkLocals 0 false []) s in
  match exit with
  | Returned s1 => Ok s1
  | Fell l s1 =>
    let (l2, s2) := pushBufferIfneeded l s1 in
    let s3 := if len chunk - offset l2 =? 0
              then set_remainder None s2
              else set_remainder (Some (slice chunk (offset l2) (len chunk))) s2 in
    Ok (emit (Call cb) s3)
  end.

(** The connection stream writes its chunks into the instance for as long
    as it is piped into it. *)
Fixpoint feed (chunks : list Buffer) (s : CopyStreamQuery)
  : Result CopyStreamQuery :=
  match chunks with
  | [] => Ok s
  | chunk :: rest =>
    if piped s then let* s1 := _transform chunk 0%nat s in feed rest s1
    else Ok s
  end.

(** A transfer: [submit], then the chunks. *)
Definition run (chunks : list Buffer) : Result CopyStreamQuery :=
  feed chunks (submit init).

End WithCodes.
End CopyTo.

(** ** copy-both.js *)
Module CopyBoth.
Import Wire.

(** Readable decoder states *)
Inductive DecoderState := PG_CODE | PG_LENGTH | PG_MESSAGE.

Definition DecoderState_eqb (a b : DecoderState) : bool :=
  match a, b with
  | PG_CODE, PG_CODE | PG_LENGTH, PG_LENGTH | PG_MESSAGE, PG_MESSAGE => true
  | _, _ => false
  end.

(** Every length field that the decoder will read in [b], starting in
    state [st] with [unread] bytes of message content still to come,
    declares at least 4 (and [unread] itself is not negative): the frames
    in [b] respect [declaredLength >= 4]. *)
Fixpoint headers_ok (st : DecoderState) (unread : Z) (b : Buffer)
  {struct b} : bool :=
  match st with
  | PG_CODE =>
    match b with
    | [] => true
    | _ :: b' => headers_ok PG_LENGTH unread b'
    end
  | PG_LENGTH =>
    match b with
    | b0 :: b1 :: b2 :: b3 :: b' =>
      (4 <=? be32 b0 b1 b2 b3)
      && headers_ok PG_MESSAGE (be32 b0 b1 b2 b3 - 4) b'
    | _ => true
    end
  | PG_MESSAGE =>
    if unread <? 0 then false
    else
      match b with
      | [] => true
      | _ :: b' =>
        if unread =? 0 then headers_ok PG_LENGTH unread b'
        else headers_ok PG_MESSAGE (unread - 1) b'
      end
  end.

(** The fields of the "Readable side".  The two BufferLists hold their
    bytes in order; [None] is [null] (after [_cleanup]).  [_code] is
    [undefined] ([None]) until a code byte has been peeked.
    [_pgDataHandler] says whether the connection's 'data' listener is held
    ([false]: [null]).  [_drained] is used for its truth value only
    ([undefined] is [false]). *)
Record Readable := mkReadable {
  _state : DecoderState;
  _buffer : option Buffer;
  _unreadMessageContentLength : Z;
  _copyDataChunks : option Buffer;
  _code : option byte;
  _pgDataHandler : bool;
  _drained : bool;
  _forwarding : bool;
  rowMode : bool
}.

Definition set_state (v : DecoderState) (r : Readable) : Readable :=
  {| _state := v; _buffer := _buffer r;
     _unreadMessageContentLength := _unreadMessageContentLength r;
     _copyDataChunks := _copyDataChunks r; _code := _code r;
     _pgDataHandler := _pgDataHandler r; _drained := _drained r;
     _forwarding := _forwarding r; rowMode := rowMode r |}.

Definition set_buffer (v : option Buffer) (r : Readable) : Readable :=
  {| _state := _state r; _buffer := v;
     _unreadMessageContentLength := _unreadMessageContentLength r;
     _copyDataChunks := _copyDataChunks r; _code := _code r;
     _pgDataHandler := _pgDataHandler r; _drained := _drained r;
     _forwarding := _forwarding r; rowMode := rowMode r |}.

Definition set_unreadMessageContentLength (v : Z) (r : Readable) : Readable :=
  {| _state := _state r; _buffer := _buffer r;
     _unreadMessageContentLength := v;
     _copyDataChunks := _copyDataChunks r; _code := _code r;
     _pgDataHandler := _pgDataHandler r; _drained := _drained r;
     _forwarding := _forwarding r; rowMode := rowMode r |}.

Definition set_copyDataChunks (v : option Buffer) (r : Readable) : Readable :=
  {| _state := _state r; _buffer := _buffer r;
     _unreadMessageContentLength := _unreadMessageContentLength r;
     _copyDataChunks := v; _code := _code r;
     _pgDataHandler := _pgDataHandler r; _drained := _drained r;
     _forwarding := _forwarding r; rowMode := rowMode r |}.

Definition set_code (v : option byte) (r : Readable) : Readable :=
  {| _state := _state r; _buffer := _buffer r;
     _unreadMessageContentLength := _unreadMessageContentLength r;
     _copyDataChunks := _copyDataChunks r; _code := v;
     _pgDataHandler := _pgDataHandler r; _drained := _drained r;
     _forwarding := _forwarding r; rowMode := rowMode r |}.

Definition set_pgDataHandler (v : bool) (r : Readable) : Readable :=
  {| _state := _state r; _buffer := _buffer r;
     _unreadMessageContentLength := _unreadMessageContentLength r;
     _copyDataChunks := _copyDataChunks r; _code := _code r;
     _pgDataHandler := v; _drained := _drained r;
     _forwarding := _forwarding r; rowMode := rowMode r |}.

Definition set_drained (v : bool) (r : Readable) : Readable :=
  {| _state := _state r; _buffer := _buffer r;
     _unreadMessageContentLength := _unreadMessageContentLength r;
     _copyDataChunks := _copyDataChunks r; _code := _code r;
     _pgDataHandler := _pgDataHandler r; _drained := v;
     _forwarding := _forwarding r; rowMode := rowMode r |}.

Definition set_forwarding (v : bool) (r : Readable) : Readable :=
  {| _state := _state r; _buffer := _buffer r;
     _unreadMessageContentLength := _unreadMessageContentLength r;
     _copyDataChunks := _copyDataChunks r; _code := _code r;
     _pgDataHandler := _pgDataHandler r; _drained := _drained r;
     _forwarding := v; rowMode := rowMode r |}.

Definition set_rowMode (v : bool) (r : Readable) : Readable :=
  {| _state := _state r; _buffer := _buffer r;
     _unreadMessageContentLength := _unreadMessageContentLength r;
     _copyDataChunks := _copyDataChunks r; _code := _code r;
     _pgDataHandler := _pgDataHandler r; _drained := _drained r;
     _forwarding := _forwarding r; rowMode := v |}.

(** The fields of the "Writable side".  [chunks] holds the Buffers of the
    queued [{chunk, encoding}] records. *)
Record Writable := mkWritable {
  _gotCopyInResponse : bool;
  chunks : list Buffer;
  cb : option Callback;
  cb_flush : option Callback
}.

Definition set_gotCopyInResponse (v : bool) (r : Writable) : Writable :=
  {| _gotCopyInResponse := v; chunks := chunks r; cb := cb r;
     cb_flush := cb_flush r |}.

Definition set_chunks (v : list Buffer) (r : Writable) : Writable :=
  {| _gotCopyInResponse := _gotCopyInResponse r; chunks := v; cb := cb r;
     cb_flush := cb_flush r |}.

Definition set_cb (v : option Callback) (r : Writable) : Writable :=
  {| _gotCopyInResponse := _gotCopyInResponse r; chunks := chunks r;
     cb := v; cb_flush := cb_flush r |}.

Definition set_cb_flush (v : option Callback) (r : Writable) : Writable :=
  {| _gotCopyInResponse := _gotCopyInResponse r; chunks := chunks r;
     cb := cb r; cb_flush := v |}.

(** [this.connection] and what it stands for.  [connection]: set by
    [submit], [null] after [handleReadyForQuery].  [trace]: the calls made so
    far.  [drainListeners]: the listeners registered with
    [connection.stream.once('drain', _)], oldest first.  [readableListener]:
    whether [_onReadableEvent] is registered for 'readable'.
    [dataListeners]: the number of 'data' listeners of the connection
    stream.  [incoming]: the chunks [connectionStream.read()] will return,
    in order ([null] when there is none).  [consumed] is a ghost field for
    the byte accounting: the bytes [_parse] has taken out of [_buffer] with
    [readUInt8], [readUInt32BE] and [take] (the source keeps no such
    record). *)
Record World := mkWorld {
  connection : bool;
  trace : Trace;
  drainListeners : list DrainListener;
  readableListener : bool;
  dataListeners : nat;
  incoming : list Buffer;
  consumed : Buffer
}.

Definition set_connection (v : bool) (r : World) : World :=
  {| connection := v; trace := trace r;
     drainListeners := drainListeners r;
     readableListener := readableListener r;
     dataListeners := dataListeners r; incoming := incoming r;
     consumed := consumed r |}.

Definition set_trace (v : Trace) (r : World) : World :=
  {| connection := connection r; trace := v;
     drainListeners := drainListeners r;
     readableListener := readableListener r;
     dataListeners := dataListeners r; incoming := incoming r;
     consumed := consumed r |}.

Definition set_drainListeners (v : list DrainListener) (r : World) : World :=
  {| connection := connection r; trace := trace r; drainListeners := v;
     readableListener := readableListener r;
     dataListeners := dataListeners r; incoming := incoming r;
     consumed := consumed r |}.

Definition set_readableListener (v : bool) (r : World) : World :=
  {| connection := connection r; trace := trace r;
     drainListeners := drainListeners r; readableListener := v;
     dataListeners := dataListeners r; incoming := incoming r;
     consumed := consumed r |}.

Definition set_dataListeners (v : nat) (r : World) : World :=
  {| connection := connection r; trace := trace r;
     drainListeners := drainListeners r;
     readableListener := readableListener r; dataListeners := v;
     incoming := incoming r; consumed := consumed r |}.

Definition set_incoming (v : list Buffer) (r : World) : World :=
  {| connection := connection r; trace := trace r;
     drainListeners := drainListeners r;
     readableListener := readableListener r;
     dataListeners := dataListeners r; incoming := v;
     consumed := consumed r |}.

Definition set_consumed (v : Buffer) (r : World) : World :=
  {| connection := connection r; trace := trace r;
     drainListeners := drainListeners r;
     readableListener := readableListener r;
     dataListeners := dataListeners r; incoming := incoming r;
     consumed := v |}.

(** The instance. *)
Record CopyStreamQuery := mkCopyStreamQuery {
  rd : Readable;
  wr : Writable;
  world : World
}.

Definition with_rd (f : Readable -> Readable) (s : CopyStreamQuery) :=
  {| rd := f (rd s); wr := wr s; world := world s |}.

Definition with_wr (f : Writable -> Writable) (s : CopyStreamQuery) :=
  {| rd := rd s; wr := f (wr s); world := world s |}.

Definition with_world (f : World -> World) (s : CopyStreamQuery) :=
  {| rd := rd s; wr := wr s; world := f (world s) |}.

Definition emit (e : Event) (s : CopyStreamQuery) : CopyStreamQuery :=
  with_world (fun w => set_trace (trace w ++ [e]) w) s.

Definition consume (b : Buffer) (s : CopyStreamQuery) : CopyStreamQuery :=
  with_world (fun w => set_consumed (consumed w ++ b) w) s.

Section WithEnvironment.
Variable code : MessageFormats.

(** What the outside answers.  [writeReturns k] is the value of the [k]-th
    call of [connection.stream.write] (from 0): [false] is the transport's
    backpressure signal.  [pushReturns k] is the value of the [k]-th
    [this.push(buffer)]: [false] is the consumer's. *)
Variable writeReturns : nat -> bool.
Variable pushReturns : nat -> bool.

(** [new CopyStreamQuery(text, options)]: the constructor ends with
    [this.cork()].  The connection stream starts with the connection's own
    'data' listener. *)
Definition new (options_rowMode : bool) : CopyStreamQuery :=
  {| rd := {| _state := PG_CODE; _buffer := Some [];
              _unreadMessageContentLength := 0; _copyDataChunks := Some [];
              _code := None; _pgDataHandler := false; _drained := false;
              _forwarding := false; rowMode := options_rowMode |};
     wr := {| _gotCopyInResponse := false; chunks := []; cb := None;
              cb_flush := None |};
     world := {| connection := false; trace := [Cork]; drainListeners := [];
                 readableListener := false; dataListeners := 1;
                 incoming := []; consumed := [] |} |}.

(** *** Writable implementation *)

(** [this.connection.stream.write(b)] *)
Definition stream_write (b : Buffer) (s : CopyStreamQuery)
  : Result (bool * CopyStreamQuery) :=
  if connection (world s)
  then Ok (writeReturns (length (sent (trace (world s)))), emit (Write b) s)
  else Throw TypeError.

Definition Int32Len : Z := 4.

Definition flushChunk (chunk : Buffer) (s : CopyStreamQuery)
  : Result (bool * CopyStreamQuery) :=
  let* field := writeUInt32BE (len chunk + Int32Len) in
  let lenBuffer := CopyData code :: field in
  let* (_, s1) := stream_write lenBuffer s in
  stream_write chunk s1.

(** The loop of [flush]: [while (ok && (chunk = this.chunks.shift()))].
    [q] is [this.chunks]. *)
Fixpoint flush_loop (q : list Buffer) (ok : bool) (s : CopyStreamQuery)
  {struct q} : Result (bool * CopyStreamQuery) :=
  if ok then
    match q with
    | [] => Ok (ok, s)
    | chunk :: q' =>
      let* (ok1, s1) := flushChunk chunk (with_wr (set_chunks q') s) in
      flush_loop q' ok1 s1
    end
  else Ok (ok, s).

Definition once_drain (l : DrainListener) (s : CopyStreamQuery) :=
  with_world (fun w => set_drainListeners (drainListeners w ++ [l]) w) s.

(** [flush(callback)]; [None] is a call without argument. *)
Definition flush (callback : option Callback) (s : CopyStreamQuery)
  : Result CopyStreamQuery :=
  let* (ok, s1) := flush_loop (chunks (wr s)) true s in
  match callback with
  | None => Ok s1
  | Some callback =>
    if ok then Ok (emit (Call callback) s1)
    else if Nat.ltb 0 (length (chunks (wr s1)))
         then Ok (once_drain (FlushAgain callback) s1)
         else Ok (once_drain (JustCall callback) s1)
  end.

Definition _write (chunk : Buffer) (cb_ : Callback) (s : CopyStreamQuery)
  : Result CopyStreamQuery :=
  let s1 := with_wr (fun w => set_chunks (chunks w ++ [chunk]) w) s in
  if _gotCopyInResponse (wr s1) then flush (Some cb_) s1
  else Ok (with_wr (set_cb (Some cb_)) s1).

Definition _writev (chunks_ : list Buffer) (cb_ : Callback)
  (s : CopyStreamQuery) : Result CopyStreamQuery :=
  let s1 := with_wr (fun w => set_chunks (chunks w ++ chunks_) w) s in
  if _gotCopyInResponse (wr s1) then flush (Some cb_) s1
  else Ok (with_wr (set_cb (Some cb_)) s1).

Definition finBuffer : Buffer :=
  [CopyDone code; x00; x00; x00; byte.of_Z Int32Len].

Definition _final (cb_ : Callback) (s : CopyStreamQuery)
  : Result CopyStreamQuery :=
  let* s1 := flush None s in
  let* (_, s2) := stream_write finBuffer s1 in
  Ok (with_wr (set_cb_flush (Some cb_)) s2).

Definition _startCopyIn (s : CopyStreamQuery) : Result CopyStreamQuery :=
  let s1 := with_wr (set_gotCopyInResponse true) s in
  let s2 := emit Uncork s1 in
  let* s3 := flush None s2 in
  match cb (wr s3) with
  | Some cb_ => Ok (emit (Call cb_) (with_wr (set_cb None) s3))
  | None => Ok s3
  end.

(** The connection stream emits 'drain': the listeners registered with
    [once] are removed and called, oldest first. *)
Fixpoint call_listeners (ls : list DrainListener) (s : CopyStreamQuery)
  : Result CopyStreamQuery :=
  match ls with
  | [] => Ok s
  | FlushAgain callback :: ls' =>
    let* s1 := flush (Some callback) s in call_listeners ls' s1
  | JustCall callback :: ls' => call_listeners ls' (emit (Call callback) s)
  end.

Definition on_drain (s : CopyStreamQuery) : Result CopyStreamQuery :=
  call_listeners (drainListeners (world s))
    (with_world (set_drainListeners []) s).

Definition handleReadyForQuery (s : CopyStreamQuery)
  : Result CopyStreamQuery :=
  let s1 := with_world (set_connection false) s in
  match cb_flush (wr s1) with
  | Some cb_ => Ok (emit (Call cb_) s1)
  | None => Throw TypeError
  end.

(** *** Readable implementation *)

Definition _detach (s : CopyStreamQuery) : Result CopyStreamQuery :=
  if connection (world s) then
    match _buffer (rd s) with
    | None => Throw TypeError
    | Some b =>
      let unreadBuffer := b in
      let s1 := with_rd (set_buffer (Some [])) s in
      let s2 := with_world (set_readableListener false) s1 in
      let s3 := with_world
                  (fun w => set_dataListeners (S (dataListeners w)) w) s2 in
      if _pgDataHandler (rd s3)
      then Ok (emit ResumeNextTick (emit (HandBack unreadBuffer) s3))
      else Throw TypeError
    end
  else Throw TypeError.

Definition _cleanup (s : CopyStreamQuery) : CopyStreamQuery :=
  with_rd (fun r => set_pgDataHandler false
                      (set_copyDataChunks None (set_buffer None r))) s.

(** [this.push(buffer)] *)
Definition push (b : Buffer) (s : CopyStreamQuery) : bool * CopyStreamQuery :=
  (pushReturns (length (pushed (trace (world s)))), emit (Push b) s).

Definition _flushCopyData (s : CopyStreamQuery)
  : Result (bool * CopyStreamQuery) :=
  match _copyDataChunks (rd s) with
  | None => Throw TypeError
  | Some cd =>
    if 0 <? len cd
    then Ok (push cd (with_rd (set_copyDataChunks (Some [])) s))
    else Ok (true, s)
  end.

(** [this._code === code.X] *)
Definition code_is (c : option byte) (x : byte) : bool :=
  match c with
  | Some c => is_code c x
  | None => false
  end.

(** One pass of the [while] loop of [_parse] is three [if] blocks in a row.
    A block lets control go on ([Next]), leaves the loop ([Break]) or leaves
    the function ([Return]). *)
Inductive Step :=
| Next (s : CopyStreamQuery)
| Break (s : CopyStreamQuery)
| Return (s : CopyStreamQuery).

(** [if (PG_CODE === this._state) { .. }] *)
Definition block_code (s : CopyStreamQuery) : Result Step :=
  if DecoderState_eqb PG_CODE (_state (rd s)) then
    match _buffer (rd s) with
    | None => Throw TypeError
    | Some [] => Ok (Break s)
    | Some (c :: b) =>
      let s1 := with_rd (set_code (Some c)) s in
      if is_code c (ErrorResponse code) then
        (* ErrorResponse Interception *)
        let* s2 := _detach s1 in Ok (Return s2)
      else
        Ok (Next (consume [c]
                    (with_rd (fun r => set_state PG_LENGTH
                                         (set_buffer (Some b) r)) s1)))
    end
  else Ok (Next s).

(** [if (PG_LENGTH === this._state) { .. }] *)
Definition block_length (s : CopyStreamQuery) : Result Step :=
  if DecoderState_eqb PG_LENGTH (_state (rd s)) then
    match _buffer (rd s) with
    | None => Throw TypeError
    | Some (b0 :: b1 :: b2 :: b3 :: b) =>
      Ok (Next (consume [b0; b1; b2; b3]
                  (with_rd (fun r =>
                     set_state PG_MESSAGE
                       (set_unreadMessageContentLength (be32 b0 b1 b2 b3 - 4)
                          (set_buffer (Some b) r))) s)))
    | Some _ => Ok (Break s)
    end
  else Ok (Next s).

(** The first [if] of the PG_MESSAGE block: take what is there of the
    message content. *)
Definition take_content (s : CopyStreamQuery) : Result CopyStreamQuery :=
  match _buffer (rd s) with
  | None => Throw TypeError
  | Some b =>
    if (0 <? _unreadMessageContentLength (rd s)) && (0 <? len b) then
      let n := Z.min (len b) (_unreadMessageContentLength (rd s)) in
      let messageContentChunk := firstn (Z.to_nat n) b in
      let s1 := consume messageContentChunk
                  (with_rd (fun r =>
                     set_unreadMessageContentLength
                       (_unreadMessageContentLength r - n)
                       (set_buffer (Some (skipn (Z.to_nat n) b)) r)) s) in
      if code_is (_code (rd s1)) (CopyData code) then
        match _copyDataChunks (rd s1) with
        | None => Throw TypeError
        | Some cd =>
          Ok (with_rd (set_copyDataChunks (Some (cd ++ messageContentChunk)))
                s1)
        end
      else Ok s1
    else Ok s
  end.

(** The [switch (this._code)] on a full message.  The result says what
    the [switch] did to the locals of [_parse]: whether [done = true] was
    executed, and the value assigned to [drained], if any. *)
Definition switch (s : CopyStreamQuery)
  : Result (bool * option bool * CopyStreamQuery) :=
  let c := _code (rd s) in
  if code_is c (CopyBothResponse code) then
    let* s1 := _startCopyIn s in Ok (false, None, s1)
  else if code_is c (CopyData code) then
    if rowMode (rd s)
    then let* (drained, s1) := _flushCopyData s in Ok (false, Some drained, s1)
    else Ok (false, None, s)
  else if code_is c (ParameterStatus code)
       || code_is c (NoticeResponse code)
       || code_is c (NotificationResponse code) then
    Ok (false, None, s)
  else
    (* case code.CopyDone: default: *)
    Ok (true, None, s).

(** [if (PG_MESSAGE === this._state) { .. }] *)
Definition block_message (s : CopyStreamQuery)
  : Result (bool * option bool * CopyStreamQuery) :=
  if DecoderState_eqb PG_MESSAGE (_state (rd s)) then
    let* s1 := take_content s in
    if _unreadMessageContentLength (rd s1) =? 0 then
      (* a full message has been captured *)
      let* (done, drained, s2) := switch s1 in
      Ok (done, drained, with_rd (set_state PG_CODE) s2)
    else Ok (false, None, s1)
  else Ok (false, None, s).

(** One pass of the loop body: the loop is left by [break] ([Broke]) or
    the function by [return] ([Left]), or the pass runs to its end
    ([Again], with what it did to [done] and [drained]). *)
Inductive Pass :=
| Again (done : bool) (drained : option bool) (s : CopyStreamQuery)
| Broke (s : CopyStreamQuery)
| Left (s : CopyStreamQuery).

Definition body (s : CopyStreamQuery) : Result Pass :=
  let* r1 := block_code s in
  match r1 with
  | Break s1 => Ok (Broke s1)
  | Return s1 => Ok (Left s1)
  | Next s1 =>
    let* r2 := block_length s1 in
    match r2 with
    | Break s2 => Ok (Broke s2)
    | Return s2 => Ok (Left s2)
    | Next s2 =>
      let* (done, drained, s3) := block_message s2 in
      Ok (Again done drained s3)
    end
  end.

(** How the [while] loop of [_parse] is left. *)
Inductive LoopExit :=
| Exited (done drained : bool) (s : CopyStreamQuery)
| Returned (s : CopyStreamQuery).

Definition assigned (v : option bool) (old : bool) : bool :=
  match v with
  | Some b => b
  | None => old
  end.

(** [while (!done && this._buffer.size > 0) { .. }]; one unit of fuel per
    pass. *)
Fixpoint parse_loop (fuel : nat) (done drained : bool) (s : CopyStreamQuery)
  : Result LoopExit :=
  match fuel with
  | O => Diverge
  | S fuel' =>
    if done then Ok (Exited done drained s)
    else
      match _buffer (rd s) with
      | None => Throw TypeError
      | Some b =>
        if 0 <? len b then
          let* r := body s in
          match r with
          | Broke s1 => Ok (Exited done drained s1)
          | Left s1 => Ok (Returned s1)
          | Again done1 drained1 s1 =>
            parse_loop fuel' done1 (assigned drained1 drained) s1
          end
        else Ok (Exited done drained s)
      end
  end.

(** [_parse(chunk)] with the loop given [fuel] passes: the result is the
    returned value ([None] is [undefined]) and the instance. *)
Definition parse_with (fuel : nat) (chunk : Buffer) (s : CopyStreamQuery)
  : Result (option bool * CopyStreamQuery) :=
  match _buffer (rd s) with
  | None => Throw TypeError
  | Some b =>
    let s0 := with_rd (set_buffer (Some (b ++ chunk))) s in
    let* exit := parse_loop fuel false true s0 in
    match exit with
    | Returned s1 => Ok (None, s1)
    | Exited done drained s1 =>
      (* When we are not in rowMode, copyData payload is not buffered *)
      let* (drained1, s2) :=
        if negb (rowMode (rd s1)) then _flushCopyData s1
        else Ok (drained, s1) in
      if done then
        let* s3 := _detach s2 in
        Ok (Some drained1, _cleanup (emit PushNull s3))
      else Ok (Some drained1, s2)
    end
  end.

(** [_parse(chunk)].  A pass that goes on takes at least a byte out of
    [_buffer], unless it starts on a message whose content is complete
    already (then the next one does) or changes nothing at all (then the
    loop never ends).  So the loop is over within [_buffer.size + 2] passes
    or it is endless: see [CopyBothFacts.parse_loop_more_fuel] and
    [CopyBothFacts.parse_diverges_forever]. *)
Definition _parse (chunk : Buffer) (s : CopyStreamQuery)
  : Result (option bool * CopyStreamQuery) :=
  match _buffer (rd s) with
  | None => Throw TypeError
  | Some b => parse_with (2 + length (b ++ chunk)) chunk s
  end.

Definition truthy (v : option bool) : bool :=
  match v with
  | Some b => b
  | None => false
  end.

(** The loop of [_forward]:
    [while (this._drained && (chunk = connectionStream.read()) !== null)].
    [q] is what the connection stream has to read. *)
Fixpoint forward_loop (q : list Buffer) (s : CopyStreamQuery)
  {struct q} : Result CopyStreamQuery :=
  if _drained (rd s) then
    match q with
    | [] => Ok s
    | chunk :: q' =>
      let* (drained, s1) :=
        _parse chunk (with_world (set_incoming q') s) in
      forward_loop q' (with_rd (set_drained (truthy drained)) s1)
    end
  else Ok s.

Definition _forward (s : CopyStreamQuery) : Result CopyStreamQuery :=
  if _forwarding (rd s) || negb (_drained (rd s))
     || negb (connection (world s))
  then Ok s
  else
    let s1 := with_rd (set_forwarding true) s in
    let* s2 := forward_loop (incoming (world s1)) s1 in
    Ok (with_rd (set_forwarding false) s2).

Definition _onReadable (s : CopyStreamQuery) : Result CopyStreamQuery :=
  _forward s.

Definition _read (s : CopyStreamQuery) : Result CopyStreamQuery :=
  _forward (with_rd (set_drained true) s).

Definition _attach (s : CopyStreamQuery) : Result CopyStreamQuery :=
  if connection (world s) then
    if Nat.eqb (dataListeners (world s)) 1 then
      let s1 := with_rd (set_pgDataHandler true) s in
      let s2 := with_world (set_dataListeners 0) s1 in
      let s3 := emit Pause s2 in
      let* s4 := _forward s3 in
      Ok (with_world (set_readableListener true) s4)
    else Throw AssertionError
  else Throw TypeError.

Definition submit (s : CopyStreamQuery) : Result CopyStreamQuery :=
  let* s1 := _attach (with_world (set_connection true) s) in
  Ok (emit Query s1).

(** The decoder is fed for as long as it is attached: [_detach] removes
    the 'readable' listener. *)
Fixpoint feed (chunks_ : list Buffer) (s : CopyStreamQuery)
  : Result CopyStreamQuery :=
  match chunks_ with
  | [] => Ok s
  | chunk :: rest =>
    if readableListener (world s)
    then let* (_, s1) := _parse chunk s in feed rest s1
    else Ok s
  end.

(** A transfer: construction, [submit], then the chunks. *)
Definition run (options_rowMode : bool) (chunks_ : list Buffer)
  : Result CopyStreamQuery :=
  let* s := submit (new options_rowMode) in feed chunks_ s.

(** How the decoder reads a code byte: the ErrorResponse test of the
    PG_CODE block, then the cases of the [switch], in their order. *)
Inductive Kind := Start | Data | Info | Error_ | End_.

Definition classify (c : byte) : Kind :=
  if is_code c (ErrorResponse code) then Error_
  else if is_code c (CopyBothResponse code) then Start
  else if is_code c (CopyData code) then Data
  else if is_code c (ParameterStatus code)
          || is_code c (NoticeResponse code)
          || is_code c (NotificationResponse code) then Info
  else End_.

(** *** The calls from outside

    The [Duplex] base class and the connection call into the instance:
    writes and the end of input from the [Writable] half, chunks from the
    connection stream, 'drain' from the connection stream. *)
Inductive Op :=
| DoWrite (chunk : Buffer) (cb_ : Callback)          (* _write(chunk, enc, cb) *)
| DoWritev (chunks_ : list Buffer) (cb_ : Callback)  (* _writev(chunks, cb) *)
| DoFinal (cb_ : Callback)                           (* _final(cb) *)
| DoParse (chunk : Buffer)                           (* _parse(chunk) *)
| DoDrain.                                           (* 'drain' *)

Definition step (o : Op) (s : CopyStreamQuery) : Result CopyStreamQuery :=
  match o with
  | DoWrite chunk cb_ => _write chunk cb_ s
  | DoWritev chunks_ cb_ => _writev chunks_ cb_ s
  | DoFinal cb_ => _final cb_ s
  | DoParse chunk => let* (_, s1) := _parse chunk s in Ok s1
  | DoDrain => on_drain s
  end.

Fixpoint steps (os : list Op) (s : CopyStreamQuery) : Result CopyStreamQuery :=
  match os with
  | [] => Ok s
  | o :: os' => let* s1 := step o s in steps os' s1
  end.

(** The contract of [Writable]: [_write] and [_writev] are called one at a
    time, and [_final] once the callback of every write has been called.
    The instance holds a write callback that it has not called yet in
    [this.cb] or in a 'drain' listener. *)
Definition pending (s : CopyStreamQuery) : bool :=
  match cb (wr s), drainListeners (world s) with
  | None, [] => false
  | _, _ => true
  end.

Definition permitted (o : Op) (s : CopyStreamQuery) : bool :=
  match o with
  | DoWrite _ _ | DoWritev _ _ | DoFinal _ => negb (pending s)
  | DoParse _ | DoDrain => true
  end.

Fixpoint respects (os : list Op) (s : CopyStreamQuery) : bool :=
  match os with
  | [] => true
  | o :: os' =>
    permitted o s
    && match step o s with
       | Ok s1 => respects os' s1
       | _ => true
       end
  end.

End WithEnvironment.
End CopyBoth.

(** * Facts *)

(** ** The length field *)
Module WireFacts.
Import Wire.

Lemma len_app (a b : Buffer) : len (a ++ b) = len a + len b.
Proof. unfold len. rewrite length_app. lia. Qed.

Lemma len_nonneg (b : Buffer) : 0 <= len b.
Proof. unfold len. lia. Qed.

Lemma len_cons (x : byte) (b : Buffer) : len (x :: b) = 1 + len b.
Proof. unfold len. cbn [length]. lia. Qed.

Lemma be32_range b0 b1 b2 b3 : 0 <= be32 b0 b1 b2 b3 < 2 ^ 32.
Proof.
  unfold be32.
  pose proof (byte.unsigned_range b0). pose proof (byte.unsigned_range b1).
  pose proof (byte.unsigned_range b2). pose proof (byte.unsigned_range b3).
  lia.
Qed.

(** Reading back what [writeUInt32BE] stored. *)
Lemma be32_encode (v : Z) :
  0 <= v < 2 ^ 32 ->
  be32 (byte.of_Z (v / 2 ^ 24)) (byte.of_Z (v / 2 ^ 16))
       (byte.of_Z (v / 2 ^ 8)) (byte.of_Z v) = v.
Proof.
  intros Hv. unfold be32. rewrite !byte.unsigned_of_Z. unfold byte.wrap.
  change (2 ^ 8) with 256. change (2 ^ 16) with 65536.
  change (2 ^ 24) with 16777216. change (2 ^ 32) with 4294967296 in Hv.
  Z.div_mod_to_equations. lia.
Qed.

Lemma firstn_app_le {A} (n : nat) (x y : list A) :
  (n <= length x)%nat -> firstn n (x ++ y) = firstn n x.
Proof.
  intros H. rewrite firstn_app. replace (n - length x)%nat with 0%nat by lia.
  cbn [firstn]. apply app_nil_r.
Qed.

Lemma skipn_app_le {A} (n : nat) (x y : list A) :
  (n <= length x)%nat -> skipn n (x ++ y) = skipn n x ++ y.
Proof.
  intros H. rewrite skipn_app. replace (n - length x)%nat with 0%nat by lia.
  reflexivity.
Qed.

Lemma firstn_app_ge {A} (n : nat) (x y : list A) :
  firstn (length x + n) (x ++ y) = x ++ firstn n y.
Proof. apply firstn_app_2. Qed.

Lemma skipn_app_ge {A} (n : nat) (x y : list A) :
  skipn (length x + n) (x ++ y) = skipn n y.
Proof.
  rewrite skipn_app. rewrite skipn_all2 by lia.
  replace (length x + n - length x)%nat with n by lia. reflexivity.
Qed.

Lemma nodupb_NoDup l : nodupb l = true -> NoDup l.
Proof.
  induction l as [|x l IH]; cbn [nodupb]; intros H; constructor.
  - apply andb_prop in H. destruct H as [H _].
    apply negb_true_iff in H. intros Hin.
    assert (existsb (Byte.eqb x) l = true); [|congruence].
    apply existsb_exists. exists x. split; [exact Hin|].
    apply Byte.byte_dec_lb. reflexivity.
  - apply IH. apply andb_prop in H. tauto.
Qed.

(** Two different entries of a table of distinct codes differ. *)
Lemma codes_differ code (i j : nat) :
  distinct code = true -> (i < 9)%nat -> (j < 9)%nat -> i <> j ->
  is_code (nth i (codes code) x00) (nth j (codes code) x00) = false.
Proof.
  intros H Hi Hj Hij. apply nodupb_NoDup in H.
  destruct (is_code _ _) eqn:E; [|reflexivity].
  apply Byte.byte_dec_bl in E.
  rewrite (NoDup_nth _ x00) in H. elim Hij. apply (H i j); assumption.
Qed.

(** Rewrites with the difference of the [i]-th and the [j]-th code. *)
Ltac differ Hd i j :=
  let H := fresh in
  pose proof (codes_differ _ i j Hd) as H; cbn [nth codes] in H;
  rewrite H by lia; clear H.

Lemma is_code_eq x y : is_code x y = true -> x = y.
Proof. apply Byte.byte_dec_bl. Qed.

Lemma is_code_refl x : is_code x x = true.
Proof. apply Byte.byte_dec_lb. reflexivity. Qed.

Lemma len_header f : len (header f) = 5.
Proof. reflexivity. Qed.

Lemma len_encode f : len (encode f) = 5 + len (payload f).
Proof. unfold encode. rewrite len_app, len_header. reflexivity. Qed.

End WireFacts.

(** ** copy-to.js *)
Module CopyToFacts.
Import Wire WireFacts CopyTo.

Lemma skipn_pre (pre x : Buffer) : skipn (Z.to_nat (len pre)) (pre ++ x) = x.
Proof.
  unfold len. rewrite Nat2Z.id.
  replace (length pre) with (length pre + 0)%nat by lia.
  apply skipn_app_ge.
Qed.

Lemma slice_mid (pre x post : Buffer) (e : Z) :
  e = len pre + len x -> slice (pre ++ x ++ post) (len pre) e = x.
Proof.
  intros ->. unfold slice. rewrite skipn_pre.
  replace (len pre + len x - len pre) with (len x) by lia.
  unfold len. rewrite Nat2Z.id.
  replace (length x) with (length x + 0)%nat at 1 by lia.
  rewrite firstn_app_ge. cbn [firstn]. apply app_nil_r.
Qed.

Lemma at_mid (pre : Buffer) (c : byte) (post : Buffer) :
  at_ (pre ++ c :: post) (len pre) = c.
Proof. unfold at_, len. rewrite Nat2Z.id. apply nth_middle. Qed.

Lemma readUInt32BE_range b off : 0 <= readUInt32BE b off < 2 ^ 32.
Proof.
  unfold readUInt32BE.
  destruct (skipn _ b) as [|b0 [|b1 [|b2 [|b3 r]]]]; try (cbn; lia).
  apply be32_range.
Qed.

Lemma readUInt32BE_mid (pre : Buffer) (v : Z) (post : Buffer) :
  0 <= v < 2 ^ 32 ->
  readUInt32BE (pre ++ encodeUInt32BE v ++ post) (len pre) = v.
Proof.
  intros Hv. unfold readUInt32BE. rewrite skipn_pre.
  cbn [encodeUInt32BE app]. apply be32_encode, Hv.
Qed.

Section WithCodes.
Variable code : MessageFormats.

Local Abbreviation switch := (switch code).
Local Abbreviation transform_loop := (transform_loop code).
Local Abbreviation _transform := (_transform code).
Local Abbreviation feed := (feed code).
Local Abbreviation run := (run code).

(** *** The cases of the [switch] *)

(** The codes that have a [case] of their own. *)
Definition recognized (c : byte) : bool :=
  is_code c (CopyOutResponse code) || is_code c (CopyData code)
  || is_code c (ParameterStatus code) || is_code c (NoticeResponse code)
  || is_code c (NotificationResponse code)
  || is_code c (ErrorResponse code) || is_code c (CopyDone code).

Lemma switch_CopyOutResponse_first cb l s :
  _gotCopyOutResponse s = false ->
  switch (CopyOutResponse code) cb l s
  = Break_ l (set_gotCopyOutResponse true s).
Proof.
  intros H. unfold CopyTo.switch. rewrite is_code_refl, H. reflexivity.
Qed.

Lemma switch_CopyOutResponse_again cb l s :
  _gotCopyOutResponse s = true ->
  switch (CopyOutResponse code) cb l s
  = Break_ l (emit (EmitError UnexpectedCopyOutResponse) s).
Proof.
  intros H. unfold CopyTo.switch. rewrite is_code_refl, H. reflexivity.
Qed.

Lemma switch_default c cb l s :
  recognized c = false ->
  switch c cb l s = Break_ l (emit (EmitError (UnexpectedMessage c)) s).
Proof.
  unfold recognized, CopyTo.switch. intros H.
  repeat (apply orb_false_elim in H; destruct H as [H ?]).
  repeat match goal with E : is_code _ _ = false |- _ => rewrite E; clear E end.
  reflexivity.
Qed.

Lemma switch_ErrorResponse cb l s :
  distinct code = true ->
  switch (ErrorResponse code) cb l s
  = Return_ (emit (Call cb)
               (emit PushNull (_detach (snd (pushBufferIfneeded l s))))).
Proof.
  intros Hd. unfold CopyTo.switch.
  differ Hd 0%nat 2%nat. differ Hd 0%nat 5%nat. differ Hd 0%nat 8%nat.
  differ Hd 0%nat 7%nat. differ Hd 0%nat 6%nat.
  rewrite is_code_refl. cbn [orb].
  destruct (pushBufferIfneeded l s). reflexivity.
Qed.

Lemma switch_offset c cb l s l1 s1 :
  switch c cb l s = Break_ l1 s1 -> offset l1 = offset l.
Proof.
  unfold CopyTo.switch.
  repeat match goal with
         | |- context [if ?b then _ else _] => destruct b
         | |- context [let (_, _) := ?p in _] => destruct p
         end; intros [= <- _] || discriminate; reflexivity.
Qed.

(** *** [_transform] returns *)

Lemma transform_loop_total fuel : forall chunk cb l s,
  (Z.to_nat (len chunk - offset l) < fuel)%nat ->
  exists e, transform_loop fuel chunk cb l s = Ok e.
Proof.
  induction fuel as [|fuel IH]; intros chunk cb l s Hm; [lia|].
  cbn [CopyTo.transform_loop].
  destruct (len chunk - offset l >=? Byte1Len + Int32Len) eqn:E;
    [|eexists; reflexivity].
  destruct (switch _ cb l s) as [s1|l1 s1] eqn:Es; [eexists; reflexivity|].
  apply switch_offset in Es.
  pose proof (readUInt32BE_range chunk (offset l1 + Byte1Len)) as Hr.
  destruct (len chunk >=? _) eqn:E2; [|eexists; reflexivity].
  unfold Byte1Len, Int32Len in *.
  apply Z.geb_le in E, E2.
  destruct (needPush l1); apply IH; cbn [offset]; lia.
Qed.

Lemma transform_total chunk cb s : exists s', _transform chunk cb s = Ok s'.
Proof.
  unfold CopyTo._transform.
  set (c := match _remainder s with Some r => r ++ chunk | None => chunk end).
  destruct (transform_loop_total (S (length c)) c cb (mkLocals 0 false []) s)
    as (e & ->).
  { cbn [offset]. unfold len. lia. }
  cbn [bind]. destruct e as [s1|l s1]; [eexists; reflexivity|].
  destruct (pushBufferIfneeded l s1). eexists; reflexivity.
Qed.

(** *** Whole frames

    A pass of the loop over a whole, well-formed frame at [offset]: the
    [switch] on its code, then the step over it. *)
Definition over (f : Frame) (l1 : Locals) (s1 : CopyStreamQuery)
  : Locals * CopyStreamQuery :=
  if needPush l1
  then (mkLocals (offset l1 + len (encode f)) true (buffer l1 ++ payload f),
        set_rowCount (rowCount s1 + 1) (consume (encode f) s1))
  else (mkLocals (offset l1 + len (encode f)) false (buffer l1),
        consume (encode f) s1).

Lemma transform_frame fuel pre f post cb l s :
  wf_frame f -> offset l = len pre ->
  transform_loop (S fuel) (pre ++ encode f ++ post) cb l s
  = match switch (fcode f) cb l s with
    | Return_ s1 => Ok (Returned s1)
    | Break_ l1 s1 =>
      let (l2, s2) := over f l1 s1 in
      transform_loop fuel (pre ++ encode f ++ post) cb l2 s2
    end.
Proof.
  intros [Hdl Hlt] Ho. pose proof (len_nonneg (payload f)) as Hpl.
  pose proof (len_nonneg post) as Hpost.
  cbn [CopyTo.transform_loop].
  assert (Hlen : len (pre ++ encode f ++ post)
                 = len pre + 5 + len (payload f) + len post).
  { rewrite !len_app, len_encode. lia. }
  rewrite Hlen, Ho. unfold Byte1Len, Int32Len.
  replace (len pre + 5 + len (payload f) + len post - len pre >=? 1 + 4)
    with true by (symmetry; apply Z.geb_le; lia).
  replace (at_ (pre ++ encode f ++ post) (len pre)) with (fcode f)
    by (symmetry; apply at_mid).
  destruct (switch (fcode f) cb l s) as [s1|l1 s1] eqn:Es; [reflexivity|].
  apply switch_offset in Es. rewrite Es, Ho.
  assert (Hread : readUInt32BE (pre ++ encode f ++ post) (len pre + 1)
                  = declaredLength f).
  { replace (pre ++ encode f ++ post)
      with ((pre ++ [fcode f]) ++ encodeUInt32BE (declaredLength f)
            ++ (payload f ++ post))
      by (unfold encode, header; rewrite <- !app_assoc; reflexivity).
    replace (len pre + 1) with (len (pre ++ [fcode f]))
      by (rewrite len_app; reflexivity).
    apply readUInt32BE_mid. lia. }
  rewrite Hread.
  replace (len pre + 5 + len (payload f) + len post
           >=? len pre + 1 + declaredLength f)
    with true by (symmetry; apply Z.geb_le; lia).
  assert (Hrow : slice (pre ++ encode f ++ post) (len pre + (1 + 4))
                   (len pre + (1 + 4) + declaredLength f - 4)
                 = payload f).
  { replace (pre ++ encode f ++ post)
      with ((pre ++ header f) ++ payload f ++ post)
      by (unfold encode; rewrite <- !app_assoc; reflexivity).
    replace (len pre + (1 + 4)) with (len (pre ++ header f))
      by (rewrite len_app, len_header; lia).
    apply slice_mid. lia. }
  assert (Hall : slice (pre ++ encode f ++ post) (len pre)
                   (len pre + (1 + 4) + (declaredLength f - 4))
                 = encode f).
  { apply slice_mid. rewrite len_encode. lia. }
  rewrite Hrow, Hall. unfold over. rewrite Es, Ho, len_encode.
  replace (len pre + (1 + 4) + (declaredLength f - 4))
    with (len pre + (5 + len (payload f))) by lia.
  destruct (needPush l1); reflexivity.
Qed.

(** The loop over a run of whole frames. *)
Fixpoint frames_loop (fs : list Frame) (cb : Callback) (l : Locals)
  (s : CopyStreamQuery) : LoopExit :=
  match fs with
  | [] => Fell l s
  | f :: fs' =>
    match switch (fcode f) cb l s with
    | Return_ s1 => Returned s1
    | Break_ l1 s1 => let (l2, s2) := over f l1 s1 in frames_loop fs' cb l2 s2
    end
  end.

Lemma over_offset f l1 s1 :
  offset (fst (over f l1 s1)) = offset l1 + len (encode f).
Proof. unfold over. destruct (needPush l1); reflexivity. Qed.

Lemma transform_loop_frames fs : forall fuel pre tail cb l s,
  Forall wf_frame fs -> offset l = len pre -> len tail < 5 ->
  (length fs < fuel)%nat ->
  transform_loop fuel (pre ++ encode_all fs ++ tail) cb l s
  = Ok (frames_loop fs cb l s).
Proof.
  induction fs as [|f fs IH]; intros fuel pre tail cb l s Hwf Ho Ht Hfuel.
  - destruct fuel as [|fuel]; [cbn in Hfuel; lia|].
    cbn [encode_all flat_map app CopyTo.transform_loop frames_loop].
    rewrite len_app, Ho. unfold Byte1Len, Int32Len.
    replace (len pre + len tail - len pre >=? 1 + 4) with false; [reflexivity|].
    symmetry. destruct (_ >=? _) eqn:E; [apply Z.geb_le in E; lia|reflexivity].
  - destruct fuel as [|fuel]; [cbn in Hfuel; lia|].
    inversion Hwf as [|? ? Hwf1 Hwf2]; subst.
    cbn [encode_all flat_map frames_loop]. fold (encode_all fs).
    rewrite <- app_assoc.
    rewrite (transform_frame fuel pre f (encode_all fs ++ tail) cb l s Hwf1 Ho).
    destruct (switch (fcode f) cb l s) as [s1|l1 s1] eqn:Es; [reflexivity|].
    pose proof (over_offset f l1 s1) as Hov.
    destruct (over f l1 s1) as [l2 s2]. cbn [fst] in Hov.
    apply switch_offset in Es.
    replace (pre ++ encode f ++ encode_all fs ++ tail)
      with ((pre ++ encode f) ++ encode_all fs ++ tail)
      by (rewrite <- app_assoc; reflexivity).
    apply IH; [exact Hwf2| |exact Ht|cbn [length] in Hfuel; lia].
    rewrite Hov, Es, Ho, len_app. reflexivity.
Qed.

(** The end of [_transform] after the loop. *)
Definition finish (chunk : Buffer) (cb : Callback) (exit : LoopExit)
  : CopyStreamQuery :=
  match exit with
  | Returned s1 => s1
  | Fell l s1 =>
    let (l2, s2) := pushBufferIfneeded l s1 in
    emit (Call cb)
      (if len chunk - offset l2 =? 0 then set_remainder None s2
       else set_remainder (Some (slice chunk (offset l2) (len chunk))) s2)
  end.

(** [_transform] on a chunk of whole frames, nothing being left over from
    the call before. *)
Lemma transform_frames fs cb s :
  _remainder s = None -> Forall wf_frame fs ->
  _transform (encode_all fs) cb s
  = Ok (finish (encode_all fs) cb (frames_loop fs cb (mkLocals 0 false []) s)).
Proof.
  intros Hr Hwf. unfold CopyTo._transform. rewrite Hr.
  pose proof (transform_loop_frames fs (S (length (encode_all fs))) [] [] cb
                (mkLocals 0 false []) s Hwf eq_refl) as H.
  cbn [app] in H. rewrite app_nil_r in H. rewrite H.
  - destruct (frames_loop _ _ _ _) as [s1|l s1]; cbn [bind finish];
      [reflexivity|].
    destruct (pushBufferIfneeded l s1). reflexivity.
  - cbn. lia.
  - clear. induction fs as [|f fs IH]; cbn [length encode_all flat_map]; [lia|].
    rewrite length_app. fold (encode_all fs).
    assert (5 <= length (encode f))%nat by (cbn; lia). lia.
Qed.

(** *** What a call adds to the trace

    [later s s']: the trace of [s'] is the trace of [s] with more calls
    behind it, none of them handing bytes to the connection's parser. *)
Definition later (s s' : CopyStreamQuery) : Prop :=
  exists t, events s' = events s ++ t /\ handedBack t = [].

Lemma later_refl s : later s s.
Proof. exists []. split; [symmetry; apply app_nil_r|reflexivity]. Qed.

Lemma later_same s s' : events s' = events s -> later s s'.
Proof.
  intros E. exists []. split; [rewrite E; symmetry; apply app_nil_r|reflexivity].
Qed.

Lemma later_trans s s1 s2 : later s s1 -> later s1 s2 -> later s s2.
Proof.
  intros (t1 & E1 & H1) (t2 & E2 & H2). exists (t1 ++ t2). split.
  - rewrite E2, E1, app_assoc. reflexivity.
  - unfold handedBack in *. rewrite flat_map_app, H1, H2. reflexivity.
Qed.

Lemma later_emit e s :
  handedBack [e] = [] -> later s (emit e s).
Proof. intros H. exists [e]. split; [reflexivity|exact H]. Qed.

Lemma later_handedBack s s' :
  later s s' -> handedBack (events s') = handedBack (events s).
Proof.
  intros (t & -> & H). unfold handedBack in *.
  rewrite flat_map_app, H. apply app_nil_r.
Qed.

Lemma later_errors s s' e :
  later s s' -> In e (errors (events s)) -> In e (errors (events s')).
Proof.
  intros (t & -> & _) H. unfold errors in *. rewrite flat_map_app.
  apply in_or_app. left. exact H.
Qed.

Lemma pushBufferIfneeded_later l s :
  later s (snd (pushBufferIfneeded l s)).
Proof.
  unfold pushBufferIfneeded. destruct (_ && _); cbn [snd];
    [apply later_emit; reflexivity|apply later_refl].
Qed.

Lemma detach_later s : later s (_detach s).
Proof.
  exists [Unpipe; ResumeNextTick]. split; [|reflexivity].
  unfold _detach. cbn [events emit set_piped]. rewrite <- app_assoc.
  reflexivity.
Qed.

Definition switch_state (r : Switch) : CopyStreamQuery :=
  match r with
  | Return_ s => s
  | Break_ _ s => s
  end.

Lemma switch_later c cb l s : later s (switch_state (switch c cb l s)).
Proof.
  unfold CopyTo.switch.
  destruct (is_code c (CopyOutResponse code)).
  { destruct (negb _); cbn [switch_state];
      [apply later_same; reflexivity|apply later_emit; reflexivity]. }
  destruct (is_code c (CopyData code)); [apply later_same; reflexivity|].
  destruct (_ || _); [apply later_refl|].
  destruct (_ || _); [|apply later_emit; reflexivity].
  pose proof (pushBufferIfneeded_later l s) as H.
  destruct (pushBufferIfneeded l s) as [l1 s1]. cbn [snd switch_state] in *.
  eapply later_trans; [exact H|].
  eapply later_trans; [apply detach_later|].
  eapply later_trans; apply later_emit; reflexivity.
Qed.

Lemma over_later f l1 s1 : later s1 (snd (over f l1 s1)).
Proof.
  unfold over. destruct (needPush l1); cbn [snd];
    exists []; (split; [symmetry; apply app_nil_r|reflexivity]).
Qed.

Definition exit_state (e : LoopExit) : CopyStreamQuery :=
  match e with
  | Returned s => s
  | Fell _ s => s
  end.

Lemma transform_loop_later fuel : forall chunk cb l s e,
  transform_loop fuel chunk cb l s = Ok e -> later s (exit_state e).
Proof.
  induction fuel as [|fuel IH]; intros chunk cb l s e; [discriminate|].
  cbn [CopyTo.transform_loop].
  destruct (_ >=? _); [|intros [= <-]; apply later_refl].
  pose proof (switch_later (at_ chunk (offset l)) cb l s) as Hs.
  destruct (switch _ cb l s) as [s1|l1 s1]; cbn [switch_state] in Hs;
    [intros [= <-]; exact Hs|].
  destruct (_ >=? _); [|intros [= <-]; exact Hs].
  destruct (needPush l1); intros H; apply IH in H;
    (eapply later_trans; [exact Hs|]);
    (eapply later_trans; [|exact H]);
    exists []; (split; [symmetry; apply app_nil_r|reflexivity]).
Qed.

(** A call of [_transform] hands nothing to the connection's parser. *)
Lemma transform_later chunk cb s s' :
  _transform chunk cb s = Ok s' -> later s s'.
Proof.
  unfold CopyTo._transform.
  destruct (transform_loop _ _ cb _ s) as [e| |] eqn:E; cbn [bind];
    try discriminate.
  apply transform_loop_later in E.
  destruct e as [s1|l s1]; cbn [exit_state] in E; [intros [= <-]; exact E|].
  pose proof (pushBufferIfneeded_later l s1) as Hp.
  destruct (pushBufferIfneeded l s1) as [l2 s2]. cbn [snd] in Hp.
  intros [= <-]. eapply later_trans; [exact E|].
  eapply later_trans; [exact Hp|].
  destruct (_ =? 0); exists [Call cb]; (split; [reflexivity|reflexivity]).
Qed.

Lemma feed_later cs : forall s s', feed cs s = Ok s' -> later s s'.
Proof.
  induction cs as [|c cs IH]; intros s s'; cbn [CopyTo.feed].
  - intros [= <-]. apply later_refl.
  - destruct (piped s); [|intros [= <-]; apply later_refl].
    destruct (_transform c 0%nat s) as [s1| |] eqn:E; cbn [bind];
      try discriminate.
    intros H. eapply later_trans; [eapply transform_later, E|].
    apply IH, H.
Qed.

Lemma feed_total cs : forall s, exists s', feed cs s = Ok s'.
Proof.
  induction cs as [|c cs IH]; intros s; cbn [CopyTo.feed];
    [eexists; reflexivity|].
  destruct (piped s); [|eexists; reflexivity].
  destruct (transform_total c 0%nat s) as (s1 & ->). cbn [bind].
  apply IH.
Qed.

(** *** Frames that leave the transfer going on *)
Definition goes_on (f : Frame) : bool :=
  negb (is_code (fcode f) (ErrorResponse code)
        || is_code (fcode f) (CopyDone code)).

Lemma switch_goes_on f cb l s :
  goes_on f = true ->
  exists l1 s1,
    switch (fcode f) cb l s = Break_ l1 s1
    /\ _gotCopyOutResponse s1
       = _gotCopyOutResponse s || is_code (fcode f) (CopyOutResponse code)
    /\ consumed s1 = consumed s /\ piped s1 = piped s
    /\ _remainder s1 = _remainder s.
Proof.
  unfold goes_on, CopyTo.switch. intros H. apply negb_true_iff in H.
  rewrite H. clear H.
  destruct (is_code (fcode f) (CopyOutResponse code)).
  { destruct (_gotCopyOutResponse s) eqn:Hg; cbn [negb];
      eexists _, _; (split; [reflexivity|]);
      cbn [_gotCopyOutResponse consumed piped _remainder emit
           set_gotCopyOutResponse]; rewrite ?Hg; repeat split. }
  rewrite orb_false_r.
  destruct (is_code (fcode f) (CopyData code));
    [eexists _, _; split; [reflexivity|]; repeat split|].
  destruct (is_code (fcode f) (ParameterStatus code)
            || is_code (fcode f) (NoticeResponse code)
            || is_code (fcode f) (NotificationResponse code));
    eexists _, _; (split; [reflexivity|]); repeat split.
Qed.

Lemma frames_loop_app fs1 : forall fs2 cb l s,
  forallb goes_on fs1 = true ->
  exists l1 s1,
    frames_loop (fs1 ++ fs2) cb l s = frames_loop fs2 cb l1 s1
    /\ later s s1
    /\ _gotCopyOutResponse s1
       = _gotCopyOutResponse s
         || existsb (fun f => is_code (fcode f) (CopyOutResponse code)) fs1
    /\ consumed s1 = consumed s ++ encode_all fs1
    /\ piped s1 = piped s.
Proof.
  induction fs1 as [|f fs1 IH]; intros fs2 cb l s Hon.
  - exists l, s. cbn [app existsb encode_all flat_map].
    rewrite orb_false_r, app_nil_r. repeat split. apply later_refl.
  - cbn [forallb] in Hon. apply andb_prop in Hon. destruct Hon as [Hf Hon].
    cbn [app frames_loop].
    pose proof (switch_later (fcode f) cb l s) as Hl.
    destruct (switch_goes_on f cb l s Hf) as (l1 & s1 & Es & Hg & Hc & Hp & _).
    rewrite Es in *. cbn [switch_state] in Hl.
    pose proof (over_later f l1 s1) as Hov.
    assert (Hov2 : _gotCopyOutResponse (snd (over f l1 s1))
                   = _gotCopyOutResponse s1
                   /\ consumed (snd (over f l1 s1)) = consumed s1 ++ encode f
                   /\ piped (snd (over f l1 s1)) = piped s1).
    { unfold over. destruct (needPush l1); repeat split. }
    destruct (over f l1 s1) as [l2 s2]. cbn [snd] in *.
    destruct Hov2 as (Hg2 & Hc2 & Hp2).
    destruct (IH fs2 cb l2 s2 Hon) as (l3 & s3 & E3 & Hl3 & Hg3 & Hc3 & Hp3).
    exists l3, s3. split; [exact E3|]. split.
    { eapply later_trans; [exact Hl|]. eapply later_trans; eassumption. }
    split; [|split].
    + rewrite Hg3, Hg2, Hg. cbn [existsb]. rewrite orb_assoc. reflexivity.
    + rewrite Hc3, Hc2, Hc. cbn [encode_all flat_map].
      rewrite app_assoc. reflexivity.
    + congruence.
Qed.

Lemma frames_loop_later fs : forall cb l s,
  later s (exit_state (frames_loop fs cb l s)).
Proof.
  induction fs as [|f fs IH]; intros cb l s; cbn [frames_loop exit_state];
    [apply later_refl|].
  pose proof (switch_later (fcode f) cb l s) as Hl.
  destruct (switch (fcode f) cb l s) as [s1|l1 s1]; cbn [switch_state] in Hl;
    [exact Hl|].
  pose proof (over_later f l1 s1) as Hov.
  destruct (over f l1 s1) as [l2 s2]. cbn [snd] in Hov.
  eapply later_trans; [exact Hl|]. eapply later_trans; [exact Hov|apply IH].
Qed.

Lemma finish_later chunk cb e : later (exit_state e) (finish chunk cb e).
Proof.
  destruct e as [s1|l s1]; cbn [exit_state finish]; [apply later_refl|].
  pose proof (pushBufferIfneeded_later l s1) as Hp.
  destruct (pushBufferIfneeded l s1) as [l2 s2]. cbn [snd] in Hp.
  eapply later_trans; [exact Hp|].
  destruct (_ =? 0); exists [Call cb]; (split; reflexivity).
Qed.

(** *** Frames in a chunk of whole frames *)

(** A frame with a code that has no [case]: the error is emitted. *)
Lemma transform_unknown fs1 f fs2 cb s :
  _remainder s = None -> Forall wf_frame (fs1 ++ f :: fs2) ->
  forallb goes_on fs1 = true -> recognized (fcode f) = false ->
  exists s',
    _transform (encode_all (fs1 ++ f :: fs2)) cb s = Ok s'
    /\ In (UnexpectedMessage (fcode f)) (errors (events s')).
Proof.
  intros Hr Hwf Hon Hf. rewrite (transform_frames _ cb s Hr Hwf).
  eexists. split; [reflexivity|].
  destruct (frames_loop_app fs1 (f :: fs2) cb (mkLocals 0 false []) s Hon)
    as (l1 & s1 & -> & _).
  cbn [frames_loop]. rewrite (switch_default _ cb l1 s1 Hf).
  pose proof (over_later f l1 (emit (EmitError (UnexpectedMessage (fcode f))) s1))
    as Hov.
  destruct (over f l1 _) as [l2 s2]. cbn [snd] in Hov.
  eapply later_errors.
  { eapply later_trans; [exact Hov|].
    eapply later_trans; [apply frames_loop_later|apply finish_later]. }
  cbn [events emit]. unfold errors. rewrite flat_map_app.
  apply in_or_app. right. left. reflexivity.
Qed.

(** A CopyOutResponse frame once the transfer has started: the error is
    emitted. *)
Lemma transform_second_start fs1 h fs2 cb s :
  _remainder s = None -> Forall wf_frame (fs1 ++ h :: fs2) ->
  forallb goes_on fs1 = true ->
  _gotCopyOutResponse s
  || existsb (fun f => is_code (fcode f) (CopyOutResponse code)) fs1 = true ->
  fcode h = CopyOutResponse code ->
  exists s',
    _transform (encode_all (fs1 ++ h :: fs2)) cb s = Ok s'
    /\ In UnexpectedCopyOutResponse (errors (events s')).
Proof.
  intros Hr Hwf Hon Hgot Hh. rewrite (transform_frames _ cb s Hr Hwf).
  eexists. split; [reflexivity|].
  destruct (frames_loop_app fs1 (h :: fs2) cb (mkLocals 0 false []) s Hon)
    as (l1 & s1 & -> & _ & Hg & _).
  rewrite Hgot in Hg.
  cbn [frames_loop]. rewrite Hh, (switch_CopyOutResponse_again cb l1 s1 Hg).
  pose proof (over_later h l1 (emit (EmitError UnexpectedCopyOutResponse) s1))
    as Hov.
  destruct (over h l1 _) as [l2 s2]. cbn [snd] in Hov.
  eapply later_errors.
  { eapply later_trans; [exact Hov|].
    eapply later_trans; [apply frames_loop_later|apply finish_later]. }
  cbn [events emit]. unfold errors. rewrite flat_map_app.
  apply in_or_app. right. left. reflexivity.
Qed.

(** The first CopyOutResponse frame of a transfer: the flag is set and
    nothing is emitted. *)
Lemma transform_first_start h cb s :
  _remainder s = None -> wf_frame h -> _gotCopyOutResponse s = false ->
  fcode h = CopyOutResponse code ->
  exists s',
    _transform (encode h) cb s = Ok s'
    /\ _gotCopyOutResponse s' = true
    /\ events s' = events s ++ [Call cb].
Proof.
  intros Hr Hwf Hg Hh.
  pose proof (transform_frames [h] cb s Hr (Forall_cons _ Hwf (Forall_nil _)))
    as H.
  cbn [encode_all flat_map] in H. rewrite app_nil_r in H. rewrite H.
  eexists. split; [reflexivity|].
  cbn [frames_loop]. rewrite Hh, (switch_CopyOutResponse_first cb _ s Hg).
  cbn [over needPush frames_loop finish pushBufferIfneeded andb].
  destruct (_ =? 0); split; reflexivity.
Qed.

Lemma ended_app t t' : ended (t ++ t') = ended t || ended t'.
Proof. unfold ended. apply existsb_app. Qed.

(** An ErrorResponse frame: the instance is unpiped and ended; the frame
    is not stepped over, and nothing is handed to anyone. *)
Lemma transform_error fs1 e fs2 cb s :
  distinct code = true ->
  _remainder s = None -> Forall wf_frame (fs1 ++ e :: fs2) ->
  forallb goes_on fs1 = true -> fcode e = ErrorResponse code ->
  exists s',
    _transform (encode_all (fs1 ++ e :: fs2)) cb s = Ok s'
    /\ piped s' = false /\ ended (events s') = true
    /\ handedBack (events s') = handedBack (events s)
    /\ consumed s' = consumed s ++ encode_all fs1.
Proof.
  intros Hd Hr Hwf Hon He.
  destruct (transform_total (encode_all (fs1 ++ e :: fs2)) cb s) as (s' & E).
  exists s'. split; [exact E|].
  pose proof (later_handedBack _ _ (transform_later _ _ _ _ E)) as Hh.
  rewrite (transform_frames _ cb s Hr Hwf) in E. injection E as <-.
  destruct (frames_loop_app fs1 (e :: fs2) cb (mkLocals 0 false []) s Hon)
    as (l1 & s1 & E1 & _ & _ & Hc & _).
  rewrite E1 in *. cbn [frames_loop] in *.
  rewrite He, (switch_ErrorResponse cb l1 s1 Hd) in *.
  cbn [finish] in *.
  assert (Hc2 : consumed (snd (pushBufferIfneeded l1 s1)) = consumed s1).
  { unfold pushBufferIfneeded. destruct (_ && _); reflexivity. }
  destruct (pushBufferIfneeded l1 s1) as [l2 s2]. cbn [snd] in *.
  split; [reflexivity|]. split; [|split; [exact Hh|]].
  - unfold _detach. cbn [events emit set_piped].
    rewrite !ended_app. cbn. rewrite !orb_true_r. reflexivity.
  - cbn [consumed emit _detach set_piped]. rewrite Hc2. exact Hc.
Qed.

(** A transfer hands nothing to the connection's parser. *)
Lemma run_later cs s' : run cs = Ok s' -> handedBack (events s') = [].
Proof.
  unfold CopyTo.run. intros H. apply feed_later, later_handedBack in H.
  rewrite H. reflexivity.
Qed.

End WithCodes.
End CopyToFacts.

(** ** copy-both.js *)
Module CopyBothFacts.
Import Wire WireFacts CopyBoth.

Definition on_snd {A} (f : CopyStreamQuery -> CopyStreamQuery)
  (p : A * CopyStreamQuery) : A * CopyStreamQuery := (fst p, f (snd p)).

(** Reduction of field reads over field updates, and nothing else. *)
Ltac fields :=
  cbn [rd wr world with_rd with_wr with_world emit consume once_drain
       _state _buffer _unreadMessageContentLength _copyDataChunks _code
       _pgDataHandler _drained _forwarding rowMode
       _gotCopyInResponse chunks cb cb_flush
       connection trace drainListeners readableListener dataListeners
       incoming consumed
       set_state set_buffer set_unreadMessageContentLength
       set_copyDataChunks set_code set_pgDataHandler set_drained
       set_forwarding set_rowMode
       set_gotCopyInResponse set_chunks set_cb set_cb_flush
       set_connection set_trace set_drainListeners set_readableListener
       set_dataListeners set_incoming set_consumed
       bind rmap on_snd fst snd] in *.

(** The same, all the way down to the record constructors. *)
Ltac normal_form :=
  cbv beta iota delta
      [rd wr world with_rd with_wr with_world emit consume once_drain
       _state _buffer _unreadMessageContentLength _copyDataChunks _code
       _pgDataHandler _drained _forwarding rowMode
       _gotCopyInResponse chunks cb cb_flush
       connection trace drainListeners readableListener dataListeners
       incoming consumed
       set_state set_buffer set_unreadMessageContentLength
       set_copyDataChunks set_code set_pgDataHandler set_drained
       set_forwarding set_rowMode
       set_gotCopyInResponse set_chunks set_cb set_cb_flush
       set_connection set_trace set_drainListeners set_readableListener
       set_dataListeners set_incoming set_consumed
       option_map].

Section WithEnvironment.
Variable code : MessageFormats.
Variable writeReturns : nat -> bool.
Variable pushReturns : nat -> bool.

Local Abbreviation stream_write := (stream_write writeReturns).
Local Abbreviation flushChunk := (flushChunk code writeReturns).
Local Abbreviation flush_loop := (flush_loop code writeReturns).
Local Abbreviation flush := (flush code writeReturns).
Local Abbreviation _write := (_write code writeReturns).
Local Abbreviation _writev := (_writev code writeReturns).
Local Abbreviation _final := (_final code writeReturns).
Local Abbreviation _startCopyIn := (_startCopyIn code writeReturns).
Local Abbreviation _flushCopyData := (_flushCopyData pushReturns).
Local Abbreviation block_code := (block_code code).
Local Abbreviation take_content := (take_content code).
Local Abbreviation switch := (switch code writeReturns pushReturns).
Local Abbreviation block_message := (block_message code writeReturns pushReturns).
Local Abbreviation body := (body code writeReturns pushReturns).
Local Abbreviation parse_loop := (parse_loop code writeReturns pushReturns).
Local Abbreviation parse_with := (parse_with code writeReturns pushReturns).
Local Abbreviation _parse := (_parse code writeReturns pushReturns).
Local Abbreviation feed := (feed code writeReturns pushReturns).
Local Abbreviation run := (run code writeReturns pushReturns).
Local Abbreviation submit := (submit code writeReturns pushReturns).

(** *** The write side does not look at the read side

    [flush] and what it calls read and change the "Writable side" and the
    world only: they commute with any change of the "Readable side". *)
Lemma stream_write_rd f b s :
  stream_write b (with_rd f s) = rmap (on_snd (with_rd f)) (stream_write b s).
Proof.
  unfold CopyBoth.stream_write. cbn.
  destruct (connection (world s)); reflexivity.
Qed.

Lemma flushChunk_rd f chunk s :
  flushChunk chunk (with_rd f s) = rmap (on_snd (with_rd f)) (flushChunk chunk s).
Proof.
  unfold CopyBoth.flushChunk.
  destruct (writeUInt32BE (len chunk + Int32Len)) as [field| |]; cbn [bind rmap];
    try reflexivity.
  rewrite stream_write_rd.
  destruct (stream_write (CopyData code :: field) s) as [[ok s1]| |];
    cbn [bind rmap on_snd fst snd]; try reflexivity.
  apply stream_write_rd.
Qed.

Lemma flush_loop_rd f q : forall ok s,
  flush_loop q ok (with_rd f s) = rmap (on_snd (with_rd f)) (flush_loop q ok s).
Proof.
  induction q as [|chunk q IH]; intros ok s; destruct ok; cbn [CopyBoth.flush_loop];
    try reflexivity.
  change (with_wr (set_chunks q) (with_rd f s))
    with (with_rd f (with_wr (set_chunks q) s)).
  rewrite flushChunk_rd.
  destruct (flushChunk chunk (with_wr (set_chunks q) s)) as [[ok1 s1]| |];
    cbn [bind rmap on_snd fst snd]; try reflexivity.
  apply IH.
Qed.

Lemma flush_rd f callback s :
  flush callback (with_rd f s) = rmap (with_rd f) (flush callback s).
Proof.
  unfold CopyBoth.flush. cbn [wr with_rd].
  rewrite flush_loop_rd.
  destruct (flush_loop (chunks (wr s)) true s) as [[ok s1]| |];
    cbn [bind rmap on_snd fst snd]; try reflexivity.
  destruct callback as [c|]; [|reflexivity].
  destruct ok; [reflexivity|]. cbn [wr with_rd].
  destruct (Nat.ltb 0 (length (chunks (wr s1)))); reflexivity.
Qed.

Lemma startCopyIn_rd f s :
  _startCopyIn (with_rd f s) = rmap (with_rd f) (_startCopyIn s).
Proof.
  unfold CopyBoth._startCopyIn.
  change (emit Uncork (with_wr (set_gotCopyInResponse true) (with_rd f s)))
    with (with_rd f (emit Uncork (with_wr (set_gotCopyInResponse true) s))).
  rewrite flush_rd.
  destruct (flush None (emit Uncork (with_wr (set_gotCopyInResponse true) s)))
    as [s3| |]; cbn [bind rmap]; try reflexivity.
  cbn [wr with_rd]. destruct (cb (wr s3)); reflexivity.
Qed.

(** ...and they leave it as it is. *)
Lemma stream_write_keeps_rd b s ok s' :
  stream_write b s = Ok (ok, s') -> rd s' = rd s.
Proof.
  unfold CopyBoth.stream_write. destruct (connection (world s)); [|discriminate].
  intros [= _ <-]. reflexivity.
Qed.

Lemma flushChunk_keeps_rd chunk s ok s' :
  flushChunk chunk s = Ok (ok, s') -> rd s' = rd s.
Proof.
  unfold CopyBoth.flushChunk.
  destruct (writeUInt32BE _) as [field| |]; cbn [bind]; try discriminate.
  destruct (stream_write (CopyData code :: field) s) as [[ok1 s1]| |] eqn:E1;
    cbn [bind]; try discriminate.
  intros E2. apply stream_write_keeps_rd in E1, E2. congruence.
Qed.

Lemma flush_loop_keeps_rd q : forall ok s ok' s',
  flush_loop q ok s = Ok (ok', s') -> rd s' = rd s.
Proof.
  induction q as [|chunk q IH]; intros ok s ok' s'; destruct ok;
    cbn [CopyBoth.flush_loop]; try (intros [= _ <-]; reflexivity).
  destruct (flushChunk chunk (with_wr (set_chunks q) s)) as [[ok1 s1]| |] eqn:E1;
    cbn [bind]; try discriminate.
  intros E2. apply IH in E2. apply flushChunk_keeps_rd in E1.
  rewrite E2, E1. reflexivity.
Qed.

Lemma flush_keeps_rd callback s s' :
  flush callback s = Ok s' -> rd s' = rd s.
Proof.
  unfold CopyBoth.flush.
  destruct (flush_loop (chunks (wr s)) true s) as [[ok s1]| |] eqn:E1;
    cbn [bind]; try discriminate.
  apply flush_loop_keeps_rd in E1.
  destruct callback as [c|]; [|intros [= <-]; exact E1].
  destruct ok; [intros [= <-]; exact E1|].
  destruct (Nat.ltb 0 (length (chunks (wr s1)))); intros [= <-]; exact E1.
Qed.

Lemma startCopyIn_keeps_rd s s' :
  _startCopyIn s = Ok s' -> rd s' = rd s.
Proof.
  unfold CopyBoth._startCopyIn.
  destruct (flush None _) as [s3| |] eqn:E; cbn [bind]; try discriminate.
  apply flush_keeps_rd in E. cbn in E.
  destruct (cb (wr s3)); intros [= <-]; exact E.
Qed.

(** None of them loops. *)
Lemma stream_write_terminates b s : stream_write b s <> Diverge.
Proof.
  unfold CopyBoth.stream_write. destruct (connection (world s)); discriminate.
Qed.

Lemma flushChunk_terminates chunk s : flushChunk chunk s <> Diverge.
Proof.
  unfold CopyBoth.flushChunk, writeUInt32BE.
  destruct (_ && _); cbn [bind]; [|discriminate].
  destruct (stream_write _ s) as [[ok1 s1]| |] eqn:E1; cbn [bind];
    try discriminate.
  - apply stream_write_terminates.
  - exfalso. exact (stream_write_terminates _ _ E1).
Qed.

Lemma flush_loop_terminates q : forall ok s, flush_loop q ok s <> Diverge.
Proof.
  induction q as [|chunk q IH]; intros ok s; destruct ok;
    cbn [CopyBoth.flush_loop]; try discriminate.
  destruct (flushChunk chunk _) as [[ok1 s1]| |] eqn:E1; cbn [bind];
    try discriminate.
  - apply IH.
  - exfalso. exact (flushChunk_terminates _ _ E1).
Qed.

Lemma flush_terminates callback s : flush callback s <> Diverge.
Proof.
  unfold CopyBoth.flush.
  destruct (flush_loop _ true s) as [[ok s1]| |] eqn:E1; cbn [bind];
    try discriminate.
  - destruct callback; [|discriminate]. destruct ok; [discriminate|].
    destruct (Nat.ltb _ _); discriminate.
  - exfalso. exact (flush_loop_terminates _ _ _ E1).
Qed.

Lemma startCopyIn_terminates s : _startCopyIn s <> Diverge.
Proof.
  unfold CopyBoth._startCopyIn.
  destruct (flush None _) as [s3| |] eqn:E; cbn [bind]; try discriminate.
  - destruct (cb (wr s3)); discriminate.
  - exfalso. exact (flush_terminates _ _ E).
Qed.

(** *** What one pass does to the decoder fields *)

Lemma headers_ok_message_nonneg u b :
  headers_ok PG_MESSAGE u b = true -> 0 <= u.
Proof.
  destruct b; cbn [headers_ok]; destruct (u <? 0) eqn:E; try discriminate;
    intros _; lia.
Qed.

Lemma headers_ok_message_zero b :
  headers_ok PG_MESSAGE 0 b = headers_ok PG_CODE 0 b.
Proof. destruct b; reflexivity. Qed.

Lemma headers_ok_skip (n : nat) : forall u b,
  headers_ok PG_MESSAGE u b = true ->
  Z.of_nat n <= u -> (n <= length b)%nat ->
  headers_ok PG_MESSAGE (u - Z.of_nat n) (skipn n b) = true.
Proof.
  induction n as [|n IH]; intros u b H Hu Hb.
  - cbn [skipn]. replace (u - Z.of_nat 0) with u by lia. exact H.
  - destruct b as [|x b]; [cbn in Hb; lia|].
    cbn [skipn]. cbn [headers_ok] in H.
    destruct (u <? 0) eqn:E0; [discriminate|].
    destruct (u =? 0) eqn:E1; [lia|].
    replace (u - Z.of_nat (S n)) with (u - 1 - Z.of_nat n) by lia.
    apply IH; [exact H|lia|cbn in Hb; lia].
Qed.

(** Streams of well-formed frames meet the condition. *)
Lemma headers_ok_code_unread u u' b :
  headers_ok PG_CODE u b = headers_ok PG_CODE u' b.
Proof. destruct b as [|c [|b0 [|b1 [|b2 [|b3 b]]]]]; reflexivity. Qed.

Lemma headers_ok_payload pl : forall tail,
  headers_ok PG_CODE 0 tail = true ->
  headers_ok PG_MESSAGE (len pl) (pl ++ tail) = true.
Proof.
  induction pl as [|x pl IH]; intros tail H.
  - cbn [app]. change (len []) with 0. rewrite headers_ok_message_zero.
    exact H.
  - cbn [app headers_ok]. rewrite len_cons. pose proof (len_nonneg pl) as Hl.
    replace (1 + len pl <? 0) with false by (symmetry; apply Z.ltb_ge; lia).
    replace (1 + len pl =? 0) with false by (symmetry; apply Z.eqb_neq; lia).
    replace (1 + len pl - 1) with (len pl) by lia. apply IH, H.
Qed.

Lemma headers_ok_frames fs : forall u,
  Forall wf_frame fs -> headers_ok PG_CODE u (encode_all fs) = true.
Proof.
  induction fs as [|f fs IH]; intros u Hwf; [reflexivity|].
  inversion Hwf as [|? ? [Hdl Hlt] Hwf']; subst.
  pose proof (len_nonneg (payload f)) as Hl.
  cbn [encode_all flat_map]. fold (encode_all fs).
  unfold encode, header. cbn [app encodeUInt32BE headers_ok].
  rewrite be32_encode by lia.
  replace (4 <=? declaredLength f) with true by (symmetry; apply Z.leb_le; lia).
  cbn [andb]. rewrite Hdl.
  replace (len (payload f) + 4 - 4) with (len (payload f)) by lia.
  apply headers_ok_payload. apply IH, Hwf'.
Qed.

(** The decoder fields a [switch] leaves alone. *)
Definition same_decoder (r r' : Readable) : Prop :=
  _state r' = _state r /\ _buffer r' = _buffer r
  /\ _unreadMessageContentLength r' = _unreadMessageContentLength r
  /\ _code r' = _code r /\ rowMode r' = rowMode r
  /\ _pgDataHandler r' = _pgDataHandler r.

Lemma same_decoder_refl r : same_decoder r r.
Proof. repeat split. Qed.

Lemma flushCopyData_same_decoder s d s' :
  _flushCopyData s = Ok (d, s') -> same_decoder (rd s) (rd s').
Proof.
  unfold CopyBoth._flushCopyData.
  destruct (_copyDataChunks (rd s)) as [cd|]; [|discriminate].
  destruct (0 <? len cd); intros [= _ <-]; repeat split.
Qed.

Lemma flushCopyData_terminates s : _flushCopyData s <> Diverge.
Proof.
  unfold CopyBoth._flushCopyData.
  destruct (_copyDataChunks (rd s)) as [cd|]; [|discriminate].
  destruct (0 <? len cd); discriminate.
Qed.

Lemma switch_same_decoder s d dr s' :
  switch s = Ok (d, dr, s') -> same_decoder (rd s) (rd s').
Proof.
  unfold CopyBoth.switch.
  destruct (code_is _ (CopyBothResponse code)).
  { destruct (_startCopyIn s) as [s1| |] eqn:E; cbn [bind]; try discriminate.
    intros [= _ _ <-]. apply startCopyIn_keeps_rd in E. rewrite E.
    apply same_decoder_refl. }
  destruct (code_is _ (CopyData code)).
  { destruct (rowMode (rd s)).
    - destruct (_flushCopyData s) as [[d1 s1]| |] eqn:E; cbn [bind];
        try discriminate.
      intros [= _ _ <-]. eapply flushCopyData_same_decoder; eassumption.
    - intros [= _ _ <-]. apply same_decoder_refl. }
  destruct (_ || _); intros [= _ _ <-]; apply same_decoder_refl.
Qed.

Lemma switch_terminates s : switch s <> Diverge.
Proof.
  unfold CopyBoth.switch.
  destruct (code_is _ (CopyBothResponse code)).
  { destruct (_startCopyIn s) as [s1| |] eqn:E; cbn [bind]; try discriminate.
    exfalso. exact (startCopyIn_terminates _ E). }
  destruct (code_is _ (CopyData code)).
  { destruct (rowMode (rd s)); [|discriminate].
    destruct (_flushCopyData s) as [[d1 s1]| |] eqn:E; cbn [bind];
      try discriminate.
    exfalso. exact (flushCopyData_terminates _ E). }
  destruct (_ || _); discriminate.
Qed.

(** [take_content] takes [min(size, unread)] bytes when there is content
    to come and bytes to take, and nothing otherwise. *)
Definition taken (s : CopyStreamQuery) (b : Buffer) : nat :=
  if (0 <? _unreadMessageContentLength (rd s)) && (0 <? len b)
  then Z.to_nat (Z.min (len b) (_unreadMessageContentLength (rd s)))
  else 0%nat.

Lemma take_content_spec s b s' :
  _buffer (rd s) = Some b ->
  take_content s = Ok s' ->
  _state (rd s') = _state (rd s)
  /\ _buffer (rd s') = Some (skipn (taken s b) b)
  /\ _unreadMessageContentLength (rd s')
     = _unreadMessageContentLength (rd s) - Z.of_nat (taken s b)
  /\ _code (rd s') = _code (rd s) /\ rowMode (rd s') = rowMode (rd s)
  /\ _pgDataHandler (rd s') = _pgDataHandler (rd s)
  /\ consumed (world s') = consumed (world s) ++ firstn (taken s b) b.
Proof.
  intros Hb. unfold CopyBoth.take_content, taken. rewrite Hb.
  destruct (_ && _) eqn:E.
  - fields.
    assert (Hn : Z.of_nat (Z.to_nat (Z.min (len b)
                   (_unreadMessageContentLength (rd s))))
                 = Z.min (len b) (_unreadMessageContentLength (rd s))).
    { apply andb_prop in E. destruct E as [E1 E2].
      apply Z.ltb_lt in E1, E2. lia. }
    destruct (code_is _ _).
    + destruct (_copyDataChunks (rd s)); [|discriminate].
      intros [= <-]. fields. rewrite Hn. repeat split.
    + intros [= <-]. fields. rewrite Hn. repeat split.
  - intros [= <-]. cbn [skipn firstn]. rewrite Hb, app_nil_r.
    replace (_ - Z.of_nat 0) with (_unreadMessageContentLength (rd s)) by lia.
    repeat split.
Qed.

Lemma take_content_terminates s : take_content s <> Diverge.
Proof.
  unfold CopyBoth.take_content.
  destruct (_buffer (rd s)); [|discriminate].
  destruct (_ && _); [|discriminate].
  destruct (code_is _ _); [|discriminate].
  fields. destruct (_copyDataChunks (rd s)); discriminate.
Qed.

Lemma taken_le s b : (taken s b <= length b)%nat.
Proof.
  unfold taken. destruct (_ && _) eqn:E; [|lia].
  apply andb_prop in E. destruct E as [E1 E2]. apply Z.ltb_lt in E1, E2.
  unfold len in *. lia.
Qed.

Lemma taken_le_unread s b :
  0 <= _unreadMessageContentLength (rd s) ->
  Z.of_nat (taken s b) <= _unreadMessageContentLength (rd s).
Proof.
  unfold taken. destruct (_ && _) eqn:E; [|lia].
  apply andb_prop in E. destruct E as [E1 E2]. apply Z.ltb_lt in E1, E2.
  unfold len in *. lia.
Qed.

Lemma taken_pos s b :
  0 < _unreadMessageContentLength (rd s) -> b <> [] -> (0 < taken s b)%nat.
Proof.
  intros Hu Hb. unfold taken.
  assert (0 < len b).
  { destruct b as [|x b']; [congruence|].
    rewrite len_cons. pose proof (len_nonneg b'). lia. }
  destruct (_ && _) eqn:E.
  - lia.
  - apply andb_false_iff in E. destruct E as [E|E]; apply Z.ltb_ge in E; lia.
Qed.

(** *** Progress of the decode loop

    [headers_ok] is an invariant of the loop, and under it every pass that
    goes on makes [measure] smaller: a pass takes bytes out of [_buffer],
    except for one that starts with a message whose content is complete
    already, which only closes the message. *)
Definition decoder_ok (s : CopyStreamQuery) : Prop :=
  exists b, _buffer (rd s) = Some b
    /\ headers_ok (_state (rd s)) (_unreadMessageContentLength (rd s)) b = true.

Definition size (s : CopyStreamQuery) : nat :=
  match _buffer (rd s) with
  | Some b => length b
  | None => 0
  end.

Definition measure (s : CopyStreamQuery) : nat :=
  size s
  + (if DecoderState_eqb PG_MESSAGE (_state (rd s))
        && (_unreadMessageContentLength (rd s) =? 0)
     then 1 else 0).

Lemma block_message_progress s :
  _state (rd s) = PG_MESSAGE -> decoder_ok s ->
  match block_message s with
  | Ok (_, _, s') =>
    decoder_ok s' /\ (measure s' <= measure s)%nat
    /\ (size s <> 0%nat -> (measure s' < measure s)%nat)
  | Throw _ => True
  | Diverge => False
  end.
Proof.
  intros Hst (b & Hb & Hok). unfold CopyBoth.block_message.
  rewrite Hst in *. cbn [DecoderState_eqb].
  destruct (take_content s) as [s1| |] eqn:Etake; cbn [bind]; trivial;
    [|exact (take_content_terminates _ Etake)].
  destruct (take_content_spec _ _ _ Hb Etake)
    as (Hst1 & Hb1 & Hu1 & _).
  pose proof (headers_ok_message_nonneg _ _ Hok) as Hu.
  pose proof (taken_le s b) as Hle.
  pose proof (taken_le_unread s b Hu) as Hleu.
  assert (Hok1 : headers_ok PG_MESSAGE (_unreadMessageContentLength (rd s1))
                   (skipn (taken s b) b) = true).
  { rewrite Hu1. apply headers_ok_skip; assumption. }
  assert (Hsize : size s = length b) by (unfold size; rewrite Hb; reflexivity).
  assert (Hpos : size s <> 0%nat -> 0 < _unreadMessageContentLength (rd s) ->
                 (0 < taken s b)%nat).
  { intros Hne Hup. apply taken_pos; [exact Hup|].
    intros ->. rewrite Hsize in Hne. cbn in Hne. congruence. }
  destruct (_unreadMessageContentLength (rd s1) =? 0) eqn:Ez.
  - destruct (switch s1) as [[[d dr] s2]| |] eqn:Esw; cbn [bind]; trivial;
      [|exact (switch_terminates _ Esw)].
    destruct (switch_same_decoder _ _ _ _ Esw) as (_ & Hb2 & Hu2 & _).
    apply Z.eqb_eq in Ez.
    assert (Hm : measure (with_rd (set_state PG_CODE) s2)
                 = (length b - taken s b)%nat).
    { unfold measure, size. fields. rewrite Hb2, Hb1.
      cbn [DecoderState_eqb andb]. rewrite length_skipn. lia. }
    split; [|split].
    + exists (skipn (taken s b) b). unfold decoder_ok. fields.
      split; [rewrite Hb2; exact Hb1|].
      rewrite Hu2, Ez. rewrite <- headers_ok_message_zero.
      rewrite <- Ez. exact Hok1.
    + rewrite Hm. unfold measure. rewrite Hsize. lia.
    + intros Hne. rewrite Hm. unfold measure. rewrite Hsize, Hst.
      cbn [DecoderState_eqb andb].
      destruct (_unreadMessageContentLength (rd s) =? 0) eqn:Ez0.
      * lia.
      * apply Z.eqb_neq in Ez0. specialize (Hpos Hne ltac:(lia)). lia.
  - apply Z.eqb_neq in Ez.
    assert (Hm : measure s1 = (length b - taken s b)%nat).
    { unfold measure, size. rewrite Hb1, Hst1, Hst.
      cbn [DecoderState_eqb andb].
      destruct (_ =? 0) eqn:E0; [apply Z.eqb_eq in E0; lia|].
      rewrite length_skipn. lia. }
    split; [|split].
    + exists (skipn (taken s b) b). rewrite Hst1, Hst. split; assumption.
    + rewrite Hm. unfold measure. rewrite Hsize. lia.
    + intros Hne. rewrite Hm. unfold measure. rewrite Hsize, Hst.
      cbn [DecoderState_eqb andb].
      destruct (_unreadMessageContentLength (rd s) =? 0) eqn:Ez0.
      * lia.
      * apply Z.eqb_neq in Ez0. specialize (Hpos Hne ltac:(lia)). lia.
Qed.

(** A pass, from the block its state selects. *)
Definition from_message (s : CopyStreamQuery) : Result Pass :=
  let* (done, drained, s3) := block_message s in Ok (Again done drained s3).

Definition from_length (s : CopyStreamQuery) : Result Pass :=
  let* r2 := block_length s in
  match r2 with
  | Break s2 => Ok (Broke s2)
  | Return s2 => Ok (Left s2)
  | Next s2 => from_message s2
  end.

Lemma body_unfold s :
  body s = let* r1 := block_code s in
           match r1 with
           | Break s1 => Ok (Broke s1)
           | Return s1 => Ok (Left s1)
           | Next s1 => from_length s1
           end.
Proof. reflexivity. Qed.

Lemma body_length s : _state (rd s) = PG_LENGTH -> body s = from_length s.
Proof.
  intros H. rewrite body_unfold. unfold CopyBoth.block_code. rewrite H.
  reflexivity.
Qed.

Lemma from_length_message s :
  _state (rd s) = PG_MESSAGE -> from_length s = from_message s.
Proof.
  intros H. unfold from_length, CopyBoth.block_length. rewrite H. reflexivity.
Qed.

Lemma body_message s : _state (rd s) = PG_MESSAGE -> body s = from_message s.
Proof.
  intros H. rewrite body_unfold. unfold CopyBoth.block_code. rewrite H.
  cbn [DecoderState_eqb bind]. apply from_length_message, H.
Qed.

Lemma detach_terminates s : _detach s <> Diverge.
Proof.
  unfold CopyBoth._detach. destruct (connection (world s)); [|discriminate].
  destruct (_buffer (rd s)); [|discriminate].
  fields. destruct (_pgDataHandler (rd s)); discriminate.
Qed.

Lemma from_message_progress s :
  _state (rd s) = PG_MESSAGE -> decoder_ok s ->
  match from_message s with
  | Ok (Again _ _ s') =>
    decoder_ok s' /\ (measure s' <= measure s)%nat
    /\ (size s <> 0%nat -> (measure s' < measure s)%nat)
  | Ok _ | Throw _ => True
  | Diverge => False
  end.
Proof.
  intros Hst Hok. pose proof (block_message_progress s Hst Hok) as H.
  unfold from_message.
  destruct (block_message s) as [[[d dr] s']| |]; cbn [bind]; exact H.
Qed.

Lemma from_length_progress s :
  _state (rd s) = PG_LENGTH -> decoder_ok s ->
  match from_length s with
  | Ok (Again _ _ s') => decoder_ok s' /\ (measure s' < measure s)%nat
  | Ok _ | Throw _ => True
  | Diverge => False
  end.
Proof.
  intros Hst (b & Hb & Hok). unfold from_length, CopyBoth.block_length.
  rewrite Hst, Hb in *. cbn [DecoderState_eqb].
  destruct b as [|b0 [|b1 [|b2 [|b3 b]]]]; cbn [bind]; trivial.
  cbn [headers_ok] in Hok. apply andb_prop in Hok. destruct Hok as [_ Hok].
  match goal with |- context [from_message ?s2] => set (s2' := s2) end.
  assert (Hst2 : _state (rd s2') = PG_MESSAGE) by reflexivity.
  assert (Hok2 : decoder_ok s2') by (exists b; split; [reflexivity|exact Hok]).
  pose proof (from_message_progress s2' Hst2 Hok2) as H.
  destruct (from_message s2') as [[d dr s'|?|?]| |]; trivial.
  destruct H as (H1 & H2 & _). split; [exact H1|].
  assert (measure s2' <= S (length b))%nat.
  { unfold measure, size. subst s2'. fields.
    destruct (_ && _); lia. }
  assert (measure s = S (S (S (S (length b))))).
  { unfold measure, size. rewrite Hb, Hst. cbn. lia. }
  lia.
Qed.

Lemma body_progress s :
  decoder_ok s -> size s <> 0%nat ->
  match body s with
  | Ok (Again _ _ s') => decoder_ok s' /\ (measure s' < measure s)%nat
  | Ok _ | Throw _ => True
  | Diverge => False
  end.
Proof.
  intros Hok Hsize. destruct (_state (rd s)) eqn:Hst.
  - destruct Hok as (b & Hb & Hok).
    rewrite body_unfold. unfold CopyBoth.block_code. rewrite Hst, Hb.
    cbn [DecoderState_eqb].
    destruct b as [|c b]; [unfold size in Hsize; rewrite Hb in Hsize; now elim Hsize|].
    destruct (is_code c (ErrorResponse code)).
    + destruct (_detach _) eqn:E; cbn [bind]; trivial.
      exact (detach_terminates _ E).
    + cbn [bind].
      match goal with |- context [from_length ?s1] => set (s1' := s1) end.
      assert (Hst1 : _state (rd s1') = PG_LENGTH) by reflexivity.
      assert (Hok1 : decoder_ok s1').
      { exists b. split; [reflexivity|]. rewrite Hst in Hok. exact Hok. }
      pose proof (from_length_progress s1' Hst1 Hok1) as H.
      destruct (from_length s1') as [[d dr s'|?|?]| |]; trivial.
      destruct H as [H1 H2]. split; [exact H1|].
      assert (measure s1' = length b).
      { unfold measure, size. subst s1'. fields. cbn. lia. }
      assert (measure s = S (length b)).
      { unfold measure, size. rewrite Hb, Hst. cbn. lia. }
      lia.
  - rewrite (body_length _ Hst). apply from_length_progress; assumption.
  - rewrite (body_message _ Hst).
    pose proof (from_message_progress s Hst Hok) as H.
    destruct (from_message s) as [[d dr s'|?|?]| |]; trivial.
    destruct H as (H1 & _ & H3). split; auto.
Qed.

(** A pass that runs to its end takes at least a byte out of [_buffer],
    or it started on a message whose content was complete and has reset
    the state. *)
Lemma pass_progress s d dr s' :
  decoder_ok s -> size s <> 0%nat -> body s = Ok (Again d dr s') ->
  (size s' < size s)%nat
  \/ (size s' = size s /\ _state (rd s) = PG_MESSAGE
      /\ _unreadMessageContentLength (rd s) = 0
      /\ _state (rd s') = PG_CODE).
Proof.
  intros Hok Hsize Hbody.
  pose proof (body_progress s Hok Hsize) as H. rewrite Hbody in H.
  destruct H as [_ Hm]. unfold measure in Hm.
  destruct (DecoderState_eqb PG_MESSAGE (_state (rd s))
            && (_unreadMessageContentLength (rd s) =? 0)) eqn:E;
    [|left; destruct (_ && _) in Hm; lia].
  apply andb_prop in E. destruct E as [Est Eu].
  assert (Hst : _state (rd s) = PG_MESSAGE)
    by (destruct (_state (rd s)); try discriminate; reflexivity).
  apply Z.eqb_eq in Eu. right.
  rewrite (body_message _ Hst) in Hbody.
  unfold from_message, CopyBoth.block_message, CopyBoth.take_content in Hbody.
  rewrite Hst in Hbody. cbn [DecoderState_eqb] in Hbody.
  destruct Hok as (b & Hb & _). rewrite Hb, Eu in Hbody.
  cbn [Z.ltb Z.compare andb bind] in Hbody. rewrite Eu in Hbody.
  cbn [Z.eqb] in Hbody.
  destruct (switch s) as [[[d1 dr1] s1]| |] eqn:Es; cbn [bind] in Hbody;
    try discriminate.
  injection Hbody as <- <- <-.
  destruct (switch_same_decoder _ _ _ _ Es) as (_ & Hb1 & _).
  split; [|split; [exact Hst|split; [exact Eu|reflexivity]]].
  unfold size. fields. rewrite Hb1. reflexivity.
Qed.

(** Enough fuel: more than the measure. *)
Lemma parse_loop_terminates (fuel : nat) : forall done drained s,
  decoder_ok s -> (measure s < fuel)%nat ->
  parse_loop fuel done drained s <> Diverge.
Proof.
  induction fuel as [|fuel IH]; intros done drained s Hok Hm; [lia|].
  cbn [CopyBoth.parse_loop]. destruct done; [discriminate|].
  destruct Hok as (b & Hb & Hok). rewrite Hb.
  destruct (0 <? len b) eqn:Elen; [|discriminate].
  assert (Hsize : size s <> 0%nat).
  { unfold size. rewrite Hb. apply Z.ltb_lt in Elen. unfold len in Elen. lia. }
  pose proof (body_progress s (ex_intro _ b (conj Hb Hok)) Hsize) as H.
  destruct (body s) as [[d dr s'|?|?]| |]; cbn [bind]; try discriminate;
    [|contradiction].
  destruct H as [H1 H2]. apply IH; [exact H1|lia].
Qed.

Lemma parse_with_terminates fuel chunk s b :
  _buffer (rd s) = Some b ->
  headers_ok (_state (rd s)) (_unreadMessageContentLength (rd s)) (b ++ chunk)
  = true ->
  (length (b ++ chunk) + 1 < fuel)%nat ->
  parse_with fuel chunk s <> Diverge.
Proof.
  intros Hb Hok Hfuel. unfold CopyBoth.parse_with. rewrite Hb.
  set (s0 := with_rd (set_buffer (Some (b ++ chunk))) s).
  assert (Hok0 : decoder_ok s0) by (exists (b ++ chunk); split; [reflexivity|exact Hok]).
  assert (Hm : (measure s0 < fuel)%nat).
  { unfold measure, size. subst s0. fields. destruct (_ && _); lia. }
  pose proof (parse_loop_terminates fuel false true s0 Hok0 Hm) as H.
  destruct (parse_loop fuel false true s0) as [[done drained s1|s1]| |];
    cbn [bind]; try discriminate; [|contradiction].
  destruct (negb (rowMode (rd s1))).
  - destruct (_flushCopyData s1) as [[d1 s2]| |] eqn:E; cbn [bind];
      try discriminate; [|elim (flushCopyData_terminates _ E)].
    destruct done; [|discriminate].
    destruct (_detach s2) eqn:E2; cbn [bind]; try discriminate.
    elim (detach_terminates _ E2).
  - cbn [bind]. destruct done; [|discriminate].
    destruct (_detach s1) eqn:E2; cbn [bind]; try discriminate.
    elim (detach_terminates _ E2).
Qed.


(** *** The hypothesis is needed: a declared length below 4

    With a negative [_unreadMessageContentLength] and a byte in [_buffer],
    a pass changes nothing. *)
Definition stuck (s : CopyStreamQuery) : Prop :=
  _state (rd s) = PG_MESSAGE /\ _unreadMessageContentLength (rd s) < 0
  /\ size s <> 0%nat.

Lemma stuck_body s : stuck s -> body s = Ok (Again false None s).
Proof.
  intros (Hst & Hu & Hsize). rewrite (body_message _ Hst).
  unfold from_message, CopyBoth.block_message, CopyBoth.take_content.
  rewrite Hst. cbn [DecoderState_eqb].
  unfold size in Hsize. destruct (_buffer (rd s)) as [b|]; [|now elim Hsize].
  destruct (0 <? _unreadMessageContentLength (rd s)) eqn:E;
    [apply Z.ltb_lt in E; lia|].
  cbn [andb bind].
  destruct (_ =? 0) eqn:E0; [apply Z.eqb_eq in E0; lia|]. reflexivity.
Qed.

Lemma stuck_forever s : stuck s ->
  forall fuel drained, parse_loop fuel false drained s = Diverge.
Proof.
  intros Hs fuel. induction fuel as [|fuel IH]; intros drained; [reflexivity|].
  cbn [CopyBoth.parse_loop]. rewrite (stuck_body _ Hs). cbn [bind assigned].
  destruct Hs as (_ & _ & Hsize). unfold size in Hsize.
  destruct (_buffer (rd s)) as [b|]; [|now elim Hsize].
  destruct (0 <? len b) eqn:E; [apply IH|].
  apply Z.ltb_ge in E. unfold len in E. lia.
Qed.

(** Without any hypothesis on the lengths: a pass that goes on makes the
    measure smaller, or it changes nothing and the decoder is stuck. *)
Lemma block_message_shrinks s b d dr s' :
  _state (rd s) = PG_MESSAGE -> _buffer (rd s) = Some b ->
  block_message s = Ok (d, dr, s') ->
  (measure s' <= length b)%nat
  /\ (b <> [] ->
      (measure s' < measure s)%nat
      \/ (s' = s /\ _unreadMessageContentLength (rd s) < 0)).
Proof.
  intros Hst Hb. unfold CopyBoth.block_message. rewrite Hst.
  cbn [DecoderState_eqb].
  destruct (take_content s) as [s1| |] eqn:Etake; cbn [bind]; try discriminate.
  destruct (take_content_spec _ _ _ Hb Etake) as (Hst1 & Hb1 & Hu1 & _).
  pose proof (taken_le s b) as Hle.
  assert (Hmeas : measure s
                  = (length b
                     + if (_unreadMessageContentLength (rd s) =? 0)%Z
                       then 1 else 0)%nat).
  { unfold measure, size. rewrite Hb, Hst. reflexivity. }
  assert (Htaken : b <> [] -> 0 < _unreadMessageContentLength (rd s) ->
                   (0 < taken s b)%nat).
  { intros; apply taken_pos; assumption. }
  assert (Hzero : _unreadMessageContentLength (rd s) <= 0 -> s1 = s).
  { intros Hle0. revert Etake. unfold CopyBoth.take_content. rewrite Hb.
    destruct (0 <? _unreadMessageContentLength (rd s)) eqn:E;
      [apply Z.ltb_lt in E; lia|].
    cbn [andb]. congruence. }
  destruct (_unreadMessageContentLength (rd s1) =? 0) eqn:Ez.
  - destruct (switch s1) as [[[d1 dr1] s2]| |] eqn:Esw; cbn [bind];
      try discriminate.
    intros [= <- <- <-].
    destruct (switch_same_decoder _ _ _ _ Esw) as (_ & Hb2 & _).
    apply Z.eqb_eq in Ez.
    assert (Hm : measure (with_rd (set_state PG_CODE) s2)
                 = (length b - taken s b)%nat).
    { unfold measure, size. fields. rewrite Hb2, Hb1.
      cbn [DecoderState_eqb andb]. rewrite length_skipn. lia. }
    rewrite Hm, Hmeas. split; [lia|]. intros Hne. left.
    destruct (_unreadMessageContentLength (rd s) =? 0) eqn:Ez0; [lia|].
    apply Z.eqb_neq in Ez0.
    assert (0 < _unreadMessageContentLength (rd s)).
    { destruct (Z.le_gt_cases (_unreadMessageContentLength (rd s)) 0) as [Hle0|]; [|lia].
      rewrite (Hzero Hle0) in Ez. lia. }
    specialize (Htaken Hne ltac:(assumption)). lia.
  - intros [= <- <- <-]. apply Z.eqb_neq in Ez.
    assert (Hm : measure s1 = (length b - taken s b)%nat).
    { unfold measure, size. rewrite Hb1, Hst1, Hst.
      cbn [DecoderState_eqb andb].
      destruct (_unreadMessageContentLength (rd s1) =? 0) eqn:E0;
        [apply Z.eqb_eq in E0; lia|].
      rewrite length_skipn. lia. }
    rewrite Hm, Hmeas. split; [lia|]. intros Hne.
    destruct (Z.le_gt_cases (_unreadMessageContentLength (rd s)) 0) as [Hle0|Hgt].
    + right. rewrite (Hzero Hle0) in *. split; [reflexivity|]. lia.
    + left. specialize (Htaken Hne ltac:(lia)).
      destruct (_unreadMessageContentLength (rd s) =? 0); lia.
Qed.

Lemma from_message_shrinks s b d dr s' :
  _state (rd s) = PG_MESSAGE -> _buffer (rd s) = Some b ->
  from_message s = Ok (Again d dr s') ->
  (measure s' <= length b)%nat
  /\ (b <> [] ->
      (measure s' < measure s)%nat
      \/ (s' = s /\ _unreadMessageContentLength (rd s) < 0)).
Proof.
  intros Hst Hb. unfold from_message.
  destruct (block_message s) as [[[d1 dr1] s1]| |] eqn:E; cbn [bind];
    try discriminate.
  intros [= <- <- <-]. eapply block_message_shrinks; eassumption.
Qed.

Lemma from_length_shrinks s b d dr s' :
  _state (rd s) = PG_LENGTH -> _buffer (rd s) = Some b ->
  from_length s = Ok (Again d dr s') -> (measure s' < length b)%nat.
Proof.
  intros Hst Hb. unfold from_length, CopyBoth.block_length. rewrite Hst, Hb.
  cbn [DecoderState_eqb].
  destruct b as [|b0 [|b1 [|b2 [|b3 b]]]]; cbn [bind]; try discriminate.
  intros H. eapply from_message_shrinks in H; [|reflexivity|reflexivity].
  destruct H as [H _]. cbn [length]. lia.
Qed.

Lemma pass_shrinks s d dr s' :
  size s <> 0%nat -> body s = Ok (Again d dr s') ->
  (measure s' < measure s)%nat \/ (s' = s /\ stuck s).
Proof.
  intros Hsize. destruct (_state (rd s)) eqn:Hst.
  - rewrite body_unfold. unfold CopyBoth.block_code. rewrite Hst.
    cbn [DecoderState_eqb]. unfold size in Hsize.
    destruct (_buffer (rd s)) as [[|c b]|] eqn:Hb; try (now elim Hsize).
    destruct (is_code c (ErrorResponse code)).
    + destruct (_detach _); cbn [bind]; discriminate.
    + cbn [bind]. intros H.
      eapply from_length_shrinks in H; [|reflexivity|reflexivity].
      left. unfold measure at 2, size. rewrite Hb, Hst. cbn. lia.
  - rewrite (body_length _ Hst). unfold size in Hsize.
    destruct (_buffer (rd s)) as [b|] eqn:Hb; [|now elim Hsize].
    intros H. eapply from_length_shrinks in H; [|exact Hst|exact Hb].
    left. unfold measure at 2, size. rewrite Hb, Hst. cbn. lia.
  - rewrite (body_message _ Hst).
    destruct (_buffer (rd s)) as [b|] eqn:Hb;
      [|unfold size in Hsize; rewrite Hb in Hsize; now elim Hsize].
    intros H. eapply from_message_shrinks in H; [|exact Hst|exact Hb].
    destruct H as [_ H].
    assert (Hne : b <> []).
    { intros ->. unfold size in Hsize. rewrite Hb in Hsize. now elim Hsize. }
    destruct (H Hne) as [H1|[H1 H2]]; [left; exact H1|].
    right. split; [exact H1|]. repeat split; assumption.
Qed.

(** *** The loop as a relation

    [Loops done s r]: from [s], with the local [done], the loop is left
    with [r] -- the value of [done] ([None] after [return]) and the
    instance.  The local [drained] is left out: no pass reads it. *)
Definition outcome (e : LoopExit) : option bool * CopyStreamQuery :=
  match e with
  | Exited done _ s => (Some done, s)
  | Returned s => (None, s)
  end.

Inductive Loops :
  bool -> CopyStreamQuery -> Result (option bool * CopyStreamQuery) -> Prop :=
| L_done s : Loops true s (Ok (Some true, s))
| L_null s : _buffer (rd s) = None -> Loops false s (Throw TypeError)
| L_empty s : _buffer (rd s) = Some [] -> Loops false s (Ok (Some false, s))
| L_throw s e :
    size s <> 0%nat -> body s = Throw e -> Loops false s (Throw e)
| L_broke s s1 :
    size s <> 0%nat -> body s = Ok (Broke s1) ->
    Loops false s (Ok (Some false, s1))
| L_left s s1 :
    size s <> 0%nat -> body s = Ok (Left s1) -> Loops false s (Ok (None, s1))
| L_again s d dr s1 r :
    size s <> 0%nat -> body s = Ok (Again d dr s1) -> Loops d s1 r ->
    Loops false s r.

Lemma size_zero s b : _buffer (rd s) = Some b -> (0 <? len b) = false -> b = [].
Proof.
  intros _ H. apply Z.ltb_ge in H. destruct b as [|x b']; [reflexivity|].
  rewrite len_cons in H. pose proof (len_nonneg b'). lia.
Qed.

Lemma size_pos s b : _buffer (rd s) = Some b -> (0 <? len b) = true ->
  size s <> 0%nat.
Proof.
  intros Hb H. apply Z.ltb_lt in H. unfold size. rewrite Hb.
  unfold len in H. lia.
Qed.

Lemma loops_of_parse_loop fuel : forall done drained s r,
  parse_loop fuel done drained s = r -> r <> Diverge ->
  Loops done s (rmap outcome r).
Proof.
  induction fuel as [|fuel IH]; intros done drained s r <- Hr;
    [now elim Hr|].
  revert Hr. cbn [CopyBoth.parse_loop]. destruct done; [intros _; apply L_done|].
  destruct (_buffer (rd s)) as [b|] eqn:Hb; [|intros _; now apply L_null].
  destruct (0 <? len b) eqn:Elen.
  - pose proof (size_pos _ _ Hb Elen) as Hsize.
    destruct (body s) as [[d dr s1|s1|s1]| |] eqn:Ebody; cbn [bind rmap outcome].
    + intros Hr. eapply L_again; [exact Hsize|exact Ebody|].
      eapply IH; [reflexivity|exact Hr].
    + intros _. now apply L_broke.
    + intros _. now apply L_left.
    + intros _. now apply L_throw.
    + intros Hr. now elim Hr.
  - intros _. cbn [rmap outcome]. apply L_empty.
    rewrite Hb. f_equal. eapply size_zero; eassumption.
Qed.

Lemma stuck_never_leaves s r : stuck s -> ~ Loops false s r.
Proof.
  intros Hs H. remember false as done eqn:Hd. revert Hd Hs.
  induction H as [s|s Hn|s He|s e Hsz Hb|s s1 Hsz Hb|s s1 Hsz Hb
                  |s d dr s1 r Hsz Hb H IH]; intros Hd Hs;
    try discriminate;
    try (rewrite (stuck_body _ Hs) in Hb; discriminate).
  - destruct Hs as (_ & _ & Hsz). unfold size in Hsz. rewrite Hn in Hsz.
    now elim Hsz.
  - destruct Hs as (_ & _ & Hsz). unfold size in Hsz. rewrite He in Hsz.
    now elim Hsz.
  - rewrite (stuck_body _ Hs) in Hb. injection Hb as <- <- <-.
    apply IH; [reflexivity|exact Hs].
Qed.

(** With fuel above the measure, [parse_loop] computes what [Loops]
    relates. *)
Lemma parse_loop_of_loops done s r :
  Loops done s r ->
  forall fuel drained, (measure s < fuel)%nat ->
  rmap outcome (parse_loop fuel done drained s) = r.
Proof.
  induction 1 as [s|s Hn|s He|s e Hsz Hb|s s1 Hsz Hb|s s1 Hsz Hb
                  |s d dr s1 r Hsz Hb H IH]; intros fuel drained Hm;
    (destruct fuel as [|fuel]; [lia|]); cbn [CopyBoth.parse_loop].
  - reflexivity.
  - rewrite Hn. reflexivity.
  - rewrite He. reflexivity.
  - unfold size in Hsz. destruct (_buffer (rd s)) as [b|]; [|now elim Hsz].
    destruct (0 <? len b) eqn:E;
      [|apply Z.ltb_ge in E; unfold len in E; lia].
    rewrite Hb. reflexivity.
  - unfold size in Hsz. destruct (_buffer (rd s)) as [b|]; [|now elim Hsz].
    destruct (0 <? len b) eqn:E;
      [|apply Z.ltb_ge in E; unfold len in E; lia].
    rewrite Hb. reflexivity.
  - unfold size in Hsz. destruct (_buffer (rd s)) as [b|]; [|now elim Hsz].
    destruct (0 <? len b) eqn:E;
      [|apply Z.ltb_ge in E; unfold len in E; lia].
    rewrite Hb. reflexivity.
  - destruct (pass_shrinks _ _ _ _ Hsz Hb) as [Hlt|[-> Hstuck]].
    + unfold size in Hsz. destruct (_buffer (rd s)) as [b|]; [|now elim Hsz].
      destruct (0 <? len b) eqn:E;
        [|apply Z.ltb_ge in E; unfold len in E; lia].
      rewrite Hb. cbn [bind]. apply IH. lia.
    + assert (d = false) as ->.
      { rewrite (stuck_body _ Hstuck) in Hb. congruence. }
      elim (stuck_never_leaves _ _ Hstuck H).
Qed.

(** So the loop of [_parse] is over within [measure s + 1] passes, or it
    is endless. *)
Lemma parse_loop_more_fuel fuel done drained s :
  parse_loop fuel done drained s <> Diverge ->
  forall fuel', (measure s < fuel')%nat ->
  rmap outcome (parse_loop fuel' done drained s)
  = rmap outcome (parse_loop fuel done drained s).
Proof.
  intros H fuel' Hm. apply parse_loop_of_loops; [|exact Hm].
  eapply loops_of_parse_loop; [reflexivity|exact H].
Qed.

Lemma parse_diverges_forever fuel drained s :
  (measure s < fuel)%nat ->
  parse_loop fuel false drained s = Diverge ->
  forall fuel' drained', parse_loop fuel' false drained' s = Diverge.
Proof.
  intros Hm Hd fuel' drained'.
  destruct (parse_loop fuel' false drained' s) as [e|e|] eqn:E; [| |reflexivity].
  - assert (H : Loops false s (rmap outcome (Ok e))).
    { eapply loops_of_parse_loop; [exact E|discriminate]. }
    apply parse_loop_of_loops with (fuel := fuel) (drained := drained) in H;
      [|exact Hm].
    rewrite Hd in H. discriminate.
  - assert (H : Loops false s (rmap outcome (Throw e))).
    { eapply loops_of_parse_loop; [exact E|discriminate]. }
    apply parse_loop_of_loops with (fuel := fuel) (drained := drained) in H;
      [|exact Hm].
    rewrite Hd in H. discriminate.
Qed.

(** *** More bytes behind the accumulator

    [append y s] is [s] with [y] pushed into [_buffer].  A pass of the loop
    over [append y s] does what the pass over [s] does, for as long as the
    bytes of [s] are enough for it. *)
Definition append (y : Buffer) (s : CopyStreamQuery) : CopyStreamQuery :=
  with_rd (fun r => set_buffer (option_map (fun b => b ++ y) (_buffer r)) r) s.

Lemma append_nil s : append [] s = s.
Proof.
  destruct s as [[st b u cd c h dr fw rm] w e]. unfold append, with_rd.
  cbn [rd wr world set_buffer _state _buffer _unreadMessageContentLength
       _copyDataChunks _code _pgDataHandler _drained _forwarding rowMode].
  destruct b as [b|]; cbn [option_map]; [rewrite app_nil_r|]; reflexivity.
Qed.

Lemma append_buffer y s b :
  _buffer (rd s) = Some b -> _buffer (rd (append y s)) = Some (b ++ y).
Proof. intros H. unfold append. fields. rewrite H. reflexivity. Qed.

Lemma size_append y s : size s <> 0%nat -> size (append y s) <> 0%nat.
Proof.
  unfold size, append. fields.
  destruct (_buffer (rd s)) as [b|]; cbn [option_map]; [|tauto].
  rewrite length_app. lia.
Qed.

Lemma block_code_append y s s1 :
  size s <> 0%nat -> block_code s = Ok (Next s1) ->
  block_code (append y s) = Ok (Next (append y s1)).
Proof.
  unfold size, CopyBoth.block_code. intros Hsize.
  change (_state (rd (append y s))) with (_state (rd s)).
  destruct (DecoderState_eqb PG_CODE (_state (rd s)));
    [|intros [= <-]; reflexivity].
  unfold append at 1. fields.
  destruct (_buffer (rd s)) as [[|c b]|]; try (now elim Hsize).
  cbn [option_map app].
  destruct (is_code c (ErrorResponse code)).
  - destruct (_detach _); discriminate.
  - intros [= <-]. reflexivity.
Qed.

Lemma block_length_append y s s1 :
  block_length s = Ok (Next s1) ->
  block_length (append y s) = Ok (Next (append y s1)).
Proof.
  unfold CopyBoth.block_length.
  change (_state (rd (append y s))) with (_state (rd s)).
  destruct (DecoderState_eqb PG_LENGTH (_state (rd s)));
    [|intros [= <-]; reflexivity].
  unfold append at 1. fields.
  destruct (_buffer (rd s)) as [[|b0 [|b1 [|b2 [|b3 b]]]]|]; try discriminate.
  intros [= <-]. reflexivity.
Qed.

Lemma block_length_break s s1 :
  block_length s = Ok (Break s1) ->
  s1 = s /\ _state (rd s) = PG_LENGTH
  /\ exists b, _buffer (rd s) = Some b /\ (length b < 4)%nat.
Proof.
  unfold CopyBoth.block_length.
  destruct (_state (rd s)); cbn [DecoderState_eqb]; try discriminate.
  destruct (_buffer (rd s)) as [[|b0 [|b1 [|b2 [|b3 b]]]]|]; try discriminate;
    intros [= <-]; (split; [reflexivity|split; [reflexivity|]]);
    eexists; (split; [reflexivity|cbn; lia]).
Qed.

Lemma block_code_no_break s s1 :
  size s <> 0%nat -> block_code s <> Ok (Break s1).
Proof.
  unfold size, CopyBoth.block_code. intros Hsize.
  destruct (DecoderState_eqb PG_CODE (_state (rd s))); [|discriminate].
  destruct (_buffer (rd s)) as [[|c b]|]; try (now elim Hsize).
  destruct (is_code c (ErrorResponse code)); [|discriminate].
  destruct (_detach _); discriminate.
Qed.

Definition on_third {A B} (f : CopyStreamQuery -> CopyStreamQuery)
  (p : A * B * CopyStreamQuery) : A * B * CopyStreamQuery :=
  (fst (fst p), snd (fst p), f (snd p)).

Lemma flushCopyData_append y s :
  _flushCopyData (append y s) = rmap (on_snd (append y)) (_flushCopyData s).
Proof.
  unfold CopyBoth._flushCopyData.
  change (_copyDataChunks (rd (append y s))) with (_copyDataChunks (rd s)).
  destruct (_copyDataChunks (rd s)) as [cd|]; [|reflexivity].
  destruct (0 <? len cd); reflexivity.
Qed.

Lemma switch_append y s :
  switch (append y s) = rmap (on_third (append y)) (switch s).
Proof.
  unfold CopyBoth.switch.
  change (_code (rd (append y s))) with (_code (rd s)).
  change (rowMode (rd (append y s))) with (rowMode (rd s)).
  destruct (code_is _ (CopyBothResponse code)).
  { unfold append. rewrite startCopyIn_rd.
    destruct (_startCopyIn s); reflexivity. }
  destruct (code_is _ (CopyData code)).
  { destruct (rowMode (rd s)); [|reflexivity].
    rewrite flushCopyData_append.
    destruct (_flushCopyData s) as [[d s1]| |]; reflexivity. }
  destruct (_ || _); reflexivity.
Qed.

(** The content of the message is all there: the appended bytes are not
    touched. *)
Lemma take_content_append_enough y s x :
  _buffer (rd s) = Some x ->
  _unreadMessageContentLength (rd s) <= len x ->
  take_content (append y s) = rmap (append y) (take_content s).
Proof.
  destruct s as [[st b u cd c h dr fw rm] w e]. cbn [rd _buffer _unreadMessageContentLength].
  intros -> Hu. unfold CopyBoth.take_content, append. fields. cbn [option_map].
  destruct (0 <? u) eqn:E0; cbn [andb]; [|reflexivity].
  apply Z.ltb_lt in E0.
  assert (E1 : (0 <? len (x ++ y)) = true).
  { apply Z.ltb_lt. rewrite len_app. pose proof (len_nonneg y). lia. }
  assert (E2 : (0 <? len x) = true) by (apply Z.ltb_lt; lia).
  rewrite E1, E2.
  rewrite (Z.min_r (len (x ++ y)) u)
    by (rewrite len_app; pose proof (len_nonneg y); lia).
  rewrite (Z.min_r (len x) u) by lia.
  assert (Hn : (Z.to_nat u <= length x)%nat) by (unfold len in Hu; lia).
  rewrite (firstn_app_le _ x y Hn), (skipn_app_le _ x y Hn).
  destruct (code_is c (CopyData code)); [|reflexivity].
  destruct cd; reflexivity.
Qed.

(** The content of the message is not all there: what is there is taken,
    and taking from the longer accumulator is taking what is there and then
    taking again. *)
Lemma take_content_merge y s x s3 :
  _buffer (rd s) = Some x ->
  len x < _unreadMessageContentLength (rd s) ->
  take_content s = Ok s3 ->
  take_content (append y s) = take_content (append y s3)
  /\ _buffer (rd s3) = Some [] /\ _state (rd s3) = _state (rd s)
  /\ _unreadMessageContentLength (rd s3) <> 0.
Proof.
  destruct s as [[st b u cd c h dr fw rm] w e]. cbn [rd _buffer _unreadMessageContentLength _state].
  intros -> Hu. pose proof (len_nonneg x) as Hx.
  unfold CopyBoth.take_content at 1. fields.
  assert (E0 : (0 <? u) = true) by (apply Z.ltb_lt; lia).
  rewrite E0. cbn [andb].
  destruct x as [|x0 x].
  { cbn [len length Z.of_nat Z.ltb Z.compare]. intros [= <-].
    repeat split; fields; try reflexivity. cbn in Hu. lia. }
  set (xs := x0 :: x) in *.
  assert (E2 : (0 <? len xs) = true).
  { apply Z.ltb_lt. subst xs. rewrite len_cons. pose proof (len_nonneg x). lia. }
  rewrite E2.
  rewrite (Z.min_l (len xs) u) by lia.
  replace (Z.to_nat (len xs)) with (length xs) by (unfold len; lia).
  rewrite firstn_all, skipn_all.
  assert (Hleft : forall cd' : option Buffer,
    (code_is c (CopyData code) = true -> cd' <> None) ->
    CopyBoth.take_content code
      (append y
         {| rd := {| _state := st; _buffer := Some xs;
                     _unreadMessageContentLength := u;
                     _copyDataChunks := cd'; _code := c;
                     _pgDataHandler := h; _drained := dr;
                     _forwarding := fw; rowMode := rm |};
            wr := w; world := e |})
    = CopyBoth.take_content code
        (append y
           (consume xs
              {| rd := {| _state := st; _buffer := Some [];
                          _unreadMessageContentLength := u - len xs;
                          _copyDataChunks :=
                            if code_is c (CopyData code)
                            then option_map (fun cd0 => cd0 ++ xs) cd'
                            else cd';
                          _code := c; _pgDataHandler := h; _drained := dr;
                          _forwarding := fw; rowMode := rm |};
                 wr := w; world := e |}))).
  { intros cd' Hcd. unfold CopyBoth.take_content, append. fields.
    cbn [option_map app].
    rewrite E0. cbn [andb].
    assert (E1 : (0 <? len (xs ++ y)) = true).
    { apply Z.ltb_lt. rewrite len_app. pose proof (len_nonneg y). lia. }
    rewrite E1.
    assert (E3 : (0 <? u - len xs) = true) by (apply Z.ltb_lt; lia).
    rewrite E3. cbn [andb].
    destruct (0 <? len y) eqn:Ey.
    - apply Z.ltb_lt in Ey.
      set (n2 := Z.to_nat (Z.min (len y) (u - len xs))).
      replace (Z.to_nat (Z.min (len (xs ++ y)) u)) with (length xs + n2)%nat
        by (subst n2; rewrite len_app; unfold len in *; lia).
      replace (Z.min (len (xs ++ y)) u) with (len xs + Z.min (len y) (u - len xs))
        by (rewrite len_app; lia).
      rewrite firstn_app_ge, skipn_app_ge.
      assert (Hsub : u - (len xs + Z.min (len y) (u - len xs))
                     = u - len xs - Z.min (len y) (u - len xs)) by lia.
      destruct (code_is c (CopyData code)).
      + destruct cd' as [cd'|]; cbn [option_map]; [|reflexivity].
        normal_form. rewrite Hsub, <- !app_assoc. reflexivity.
      + normal_form. rewrite Hsub, <- !app_assoc. reflexivity.
    - apply Z.ltb_ge in Ey.
      assert (y = []) as ->.
      { destruct y as [|y0 y]; [reflexivity|].
        rewrite len_cons in Ey. pose proof (len_nonneg y). lia. }
      rewrite app_nil_r.
      rewrite (Z.min_l (len xs) u) by lia.
      replace (Z.to_nat (len xs)) with (length xs) by (unfold len; lia).
      rewrite firstn_all, skipn_all.
      destruct (code_is c (CopyData code)); [|reflexivity].
      destruct cd' as [cd'|]; [reflexivity|]. now elim Hcd. }
  destruct (code_is c (CopyData code)) eqn:Ec.
  - destruct cd as [cd|]; [|discriminate]. intros [= <-].
    split; [|repeat split; fields; try reflexivity; lia].
    rewrite Hleft by discriminate. reflexivity.
  - intros [= <-]. split; [|repeat split; fields; try reflexivity; lia].
    rewrite Hleft by discriminate. reflexivity.
Qed.

(** A pass over [append y s], from a pass over [s] that goes on: either
    it is the same pass (the bytes of [s] were enough for it), or the pass
    over [s] ran out of bytes in the middle of a message content, and the
    longer pass is the pass that starts where that one stopped. *)
Lemma from_message_append y s x d dr s3 :
  _state (rd s) = PG_MESSAGE -> _buffer (rd s) = Some x ->
  from_message s = Ok (Again d dr s3) ->
  from_message (append y s) = Ok (Again d dr (append y s3))
  \/ (d = false /\ _buffer (rd s3) = Some []
      /\ from_message (append y s) = body (append y s3)).
Proof.
  intros Hst Hb. unfold from_message at 1, CopyBoth.block_message.
  rewrite Hst. cbn [DecoderState_eqb].
  destruct (take_content s) as [s1| |] eqn:Etake; cbn [bind]; try discriminate.
  destruct (Z.le_gt_cases (_unreadMessageContentLength (rd s)) (len x)) as [Hle|Hgt].
  - (* enough bytes *)
    pose proof (take_content_append_enough y s x Hb Hle) as Happ.
    rewrite Etake in Happ. cbn [rmap] in Happ.
    intros H. left. unfold from_message, CopyBoth.block_message.
    change (_state (rd (append y s))) with (_state (rd s)). rewrite Hst.
    cbn [DecoderState_eqb]. rewrite Happ. cbn [bind].
    change (_unreadMessageContentLength (rd (append y s1)))
      with (_unreadMessageContentLength (rd s1)).
    destruct (_unreadMessageContentLength (rd s1) =? 0).
    + rewrite switch_append.
      destruct (switch s1) as [[[d1 dr1] s2]| |]; cbn [bind rmap] in *;
        try discriminate.
      injection H as <- <- <-. reflexivity.
    + injection H as <- <- <-. reflexivity.
  - (* the content goes on beyond the accumulator *)
    destruct (take_content_merge y s x s1 Hb Hgt Etake)
      as (Hmerge & Hb1 & Hst1 & Hu1).
    apply Z.eqb_neq in Hu1. rewrite Hu1.
    intros [= <- <- <-]. right. split; [reflexivity|]. split; [exact Hb1|].
    rewrite body_message
      by (change (_state (rd (append y s1))) with (_state (rd s1)); congruence).
    unfold from_message, CopyBoth.block_message.
    change (_state (rd (append y s))) with (_state (rd s)).
    change (_state (rd (append y s1))) with (_state (rd s1)).
    rewrite Hst1, Hst, Hmerge. reflexivity.
Qed.

Lemma from_length_append y s d dr s3 :
  _state (rd s) = PG_LENGTH ->
  from_length s = Ok (Again d dr s3) ->
  from_length (append y s) = Ok (Again d dr (append y s3))
  \/ (d = false /\ _buffer (rd s3) = Some []
      /\ from_length (append y s) = body (append y s3)).
Proof.
  intros Hst. unfold from_length at 1.
  destruct (block_length s) as [[s2|s2|s2]| |] eqn:Elen; cbn [bind];
    try discriminate.
  intros H. unfold from_length.
  rewrite (block_length_append y _ _ Elen). cbn [bind].
  revert Elen H. unfold CopyBoth.block_length. rewrite Hst.
  cbn [DecoderState_eqb].
  destruct (_buffer (rd s)) as [[|b0 [|b1 [|b2 [|b3 b]]]]|]; try discriminate.
  intros [= <-] H.
  eapply from_message_append in H; [exact H|reflexivity|reflexivity].
Qed.

Lemma pass_append y s d dr s3 :
  size s <> 0%nat -> body s = Ok (Again d dr s3) ->
  body (append y s) = Ok (Again d dr (append y s3))
  \/ (d = false /\ _buffer (rd s3) = Some []
      /\ body (append y s) = body (append y s3)).
Proof.
  intros Hsize. destruct (_state (rd s)) eqn:Hst.
  - rewrite body_unfold.
    destruct (block_code s) as [[s1|s1|s1]| |] eqn:Ecode; cbn [bind];
      try discriminate.
    intros H. rewrite body_unfold.
    rewrite (block_code_append y _ _ Hsize Ecode). cbn [bind].
    revert Ecode H. unfold CopyBoth.block_code. rewrite Hst.
    cbn [DecoderState_eqb]. unfold size in Hsize.
    destruct (_buffer (rd s)) as [[|c b]|]; try (now elim Hsize).
    destruct (is_code c (ErrorResponse code));
      [destruct (_detach _); discriminate|].
    intros [= <-] H.
    eapply from_length_append in H; [exact H|reflexivity].
  - rewrite (body_length _ Hst).
    rewrite body_length by (change (_state (rd (append y s))) with (_state (rd s)); exact Hst).
    apply from_length_append, Hst.
  - rewrite (body_message _ Hst).
    rewrite body_message by (change (_state (rd (append y s))) with (_state (rd s)); exact Hst).
    unfold size in Hsize.
    destruct (_buffer (rd s)) as [x|] eqn:Hb; [|now elim Hsize].
    apply (from_message_append y s x); [exact Hst|exact Hb].
Qed.

(** A pass over [s] that breaks for want of a whole length field: the pass
    over [append y s] is the pass that starts where that one broke. *)
Lemma break_append y s s1 :
  size s <> 0%nat -> body s = Ok (Broke s1) ->
  body (append y s) = body (append y s1)
  /\ _state (rd s1) = PG_LENGTH
  /\ exists b, _buffer (rd s1) = Some b /\ (length b < 4)%nat.
Proof.
  intros Hsize. rewrite body_unfold.
  destruct (block_code s) as [[s0|s0|s0]| |] eqn:Ecode; cbn [bind];
    try discriminate.
  - unfold from_length.
    destruct (block_length s0) as [[s2|s2|s2]| |] eqn:Elen; cbn [bind];
      try discriminate.
    + unfold from_message. destruct (block_message s2) as [[[? ?] ?]| |];
        cbn [bind]; discriminate.
    + intros [= <-].
      destruct (block_length_break _ _ Elen) as (-> & Hst & Hb).
      split; [|split; assumption].
      rewrite body_unfold, (block_code_append y _ _ Hsize Ecode). cbn [bind].
      symmetry. apply body_length. exact Hst.
  - intros [= <-]. elim (block_code_no_break _ _ Hsize Ecode).
Qed.

(** [Loops] is a partial function. *)
Lemma loops_deterministic done s r :
  Loops done s r -> forall r', Loops done s r' -> r' = r.
Proof.
  induction 1 as [s|s Hn|s He|s e Hsz Hb|s s1 Hsz Hb|s s1 Hsz Hb
                  |s d dr s1 r Hsz Hb H IH]; intros r' H';
    inversion H'; subst; try reflexivity;
    try (unfold size in *;
         match goal with
         | H1 : _buffer (rd ?s) = _, H2 : context [_buffer (rd ?s)] |- _ =>
           rewrite H1 in H2; now elim H2
         end);
    try congruence.
  match goal with
  | H1 : body s = Ok (Again _ _ _), H2 : body s = Ok (Again _ _ _) |- _ =>
    rewrite H1 in H2; injection H2 as <- <- <-
  end.
  apply IH. assumption.
Qed.

Lemma loops_empty_inv s r :
  _buffer (rd s) = Some [] -> Loops false s r -> r = Ok (Some false, s).
Proof.
  intros He H. exact (loops_deterministic _ _ _ (L_empty s He) _ H).
Qed.

Lemma loops_done_inv s r : Loops true s r -> r = Ok (Some true, s).
Proof. intros H. inversion H. reflexivity. Qed.

(** Two instances whose next pass is the same leave the loop alike. *)
Lemma loops_same_pass s s' r :
  size s <> 0%nat -> size s' <> 0%nat -> body s = body s' ->
  Loops false s r -> Loops false s' r.
Proof.
  intros Hs Hs' Hbody H. inversion H; subst.
  - unfold size in Hs. rewrite H0 in Hs. now elim Hs.
  - unfold size in Hs. rewrite H0 in Hs. now elim Hs.
  - apply L_throw; [exact Hs'|congruence].
  - apply L_broke; [exact Hs'|congruence].
  - apply L_left; [exact Hs'|congruence].
  - eapply L_again; [exact Hs'| |eassumption]. rewrite <- Hbody. eassumption.
Qed.

Lemma loops_again_iff s d dr s1 r :
  size s <> 0%nat -> body s = Ok (Again d dr s1) ->
  Loops false s r <-> Loops d s1 r.
Proof.
  intros Hs Hb. split; intros H.
  - inversion H; subst; try congruence.
    + unfold size in Hs. rewrite H0 in Hs. now elim Hs.
    + unfold size in Hs. rewrite H0 in Hs. now elim Hs.
  - eapply L_again; eassumption.
Qed.

Lemma size_append_empty y s :
  _buffer (rd s) = Some [] -> size (append y s) = 0%nat -> y = [].
Proof.
  intros Hb. unfold size. rewrite (append_buffer y s [] Hb). cbn [app].
  destruct y; [reflexivity|discriminate].
Qed.

(** Chunk boundaries and the loop: if the loop over [s] is left for want
    of bytes, in [s1], then the loop over [s] with [y] behind its
    accumulator is the loop over [s1] with [y] behind its accumulator. *)
Theorem loops_append s s1 :
  Loops false s (Ok (Some false, s1)) ->
  forall y r, Loops false (append y s) r <-> Loops false (append y s1) r.
Proof.
  intros H. remember (Ok (Some false, s1)) as r0 eqn:Hr in H.
  remember false as done eqn:Hd in H.
  revert Hd s1 Hr.
  induction H as [s|s Hn|s He|s e Hsz Hb|s s1' Hsz Hb|s s1' Hsz Hb
                  |s d dr s2 r0 Hsz Hb H IH]; intros Hd s1 Hr y r;
    try discriminate.
  - injection Hr as <-. reflexivity.
  - injection Hr as <-.
    destruct (break_append y _ _ Hsz Hb) as (Hbody & Hst & b & Hb1 & Hlen).
    pose proof (size_append y _ Hsz) as Hsz'.
    destruct (Nat.eq_dec (size (append y s1')) 0) as [Hz|Hnz].
    + (* nothing to read after the break either *)
      assert (Hempty : _buffer (rd (append y s1')) = Some []).
      { unfold size in Hz. rewrite (append_buffer y _ _ Hb1) in *.
        destruct (b ++ y); [reflexivity|discriminate]. }
      assert (Hbroke : body (append y s1') = Ok (Broke (append y s1'))).
      { rewrite body_length
          by (change (_state (rd (append y s1'))) with (_state (rd s1')); exact Hst).
        unfold from_length, CopyBoth.block_length.
        change (_state (rd (append y s1'))) with (_state (rd s1')).
        rewrite Hst, Hempty. reflexivity. }
      rewrite Hbroke in Hbody.
      split; intros Hl.
      * rewrite (loops_deterministic _ _ _ (L_broke _ _ Hsz' Hbody) _ Hl).
        apply L_empty, Hempty.
      * rewrite (loops_empty_inv _ _ Hempty Hl).
        apply L_broke; assumption.
    + split; apply loops_same_pass; auto.
  - subst r0.
    assert (d = false) as ->.
    { destruct d; [|reflexivity]. apply loops_done_inv in H. discriminate. }
    pose proof (size_append y _ Hsz) as Hsz'.
    destruct (pass_append y _ _ _ _ Hsz Hb) as [Hsame|(_ & Hb2 & Hbody)].
    + rewrite (loops_again_iff _ _ _ _ r Hsz' Hsame).
      apply IH; reflexivity.
    + assert (s1 = s2) as ->.
      { pose proof (loops_empty_inv _ _ Hb2 H) as E. congruence. }
      destruct (Nat.eq_dec (size (append y s2)) 0) as [Hz|Hnz].
      * rewrite (size_append_empty y s2 Hb2 Hz), !append_nil.
        split; intros Hl.
        -- rewrite (loops_deterministic _ _ _ (L_again _ _ _ _ _ Hsz Hb H) _ Hl).
           apply L_empty, Hb2.
        -- rewrite (loops_empty_inv _ _ Hb2 Hl).
           eapply L_again; eassumption.
      * split; apply loops_same_pass; auto.
Qed.

(** *** The inbound flusher

    [flush] writes the queue, oldest chunk first, each chunk as a CopyData
    frame (header, then payload), and stops after the first chunk whose
    write the transport answers with [false]. *)
Definition small (chunk : Buffer) : bool := len chunk + 4 <? 2 ^ 32.

Definition frame_writes (chunk : Buffer) : list Buffer :=
  [CopyData code :: encodeUInt32BE (len chunk + 4); chunk].

(** [flushed q n]: how many chunks of the queue [q] one [flush] writes,
    [n] being the number of writes made before; [accepted q n]: whether
    the transport accepted them all (the final [ok]). *)
Fixpoint flushed (q : list Buffer) (n : nat) : nat :=
  match q with
  | [] => 0
  | _ :: q' => if writeReturns (S n) then S (flushed q' (S (S n))) else 1
  end.

Fixpoint accepted (q : list Buffer) (n : nat) : bool :=
  match q with
  | [] => true
  | _ :: q' => if writeReturns (S n) then accepted q' (S (S n)) else false
  end.

Definition emits (bs : list Buffer) (s : CopyStreamQuery) : CopyStreamQuery :=
  with_world (fun w => set_trace (trace w ++ map Write bs) w) s.

Definition writes (s : CopyStreamQuery) : nat :=
  length (sent (trace (world s))).

Lemma sent_app t t' : sent (t ++ t') = sent t ++ sent t'.
Proof. unfold sent. apply flat_map_app. Qed.

Lemma sent_writes bs : sent (map Write bs) = bs.
Proof. induction bs as [|b bs IH]; [reflexivity|]. cbn. f_equal. exact IH. Qed.

Lemma pushed_app t t' : pushed (t ++ t') = pushed t ++ pushed t'.
Proof. unfold pushed. apply flat_map_app. Qed.

Lemma pushed_writes bs : pushed (map Write bs) = [].
Proof. induction bs as [|b bs IH]; [reflexivity|exact IH]. Qed.

Lemma errors_app t t' : errors (t ++ t') = errors t ++ errors t'.
Proof. unfold errors. apply flat_map_app. Qed.

Lemma handedBack_app t t' : handedBack (t ++ t') = handedBack t ++ handedBack t'.
Proof. unfold handedBack. apply flat_map_app. Qed.

Lemma stream_write_spec b s :
  connection (world s) = true ->
  stream_write b s = Ok (writeReturns (writes s), emit (Write b) s).
Proof. intros H. unfold CopyBoth.stream_write. rewrite H. reflexivity. Qed.

Lemma writes_emit_write b s : writes (emit (Write b) s) = S (writes s).
Proof.
  unfold writes. fields. rewrite sent_app, length_app. cbn. lia.
Qed.

Lemma flushChunk_spec chunk s :
  connection (world s) = true -> small chunk = true ->
  flushChunk chunk s
  = Ok (writeReturns (S (writes s)), emits (frame_writes chunk) s).
Proof.
  intros Hc Hs. unfold CopyBoth.flushChunk, writeUInt32BE, small, Int32Len in *.
  pose proof (len_nonneg chunk).
  destruct (0 <=? len chunk + 4) eqn:E0; [|apply Z.leb_gt in E0; lia].
  rewrite Hs. cbn [andb bind].
  rewrite stream_write_spec by exact Hc. cbn [bind].
  rewrite stream_write_spec by exact Hc.
  rewrite writes_emit_write. f_equal. f_equal.
  unfold emits, emit, frame_writes. normal_form. cbn [map].
  rewrite <- app_assoc. reflexivity.
Qed.

Lemma writes_emits bs s : writes (emits bs s) = (writes s + length bs)%nat.
Proof.
  unfold writes, emits. fields. rewrite sent_app, sent_writes, length_app.
  reflexivity.
Qed.

Lemma flush_loop_spec q : forall s,
  connection (world s) = true -> forallb small q = true ->
  chunks (wr s) = q ->
  flush_loop q true s
  = Ok (accepted q (writes s),
        emits (flat_map frame_writes (firstn (flushed q (writes s)) q))
          (with_wr (set_chunks (skipn (flushed q (writes s)) q)) s)).
Proof.
  induction q as [|chunk q IH]; intros s Hc Hs Hq.
  - cbn. f_equal. f_equal. destruct s as [r [g ch c1 c2] [co tr dl rl dls inc con]].
    cbn in Hq. subst ch. unfold emits. normal_form. cbn [map].
    rewrite app_nil_r. reflexivity.
  - cbn [forallb] in Hs. apply andb_prop in Hs. destruct Hs as [Hs1 Hs2].
    cbn [CopyBoth.flush_loop].
    rewrite flushChunk_spec by assumption. cbn [bind].
    change (writes (with_wr (set_chunks q) s)) with (writes s).
    cbn [flushed accepted].
    destruct (writeReturns (S (writes s))).
    + rewrite IH by (try assumption; reflexivity).
      rewrite writes_emits. cbn [frame_writes length].
      replace (writes (with_wr (set_chunks q) s) + 2)%nat
        with (S (S (writes s))) by (unfold writes; cbn; lia).
      f_equal. f_equal. cbn [firstn skipn flat_map].
      unfold emits. normal_form. rewrite map_app, app_assoc. reflexivity.
    + destruct q; reflexivity.
Qed.

(** The instance after the loop of [flush]. *)
Definition flush_state (s : CopyStreamQuery) : CopyStreamQuery :=
  let k := flushed (chunks (wr s)) (writes s) in
  emits (flat_map frame_writes (firstn k (chunks (wr s))))
    (with_wr (set_chunks (skipn k (chunks (wr s)))) s).

Definition writable (s : CopyStreamQuery) : Prop :=
  connection (world s) = true /\ forallb small (chunks (wr s)) = true.

Lemma flush_spec callback s :
  writable s ->
  flush callback s
  = Ok match callback with
       | None => flush_state s
       | Some c =>
         if accepted (chunks (wr s)) (writes s)
         then emit (Call c) (flush_state s)
         else if Nat.ltb 0 (length (chunks (wr (flush_state s))))
              then once_drain (FlushAgain c) (flush_state s)
              else once_drain (JustCall c) (flush_state s)
       end.
Proof.
  intros [Hc Hs]. unfold CopyBoth.flush.
  rewrite flush_loop_spec by (try assumption; reflexivity). cbn [bind].
  fold (flush_state s).
  destruct callback as [c|]; [|reflexivity].
  destruct (accepted _ _); [reflexivity|].
  destruct (Nat.ltb _ _); reflexivity.
Qed.

Lemma forallb_skipn {A} (f : A -> bool) n : forall l,
  forallb f l = true -> forallb f (skipn n l) = true.
Proof.
  induction n as [|n IH]; intros l H; [exact H|].
  destruct l as [|x l]; [reflexivity|]. cbn [skipn]. apply IH.
  cbn in H. apply andb_prop in H. tauto.
Qed.

Lemma flush_state_writable s : writable s -> writable (flush_state s).
Proof.
  intros [Hc Hs]. split; [exact Hc|].
  unfold flush_state. fields. apply forallb_skipn, Hs.
Qed.

Lemma flush_state_sent s :
  sent (trace (world (flush_state s)))
  = sent (trace (world s))
    ++ flat_map frame_writes
         (firstn (flushed (chunks (wr s)) (writes s)) (chunks (wr s))).
Proof. unfold flush_state, emits. fields. rewrite sent_app, sent_writes. reflexivity. Qed.

Lemma flush_state_chunks s :
  chunks (wr (flush_state s))
  = skipn (flushed (chunks (wr s)) (writes s)) (chunks (wr s)).
Proof. reflexivity. Qed.

(** A transport that never signals backpressure gets the whole queue. *)
Lemma flushed_all q : (forall k, writeReturns k = true) ->
  forall n, flushed q n = length q.
Proof.
  intros H. induction q as [|c q IH]; intros n; [reflexivity|].
  cbn [flushed length]. rewrite H, IH. reflexivity.
Qed.

Lemma flushed_le q : forall n, (flushed q n <= length q)%nat.
Proof.
  induction q as [|c q IH]; intros n; cbn [flushed length]; [lia|].
  destruct (writeReturns (S n)); [specialize (IH (S (S n)))|]; lia.
Qed.

(** A non-empty queue: at least its first chunk is written. *)
Lemma flushed_pos c q n : (0 < flushed (c :: q) n)%nat.
Proof. cbn [flushed]. destruct (writeReturns (S n)); lia. Qed.

Definition startCopyIn_state (s : CopyStreamQuery) : CopyStreamQuery :=
  let s3 := flush_state (emit Uncork (with_wr (set_gotCopyInResponse true) s)) in
  match cb (wr s) with
  | Some cb_ => emit (Call cb_) (with_wr (set_cb None) s3)
  | None => s3
  end.

Lemma startCopyIn_spec s :
  writable s -> _startCopyIn s = Ok (startCopyIn_state s).
Proof.
  intros Hw. unfold CopyBoth._startCopyIn, startCopyIn_state.
  rewrite flush_spec by exact Hw. cbn [bind].
  change (cb (wr (flush_state (emit Uncork (with_wr (set_gotCopyInResponse true) s)))))
    with (cb (wr s)).
  destruct (cb (wr s)); reflexivity.
Qed.

Lemma startCopyIn_state_writable s :
  writable s -> writable (startCopyIn_state s).
Proof.
  intros Hw. unfold startCopyIn_state.
  pose proof (flush_state_writable
                (emit Uncork (with_wr (set_gotCopyInResponse true) s)) Hw) as H.
  destruct (cb (wr s)); exact H.
Qed.

Lemma startCopyIn_state_sent s :
  sent (trace (world (startCopyIn_state s)))
  = sent (trace (world s))
    ++ flat_map frame_writes
         (firstn (flushed (chunks (wr s)) (writes s)) (chunks (wr s))).
Proof.
  unfold startCopyIn_state.
  assert (H : sent (trace (world (flush_state
                (emit Uncork (with_wr (set_gotCopyInResponse true) s)))))
              = sent (trace (world s))
                ++ flat_map frame_writes
                     (firstn (flushed (chunks (wr s)) (writes s)) (chunks (wr s)))).
  { rewrite flush_state_sent. fields.
    replace (writes (emit Uncork (with_wr (set_gotCopyInResponse true) s)))
      with (writes s)
      by (unfold writes; fields; rewrite sent_app; cbn; rewrite app_nil_r; reflexivity).
    rewrite sent_app. cbn [sent flat_map app]. rewrite app_nil_r. reflexivity. }
  destruct (cb (wr s)); [|exact H].
  fields. rewrite sent_app. cbn [sent flat_map app]. rewrite app_nil_r.
  exact H.
Qed.

Lemma startCopyIn_state_chunks s :
  chunks (wr (startCopyIn_state s))
  = skipn (flushed (chunks (wr s)) (writes s)) (chunks (wr s)).
Proof.
  unfold startCopyIn_state.
  assert (H : chunks (wr (flush_state
                (emit Uncork (with_wr (set_gotCopyInResponse true) s))))
              = skipn (flushed (chunks (wr s)) (writes s)) (chunks (wr s))).
  { rewrite flush_state_chunks. fields.
    replace (writes (emit Uncork (with_wr (set_gotCopyInResponse true) s)))
      with (writes s)
      by (unfold writes; fields; rewrite sent_app; cbn; rewrite app_nil_r; reflexivity).
    reflexivity. }
  destruct (cb (wr s)); exact H.
Qed.

Lemma startCopyIn_state_got s :
  _gotCopyInResponse (wr (startCopyIn_state s)) = true.
Proof. unfold startCopyIn_state. destruct (cb (wr s)); reflexivity. Qed.

(** Whenever they return, [flush] and [_startCopyIn] return these
    states. *)
Lemma stream_write_inv b s ok s' :
  stream_write b s = Ok (ok, s') ->
  connection (world s) = true /\ ok = writeReturns (writes s)
  /\ s' = emit (Write b) s.
Proof.
  unfold CopyBoth.stream_write. destruct (connection (world s)); [|discriminate].
  intros [= <- <-]. repeat split.
Qed.

Lemma flushChunk_inv chunk s ok s' :
  flushChunk chunk s = Ok (ok, s') ->
  connection (world s) = true /\ small chunk = true
  /\ ok = writeReturns (S (writes s)) /\ s' = emits (frame_writes chunk) s.
Proof.
  intros H.
  assert (Hc : connection (world s) = true /\ small chunk = true).
  { revert H. unfold CopyBoth.flushChunk, writeUInt32BE, small, Int32Len.
    destruct (0 <=? len chunk + 4); cbn [andb bind]; [|discriminate].
    destruct (len chunk + 4 <? 2 ^ 32); cbn [bind]; [|discriminate].
    unfold CopyBoth.stream_write.
    destruct (connection (world s)); [split; reflexivity|discriminate]. }
  destruct Hc as [Hc Hs]. rewrite (flushChunk_spec _ _ Hc Hs) in H.
  injection H as <- <-. repeat split; assumption.
Qed.

Lemma flush_loop_inv q : forall s ok s',
  chunks (wr s) = q -> flush_loop q true s = Ok (ok, s') ->
  ok = accepted q (writes s) /\ s' = flush_state s.
Proof.
  induction q as [|chunk q IH]; intros s ok s' Hq.
  - cbn. intros [= <- <-]. split; [reflexivity|].
    unfold flush_state. rewrite Hq. cbn.
    destruct s as [r [g ch c1 c2] [co tr dl rl dls inc con]].
    cbn in Hq. subst ch. unfold emits. normal_form. cbn [map].
    rewrite app_nil_r. reflexivity.
  - cbn [CopyBoth.flush_loop].
    destruct (flushChunk chunk (with_wr (set_chunks q) s)) as [[ok1 s1]| |] eqn:E;
      cbn [bind]; try discriminate.
    destruct (flushChunk_inv _ _ _ _ E) as (Hc & Hs & -> & ->).
    change (writes (with_wr (set_chunks q) s)) with (writes s).
    unfold flush_state. rewrite Hq. cbn [flushed accepted].
    destruct (writeReturns (S (writes s))).
    + intros H. apply IH in H; [|reflexivity].
      destruct H as [-> ->]. rewrite writes_emits. cbn [frame_writes length].
      replace (writes (with_wr (set_chunks q) s) + 2)%nat
        with (S (S (writes s))) by (unfold writes; cbn; lia).
      split; [reflexivity|].
      unfold flush_state. fields. rewrite writes_emits.
      cbn [frame_writes length].
      replace (writes (with_wr (set_chunks q) s) + 2)%nat
        with (S (S (writes s))) by (unfold writes; cbn; lia).
      cbn [firstn skipn flat_map].
      unfold emits. normal_form. rewrite map_app, app_assoc. reflexivity.
    + destruct q; intros [= <- <-]; split; reflexivity.
Qed.

Definition flush_result (callback : option Callback) (s : CopyStreamQuery)
  : CopyStreamQuery :=
  match callback with
  | None => flush_state s
  | Some c =>
    if accepted (chunks (wr s)) (writes s)
    then emit (Call c) (flush_state s)
    else if Nat.ltb 0 (length (chunks (wr (flush_state s))))
         then once_drain (FlushAgain c) (flush_state s)
         else once_drain (JustCall c) (flush_state s)
  end.

Lemma flush_inv callback s s' :
  flush callback s = Ok s' -> s' = flush_result callback s.
Proof.
  unfold CopyBoth.flush.
  destruct (flush_loop (chunks (wr s)) true s) as [[ok s1]| |] eqn:E;
    cbn [bind]; try discriminate.
  destruct (flush_loop_inv _ _ _ _ eq_refl E) as [-> ->].
  unfold flush_result. destruct callback as [c|]; [|congruence].
  destruct (accepted _ _); [congruence|].
  destruct (Nat.ltb _ _); congruence.
Qed.

Lemma startCopyIn_inv s s' :
  _startCopyIn s = Ok s' -> s' = startCopyIn_state s.
Proof.
  unfold CopyBoth._startCopyIn, startCopyIn_state.
  destruct (flush None _) as [s3| |] eqn:E; cbn [bind]; try discriminate.
  apply flush_inv in E. subst s3. cbn [flush_result].
  change (cb (wr (flush_state (emit Uncork (with_wr (set_gotCopyInResponse true) s)))))
    with (cb (wr s)).
  destruct (cb (wr s)); congruence.
Qed.

(** *** What the decoder can do to the instance

    Every change [_parse] makes before it detaches is one of these. *)
Inductive Micro : CopyStreamQuery -> CopyStreamQuery -> Prop :=
| mc_code s c b :
    _buffer (rd s) = Some (c :: b) ->
    Micro s (consume [c]
               (with_rd (fun r => set_state PG_LENGTH (set_buffer (Some b) r))
                  (with_rd (set_code (Some c)) s)))
| mc_length s b0 b1 b2 b3 b :
    _buffer (rd s) = Some (b0 :: b1 :: b2 :: b3 :: b) ->
    Micro s (consume [b0; b1; b2; b3]
               (with_rd (fun r =>
                  set_state PG_MESSAGE
                    (set_unreadMessageContentLength (be32 b0 b1 b2 b3 - 4)
                       (set_buffer (Some b) r))) s))
| mc_take s b n :
    _buffer (rd s) = Some b ->
    Micro s (consume (firstn n b)
               (with_rd (fun r =>
                  set_unreadMessageContentLength
                    (_unreadMessageContentLength r - Z.of_nat n)
                    (set_buffer (Some (skipn n b)) r)) s))
| mc_data s cd chunk :
    code_is (_code (rd s)) (CopyData code) = true ->
    _copyDataChunks (rd s) = Some cd ->
    Micro s (with_rd (set_copyDataChunks (Some (cd ++ chunk))) s)
| mc_ack s :
    code_is (_code (rd s)) (CopyBothResponse code) = true ->
    Micro s (startCopyIn_state s)
| mc_push s cd :
    _copyDataChunks (rd s) = Some cd ->
    Micro s (emit (Push cd) (with_rd (set_copyDataChunks (Some [])) s))
| mc_reset s :
    Micro s (with_rd (set_state PG_CODE) s).

Inductive Micros : CopyStreamQuery -> CopyStreamQuery -> Prop :=
| ms_refl s : Micros s s
| ms_step s s1 s2 : Micro s s1 -> Micros s1 s2 -> Micros s s2.

Lemma micros_one s s' : Micro s s' -> Micros s s'.
Proof. intros H. eapply ms_step; [exact H|apply ms_refl]. Qed.

Lemma micros_trans s s1 s2 : Micros s s1 -> Micros s1 s2 -> Micros s s2.
Proof.
  induction 1 as [|s s0 s1 H _ IH]; [trivial|].
  intros H2. eapply ms_step; [exact H|]. apply IH, H2.
Qed.

Lemma micros_preserve (R : CopyStreamQuery -> CopyStreamQuery -> Prop) :
  (forall s, R s s) ->
  (forall s s1 s2, R s s1 -> R s1 s2 -> R s s2) ->
  (forall s s', Micro s s' -> R s s') ->
  forall s s', Micros s s' -> R s s'.
Proof.
  intros Hrefl Htrans Hstep s s'. induction 1 as [|s s0 s1 H _ IH];
    [apply Hrefl|].
  eapply Htrans; [apply Hstep, H|exact IH].
Qed.

(** The instance after [_detach], [b] being the contents of [_buffer]. *)
Definition detach_state (b : Buffer) (s : CopyStreamQuery) : CopyStreamQuery :=
  emit ResumeNextTick
    (emit (HandBack b)
       (with_world (fun w => set_dataListeners (S (dataListeners w)) w)
          (with_world (set_readableListener false)
             (with_rd (set_buffer (Some [])) s)))).

Lemma detach_inv s s' :
  _detach s = Ok s' ->
  exists b, _buffer (rd s) = Some b /\ s' = detach_state b s.
Proof.
  unfold CopyBoth._detach. destruct (connection (world s)); [|discriminate].
  destruct (_buffer (rd s)) as [b|]; [|discriminate]. fields.
  destruct (_pgDataHandler (rd s)); [|discriminate].
  intros [= <-]. exists b. split; reflexivity.
Qed.

Lemma detach_spec s b :
  connection (world s) = true -> _pgDataHandler (rd s) = true ->
  _buffer (rd s) = Some b -> _detach s = Ok (detach_state b s).
Proof.
  intros Hc Hh Hb. unfold CopyBoth._detach. rewrite Hc, Hb. fields.
  rewrite Hh. reflexivity.
Qed.

Lemma block_code_micro s s' : block_code s = Ok (Next s') -> Micros s s'.
Proof.
  unfold CopyBoth.block_code.
  destruct (DecoderState_eqb PG_CODE (_state (rd s)));
    [|intros [= <-]; apply ms_refl].
  destruct (_buffer (rd s)) as [[|c b]|] eqn:Hb; try discriminate.
  destruct (is_code c (ErrorResponse code)).
  - destruct (_detach _); discriminate.
  - intros [= <-]. apply micros_one, mc_code, Hb.
Qed.

(** [return] from the PG_CODE block: the ErrorResponse interception. *)
Lemma block_code_return s s' :
  block_code s = Ok (Return s') ->
  exists c b,
    _state (rd s) = PG_CODE /\ _buffer (rd s) = Some (c :: b)
    /\ is_code c (ErrorResponse code) = true
    /\ s' = detach_state (c :: b) (with_rd (set_code (Some c)) s).
Proof.
  unfold CopyBoth.block_code.
  destruct (_state (rd s)); cbn [DecoderState_eqb]; try discriminate.
  destruct (_buffer (rd s)) as [[|c b]|] eqn:Hb; try discriminate.
  destruct (is_code c (ErrorResponse code)) eqn:Ec; [|discriminate].
  destruct (_detach _) as [s1| |] eqn:Ed; cbn [bind]; try discriminate.
  intros [= <-]. exists c, b.
  destruct (detach_inv _ _ Ed) as (b' & Hb' & ->).
  fields. rewrite Hb in Hb'. injection Hb' as <-. repeat split. exact Ec.
Qed.

Lemma block_length_micro s s' : block_length s = Ok (Next s') -> Micros s s'.
Proof.
  unfold CopyBoth.block_length.
  destruct (DecoderState_eqb PG_LENGTH (_state (rd s)));
    [|intros [= <-]; apply ms_refl].
  destruct (_buffer (rd s)) as [[|b0 [|b1 [|b2 [|b3 b]]]]|] eqn:Hb;
    try discriminate.
  intros [= <-]. apply micros_one, mc_length, Hb.
Qed.

Lemma block_length_no_return s s' : block_length s <> Ok (Return s').
Proof.
  unfold CopyBoth.block_length.
  destruct (DecoderState_eqb PG_LENGTH (_state (rd s))); [|discriminate].
  destruct (_buffer (rd s)) as [[|b0 [|b1 [|b2 [|b3 b]]]]|]; discriminate.
Qed.

Lemma take_content_micro s s' : take_content s = Ok s' -> Micros s s'.
Proof.
  unfold CopyBoth.take_content.
  destruct (_buffer (rd s)) as [b|] eqn:Hb; [|discriminate].
  destruct (_ && _) eqn:E; [|intros [= <-]; apply ms_refl].
  assert (Hn : Z.of_nat (Z.to_nat (Z.min (len b)
                 (_unreadMessageContentLength (rd s))))
               = Z.min (len b) (_unreadMessageContentLength (rd s))).
  { apply andb_prop in E. destruct E as [E1 E2].
    apply Z.ltb_lt in E1, E2. lia. }
  pose proof (mc_take s b (Z.to_nat (Z.min (len b)
                (_unreadMessageContentLength (rd s)))) Hb) as Htake.
  rewrite Hn in Htake.
  destruct (code_is _ _) eqn:Ec.
  - destruct (_copyDataChunks _) as [cd|] eqn:Hcd; [|discriminate].
    intros [= <-]. eapply ms_step; [exact Htake|].
    apply micros_one, mc_data; assumption.
  - intros [= <-]. apply micros_one, Htake.
Qed.

Lemma flushCopyData_micro s d s' :
  _flushCopyData s = Ok (d, s') -> Micros s s'.
Proof.
  unfold CopyBoth._flushCopyData.
  destruct (_copyDataChunks (rd s)) as [cd|] eqn:Hcd; [|discriminate].
  destruct (0 <? len cd); intros [= _ <-]; [|apply ms_refl].
  apply micros_one, mc_push, Hcd.
Qed.

Lemma switch_micro s d dr s' : switch s = Ok (d, dr, s') -> Micros s s'.
Proof.
  unfold CopyBoth.switch.
  destruct (code_is _ (CopyBothResponse code)) eqn:Ew.
  { destruct (_startCopyIn s) as [s1| |] eqn:E; cbn [bind]; try discriminate.
    intros [= _ _ <-]. apply startCopyIn_inv in E. subst s1.
    apply micros_one, mc_ack, Ew. }
  destruct (code_is _ (CopyData code)).
  { destruct (rowMode (rd s)); [|intros [= _ _ <-]; apply ms_refl].
    destruct (_flushCopyData s) as [[d1 s1]| |] eqn:E; cbn [bind];
      try discriminate.
    intros [= _ _ <-]. eapply flushCopyData_micro, E. }
  destruct (_ || _); intros [= _ _ <-]; apply ms_refl.
Qed.

Lemma block_message_micro s d dr s' :
  block_message s = Ok (d, dr, s') -> Micros s s'.
Proof.
  unfold CopyBoth.block_message.
  destruct (DecoderState_eqb PG_MESSAGE (_state (rd s)));
    [|intros [= _ _ <-]; apply ms_refl].
  destruct (take_content s) as [s1| |] eqn:Et; cbn [bind]; try discriminate.
  apply take_content_micro in Et.
  destruct (_ =? 0); [|intros [= _ _ <-]; exact Et].
  destruct (switch s1) as [[[d1 dr1] s2]| |] eqn:Es; cbn [bind];
    try discriminate.
  intros [= _ _ <-]. apply switch_micro in Es.
  eapply micros_trans; [exact Et|].
  eapply micros_trans; [exact Es|]. apply micros_one, mc_reset.
Qed.

(** One pass. *)
Lemma body_micro s p :
  body s = Ok p ->
  match p with
  | Again _ _ s' | Broke s' => Micros s s'
  | Left s' =>
    exists c b,
      _state (rd s) = PG_CODE /\ _buffer (rd s) = Some (c :: b)
      /\ is_code c (ErrorResponse code) = true
      /\ s' = detach_state (c :: b) (with_rd (set_code (Some c)) s)
  end.
Proof.
  rewrite body_unfold.
  destruct (block_code s) as [[s1|s1|s1]| |] eqn:Ec; cbn [bind];
    try discriminate.
  - apply block_code_micro in Ec. unfold from_length.
    destruct (block_length s1) as [[s2|s2|s2]| |] eqn:El; cbn [bind];
      try discriminate.
    + apply block_length_micro in El. unfold from_message.
      destruct (block_message s2) as [[[d dr] s3]| |] eqn:Em; cbn [bind];
        try discriminate.
      intros [= <-]. apply block_message_micro in Em.
      eapply micros_trans; [exact Ec|]. eapply micros_trans; eassumption.
    + intros [= <-].
      destruct (block_length_break _ _ El) as (-> & _). exact Ec.
    + elim (block_length_no_return _ _ El).
  - intros [= <-]. unfold CopyBoth.block_code in Ec.
    destruct (DecoderState_eqb PG_CODE (_state (rd s))); [|discriminate].
    destruct (_buffer (rd s)) as [[|c b]|]; try discriminate.
    + injection Ec as <-. apply ms_refl.
    + destruct (is_code c _); [destruct (_detach _)|]; discriminate.
  - intros [= <-]. apply block_code_return, Ec.
Qed.

(** The loop: either it is left by its condition or a [break], after
    changes of the kinds above, or by the ErrorResponse [return]. *)
Lemma loops_micro done s r :
  Loops done s r ->
  match r with
  | Ok (Some _, s') => Micros s s'
  | Ok (None, s') =>
    exists s1 c b,
      Micros s s1 /\ _state (rd s1) = PG_CODE
      /\ _buffer (rd s1) = Some (c :: b)
      /\ is_code c (ErrorResponse code) = true
      /\ s' = detach_state (c :: b) (with_rd (set_code (Some c)) s1)
  | _ => True
  end.
Proof.
  induction 1 as [s|s Hn|s He|s e Hsz Hb|s s1 Hsz Hb|s s1 Hsz Hb
                  |s d dr s1 r Hsz Hb H IH]; trivial; try apply ms_refl.
  - exact (body_micro _ _ Hb).
  - destruct (body_micro _ _ Hb) as (c & b & H). exists s, c, b.
    split; [apply ms_refl|exact H].
  - pose proof (body_micro _ _ Hb) as Hm. cbn in Hm.
    destruct r as [[[x|] s']| |]; trivial.
    + eapply micros_trans; eassumption.
    + destruct IH as (s2 & c & b & Hm2 & Hrest).
      exists s2, c, b. split; [eapply micros_trans; eassumption|exact Hrest].
Qed.

(** *** What a call of [_parse] comes to

    [Parsed s0 r s']: from [s0] (the instance with the chunk pushed into
    [_buffer]), the call returns [r] and leaves [s']: the transfer goes on,
    or it is over ([done]), or an ErrorResponse was intercepted. *)
Inductive Parsed (s0 : CopyStreamQuery)
  : option bool -> CopyStreamQuery -> Prop :=
| pd_on drained s' :
    Micros s0 s' -> Parsed s0 (Some drained) s'
| pd_done drained s2 b2 :
    Micros s0 s2 -> _buffer (rd s2) = Some b2 ->
    Parsed s0 (Some drained) (_cleanup (emit PushNull (detach_state b2 s2)))
| pd_error s1 c b :
    Micros s0 s1 -> _state (rd s1) = PG_CODE ->
    _buffer (rd s1) = Some (c :: b) ->
    is_code c (ErrorResponse code) = true ->
    Parsed s0 None (detach_state (c :: b) (with_rd (set_code (Some c)) s1)).

Lemma append_some y s b :
  _buffer (rd s) = Some b ->
  with_rd (set_buffer (Some (b ++ y))) s = append y s.
Proof.
  intros Hb. unfold append, with_rd. rewrite Hb. reflexivity.
Qed.

Lemma parse_with_parsed fuel chunk s r s' :
  parse_with fuel chunk s = Ok (r, s') -> Parsed (append chunk s) r s'.
Proof.
  unfold CopyBoth.parse_with.
  destruct (_buffer (rd s)) as [b|] eqn:Hb; [|discriminate].
  rewrite (append_some chunk s b Hb).
  destruct (parse_loop fuel false true (append chunk s)) as [e| |] eqn:El;
    cbn [bind]; try discriminate.
  assert (HL : Loops false (append chunk s) (rmap outcome (Ok e))).
  { eapply loops_of_parse_loop; [exact El|discriminate]. }
  apply loops_micro in HL. destruct e as [done drained s1|s1]; cbn in HL.
  - assert (Hflush : forall d1 s2,
      (if negb (rowMode (rd s1)) then _flushCopyData s1 else Ok (drained, s1))
      = Ok (d1, s2) -> Micros (append chunk s) s2).
    { intros d1 s2. destruct (negb (rowMode (rd s1))).
      - intros E. eapply micros_trans; [exact HL|].
        eapply flushCopyData_micro, E.
      - intros [= _ <-]. exact HL. }
    destruct (if negb (rowMode (rd s1)) then _flushCopyData s1
              else Ok (drained, s1)) as [[d1 s2]| |]; cbn [bind];
      try discriminate.
    specialize (Hflush d1 s2 eq_refl).
    destruct done.
    + destruct (_detach s2) as [s3| |] eqn:Ed; cbn [bind]; try discriminate.
      intros [= <- <-]. destruct (detach_inv _ _ Ed) as (b2 & Hb2 & ->).
      apply pd_done; assumption.
    + intros [= <- <-]. apply pd_on, Hflush.
  - intros [= <- <-]. destruct HL as (s2 & c & b' & Hm & Hst & Hb2 & Hc & ->).
    apply pd_error; assumption.
Qed.

Lemma parse_parsed chunk s r s' :
  _parse chunk s = Ok (r, s') -> Parsed (append chunk s) r s'.
Proof.
  unfold CopyBoth._parse. destruct (_buffer (rd s)); [|discriminate].
  apply parse_with_parsed.
Qed.

(** *** The decoder of copy-both raises no error

    No change the decoder makes emits 'error'. *)
Lemma errors_emits bs s :
  errors (trace (world (emits bs s))) = errors (trace (world s)).
Proof.
  unfold emits. fields. rewrite errors_app.
  replace (errors (map Write bs)) with (@nil ErrorMessage);
    [apply app_nil_r|].
  induction bs; [reflexivity|assumption].
Qed.

Lemma errors_startCopyIn_state s :
  errors (trace (world (startCopyIn_state s))) = errors (trace (world s)).
Proof.
  unfold startCopyIn_state, flush_state.
  destruct (cb (wr s)); fields; rewrite ?errors_app; cbn [errors flat_map];
    rewrite ?app_nil_r.
  - change (trace (world (emits ?bs ?x))) with (trace (world (emits bs x))).
    match goal with
    | |- errors (trace (world (emits ?bs ?x))) = _ =>
      rewrite (errors_emits bs x)
    end.
    fields. rewrite errors_app. cbn. apply app_nil_r.
  - match goal with
    | |- errors (trace (world (emits ?bs ?x))) = _ =>
      rewrite (errors_emits bs x)
    end.
    fields. rewrite errors_app. cbn. apply app_nil_r.
Qed.

Lemma micro_errors s s' :
  Micro s s' -> errors (trace (world s')) = errors (trace (world s)).
Proof.
  destruct 1; try reflexivity.
  - apply errors_startCopyIn_state.
  - fields. rewrite errors_app. cbn. apply app_nil_r.
Qed.

Lemma micros_errors s s' :
  Micros s s' -> errors (trace (world s')) = errors (trace (world s)).
Proof.
  apply (micros_preserve
           (fun s s' => errors (trace (world s')) = errors (trace (world s)))).
  - reflexivity.
  - intros. congruence.
  - apply micro_errors.
Qed.

Lemma errors_detach_state b s :
  errors (trace (world (detach_state b s))) = errors (trace (world s)).
Proof.
  unfold detach_state. fields. rewrite !errors_app. cbn.
  rewrite !app_nil_r. reflexivity.
Qed.

Lemma parse_no_error chunk s r s' :
  _parse chunk s = Ok (r, s') ->
  errors (trace (world s')) = errors (trace (world s)).
Proof.
  intros H. apply parse_parsed in H.
  destruct H as [dr s' Hm|dr s2 b2 Hm Hb2|s1 c b Hm Hst Hb1 Hc].
  - apply (micros_errors _ _ Hm).
  - change (errors (trace (world (detach_state b2 s2)) ++ [PushNull])
            = errors (trace (world s))).
    rewrite errors_app, errors_detach_state.
    change (errors [PushNull]) with (@nil ErrorMessage). rewrite app_nil_r.
    apply (micros_errors _ _ Hm).
  - rewrite errors_detach_state. apply (micros_errors _ _ Hm).
Qed.

(** *** Byte accounting

    Before it detaches, the decoder moves bytes from [_buffer] to
    [consumed] and does nothing else to them; it hands nothing back and
    stays attached. *)
Definition held (s : CopyStreamQuery) : Buffer :=
  match _buffer (rd s) with
  | Some b => b
  | None => []
  end.

Definition steady (s s' : CopyStreamQuery) : Prop :=
  consumed (world s') ++ held s' = consumed (world s) ++ held s
  /\ handedBack (trace (world s')) = handedBack (trace (world s))
  /\ readableListener (world s') = readableListener (world s).

Lemma handedBack_emits bs s :
  handedBack (trace (world (emits bs s))) = handedBack (trace (world s)).
Proof.
  unfold emits. fields. rewrite handedBack_app.
  replace (handedBack (map Write bs)) with (@nil Buffer); [apply app_nil_r|].
  induction bs; [reflexivity|assumption].
Qed.

Lemma handedBack_emit e s :
  handedBack (trace (world (emit e s)))
  = handedBack (trace (world s)) ++ handedBack [e].
Proof. unfold emit. fields. apply handedBack_app. Qed.

Lemma steady_startCopyIn_state s : steady s (startCopyIn_state s).
Proof.
  unfold startCopyIn_state, flush_state.
  set (s2 := emit Uncork (with_wr (set_gotCopyInResponse true) s)).
  set (bs := flat_map frame_writes _).
  set (q := skipn _ _).
  assert (H : steady s (emits bs (with_wr (set_chunks q) s2))).
  { split; [reflexivity|]. split; [|reflexivity].
    rewrite handedBack_emits. subst s2. fields.
    rewrite handedBack_app. apply app_nil_r. }
  destruct (cb (wr s)) as [c|]; [|exact H].
  destruct H as (H1 & H2 & H3). split; [exact H1|]. split; [|exact H3].
  rewrite handedBack_emit. cbn [handedBack flat_map app]. rewrite app_nil_r.
  exact H2.
Qed.

Lemma micro_steady s s' : Micro s s' -> steady s s'.
Proof.
  destruct 1 as [s c b Hb|s b0 b1 b2 b3 b Hb|s b n Hb|s cd chunk Hc Hcd
                 |s Hc|s cd Hcd|s].
  - unfold steady, held. fields. rewrite Hb, <- app_assoc. repeat split.
  - unfold steady, held. fields. rewrite Hb, <- app_assoc. repeat split.
  - unfold steady, held. fields.
    rewrite Hb, <- app_assoc, firstn_skipn. repeat split.
  - repeat split.
  - apply steady_startCopyIn_state.
  - unfold steady, held. fields. rewrite handedBack_app.
    cbn [handedBack flat_map app]. rewrite app_nil_r. repeat split.
  - repeat split.
Qed.

Lemma micros_steady s s' : Micros s s' -> steady s s'.
Proof.
  apply (micros_preserve steady).
  - intros; repeat split.
  - intros s0 s1 s2 (A1 & A2 & A3) (B1 & B2 & B3).
    repeat split; congruence.
  - apply micro_steady.
Qed.

(** One call of [_parse]: the bytes handed back are what is left in
    [_buffer] when the instance detaches, and with the bytes consumed they
    are the bytes that came in. *)
Lemma parse_accounting chunk s r s' b :
  _buffer (rd s) = Some b ->
  _parse chunk s = Ok (r, s') ->
  (readableListener (world s') = readableListener (world s)
   /\ handedBack (trace (world s')) = handedBack (trace (world s))
   /\ _buffer (rd s') <> None
   /\ consumed (world s') ++ held s' = consumed (world s) ++ b ++ chunk)
  \/ (readableListener (world s') = false
      /\ exists unreadBuffer,
           handedBack (trace (world s'))
           = handedBack (trace (world s)) ++ [unreadBuffer]
           /\ consumed (world s') ++ unreadBuffer
              = consumed (world s) ++ b ++ chunk).
Proof.
  intros Hb H. apply parse_parsed in H.
  assert (Hheld : held (append chunk s) = b ++ chunk).
  { unfold held. rewrite (append_buffer chunk s b Hb). reflexivity. }
  destruct H as [dr s' Hm|dr s2 b2 Hm Hb2|s1 c b1 Hm Hst Hb1 Hc].
  - left. destruct (micros_steady _ _ Hm) as (H1 & H2 & H3).
    rewrite Hheld in H1. repeat split; try assumption.
    (* the accumulator is still there *)
    clear - Hm Hb. intros Hnone.
    assert (Hsome : _buffer (rd (append chunk s)) <> None)
      by (rewrite (append_buffer chunk s b Hb); discriminate).
    revert Hsome Hnone.
    induction Hm as [|s0 s1 s2 Hstep _ IH]; [tauto|].
    intros Hsome. apply IH.
    destruct Hstep; fields; try discriminate; try assumption.
    unfold startCopyIn_state, flush_state.
    destruct (cb (wr s0)); exact Hsome.
  - right. split; [reflexivity|]. exists b2.
    destruct (micros_steady _ _ Hm) as (H1 & H2 & H3).
    rewrite Hheld in H1. unfold held in H1. rewrite Hb2 in H1.
    split; [|exact H1].
    change (handedBack (trace (world (detach_state b2 s2)) ++ [PushNull])
            = handedBack (trace (world s)) ++ [b2]).
    rewrite handedBack_app. unfold detach_state. rewrite !handedBack_emit.
    fields. cbn [handedBack flat_map app]. rewrite !app_nil_r.
    change (trace (world (append chunk s))) with (trace (world s)) in H2.
    rewrite H2. reflexivity.
  - right. split; [reflexivity|]. exists (c :: b1).
    destruct (micros_steady _ _ Hm) as (H1 & H2 & H3).
    rewrite Hheld in H1. unfold held in H1. rewrite Hb1 in H1.
    split; [|exact H1].
    unfold detach_state. rewrite !handedBack_emit.
    fields. cbn [handedBack flat_map app]. rewrite !app_nil_r.
    change (trace (world (append chunk s))) with (trace (world s)) in H2.
    rewrite H2. reflexivity.
Qed.

Lemma feed_detached cs s :
  readableListener (world s) = false -> feed cs s = Ok s.
Proof. intros H. destruct cs; cbn [CopyBoth.feed]; [|rewrite H]; reflexivity. Qed.

(** *** The acknowledgment gate

    [_gotCopyInResponse] is never reset, and for as long as it is [false]
    the decoder leaves the write side, the writes made and the 'drain'
    listeners as they are. *)
Definition gate (s s' : CopyStreamQuery) : Prop :=
  (_gotCopyInResponse (wr s) = true -> _gotCopyInResponse (wr s') = true)
  /\ (_gotCopyInResponse (wr s') = false ->
      wr s' = wr s
      /\ sent (trace (world s')) = sent (trace (world s))
      /\ drainListeners (world s') = drainListeners (world s)).

Lemma gate_refl s : gate s s.
Proof. split; [tauto|]. intros _. repeat split. Qed.

Lemma gate_trans s s1 s2 : gate s s1 -> gate s1 s2 -> gate s s2.
Proof.
  intros [A1 A2] [B1 B2]. split; [tauto|]. intros H.
  destruct (_gotCopyInResponse (wr s1)) eqn:E; [rewrite B1 in H; [discriminate|reflexivity]|].
  destruct (B2 H) as (H1 & H2 & H3). destruct (A2 eq_refl) as (H4 & H5 & H6).
  repeat split; congruence.
Qed.

Lemma sent_emit e s :
  sent (trace (world (emit e s))) = sent (trace (world s)) ++ sent [e].
Proof. unfold emit. fields. apply sent_app. Qed.

Lemma micro_gate s s' : Micro s s' -> gate s s'.
Proof.
  destruct 1 as [s c b Hb|s b0 b1 b2 b3 b Hb|s b n Hb|s cd chunk Hc Hcd
                 |s Hc|s cd Hcd|s];
    try (split; [intros Hg; exact Hg|intros _; repeat split]).
  - split; [intros _; apply startCopyIn_state_got|intros Hg].
    rewrite startCopyIn_state_got in Hg. discriminate.
  - rewrite sent_emit. apply app_nil_r.
Qed.

Lemma micros_gate s s' : Micros s s' -> gate s s'.
Proof.
  apply (micros_preserve gate); [apply gate_refl|apply gate_trans|apply micro_gate].
Qed.

Lemma gate_detach_state b s : gate s (detach_state b s).
Proof.
  split; [tauto|]. intros _. repeat split.
  unfold detach_state. rewrite !sent_emit. cbn [sent flat_map app].
  rewrite !app_nil_r. reflexivity.
Qed.

Lemma parse_gate chunk s r s' : _parse chunk s = Ok (r, s') -> gate s s'.
Proof.
  intros H. apply parse_parsed in H.
  assert (H0 : gate s (append chunk s)).
  { split; [intros Hg; exact Hg|intros _; repeat split]. }
  destruct H as [dr s' Hm|dr s2 b2 Hm Hb2|s1 c b Hm Hst Hb1 Hc].
  - eapply gate_trans; [exact H0|]. apply micros_gate, Hm.
  - eapply gate_trans; [exact H0|]. eapply gate_trans; [apply micros_gate, Hm|].
    eapply gate_trans; [apply (gate_detach_state b2)|].
    split; [tauto|]. intros _. repeat split.
    change (sent (trace (world (detach_state b2 s2)) ++ [PushNull])
            = sent (trace (world (detach_state b2 s2)))).
    rewrite sent_app. apply app_nil_r.
  - eapply gate_trans; [exact H0|]. eapply gate_trans; [apply micros_gate, Hm|].
    eapply gate_trans; [|apply gate_detach_state].
    split; [intros Hg; exact Hg|intros _; repeat split].
Qed.

Lemma flush_result_got callback s :
  _gotCopyInResponse (wr (flush_result callback s)) = _gotCopyInResponse (wr s).
Proof.
  unfold flush_result. destruct callback; [|reflexivity].
  destruct (accepted _ _); [reflexivity|]. destruct (Nat.ltb _ _); reflexivity.
Qed.

Lemma call_listeners_got ls : forall s s',
  call_listeners code writeReturns ls s = Ok s' ->
  _gotCopyInResponse (wr s') = _gotCopyInResponse (wr s).
Proof.
  induction ls as [|[c|c] ls IH]; intros s s'; cbn [call_listeners].
  - intros [= <-]. reflexivity.
  - destruct (flush (Some c) s) as [s1| |] eqn:E; cbn [bind]; try discriminate.
    intros H. apply IH in H. apply flush_inv in E. subst s1.
    rewrite H. apply flush_result_got.
  - intros H. apply IH in H. exact H.
Qed.

(** Before the acknowledgment: nothing has been written to the transport
    but the CopyDone frame of an end of input, no 'drain' listener is
    registered, and the queue is empty unless a write callback is held. *)
Definition unacknowledged (s : CopyStreamQuery) : Prop :=
  _gotCopyInResponse (wr s) = false ->
  Forall (eq (finBuffer code)) (sent (trace (world s)))
  /\ drainListeners (world s) = []
  /\ (cb (wr s) = None -> chunks (wr s) = []).

Lemma step_unacknowledged o s s' :
  unacknowledged s -> permitted o s = true ->
  step code writeReturns pushReturns o s = Ok s' -> unacknowledged s'.
Proof.
  intros Hinv Hperm Hstep Hgot'. destruct o as [chunk c|cs c|c|chunk|];
    cbn [step permitted] in *.
  - (* _write *)
    revert Hstep. unfold CopyBoth._write. fields.
    destruct (_gotCopyInResponse (wr s)) eqn:Hgot.
    + intros E. apply flush_inv in E. subst s'.
      rewrite flush_result_got in Hgot'. cbn in Hgot'. congruence.
    + intros [= <-]. destruct (Hinv Hgot) as (H1 & H2 & _).
      repeat split; try assumption. discriminate.
  - (* _writev *)
    revert Hstep. unfold CopyBoth._writev. fields.
    destruct (_gotCopyInResponse (wr s)) eqn:Hgot.
    + intros E. apply flush_inv in E. subst s'.
      rewrite flush_result_got in Hgot'. cbn in Hgot'. congruence.
    + intros [= <-]. destruct (Hinv Hgot) as (H1 & H2 & _).
      repeat split; try assumption. discriminate.
  - (* _final *)
    revert Hstep. unfold CopyBoth._final.
    destruct (flush None s) as [s1| |] eqn:E; cbn [bind]; try discriminate.
    apply flush_inv in E. subst s1. cbn [flush_result].
    destruct (stream_write _ _) as [[ok s2]| |] eqn:Ew; cbn [bind];
      try discriminate.
    intros [= <-]. destruct (stream_write_inv _ _ _ _ Ew) as (_ & _ & ->).
    assert (Hgot : _gotCopyInResponse (wr s) = false) by exact Hgot'.
    destruct (Hinv Hgot) as (H1 & H2 & H3).
    assert (Hcb : cb (wr s) = None).
    { unfold pending in Hperm. destruct (cb (wr s)); [discriminate|reflexivity]. }
    specialize (H3 Hcb).
    assert (Hfs : flush_state s = emits [] s).
    { unfold flush_state. rewrite H3. cbn.
      destruct s as [r [g ch c1 c2] w]. cbn in H3. subst ch. reflexivity. }
    rewrite Hfs. split; [|split].
    + change (Forall (eq (finBuffer code))
                (sent (trace (world (emit (Write (finBuffer code)) (emits [] s)))))).
      rewrite sent_emit. unfold emits. fields. cbn [map].
      rewrite app_nil_r. apply Forall_app. split; [exact H1|].
      repeat constructor.
    + exact H2.
    + intros _. exact H3.
  - (* _parse *)
    destruct (_parse chunk s) as [[r s1]| |] eqn:E; cbn [bind] in Hstep;
      try discriminate.
    injection Hstep as ->. destruct (parse_gate _ _ _ _ E) as [G1 G2].
    destruct (G2 Hgot') as (Hwr & Hsent & Hdrain).
    assert (Hgot : _gotCopyInResponse (wr s) = false) by (rewrite <- Hwr; exact Hgot').
    destruct (Hinv Hgot) as (H1 & H2 & H3).
    rewrite Hwr, Hsent, Hdrain. repeat split; assumption.
  - (* 'drain' *)
    unfold on_drain in Hstep.
    assert (Hgot : _gotCopyInResponse (wr s) = false).
    { apply call_listeners_got in Hstep. cbn in Hstep. congruence. }
    destruct (Hinv Hgot) as (H1 & H2 & H3).
    rewrite H2 in Hstep. cbn [call_listeners] in Hstep. injection Hstep as <-.
    repeat split; assumption.
Qed.

Lemma steps_unacknowledged os : forall s s',
  unacknowledged s -> respects code writeReturns pushReturns os s = true ->
  steps code writeReturns pushReturns os s = Ok s' -> unacknowledged s'.
Proof.
  induction os as [|o os IH]; intros s s' Hinv Hres.
  - cbn. intros [= <-]. exact Hinv.
  - cbn [steps respects] in *. apply andb_prop in Hres. destruct Hres as [Hp Hres].
    destruct (step code writeReturns pushReturns o s) as [s1| |] eqn:E;
      cbn [bind]; try discriminate.
    apply IH; [|exact Hres]. eapply step_unacknowledged; eassumption.
Qed.

(** *** A whole frame at the head of the accumulator

    One pass takes it: the code byte, the length, the content, then the
    [switch].  [decoded f rest s] is the instance when the [switch] is
    reached. *)
Local Abbreviation classify := (classify code).

Definition decoded (f : Frame) (rest : Buffer) (s : CopyStreamQuery)
  : CopyStreamQuery :=
  consume (encode f)
    (with_rd (fun r =>
       set_state PG_MESSAGE
         (set_unreadMessageContentLength 0
            (set_buffer (Some rest)
               (set_code (Some (fcode f))
                  (set_copyDataChunks
                     (if is_code (fcode f) (CopyData code)
                      then option_map (fun cd => cd ++ payload f)
                             (_copyDataChunks r)
                      else _copyDataChunks r) r))))) s).

Definition close (r : bool * option bool * CopyStreamQuery) : Pass :=
  let '(done, drained, s) := r in Again done drained (with_rd (set_state PG_CODE) s).

Lemma block_code_next s c b :
  _state (rd s) = PG_CODE -> _buffer (rd s) = Some (c :: b) ->
  is_code c (ErrorResponse code) = false ->
  block_code s
  = Ok (Next (consume [c]
                (with_rd (fun r => set_state PG_LENGTH (set_buffer (Some b) r))
                   (with_rd (set_code (Some c)) s)))).
Proof.
  intros Hst Hb Hc. unfold CopyBoth.block_code. rewrite Hst, Hb, Hc.
  reflexivity.
Qed.

Lemma block_length_next s b0 b1 b2 b3 b :
  _state (rd s) = PG_LENGTH ->
  _buffer (rd s) = Some (b0 :: b1 :: b2 :: b3 :: b) ->
  block_length s
  = Ok (Next (consume [b0; b1; b2; b3]
                (with_rd (fun r =>
                   set_state PG_MESSAGE
                     (set_unreadMessageContentLength (be32 b0 b1 b2 b3 - 4)
                        (set_buffer (Some b) r))) s))).
Proof.
  intros Hst Hb. unfold CopyBoth.block_length. rewrite Hst, Hb. reflexivity.
Qed.

(** The whole content of a message is there. *)
Lemma take_content_whole s pl rest cd :
  _buffer (rd s) = Some (pl ++ rest) ->
  _unreadMessageContentLength (rd s) = len pl ->
  _copyDataChunks (rd s) = Some cd ->
  take_content s
  = Ok {| rd := set_unreadMessageContentLength 0
                  (set_buffer (Some rest)
                     (set_copyDataChunks
                        (if code_is (_code (rd s)) (CopyData code)
                         then Some (cd ++ pl) else Some cd) (rd s)));
          wr := wr s;
          world := set_consumed (consumed (world s) ++ pl) (world s) |}.
Proof.
  destruct s as [[st b u cd0 c h dr fw rm] w [co tr dl rl dls inc con]].
  cbn [rd _buffer _unreadMessageContentLength _copyDataChunks].
  intros -> -> ->. unfold CopyBoth.take_content. fields.
  destruct pl as [|p0 pl'].
  - cbn [len length Z.of_nat Z.ltb Z.compare andb app].
    normal_form. rewrite !app_nil_r.
    destruct (code_is c (CopyData code)); reflexivity.
  - set (pl := p0 :: pl') in *.
    assert (E1 : (0 <? len pl) = true).
    { apply Z.ltb_lt. subst pl. rewrite len_cons. pose proof (len_nonneg pl'). lia. }
    assert (E2 : (0 <? len (pl ++ rest)) = true).
    { apply Z.ltb_lt. rewrite len_app. pose proof (len_nonneg rest).
      apply Z.ltb_lt in E1. lia. }
    rewrite E1, E2. cbn [andb].
    rewrite (Z.min_r (len (pl ++ rest)) (len pl))
      by (rewrite len_app; pose proof (len_nonneg rest); lia).
    replace (Z.to_nat (len pl)) with (length pl + 0)%nat by (unfold len; lia).
    rewrite firstn_app_ge, skipn_app_ge. cbn [firstn skipn].
    rewrite app_nil_r.
    assert (Hz : len pl - len pl = 0) by lia.
    destruct (code_is c (CopyData code)); normal_form; rewrite Hz; reflexivity.
Qed.

Lemma frame_pass s f rest :
  _state (rd s) = PG_CODE -> _buffer (rd s) = Some (encode f ++ rest) ->
  wf_frame f -> is_code (fcode f) (ErrorResponse code) = false ->
  _copyDataChunks (rd s) <> None ->
  body s = rmap close (switch (decoded f rest s)).
Proof.
  intros Hst Hb [Hdl Hlt] Hc Hcd.
  destruct (_copyDataChunks (rd s)) as [cd|] eqn:Hcd'; [clear Hcd|now elim Hcd].
  pose proof (len_nonneg (payload f)) as Hpl.
  rewrite body_unfold.
  rewrite (block_code_next s (fcode f)
             (encodeUInt32BE (declaredLength f) ++ payload f ++ rest) Hst)
    by (try assumption; rewrite Hb; unfold encode, header;
        rewrite <- app_assoc; reflexivity).
  cbn [bind]. unfold from_length.
  set (s1 := consume [fcode f] _).
  rewrite (block_length_next s1 _ _ _ _ (payload f ++ rest) eq_refl eq_refl).
  cbn [bind]. rewrite be32_encode by lia.
  set (s2 := consume _ _).
  unfold from_message, CopyBoth.block_message.
  change (_state (rd s2)) with PG_MESSAGE. cbn [DecoderState_eqb].
  rewrite (take_content_whole s2 (payload f) rest cd eq_refl)
    by (try exact Hcd'; subst s2; fields; lia).
  cbn [bind]. fields. cbn [Z.eqb].
  match goal with
  | |- (let* _ := let* _ := switch ?x in _ in _) = rmap close (switch ?y) =>
    replace x with y
  end.
  - destruct (switch (decoded f rest s)) as [[[d dr] s3]| |]; reflexivity.
  - subst s2 s1. unfold decoded, encode, header, code_is.
    destruct s as [[st b u cd0 c h dr fw rm] w [co tr dl rl dls inc con]].
    cbn in Hcd'. subst cd0. normal_form.
    rewrite <- !app_assoc. cbn [app encodeUInt32BE].
    destruct (is_code (fcode f) (CopyData code)); reflexivity.
Qed.

(** *** Row mode *)

(** Frames that leave the transfer going on. *)
Definition ongoing (f : Frame) : bool :=
  match classify (fcode f) with
  | Start | Data | Info => true
  | Error_ | End_ => false
  end.

(** What row mode forwards for a frame: the payload of a CopyData frame,
    unless it is empty. *)
Definition units (f : Frame) : list Buffer :=
  match classify (fcode f), payload f with
  | Data, _ :: _ => [payload f]
  | _, _ => []
  end.

Definition row_ready (s : CopyStreamQuery) : Prop :=
  _state (rd s) = PG_CODE /\ rowMode (rd s) = true
  /\ _copyDataChunks (rd s) = Some [] /\ writable s
  /\ readableListener (world s) = true.

Lemma rd_startCopyIn_state s : rd (startCopyIn_state s) = rd s.
Proof. unfold startCopyIn_state. destruct (cb (wr s)); reflexivity. Qed.

Lemma pushed_emits bs s :
  pushed (trace (world (emits bs s))) = pushed (trace (world s)).
Proof.
  unfold emits. fields. rewrite pushed_app, pushed_writes. apply app_nil_r.
Qed.

Lemma pushed_emit e s :
  pushed (trace (world (emit e s))) = pushed (trace (world s)) ++ pushed [e].
Proof. unfold emit. fields. apply pushed_app. Qed.

Lemma pushed_startCopyIn_state s :
  pushed (trace (world (startCopyIn_state s))) = pushed (trace (world s)).
Proof.
  unfold startCopyIn_state, flush_state.
  set (s2 := emit Uncork (with_wr (set_gotCopyInResponse true) s)).
  assert (H : forall bs q,
    pushed (trace (world (emits bs (with_wr (set_chunks q) s2))))
    = pushed (trace (world s))).
  { intros bs q. rewrite pushed_emits. subst s2. fields.
    rewrite pushed_app. apply app_nil_r. }
  destruct (cb (wr s)); [|apply H].
  rewrite pushed_emit. cbn [pushed flat_map app]. rewrite app_nil_r.
  apply H.
Qed.

Lemma readable_startCopyIn_state s :
  readableListener (world (startCopyIn_state s)) = readableListener (world s).
Proof. unfold startCopyIn_state. destruct (cb (wr s)); reflexivity. Qed.

Lemma frame_row s f rest :
  distinct code = true ->
  row_ready s -> _buffer (rd s) = Some (encode f ++ rest) ->
  wf_frame f -> ongoing f = true ->
  exists dr s',
    body s = Ok (Again false dr s') /\ row_ready s'
    /\ _buffer (rd s') = Some rest
    /\ pushed (trace (world s')) = pushed (trace (world s)) ++ units f.
Proof.
  intros Hd (Hst & Hrow & Hcd & Hw & Hr) Hb Hwf Hon.
  assert (HE : is_code (fcode f) (ErrorResponse code) = false).
  { unfold ongoing, CopyBoth.classify in Hon.
    destruct (is_code (fcode f) (ErrorResponse code)); [discriminate|reflexivity]. }
  rewrite (frame_pass s f rest Hst Hb Hwf HE) by (rewrite Hcd; discriminate).
  assert (Hwd : writable (decoded f rest s)) by exact Hw.
  unfold CopyBoth.switch, units, ongoing, CopyBoth.classify in *.
  rewrite HE in *.
  change (_code (rd (decoded f rest s))) with (Some (fcode f)).
  change (rowMode (rd (decoded f rest s))) with (rowMode (rd s)).
  cbn [code_is]. rewrite Hrow.
  destruct (is_code (fcode f) (CopyBothResponse code)) eqn:EW.
  - (* CopyBothResponse *)
    rewrite (startCopyIn_spec _ Hwd). cbn [bind rmap close].
    assert (Hnd : is_code (fcode f) (CopyData code) = false).
    { apply is_code_eq in EW. rewrite EW.
      apply (codes_differ code 3 5 Hd); lia. }
    eexists _, _. split; [reflexivity|]. split; [|split].
    + unfold row_ready. split; [reflexivity|]. split; [|split; [|split]].
      * fields. rewrite rd_startCopyIn_state. exact Hrow.
      * fields. rewrite rd_startCopyIn_state. unfold decoded. fields.
        rewrite Hnd. exact Hcd.
      * exact (startCopyIn_state_writable _ Hwd).
      * fields. rewrite readable_startCopyIn_state. exact Hr.
    + fields. rewrite rd_startCopyIn_state. reflexivity.
    + fields. rewrite pushed_startCopyIn_state. fields.
      rewrite app_nil_r. reflexivity.
  - destruct (is_code (fcode f) (CopyData code)) eqn:Ed.
    + (* CopyData *)
      unfold CopyBoth._flushCopyData.
      unfold decoded at 1. fields. rewrite Ed, Hcd. cbn [option_map app].
      destruct (payload f) as [|p0 pl] eqn:Hpl.
      * cbn [len length Z.of_nat Z.ltb Z.compare bind rmap close].
        eexists _, _. split; [reflexivity|]. split; [|split].
        -- unfold row_ready. split; [reflexivity|].
           split; [exact Hrow|]. split; [|split; [exact Hw|exact Hr]].
           unfold decoded. fields. rewrite Ed, Hcd, Hpl. reflexivity.
        -- reflexivity.
        -- fields. rewrite app_nil_r. reflexivity.
      * assert (E1 : (0 <? len (p0 :: pl)) = true).
        { apply Z.ltb_lt. rewrite len_cons. pose proof (len_nonneg pl). lia. }
        rewrite E1. cbn [push bind rmap close fst snd].
        eexists _, _. split; [reflexivity|]. split; [|split].
        -- unfold row_ready. split; [reflexivity|].
           split; [exact Hrow|]. split; [reflexivity|split; [exact Hw|exact Hr]].
        -- reflexivity.
        -- fields. rewrite pushed_app. reflexivity.
    + (* informational *)
      destruct (_ || _); [|discriminate]. cbn [bind rmap close].
      eexists _, _. split; [reflexivity|]. split; [|split].
      * unfold row_ready. split; [reflexivity|].
        split; [exact Hrow|]. split; [|split; [exact Hw|exact Hr]].
        unfold decoded. fields. rewrite Ed. exact Hcd.
      * reflexivity.
      * fields. rewrite app_nil_r. reflexivity.
Qed.

Lemma size_encode s f rest :
  _buffer (rd s) = Some (encode f ++ rest) -> size s <> 0%nat.
Proof. intros H. unfold size. rewrite H. discriminate. Qed.

(** A run of whole frames at the head of the accumulator. *)
Lemma frames_row fs : forall s tail,
  distinct code = true ->
  row_ready s -> _buffer (rd s) = Some (encode_all fs ++ tail) ->
  Forall wf_frame fs -> forallb ongoing fs = true ->
  exists s',
    row_ready s' /\ _buffer (rd s') = Some tail
    /\ pushed (trace (world s'))
       = pushed (trace (world s)) ++ flat_map units fs
    /\ Micros s s'
    /\ forall r, Loops false s r <-> Loops false s' r.
Proof.
  induction fs as [|f fs IH]; intros s tail Hd Hready Hb Hwf Hon.
  - exists s. cbn [flat_map]. rewrite app_nil_r.
    split; [exact Hready|]. split; [exact Hb|]. split; [reflexivity|].
    split; [apply ms_refl|]. intros r. reflexivity.
  - cbn [encode_all flat_map] in Hb. rewrite <- app_assoc in Hb.
    inversion Hwf as [|? ? Hwf1 Hwf2]; subst.
    cbn [forallb] in Hon. apply andb_prop in Hon. destruct Hon as [Hon1 Hon2].
    destruct (frame_row s f _ Hd Hready Hb Hwf1 Hon1)
      as (dr & s1 & Hbody & Hready1 & Hb1 & Hp1).
    destruct (IH s1 tail Hd Hready1 Hb1 Hwf2 Hon2)
      as (s' & Hready' & Hb' & Hp' & Hm & Hiff).
    exists s'. split; [exact Hready'|]. split; [exact Hb'|].
    split; [|split].
    + rewrite Hp', Hp1. cbn [flat_map]. rewrite app_assoc. reflexivity.
    + eapply micros_trans; [|exact Hm]. exact (body_micro s _ Hbody).
    + intros r.
      rewrite (loops_again_iff s false dr s1 r (size_encode _ _ _ Hb) Hbody).
      apply Hiff.
Qed.

Lemma take_content_trace s s' :
  take_content s = Ok s' -> trace (world s') = trace (world s).
Proof.
  unfold CopyBoth.take_content.
  destruct (_buffer (rd s)); [|discriminate].
  destruct (_ && _); [|intros [= <-]; reflexivity].
  destruct (code_is _ _).
  - fields. destruct (_copyDataChunks (rd s)); [|discriminate].
    intros [= <-]. reflexivity.
  - intros [= <-]. reflexivity.
Qed.

Lemma take_content_ok s b cd :
  _buffer (rd s) = Some b -> _copyDataChunks (rd s) = Some cd ->
  exists s', take_content s = Ok s'.
Proof.
  intros Hb Hcd. unfold CopyBoth.take_content. rewrite Hb.
  destruct (_ && _); [|eexists; reflexivity].
  destruct (code_is _ _); [|eexists; reflexivity].
  fields. rewrite Hcd. eexists; reflexivity.
Qed.

(** Where a pass stops in a frame that is not all there. *)
Definition waiting (s s' : CopyStreamQuery) : Prop :=
  Loops false s (Ok (Some false, s'))
  /\ trace (world s') = trace (world s)
  /\ rowMode (rd s') = rowMode (rd s)
  /\ readableListener (world s') = readableListener (world s)
  /\ _buffer (rd s') <> None.

Lemma partial_frame s f t u :
  _state (rd s) = PG_CODE -> _buffer (rd s) = Some t ->
  _copyDataChunks (rd s) <> None ->
  t ++ u = encode f -> u <> [] -> wf_frame f ->
  is_code (fcode f) (ErrorResponse code) = false ->
  exists s', waiting s s'.
Proof.
  intros Hst Hb Hcd Htu Hu [Hdl Hlt] HE.
  pose proof (len_nonneg (payload f)) as Hpl.
  destruct t as [|c t1].
  { exists s. split; [apply L_empty, Hb|]. repeat split. rewrite Hb. discriminate. }
  unfold encode, header in Htu. cbn [app] in Htu.
  injection Htu as -> Htu.
  assert (Hsz : size s <> 0%nat) by (unfold size; rewrite Hb; discriminate).
  pose proof (block_code_next s (fcode f) t1 Hst Hb HE) as Hcode.
  set (s1 := consume [fcode f] _) in Hcode.
  assert (Hlen4 : (length t1 < 4)%nat \/
                  exists t2, t1 = encodeUInt32BE (declaredLength f) ++ t2
                             /\ t2 ++ u = payload f).
  { cbn [encodeUInt32BE app] in *.
    destruct t1 as [|a0 [|a1 [|a2 [|a3 t2]]]]; try (left; cbn; lia).
    right. injection Htu as -> -> -> -> Htu. exists t2. split; [reflexivity|exact Htu]. }
  destruct Hlen4 as [Hshort|(t2 & -> & Ht2)].
  - (* the length field is not all there *)
    exists s1. split; [|repeat split; subst s1; fields; discriminate].
    apply L_broke; [exact Hsz|].
    rewrite body_unfold, Hcode. cbn [bind].
    unfold from_length, CopyBoth.block_length. subst s1. fields.
    cbn [DecoderState_eqb].
    destruct t1 as [|a0 [|a1 [|a2 [|a3 t2]]]]; try reflexivity.
    cbn in Hshort. lia.
  - (* the content is not all there *)
    pose proof (block_length_next s1 _ _ _ _ t2 eq_refl eq_refl) as Hlen.
    rewrite be32_encode in Hlen by lia.
    set (s2 := consume _ _) in Hlen.
    assert (Hb2 : _buffer (rd s2) = Some t2) by reflexivity.
    destruct (_copyDataChunks (rd s)) as [cd|] eqn:Hcd'; [|now elim Hcd].
    destruct (take_content_ok s2 t2 cd Hb2 Hcd') as (s3 & Htake).
    assert (Hgt : len t2 < _unreadMessageContentLength (rd s2)).
    { subst s2. fields. rewrite <- Ht2, len_app in *.
      assert (0 < len u); [|lia].
      destruct u as [|u0 u']; [now elim Hu|].
      rewrite len_cons. pose proof (len_nonneg u'). lia. }
    destruct (take_content_merge [] s2 t2 s3 Hb2 Hgt Htake)
      as (_ & Hb3 & Hst3 & Hu3).
    destruct (take_content_spec _ _ _ Hb2 Htake) as (_ & _ & _ & _ & Hrow3 & _).
    pose proof (take_content_trace _ _ Htake) as Htr3.
    assert (Hr3 : readableListener (world s3) = readableListener (world s2)).
    { apply take_content_micro in Htake. apply micros_steady in Htake. apply Htake. }
    exists s3. split; [|repeat split].
    + eapply L_again; [exact Hsz| |apply L_empty, Hb3].
      rewrite body_unfold, Hcode. cbn [bind]. unfold from_length.
      rewrite Hlen. cbn [bind]. unfold from_message, CopyBoth.block_message.
      change (_state (rd s2)) with PG_MESSAGE. cbn [DecoderState_eqb].
      rewrite Htake. cbn [bind]. apply Z.eqb_neq in Hu3. rewrite Hu3.
      reflexivity.
    + rewrite Htr3. reflexivity.
    + rewrite Hrow3. reflexivity.
    + rewrite Hr3. reflexivity.
    + rewrite Hb3. discriminate.
Qed.

(** A prefix of a stream of frames is whole frames and the beginning of
    the next one. *)
Lemma prefix_frames fs : forall p q,
  p ++ q = encode_all fs ->
  exists fs1 fs2 t,
    fs = fs1 ++ fs2 /\ p = encode_all fs1 ++ t
    /\ ((t = [] /\ q = encode_all fs2)
        \/ exists f fs3 u, fs2 = f :: fs3 /\ u <> [] /\ t ++ u = encode f
                           /\ q = u ++ encode_all fs3).
Proof.
  induction fs as [|f fs IH]; intros p q H.
  - cbn in H. apply app_eq_nil in H. destruct H as [-> ->].
    exists [], [], []. repeat split. left. split; reflexivity.
  - cbn [encode_all flat_map] in H.
    apply app_eq_app in H. destruct H as (l & [[-> Hrest]|[Hf ->]]).
    + (* the frame is all in p *)
      destruct (IH l q (eq_sym Hrest)) as (fs1 & fs2 & t & -> & -> & Hcase).
      exists (f :: fs1), fs2, t. split; [reflexivity|].
      split; [cbn; rewrite app_assoc; reflexivity|]. exact Hcase.
    + destruct l as [|l0 l'].
      * rewrite app_nil_r in Hf. subst p.
        exists [f], fs, []. split; [reflexivity|].
        split; [cbn; rewrite !app_nil_r; reflexivity|].
        left. split; reflexivity.
      * exists [], (f :: fs), p. split; [reflexivity|]. split; [reflexivity|].
        right. exists f, fs, (l0 :: l'). repeat split; [discriminate|].
        symmetry. exact Hf.
Qed.

Lemma encode_all_nil fs : encode_all fs = [] -> fs = [].
Proof.
  destruct fs as [|f fs]; [reflexivity|]. cbn. discriminate.
Qed.

Lemma append_append y z s : append z (append y s) = append (y ++ z) s.
Proof.
  destruct s as [[st b u cd c h dr fw rm] w e]. unfold append. normal_form.
  destruct b as [b|]; cbn [option_map]; [rewrite app_assoc|]; reflexivity.
Qed.

Lemma row_ready_append y s : row_ready s -> row_ready (append y s).
Proof. intros H. exact H. Qed.

Lemma ongoing_not_error f :
  ongoing f = true -> is_code (fcode f) (ErrorResponse code) = false.
Proof.
  unfold ongoing, CopyBoth.classify.
  destruct (is_code (fcode f) (ErrorResponse code)); [discriminate|reflexivity].
Qed.

(** The loop over a prefix of a stream of frames, in row mode: it is left
    for want of bytes, with the instance still attached; once the whole
    stream is there, the units of its frames have been pushed. *)
Lemma row_prefix fs p q s0 :
  distinct code = true ->
  row_ready s0 -> _buffer (rd s0) = Some [] ->
  Forall wf_frame fs -> forallb ongoing fs = true ->
  p ++ q = encode_all fs ->
  exists s1,
    Loops false (append p s0) (Ok (Some false, s1))
    /\ rowMode (rd s1) = true
    /\ readableListener (world s1) = true
    /\ _buffer (rd s1) <> None
    /\ (q = [] -> pushed (trace (world s1))
                  = pushed (trace (world s0)) ++ flat_map units fs).
Proof.
  intros Hd Hready Hb0 Hwf Hon Hpq.
  destruct (prefix_frames fs p q Hpq) as (fs1 & fs2 & t & -> & -> & Hcase).
  apply Forall_app in Hwf. destruct Hwf as [Hwf1 Hwf2].
  rewrite forallb_app in Hon. apply andb_prop in Hon. destruct Hon as [Hon1 Hon2].
  assert (Hb : _buffer (rd (append (encode_all fs1 ++ t) s0))
               = Some (encode_all fs1 ++ t)).
  { rewrite (append_buffer _ _ _ Hb0). reflexivity. }
  destruct (frames_row fs1 _ t Hd (row_ready_append _ _ Hready) Hb Hwf1 Hon1)
    as (s1 & Hready1 & Hb1 & Hp1 & _ & Hiff).
  destruct Hcase as [[-> ->]|(f & fs3 & u & -> & Hu & Htu & ->)].
  - exists s1. split; [apply Hiff, L_empty, Hb1|].
    destruct Hready1 as (_ & Hrow & _ & _ & Hr).
    split; [exact Hrow|]. split; [exact Hr|].
    split; [rewrite Hb1; discriminate|].
    intros Hq. apply encode_all_nil in Hq. subst fs2.
    rewrite app_nil_r. exact Hp1.
  - inversion Hwf2 as [|? ? Hwf_f _]; subst.
    cbn [forallb] in Hon2. apply andb_prop in Hon2. destruct Hon2 as [Hon_f _].
    destruct Hready1 as (Hst & Hrow & Hcd & _ & Hr).
    assert (Hcd' : _copyDataChunks (rd s1) <> None)
      by (rewrite Hcd; discriminate).
    destruct (partial_frame s1 f t u Hst Hb1 Hcd' Htu Hu Hwf_f
                (ongoing_not_error _ Hon_f))
      as (s2 & HL & _ & Hrow2 & Hr2 & Hb2).
    exists s2. split; [apply Hiff, HL|].
    split; [rewrite Hrow2; exact Hrow|]. split; [rewrite Hr2; exact Hr|].
    split; [exact Hb2|].
    intros Hq. destruct u; [now elim Hu|discriminate].
Qed.

(** What [_parse] returns when its loop is left for want of bytes, in row
    mode. *)
Lemma parse_row c s s' :
  _buffer (rd s) <> None ->
  Loops false (append c s) (Ok (Some false, s')) -> rowMode (rd s') = true ->
  exists dr, _parse c s = Ok (Some dr, s').
Proof.
  intros Hb HL Hrow. unfold CopyBoth._parse, CopyBoth.parse_with.
  destruct (_buffer (rd s)) as [b|] eqn:Eb; [clear Hb|now elim Hb].
  rewrite (append_some c s b Eb).
  assert (Hm : (measure (append c s) < 2 + length (b ++ c))%nat).
  { unfold measure, size. rewrite (append_buffer c s b Eb).
    destruct (_ && _); lia. }
  pose proof (parse_loop_of_loops _ _ _ HL _ true Hm) as Hl.
  destruct (parse_loop (2 + length (b ++ c)) false true (append c s))
    as [[d dr s1|s1]| |]; cbn [rmap outcome] in Hl; try discriminate.
  injection Hl as -> ->. cbn [bind]. rewrite Hrow. cbn [negb bind].
  exists dr. reflexivity.
Qed.

(** The instance after construction and [submit]. *)
Lemma submit_new rm :
  exists s0,
    submit (new rm) = Ok s0
    /\ _state (rd s0) = PG_CODE /\ rowMode (rd s0) = rm
    /\ _buffer (rd s0) = Some [] /\ _copyDataChunks (rd s0) = Some []
    /\ writable s0 /\ readableListener (world s0) = true
    /\ trace (world s0) = [Cork; Pause; Query]
    /\ consumed (world s0) = []
    /\ _gotCopyInResponse (wr s0) = false /\ chunks (wr s0) = []
    /\ pending s0 = false.
Proof.
  eexists. split; [reflexivity|]. repeat split.
Qed.

(** *** Whole frames, in either mode *)
Definition frame_ready (s : CopyStreamQuery) : Prop :=
  _state (rd s) = PG_CODE /\ _copyDataChunks (rd s) <> None
  /\ writable s /\ _pgDataHandler (rd s) = true.

Lemma frame_any s f rest :
  frame_ready s -> _buffer (rd s) = Some (encode f ++ rest) ->
  wf_frame f -> ongoing f = true ->
  exists dr s',
    body s = Ok (Again false dr s') /\ frame_ready s'
    /\ _buffer (rd s') = Some rest.
Proof.
  intros (Hst & Hcd & Hw & Hh) Hb Hwf Hon.
  pose proof (ongoing_not_error _ Hon) as HE.
  rewrite (frame_pass s f rest Hst Hb Hwf HE Hcd).
  assert (Hwd : writable (decoded f rest s)) by exact Hw.
  assert (Hcdd : _copyDataChunks (rd (decoded f rest s)) <> None).
  { unfold decoded. fields.
    destruct (is_code (fcode f) (CopyData code)); [|exact Hcd].
    destruct (_copyDataChunks (rd s)); [discriminate|exact Hcd]. }
  unfold CopyBoth.switch, ongoing, CopyBoth.classify in *. rewrite HE in Hon.
  change (_code (rd (decoded f rest s))) with (Some (fcode f)).
  change (rowMode (rd (decoded f rest s))) with (rowMode (rd s)).
  cbn [code_is].
  destruct (is_code (fcode f) (CopyBothResponse code)).
  - rewrite (startCopyIn_spec _ Hwd). cbn [bind rmap close].
    eexists _, _. split; [reflexivity|]. split; [split; [reflexivity|]|].
    + fields. rewrite rd_startCopyIn_state.
      split; [exact Hcdd|]. split; [|exact Hh].
      exact (startCopyIn_state_writable _ Hwd).
    + fields. rewrite rd_startCopyIn_state. reflexivity.
  - destruct (is_code (fcode f) (CopyData code)) eqn:Ed.
    + destruct (rowMode (rd s)).
      * unfold CopyBoth._flushCopyData.
        destruct (_copyDataChunks (rd (decoded f rest s))) as [cd|] eqn:Ecd;
          [|now elim Hcdd].
        destruct (0 <? len cd); cbn [push bind rmap close fst snd];
          eexists _, _; (split; [reflexivity|]);
          (split; [split; [reflexivity|]|reflexivity]); fields.
        -- split; [discriminate|]. split; [exact Hw|exact Hh].
        -- split; [rewrite Ecd; discriminate|]. split; [exact Hw|exact Hh].
      * cbn [bind rmap close]. eexists _, _. split; [reflexivity|].
        split; [split; [reflexivity|]|reflexivity].
        split; [exact Hcdd|]. split; [exact Hw|exact Hh].
    + destruct (_ || _); [|discriminate]. cbn [bind rmap close].
      eexists _, _. split; [reflexivity|].
      split; [split; [reflexivity|]|reflexivity].
      split; [exact Hcdd|]. split; [exact Hw|exact Hh].
Qed.

Lemma frames_any fs : forall s tail,
  frame_ready s -> _buffer (rd s) = Some (encode_all fs ++ tail) ->
  Forall wf_frame fs -> forallb ongoing fs = true ->
  exists s',
    frame_ready s' /\ _buffer (rd s') = Some tail
    /\ Micros s s'
    /\ forall r, Loops false s r <-> Loops false s' r.
Proof.
  induction fs as [|f fs IH]; intros s tail Hready Hb Hwf Hon.
  - exists s. split; [exact Hready|]. split; [exact Hb|].
    split; [apply ms_refl|]. intros r. reflexivity.
  - cbn [encode_all flat_map] in Hb. rewrite <- app_assoc in Hb.
    inversion Hwf as [|? ? Hwf1 Hwf2]; subst.
    cbn [forallb] in Hon. apply andb_prop in Hon. destruct Hon as [Hon1 Hon2].
    destruct (frame_any s f _ Hready Hb Hwf1 Hon1)
      as (dr & s1 & Hbody & Hready1 & Hb1).
    destruct (IH s1 tail Hready1 Hb1 Hwf2 Hon2)
      as (s' & Hready' & Hb' & Hm & Hiff).
    exists s'. split; [exact Hready'|]. split; [exact Hb'|]. split.
    + eapply micros_trans; [|exact Hm].
      exact (body_micro s _ Hbody).
    + intros r.
      rewrite (loops_again_iff s false dr s1 r (size_encode _ _ _ Hb) Hbody).
      apply Hiff.
Qed.

(** *** ErrorResponse interception *)

(** A pass that starts on an ErrorResponse code byte detaches at once:
    the byte has been peeked, not read, and goes back with the rest. *)
Lemma error_pass s c b :
  _state (rd s) = PG_CODE -> _buffer (rd s) = Some (c :: b) ->
  is_code c (ErrorResponse code) = true ->
  connection (world s) = true -> _pgDataHandler (rd s) = true ->
  body s = Ok (Left (detach_state (c :: b) (with_rd (set_code (Some c)) s))).
Proof.
  intros Hst Hb Hc Hconn Hh. rewrite body_unfold.
  unfold CopyBoth.block_code. rewrite Hst, Hb. cbn [DecoderState_eqb].
  rewrite Hc.
  rewrite (detach_spec (with_rd (set_code (Some c)) s) (c :: b) Hconn Hh Hb).
  reflexivity.
Qed.

(** What [_parse] returns when its loop is left by [return]. *)
Lemma parse_left c s s' :
  _buffer (rd s) <> None ->
  Loops false (append c s) (Ok (None, s')) ->
  _parse c s = Ok (None, s').
Proof.
  intros Hb HL. unfold CopyBoth._parse, CopyBoth.parse_with.
  destruct (_buffer (rd s)) as [b|] eqn:Eb; [clear Hb|now elim Hb].
  rewrite (append_some c s b Eb).
  assert (Hm : (measure (append c s) < 2 + length (b ++ c))%nat).
  { unfold measure, size. rewrite (append_buffer c s b Eb).
    destruct (_ && _); lia. }
  pose proof (parse_loop_of_loops _ _ _ HL _ true Hm) as Hl.
  destruct (parse_loop (2 + length (b ++ c)) false true (append c s))
    as [[d dr s1|s1]| |]; cbn [rmap outcome] in Hl; try discriminate.
  injection Hl as ->. reflexivity.
Qed.

(** Whenever [_parse] returns [undefined], it has detached on an
    ErrorResponse code byte: what it handed back starts with that byte,
    and with what was consumed it is all that came in. *)
Lemma parse_intercepted chunk s s' b :
  _buffer (rd s) = Some b -> _parse chunk s = Ok (None, s') ->
  exists rest,
    handedBack (trace (world s'))
    = handedBack (trace (world s)) ++ [ErrorResponse code :: rest]
    /\ consumed (world s') ++ ErrorResponse code :: rest
       = consumed (world s) ++ b ++ chunk
    /\ readableListener (world s') = false.
Proof.
  intros Hb H. apply parse_parsed in H.
  assert (Hheld : held (append chunk s) = b ++ chunk).
  { unfold held. rewrite (append_buffer chunk s b Hb). reflexivity. }
  inversion H as [| |s1 c b1 Hm Hst Hb1 Hc]; subst.
  apply is_code_eq in Hc. subst c. exists b1.
  destruct (micros_steady _ _ Hm) as (H1 & H2 & H3).
  rewrite Hheld in H1. unfold held in H1. rewrite Hb1 in H1.
  change (trace (world (append chunk s))) with (trace (world s)) in H2.
  split; [|split; [exact H1|reflexivity]].
  unfold detach_state. rewrite !handedBack_emit.
  fields. cbn [handedBack flat_map app]. rewrite !app_nil_r, H2.
  reflexivity.
Qed.

(** An ErrorResponse code byte behind whole frames, all in one chunk. *)
Lemma parse_error_chunk fs rest s :
  frame_ready s -> _buffer (rd s) = Some [] ->
  Forall wf_frame fs -> forallb ongoing fs = true ->
  exists s',
    _parse (encode_all fs ++ ErrorResponse code :: rest) s = Ok (None, s')
    /\ handedBack (trace (world s'))
       = handedBack (trace (world s)) ++ [ErrorResponse code :: rest]
    /\ consumed (world s') = consumed (world s) ++ encode_all fs
    /\ readableListener (world s') = false.
Proof.
  intros Hready Hb Hwf Hon.
  set (chunk := encode_all fs ++ ErrorResponse code :: rest).
  assert (Hb0 : _buffer (rd (append chunk s)) = Some chunk)
    by (rewrite (append_buffer chunk s [] Hb); reflexivity).
  destruct (frames_any fs (append chunk s) _ Hready Hb0 Hwf Hon)
    as (s1 & (Hst1 & _ & [Hconn1 _] & Hh1) & Hb1 & Hm & Hiff).
  pose proof (error_pass s1 _ rest Hst1 Hb1 (is_code_refl _) Hconn1 Hh1)
    as Hbody.
  eexists. split; [|split; [|split]].
  - apply parse_left; [rewrite Hb; discriminate|].
    apply Hiff. apply L_left; [|exact Hbody].
    unfold size. rewrite Hb1. discriminate.
  - destruct (micros_steady _ _ Hm) as (_ & H2 & _).
    change (trace (world (append chunk s))) with (trace (world s)) in H2.
    unfold detach_state. rewrite !handedBack_emit. fields.
    cbn [handedBack flat_map app]. rewrite !app_nil_r, H2. reflexivity.
  - destruct (micros_steady _ _ Hm) as (H1 & _).
    unfold held in H1. rewrite Hb0, Hb1 in H1. subst chunk.
    rewrite app_assoc in H1. apply app_inv_tail in H1. exact H1.
  - reflexivity.
Qed.

(** What [_parse] does when its loop is left with [done] set. *)
Lemma parse_done c s s2 :
  _buffer (rd s) <> None ->
  Loops false (append c s) (Ok (Some true, s2)) ->
  exists d0,
    _parse c s
    = let* (d1, s3) := if negb (rowMode (rd s2)) then _flushCopyData s2
                       else Ok (d0, s2) in
      let* s4 := _detach s3 in
      Ok (Some d1, _cleanup (emit PushNull s4)).
Proof.
  intros Hb HL. unfold CopyBoth._parse, CopyBoth.parse_with.
  destruct (_buffer (rd s)) as [b|] eqn:Eb; [clear Hb|now elim Hb].
  rewrite (append_some c s b Eb).
  assert (Hm : (measure (append c s) < 2 + length (b ++ c))%nat).
  { unfold measure, size. rewrite (append_buffer c s b Eb).
    destruct (_ && _); lia. }
  pose proof (parse_loop_of_loops _ _ _ HL _ true Hm) as Hl.
  destruct (parse_loop (2 + length (b ++ c)) false true (append c s))
    as [[d dr s1|s1]| |]; cbn [rmap outcome] in Hl; try discriminate.
  injection Hl as -> ->. cbn [bind]. exists dr.
  destruct (negb (rowMode (rd s2))); [|reflexivity].
  destruct (_flushCopyData s2) as [[d1 s3]| |]; reflexivity.
Qed.

(** A frame that ends the transfer (CopyDone, or any code without a
    [case]) behind whole frames, all in one chunk: [_detach], [push(null)],
    [_cleanup]; no 'error'. *)
Lemma parse_end_chunk fs f rest s :
  frame_ready s -> _buffer (rd s) = Some [] ->
  Forall wf_frame fs -> forallb ongoing fs = true ->
  wf_frame f -> classify (fcode f) = End_ ->
  exists dr s',
    _parse (encode_all fs ++ encode f ++ rest) s = Ok (Some dr, s')
    /\ ended (trace (world s')) = true
    /\ errors (trace (world s')) = errors (trace (world s))
    /\ handedBack (trace (world s'))
       = handedBack (trace (world s)) ++ [rest]
    /\ readableListener (world s') = false.
Proof.
  intros Hready Hb Hwf Hon Hwf_f Hend.
  set (chunk := encode_all fs ++ encode f ++ rest).
  assert (Hb0 : _buffer (rd (append chunk s)) = Some chunk)
    by (rewrite (append_buffer chunk s [] Hb); reflexivity).
  destruct (frames_any fs (append chunk s) _ Hready Hb0 Hwf Hon)
    as (s1 & (Hst1 & Hcd1 & [Hconn1 _] & Hh1) & Hb1 & Hm & Hiff).
  assert (Hcodes : is_code (fcode f) (ErrorResponse code) = false
                   /\ is_code (fcode f) (CopyBothResponse code) = false
                   /\ is_code (fcode f) (CopyData code) = false
                   /\ is_code (fcode f) (ParameterStatus code)
                      || is_code (fcode f) (NoticeResponse code)
                      || is_code (fcode f) (NotificationResponse code) = false).
  { unfold CopyBoth.classify in Hend.
    destruct (is_code (fcode f) (ErrorResponse code)); [discriminate|].
    destruct (is_code (fcode f) (CopyBothResponse code)); [discriminate|].
    destruct (is_code (fcode f) (CopyData code)); [discriminate|].
    destruct (_ || _); [discriminate|]. repeat split. }
  destruct Hcodes as (HE & HW & Hd & Hinfo).
  pose proof (frame_pass s1 f rest Hst1 Hb1 Hwf_f HE Hcd1) as Hbody.
  unfold CopyBoth.switch in Hbody.
  change (_code (rd (decoded f rest s1))) with (Some (fcode f)) in Hbody.
  cbn [code_is] in Hbody. rewrite HW, Hd, Hinfo in Hbody.
  cbn [rmap close] in Hbody.
  set (s2 := with_rd (set_state PG_CODE) (decoded f rest s1)) in Hbody.
  assert (HL : Loops false (append chunk s) (Ok (Some true, s2))).
  { apply Hiff. eapply L_again; [|exact Hbody|apply L_done].
    unfold size. rewrite Hb1. discriminate. }
  destruct (parse_done chunk s s2) as (d0 & Hp);
    [rewrite Hb; discriminate|exact HL|].
  destruct (micros_steady _ _ Hm) as (_ & Hhb & _).
  change (trace (world (append chunk s))) with (trace (world s)) in Hhb.
  assert (Hflush : exists d1 s3,
    (if negb (rowMode (rd s2)) then _flushCopyData s2 else Ok (d0, s2))
    = Ok (d1, s3)
    /\ connection (world s3) = true /\ _pgDataHandler (rd s3) = true
    /\ _buffer (rd s3) = Some rest
    /\ handedBack (trace (world s3)) = handedBack (trace (world s))).
  { destruct (negb (rowMode (rd s2))).
    - unfold CopyBoth._flushCopyData.
      destruct (_copyDataChunks (rd s2)) as [cd|] eqn:Ecd.
      + destruct (0 <? len cd); eexists _, _; (split; [reflexivity|]);
          repeat split; try assumption.
        rewrite handedBack_emit. cbn [handedBack flat_map].
        rewrite app_nil_r. exact Hhb.
      + exfalso. subst s2. unfold decoded in Ecd. fields.
        rewrite Hd in Ecd. exact (Hcd1 Ecd).
    - eexists _, _. split; [reflexivity|]. repeat split; assumption. }
  destruct Hflush as (d1 & s3 & Ef & Hconn3 & Hh3 & Hb3 & Hhb3).
  rewrite Ef in Hp. cbn [bind] in Hp.
  rewrite (detach_spec s3 rest Hconn3 Hh3 Hb3) in Hp. cbn [bind] in Hp.
  eexists _, _. split; [exact Hp|].
  split; [|split; [exact (parse_no_error _ _ _ _ Hp)|split; [|reflexivity]]].
  - change (ended (trace (world (detach_state rest s3)) ++ [PushNull]) = true).
    rewrite CopyToFacts.ended_app. cbn. apply orb_true_r.
  - change (handedBack (trace (world (detach_state rest s3)) ++ [PushNull])
            = handedBack (trace (world s)) ++ [rest]).
    rewrite handedBack_app. unfold detach_state. rewrite !handedBack_emit.
    fields. cbn [handedBack flat_map app]. rewrite !app_nil_r, Hhb3.
    reflexivity.
Qed.

(** *** Row mode: whole transfers *)

(** How a stream ends behind its frames that go on: not yet, with a frame
    that ends the transfer, or with an ErrorResponse code byte; in the two
    last cases, with anything behind. *)
Inductive Closing :=
| Open
| Ends (f : Frame) (rest : Buffer)
| Fails (rest : Buffer).

Definition closing (c : Closing) : Buffer :=
  match c with
  | Open => []
  | Ends f rest => encode f ++ rest
  | Fails rest => ErrorResponse code :: rest
  end.

Definition closes (c : Closing) : Prop :=
  match c with
  | Ends f _ => wf_frame f /\ classify (fcode f) = End_
  | Open | Fails _ => True
  end.

Lemma connection_startCopyIn_state s :
  connection (world (startCopyIn_state s)) = connection (world s).
Proof. unfold startCopyIn_state. destruct (cb (wr s)); reflexivity. Qed.

(** What no change of the decoder touches. *)
Definition kept (s s' : CopyStreamQuery) : Prop :=
  connection (world s') = connection (world s)
  /\ _pgDataHandler (rd s') = _pgDataHandler (rd s)
  /\ rowMode (rd s') = rowMode (rd s).

Lemma micros_kept s s' : Micros s s' -> kept s s'.
Proof.
  apply (micros_preserve kept).
  - intros s1. repeat split.
  - intros s1 s2 s3 (A1 & A2 & A3) (B1 & B2 & B3). repeat split; congruence.
  - intros s1 s2 H. destruct H; try (repeat split; fail).
    split; [apply connection_startCopyIn_state|].
    rewrite rd_startCopyIn_state. split; reflexivity.
Qed.

Lemma pushed_detach_state b s :
  pushed (trace (world (detach_state b s))) = pushed (trace (world s)).
Proof.
  unfold detach_state. fields. rewrite !pushed_app. cbn.
  rewrite !app_nil_r. reflexivity.
Qed.

(** Where the loop stands after a prefix of the stream, [q] being the
    rest of the stream and [P] the units of its frames. *)
Inductive Reached (c : Closing) (P : list Buffer) (q : Buffer)
  : option bool -> CopyStreamQuery -> Prop :=
| r_waiting s1 :
    rowMode (rd s1) = true -> readableListener (world s1) = true ->
    _buffer (rd s1) <> None ->
    (q = [] -> c = Open /\ pushed (trace (world s1)) = P) ->
    Reached c P q (Some false) s1
| r_done s1 b :
    rowMode (rd s1) = true -> connection (world s1) = true ->
    _pgDataHandler (rd s1) = true -> _buffer (rd s1) = Some b ->
    pushed (trace (world s1)) = P -> c <> Open ->
    Reached c P q (Some true) s1
| r_error s1 :
    readableListener (world s1) = false ->
    pushed (trace (world s1)) = P -> c <> Open ->
    Reached c P q None s1.

Lemma closing_nil c : closing c = [] -> c = Open.
Proof. destruct c; cbn; [reflexivity|discriminate|discriminate]. Qed.

Lemma row_stream_prefix fs c p q s0 :
  distinct code = true ->
  row_ready s0 -> _buffer (rd s0) = Some [] ->
  _pgDataHandler (rd s0) = true ->
  Forall wf_frame fs -> forallb ongoing fs = true -> closes c ->
  p ++ q = encode_all fs ++ closing c ->
  exists r s1,
    Loops false (append p s0) (Ok (r, s1))
    /\ Reached c (pushed (trace (world s0)) ++ flat_map units fs) q r s1.
Proof.
  intros Hd Hready Hb0 Hh0 Hwf Hon Hc Hpq.
  assert (Hwait : forall l,
    p ++ l = encode_all fs -> q = l ++ closing c ->
    exists r s1,
      Loops false (append p s0) (Ok (r, s1))
      /\ Reached c (pushed (trace (world s0)) ++ flat_map units fs) q r s1).
  { intros l Hpl Hq.
    destruct (row_prefix fs p l s0 Hd Hready Hb0 Hwf Hon Hpl)
      as (s1 & HL & Hrow & Hr & Hb & Hp).
    exists (Some false), s1. split; [exact HL|].
    apply r_waiting; try assumption.
    intros ->. symmetry in Hq. apply app_eq_nil in Hq. destruct Hq as [-> Hq].
    split; [apply closing_nil, Hq|apply Hp; reflexivity]. }
  apply app_eq_app in Hpq.
  destruct Hpq as (l & [[Hp Hcl]|[Hfs Hq]]); [|exact (Hwait l (eq_sym Hfs) Hq)].
  destruct l as [|l0 l'].
  { apply (Hwait []); [rewrite Hp, !app_nil_r; reflexivity|].
    cbn [app] in *. symmetry. exact Hcl. }
  assert (Hb : _buffer (rd (append p s0)) = Some (encode_all fs ++ l0 :: l'))
    by (rewrite (append_buffer _ _ _ Hb0), Hp; reflexivity).
  destruct (frames_row fs _ (l0 :: l') Hd (row_ready_append _ _ Hready) Hb
              Hwf Hon) as (s1 & Hready1 & Hb1 & Hp1 & Hm1 & Hiff).
  change (trace (world (append p s0))) with (trace (world s0)) in Hp1.
  destruct (micros_kept _ _ Hm1) as (Hconn1 & Hh1 & _).
  change (connection (world (append p s0))) with (connection (world s0))
    in Hconn1.
  change (_pgDataHandler (rd (append p s0))) with (_pgDataHandler (rd s0))
    in Hh1.
  rewrite Hh0 in Hh1.
  destruct Hready as (_ & _ & _ & [Hconn0 _] & _). rewrite Hconn0 in Hconn1.
  destruct Hready1 as (Hst1 & Hrow1 & Hcd1 & Hw1 & Hr1).
  assert (Hsz1 : size s1 <> 0%nat) by (unfold size; rewrite Hb1; discriminate).
  destruct c as [|f rest|rest]; cbn [closing closes] in *.
  - discriminate.
  - (* a frame that ends the transfer *)
    destruct Hc as [Hwf_f Hend].
    assert (Hcodes : is_code (fcode f) (ErrorResponse code) = false
                     /\ is_code (fcode f) (CopyBothResponse code) = false
                     /\ is_code (fcode f) (CopyData code) = false
                     /\ is_code (fcode f) (ParameterStatus code)
                        || is_code (fcode f) (NoticeResponse code)
                        || is_code (fcode f) (NotificationResponse code)
                        = false).
    { unfold CopyBoth.classify in Hend.
      destruct (is_code (fcode f) (ErrorResponse code)); [discriminate|].
      destruct (is_code (fcode f) (CopyBothResponse code)); [discriminate|].
      destruct (is_code (fcode f) (CopyData code)); [discriminate|].
      destruct (_ || _); [discriminate|]. repeat split. }
    destruct Hcodes as (HE & HW & Hdt & Hinfo).
    assert (Hcd1' : _copyDataChunks (rd s1) <> None)
      by (rewrite Hcd1; discriminate).
    apply app_eq_app in Hcl.
    destruct Hcl as (m & [[Hf Hrest]|[Hl Hrest]]).
    + (* the frame is not all there, or it is to the byte *)
      destruct m as [|m0 m'].
      * rewrite app_nil_r in Hf.
        pose proof (frame_pass s1 f [] Hst1) as Hbody.
        assert (Hb1' : _buffer (rd s1) = Some (encode f ++ [])).
        { rewrite Hb1, app_nil_r, Hf. reflexivity. }
        specialize (Hbody Hb1' Hwf_f HE Hcd1').
        unfold CopyBoth.switch in Hbody.
        change (_code (rd (decoded f [] s1))) with (Some (fcode f)) in Hbody.
        cbn [code_is] in Hbody. rewrite HW, Hdt, Hinfo in Hbody.
        cbn [rmap close] in Hbody.
        exists (Some true), (with_rd (set_state PG_CODE) (decoded f [] s1)).
        split.
        -- apply Hiff. eapply L_again; [exact Hsz1|exact Hbody|apply L_done].
        -- apply (r_done _ _ _ _ []); try assumption; try reflexivity;
             try discriminate.
      * destruct (partial_frame s1 f (l0 :: l') (m0 :: m') Hst1 Hb1 Hcd1'
                    (eq_sym Hf)) as (s2 & HL2 & Htr2 & Hrow2 & Hr2 & Hb2);
          [discriminate|exact Hwf_f|exact HE|].
        exists (Some false), s2. split; [apply Hiff, HL2|].
        apply r_waiting; [congruence|congruence|exact Hb2|].
        intros ->. discriminate.
    + (* the frame is all there *)
      pose proof (frame_pass s1 f m Hst1) as Hbody.
      assert (Hb1' : _buffer (rd s1) = Some (encode f ++ m)).
      { rewrite Hb1, Hl. reflexivity. }
      specialize (Hbody Hb1' Hwf_f HE Hcd1').
      unfold CopyBoth.switch in Hbody.
      change (_code (rd (decoded f m s1))) with (Some (fcode f)) in Hbody.
      cbn [code_is] in Hbody. rewrite HW, Hdt, Hinfo in Hbody.
      cbn [rmap close] in Hbody.
      exists (Some true), (with_rd (set_state PG_CODE) (decoded f m s1)).
      split.
      * apply Hiff. eapply L_again; [exact Hsz1|exact Hbody|apply L_done].
      * apply (r_done _ _ _ _ m); try assumption; try reflexivity;
          try discriminate.
  - (* an ErrorResponse code byte *)
    injection Hcl as Hl0 Hrest. subst l0.
    pose proof (error_pass s1 _ l' Hst1 Hb1 (is_code_refl _) Hconn1 Hh1)
      as Hbody.
    eexists None, _. split.
    + apply Hiff. apply L_left; [exact Hsz1|exact Hbody].
    + apply r_error; [reflexivity| |discriminate].
      rewrite pushed_detach_state. exact Hp1.
Qed.

Lemma row_stream_feed fs c s0 :
  distinct code = true ->
  row_ready s0 -> _buffer (rd s0) = Some [] ->
  _pgDataHandler (rd s0) = true ->
  Forall wf_frame fs -> forallb ongoing fs = true -> closes c ->
  forall cs p s1,
    Loops false (append p s0) (Ok (Some false, s1)) ->
    p ++ concat cs = encode_all fs ++ closing c ->
    exists s',
      feed cs s1 = Ok s'
      /\ pushed (trace (world s'))
         = pushed (trace (world s0)) ++ flat_map units fs
      /\ (c = Open -> readableListener (world s') = true)
      /\ (c <> Open -> readableListener (world s') = false).
Proof.
  intros Hd Hready Hb0 Hh0 Hwf Hon Hc.
  induction cs as [|ch cs IH]; intros p s1 HL Hp.
  - cbn [concat] in Hp. cbn [CopyBoth.feed]. exists s1. split; [reflexivity|].
    destruct (row_stream_prefix fs c p [] s0 Hd Hready Hb0 Hh0 Hwf Hon Hc Hp)
      as (r & s1' & HL1 & HR).
    pose proof (loops_deterministic _ _ _ HL _ HL1) as E.
    injection E as -> ->.
    inversion HR as [s2 _ Hr _ Hq| |]; subst.
    destruct (Hq eq_refl) as [-> Hpushed].
    split; [exact Hpushed|]. split; [intros _; exact Hr|].
    intros Hne. now elim Hne.
  - cbn [concat] in Hp. cbn [CopyBoth.feed].
    destruct (row_stream_prefix fs c p (ch ++ concat cs) s0 Hd Hready Hb0 Hh0
                Hwf Hon Hc Hp) as (r & s1' & HL1 & HR).
    pose proof (loops_deterministic _ _ _ HL _ HL1) as E.
    injection E as -> ->.
    inversion HR as [s2 _ Hr1 Hb1 _| |]; subst. rewrite Hr1.
    rewrite app_assoc in Hp.
    destruct (row_stream_prefix fs c (p ++ ch) (concat cs) s0 Hd Hready Hb0
                Hh0 Hwf Hon Hc Hp) as (r2 & s2 & HL2 & HR2).
    assert (HL2' : Loops false (append ch s1) (Ok (r2, s2))).
    { apply (loops_append _ _ HL ch). rewrite append_append. exact HL2. }
    inversion HR2 as [s3 Hrow2 _ _ _|s3 b Hrow2 Hconn2 Hh2 Hb2 Hp2 Hne
                      |s3 Hr2 Hp2 Hne]; subst.
    + (* the transfer goes on *)
      destruct (parse_row ch s1 s2 Hb1 HL2' Hrow2) as (dr & ->). cbn [bind].
      apply (IH (p ++ ch) s2 HL2 Hp).
    + (* it is over *)
      destruct (parse_done ch s1 s2 Hb1 HL2') as (d0 & ->).
      rewrite Hrow2. cbn [negb bind].
      rewrite (detach_spec s2 b Hconn2 Hh2 Hb2). cbn [bind].
      rewrite feed_detached by reflexivity.
      eexists. split; [reflexivity|]. split; [|split].
      * change (pushed (trace (world (detach_state b s2)) ++ [PushNull])
                = pushed (trace (world s0)) ++ flat_map units fs).
        rewrite pushed_app, pushed_detach_state, Hp2. cbn. apply app_nil_r.
      * intros ->. now elim Hne.
      * intros _. reflexivity.
    + (* an ErrorResponse was intercepted *)
      rewrite (parse_left ch s1 s2 Hb1 HL2'). cbn [bind].
      rewrite (feed_detached cs s2 Hr2).
      eexists. split; [reflexivity|]. split; [exact Hp2|]. split.
      * intros ->. now elim Hne.
      * intros _. exact Hr2.
Qed.

(** C9, amended.  In row mode, take a stream made of
    well-formed frames that leave the transfer going on (CopyBothResponse,
    CopyData, ParameterStatus, NoticeResponse, NotificationResponse), and
    then nothing more yet, or a frame that ends the transfer, or an
    ErrorResponse code byte, with any bytes behind.  However the stream is
    cut into chunks, the run returns, and what has been pushed to the
    consumer is, in frame order, one unit per CopyData frame with a payload
    that is not empty, the unit being the whole payload.  A CopyData frame
    with an empty payload pushes nothing.  The instance is detached if and
    only if the stream has come to its closing part. *)
Theorem row_mode_units fs c cs :
  distinct code = true ->
  Forall wf_frame fs -> forallb ongoing fs = true -> closes c ->
  concat cs = encode_all fs ++ closing c ->
  exists s',
    run true cs = Ok s'
    /\ pushed (trace (world s')) = flat_map units fs
    /\ (c = Open -> readableListener (world s') = true)
    /\ (c <> Open -> readableListener (world s') = false).
Proof.
  intros Hd Hwf Hon Hc Hcs. unfold CopyBoth.run.
  destruct (submit_new true)
    as (s0 & E & Hst & Hrow & Hb & Hcd & Hw & Hr & Htr & _).
  assert (Hh : _pgDataHandler (rd s0) = true) by (injection E as <-; reflexivity).
  rewrite E. cbn [bind].
  assert (Hready : row_ready s0)
    by exact (conj Hst (conj Hrow (conj Hcd (conj Hw Hr)))).
  destruct (row_stream_feed fs c s0 Hd Hready Hb Hh Hwf Hon Hc cs [] s0)
    as (s' & Hfeed & Hp & Hopen & Hclosed).
  { rewrite append_nil. apply L_empty, Hb. }
  { exact Hcs. }
  exists s'. split; [exact Hfeed|]. rewrite Hp, Htr.
  split; [reflexivity|]. split; assumption.
Qed.

(** *** Whole runs *)

(** A run stays attached, with every byte that came in consumed or still
    in [_buffer]; or it has detached, and then the chunks fed until then
    are what was consumed and what was handed back. *)
Lemma feed_accounting cs : forall s s' b,
  _buffer (rd s) = Some b -> readableListener (world s) = true ->
  feed cs s = Ok s' ->
  (readableListener (world s') = true
   /\ handedBack (trace (world s')) = handedBack (trace (world s))
   /\ consumed (world s') ++ held s' = consumed (world s) ++ b ++ concat cs)
  \/ (readableListener (world s') = false
      /\ exists fed rest unreadBuffer,
           cs = fed ++ rest
           /\ handedBack (trace (world s'))
              = handedBack (trace (world s)) ++ [unreadBuffer]
           /\ consumed (world s') ++ unreadBuffer
              = consumed (world s) ++ b ++ concat fed).
Proof.
  induction cs as [|c cs IH]; intros s s' b Hb Hr.
  - cbn. intros [= <-]. left. unfold held. rewrite Hb, app_nil_r.
    repeat split. exact Hr.
  - cbn [CopyBoth.feed concat]. rewrite Hr.
    destruct (_parse c s) as [[r sa]| |] eqn:Ep; cbn [bind]; try discriminate.
    intros Hf.
    destruct (parse_accounting _ _ _ _ _ Hb Ep)
      as [(Ha & Hh & Hsome & Hacc)|(Hd & ub & Hh & Hacc)].
    + destruct (_buffer (rd sa)) as [ba|] eqn:Hba; [|now elim Hsome].
      unfold held in Hacc. rewrite Hba in Hacc.
      rewrite Hr in Ha.
      destruct (IH _ _ _ Hba Ha Hf)
        as [(H1 & H2 & H3)|(H1 & fed & rest & ub & -> & H2 & H3)].
      * left. split; [exact H1|]. split; [congruence|].
        rewrite H3, app_assoc, Hacc, <- !app_assoc. reflexivity.
      * right. split; [exact H1|]. exists (c :: fed), rest, ub.
        split; [reflexivity|]. split; [congruence|].
        cbn [concat]. rewrite H3, app_assoc, Hacc, <- !app_assoc.
        reflexivity.
    + rewrite (feed_detached cs sa Hd) in Hf. injection Hf as <-.
      right. split; [exact Hd|]. exists [c], cs, ub.
      split; [reflexivity|]. split; [exact Hh|].
      cbn [concat]. rewrite app_nil_r. exact Hacc.
Qed.

Lemma feed_no_error cs : forall s s',
  feed cs s = Ok s' -> errors (trace (world s')) = errors (trace (world s)).
Proof.
  induction cs as [|c cs IH]; intros s s'; cbn [CopyBoth.feed].
  - intros [= <-]. reflexivity.
  - destruct (readableListener (world s)); [|intros [= <-]; reflexivity].
    destruct (_parse c s) as [[r sa]| |] eqn:Ep; cbn [bind]; try discriminate.
    intros Hf. rewrite (IH _ _ Hf). exact (parse_no_error _ _ _ _ Ep).
Qed.

(** A transfer of copy-both emits no 'error'. *)
Lemma run_no_error rm cs s' :
  run rm cs = Ok s' -> errors (trace (world s')) = [].
Proof.
  unfold CopyBoth.run.
  destruct (submit_new rm) as (s0 & -> & _ & _ & _ & _ & _ & _ & Htr & _).
  cbn [bind]. intros H. rewrite (feed_no_error _ _ _ H), Htr. reflexivity.
Qed.

(** A transfer that ends detached: one buffer was handed back, and with
    what the decoder consumed it is what the chunks fed until then held. *)
Lemma run_accounting rm cs s' :
  run rm cs = Ok s' -> readableListener (world s') = false ->
  exists fed rest unreadBuffer,
    cs = fed ++ rest
    /\ handedBack (trace (world s')) = [unreadBuffer]
    /\ consumed (world s') ++ unreadBuffer = concat fed.
Proof.
  unfold CopyBoth.run.
  destruct (submit_new rm)
    as (s0 & -> & _ & _ & Hb & _ & _ & Hr & Htr & Hc & _).
  cbn [bind]. intros H Hd.
  destruct (feed_accounting _ _ _ _ Hb Hr H)
    as [(H1 & _)|(_ & fed & rest & ub & E & H2 & H3)]; [congruence|].
  exists fed, rest, ub. split; [exact E|].
  rewrite H2, H3, Htr, Hc. split; reflexivity.
Qed.

(** A CopyBothResponse frame runs [_startCopyIn], whether or not one has
    been seen before. *)
Lemma start_pass s f rest :
  distinct code = true ->
  frame_ready s -> _buffer (rd s) = Some (encode f ++ rest) ->
  wf_frame f -> fcode f = CopyBothResponse code ->
  body s
  = Ok (Again false None
          (with_rd (set_state PG_CODE) (startCopyIn_state (decoded f rest s)))).
Proof.
  intros Hd (Hst & Hcd & Hw & _) Hb Hwf Hf.
  assert (HE : is_code (fcode f) (ErrorResponse code) = false).
  { rewrite Hf. apply (codes_differ code 3 0 Hd); lia. }
  rewrite (frame_pass s f rest Hst Hb Hwf HE Hcd).
  assert (Hwd : writable (decoded f rest s)) by exact Hw.
  unfold CopyBoth.switch.
  change (_code (rd (decoded f rest s))) with (Some (fcode f)).
  cbn [code_is]. rewrite Hf, is_code_refl.
  rewrite (startCopyIn_spec _ Hwd). reflexivity.
Qed.

Lemma submit_new_unacknowledged rm s0 :
  submit (new rm) = Ok s0 -> unacknowledged s0.
Proof.
  intros [= <-] _. split; [constructor|]. split; reflexivity.
Qed.

Lemma called_writes bs : called (map Write bs) = [].
Proof. induction bs as [|b bs IH]; [reflexivity|exact IH]. Qed.

Lemma called_startCopyIn_state s :
  called (trace (world (startCopyIn_state s)))
  = called (trace (world s))
    ++ match cb (wr s) with Some c => [c] | None => [] end.
Proof.
  unfold startCopyIn_state, flush_state, emits.
  destruct (cb (wr s)); fields; unfold called;
    rewrite !flat_map_app; fold (called (map Write
      (flat_map frame_writes
         (firstn (flushed (chunks (wr s))
                    (writes (emit Uncork
                               (with_wr (set_gotCopyInResponse true) s))))
            (chunks (wr s))))));
    rewrite called_writes; cbn [flat_map app]; rewrite ?app_nil_r;
    reflexivity.
Qed.

(** What [_parse] does when its loop is left for want of bytes. *)
Lemma parse_on c s s2 :
  _buffer (rd s) <> None ->
  Loops false (append c s) (Ok (Some false, s2)) ->
  exists d0,
    _parse c s
    = let* (d1, s3) := if negb (rowMode (rd s2)) then _flushCopyData s2
                       else Ok (d0, s2) in
      Ok (Some d1, s3).
Proof.
  intros Hb HL. unfold CopyBoth._parse, CopyBoth.parse_with.
  destruct (_buffer (rd s)) as [b|] eqn:Eb; [clear Hb|now elim Hb].
  rewrite (append_some c s b Eb).
  assert (Hm : (measure (append c s) < 2 + length (b ++ c))%nat).
  { unfold measure, size. rewrite (append_buffer c s b Eb).
    destruct (_ && _); lia. }
  pose proof (parse_loop_of_loops _ _ _ HL _ true Hm) as Hl.
  destruct (parse_loop (2 + length (b ++ c)) false true (append c s))
    as [[d dr s1|s1]| |]; cbn [rmap outcome] in Hl; try discriminate.
  injection Hl as -> ->. cbn [bind]. exists dr.
  destruct (negb (rowMode (rd s2))); [|reflexivity].
  destruct (_flushCopyData s2) as [[d1 s3]| |]; reflexivity.
Qed.

(** The scenario of the write side: chunks written before the
    acknowledgment, then the CopyBothResponse frame. *)
Lemma write_then_ack rm cs c w s0 :
  distinct code = true ->
  submit (new rm) = Ok s0 -> forallb small cs = true ->
  wf_frame w -> fcode w = CopyBothResponse code ->
  exists s',
    CopyBoth.steps code writeReturns pushReturns
      [DoWritev cs c; DoParse (encode w)] s0 = Ok s'
    /\ sent (trace (world s'))
       = flat_map frame_writes (firstn (flushed cs 0) cs)
    /\ chunks (wr s') = skipn (flushed cs 0) cs
    /\ called (trace (world s')) = [c].
Proof.
  intros Hd [= <-] Hsmall Hwf Hw.
  cbn [CopyBoth.steps CopyBoth.step]. unfold CopyBoth._writev. fields.
  cbn [CopyBoth.new _gotCopyInResponse wr bind].
  match goal with
  | |- context [CopyBoth._parse _ _ _ ?c ?s] =>
    set (chunk := c); set (s1 := s)
  end.
  assert (Hready : frame_ready (append chunk s1)).
  { split; [reflexivity|]. split; [discriminate|].
    split; [split; [reflexivity|exact Hsmall]|reflexivity]. }
  assert (Hb : _buffer (rd (append chunk s1)) = Some (encode w ++ []))
    by (rewrite app_nil_r; reflexivity).
  pose proof (start_pass _ w [] Hd Hready Hb Hwf Hw) as Hbody.
  set (s2 := with_rd (set_state PG_CODE) _) in Hbody.
  assert (HL : Loops false (append chunk s1) (Ok (Some false, s2))).
  { eapply L_again; [|exact Hbody|].
    - unfold size. rewrite Hb. discriminate.
    - apply L_empty. subst s2. fields. rewrite rd_startCopyIn_state.
      reflexivity. }
  destruct (parse_on chunk s1 s2) as (d0 & ->); [discriminate|exact HL|].
  assert (Hrd2 : rd s2 = set_state PG_CODE (rd (decoded w [] (append chunk s1)))).
  { subst s2. fields. rewrite rd_startCopyIn_state. reflexivity. }
  assert (Hflush : exists d1,
    (if negb (rowMode (rd s2)) then _flushCopyData s2 else Ok (d0, s2))
    = Ok (d1, s2)).
  { destruct (negb (rowMode (rd s2))); [|eexists; reflexivity].
    unfold CopyBoth._flushCopyData. rewrite Hrd2. unfold decoded. fields.
    assert (Hnd : is_code (fcode w) (CopyData code) = false).
    { rewrite Hw. apply (codes_differ code 3 5 Hd); lia. }
    rewrite Hnd. cbn. eexists; reflexivity. }
  destruct Hflush as (d1 & ->). cbn [bind].
  eexists. split; [reflexivity|].
  subst s2. fields.
  split; [|split].
  - rewrite startCopyIn_state_sent. reflexivity.
  - rewrite startCopyIn_state_chunks. reflexivity.
  - rewrite called_startCopyIn_state. reflexivity.
Qed.

(** A write after the acknowledgment: the queue is flushed with the new
    chunk behind what was left in it. *)
Lemma write_acknowledged chunk c s :
  writable s -> small chunk = true -> _gotCopyInResponse (wr s) = true ->
  exists s',
    _write chunk c s = Ok s'
    /\ sent (trace (world s'))
       = sent (trace (world s))
         ++ flat_map frame_writes
              (firstn (flushed (chunks (wr s) ++ [chunk]) (writes s))
                 (chunks (wr s) ++ [chunk]))
    /\ chunks (wr s')
       = skipn (flushed (chunks (wr s) ++ [chunk]) (writes s))
           (chunks (wr s) ++ [chunk]).
Proof.
  intros [Hc Hs] Hsmall Hg. unfold CopyBoth._write. fields. rewrite Hg.
  set (s1 := with_wr (fun w => set_chunks (chunks w ++ [chunk]) w) s).
  assert (Hw1 : writable s1).
  { split; [exact Hc|]. subst s1. fields. rewrite forallb_app, Hs.
    cbn [forallb]. rewrite Hsmall. reflexivity. }
  rewrite (flush_spec (Some c) s1 Hw1).
  pose proof (flush_state_sent s1) as Hsent.
  pose proof (flush_state_chunks s1) as Hch.
  change (writes s1) with (writes s) in *.
  change (chunks (wr s1)) with (chunks (wr s) ++ [chunk]) in *.
  change (sent (trace (world s1))) with (sent (trace (world s))) in *.
  eexists. split; [reflexivity|].
  destruct (accepted _ _); [|destruct (Nat.ltb _ _)]; fields.
  - rewrite sent_app, Hsent. cbn [sent flat_map app]. rewrite app_nil_r.
    split; [reflexivity|exact Hch].
  - split; [exact Hsent|exact Hch].
  - split; [exact Hsent|exact Hch].
Qed.


End WithEnvironment.
End CopyBothFacts.

(** * The two decoders side by side *)
Module Transfers.
Import Wire WireFacts CopyBoth CopyBothFacts.

Section WithEnvironment.
Variable code : MessageFormats.
Variable writeReturns : nat -> bool.
Variable pushReturns : nat -> bool.

Local Abbreviation _parse := (_parse code writeReturns pushReturns).
Local Abbreviation feed := (feed code writeReturns pushReturns).
Local Abbreviation run := (run code writeReturns pushReturns).
Local Abbreviation ongoing := (ongoing code).
Local Abbreviation goes_on := (CopyToFacts.goes_on code).

(** C2, amended.  copy-both: in every run that ends detached,
    [_detach] has handed the connection's parser one buffer, the whole
    accumulator, and the bytes the decoder consumed followed by that buffer
    are the bytes of the chunks delivered while it was attached.  copy-to:
    [_detach] unpipes and hands nothing to anyone, in any run. *)
Theorem detach_accounting :
  (forall rm cs s',
     run rm cs = Ok s' -> readableListener (world s') = false ->
     exists fed rest unreadBuffer,
       cs = fed ++ rest
       /\ handedBack (trace (world s')) = [unreadBuffer]
       /\ consumed (world s') ++ unreadBuffer = concat fed)
  /\ (forall cs,
     exists s',
       CopyTo.run code cs = Ok s'
       /\ handedBack (CopyTo.events s') = []).
Proof.
  split.
  - intros rm cs s'. apply run_accounting.
  - intros cs. destruct (CopyToFacts.feed_total code cs (CopyTo.submit CopyTo.init))
      as (s' & E).
    exists s'. split; [exact E|]. exact (CopyToFacts.run_later code cs s' E).
Qed.


(** C5, amended.  copy-to: a frame whose code has no [case]
    makes [_transform] emit 'error' ('Unexpected PostgreSQL message').
    copy-both: no run emits 'error'; a frame whose code has no [case] ends
    the transfer as a CopyDone frame does, with [_detach] and
    [push(null)]. *)
Theorem unknown_code :
  (forall fs1 f fs2 cb s,
     CopyTo._remainder s = None -> Forall wf_frame (fs1 ++ f :: fs2) ->
     forallb goes_on fs1 = true ->
     CopyToFacts.recognized code (fcode f) = false ->
     exists s',
       CopyTo._transform code (encode_all (fs1 ++ f :: fs2)) cb s = Ok s'
       /\ In (UnexpectedMessage (fcode f)) (errors (CopyTo.events s')))
  /\ (forall rm cs s', run rm cs = Ok s' -> errors (trace (world s')) = [])
  /\ (forall fs f rest s,
     frame_ready s -> _buffer (rd s) = Some [] ->
     Forall wf_frame fs -> forallb ongoing fs = true ->
     wf_frame f -> classify code (fcode f) = End_ ->
     exists dr s',
       _parse (encode_all fs ++ encode f ++ rest) s = Ok (Some dr, s')
       /\ ended (trace (world s')) = true
       /\ errors (trace (world s')) = errors (trace (world s))
       /\ handedBack (trace (world s'))
          = handedBack (trace (world s)) ++ [rest]
       /\ readableListener (world s') = false).
Proof.
  split; [|split].
  - intros fs1 f fs2 cb s. apply CopyToFacts.transform_unknown.
  - intros rm cs s'. apply run_no_error.
  - intros fs f rest s. apply parse_end_chunk.
Qed.

(** C6, amended.  copy-to: the first CopyOutResponse frame
    sets [_gotCopyOutResponse] and emits nothing; a CopyOutResponse frame
    that comes once the flag is set makes [_transform] emit 'error'
    ('Unexpected CopyOutResponse message (H)').  copy-both: no run emits
    'error'; every CopyBothResponse frame, the first or a later one, runs
    [_startCopyIn]. *)
Theorem duplicate_copy_start :
  (forall h cb s,
     CopyTo._remainder s = None -> wf_frame h ->
     CopyTo._gotCopyOutResponse s = false ->
     fcode h = CopyOutResponse code ->
     exists s',
       CopyTo._transform code (encode h) cb s = Ok s'
       /\ CopyTo._gotCopyOutResponse s' = true
       /\ CopyTo.events s' = CopyTo.events s ++ [Call cb])
  /\ (forall fs1 h fs2 cb s,
     CopyTo._remainder s = None -> Forall wf_frame (fs1 ++ h :: fs2) ->
     forallb goes_on fs1 = true ->
     CopyTo._gotCopyOutResponse s
     || existsb (fun f => is_code (fcode f) (CopyOutResponse code)) fs1 = true ->
     fcode h = CopyOutResponse code ->
     exists s',
       CopyTo._transform code (encode_all (fs1 ++ h :: fs2)) cb s = Ok s'
       /\ In UnexpectedCopyOutResponse (errors (CopyTo.events s')))
  /\ (forall rm cs s', run rm cs = Ok s' -> errors (trace (world s')) = [])
  /\ (forall s f rest,
     distinct code = true ->
     frame_ready s -> _buffer (rd s) = Some (encode f ++ rest) ->
     wf_frame f -> fcode f = CopyBothResponse code ->
     body code writeReturns pushReturns s
     = Ok (Again false None
             (with_rd (set_state PG_CODE)
                (startCopyIn_state code writeReturns
                   (decoded code f rest s))))).
Proof.
  split; [|split; [|split]].
  - intros h cb s. apply CopyToFacts.transform_first_start.
  - intros fs1 h fs2 cb s. apply CopyToFacts.transform_second_start.
  - intros rm cs s'. apply run_no_error.
  - intros s f rest. apply start_pass.
Qed.

End WithEnvironment.
End Transfers.

(** * Runs with the codes of PostgreSQL *)
Module Runs.
Import Wire WireFacts.

(** A transport, or a consumer, that never signals backpressure, and one
    that always does. *)
Definition accepting : nat -> bool := fun _ => true.
Definition refusing : nat -> bool := fun _ => false.

Definition H_frame : Frame := frame "H" [x00; x00; x00].
Definition W_frame : Frame := frame "W" [x00; x00; x00].
Definition d_ab : Frame := frame "d" ["a"; "b"]%byte.
Definition d_c : Frame := frame "d" ["c"]%byte.
Definition d_empty : Frame := frame "d" [].
Definition N_xy : Frame := frame "N" ["x"; "y"]%byte.
Definition E_frame : Frame := frame "E" ["S"%byte; x00].
Definition c_frame : Frame := frame "c" [].
Definition Z_frame : Frame := frame "Z" ["I"]%byte.

(** The copy-both instance after construction and [submit]. *)
Definition attached (rm : bool) : CopyBoth.CopyStreamQuery :=
  match CopyBoth.submit pg accepting accepting (CopyBoth.new rm) with
  | Ok s => s
  | _ => CopyBoth.new rm
  end.

Lemma submit_attached rm :
  CopyBoth.submit pg accepting accepting (CopyBoth.new rm) = Ok (attached rm).
Proof. reflexivity. Qed.

Lemma frame_ready_attached rm : CopyBothFacts.frame_ready (attached rm).
Proof.
  split; [reflexivity|]. split; [discriminate|].
  split; [split; reflexivity|reflexivity].
Qed.

(** ** Chunk boundaries *)

(** C1.  The same stream, whole and cut.  copy-to: a CopyOutResponse frame
    cut behind its header is taken for a second one when the rest comes,
    and 'error' is emitted; a NoticeResponse frame behind a CopyData frame
    is forwarded when both come in one chunk, and not when they come in
    two.  copy-both, not in row mode: the payload of a CopyData frame is
    never pushed when an ErrorResponse frame comes behind it in the same
    chunk, and it is pushed when the two come in two chunks. *)
Theorem chunk_boundary_dependence :
  (exists s s',
     CopyTo.run pg [encode H_frame ++ encode d_ab] = Ok s
     /\ CopyTo.run pg [firstn 5 (encode H_frame ++ encode d_ab);
                       skipn 5 (encode H_frame ++ encode d_ab)] = Ok s'
     /\ errors (CopyTo.events s) = []
     /\ errors (CopyTo.events s') = [UnexpectedCopyOutResponse])
  /\ (exists s s',
     CopyTo.run pg [encode d_ab ++ encode N_xy] = Ok s
     /\ CopyTo.run pg [encode d_ab; encode N_xy] = Ok s'
     /\ forwarded (CopyTo.events s) = ["a"; "b"; "x"; "y"]%byte
     /\ forwarded (CopyTo.events s') = ["a"; "b"]%byte)
  /\ (exists s s',
     CopyBoth.run pg accepting accepting false
       [encode d_ab ++ encode E_frame] = Ok s
     /\ CopyBoth.run pg accepting accepting false
          [encode d_ab; encode E_frame] = Ok s'
     /\ forwarded (CopyBoth.trace (CopyBoth.world s)) = []
     /\ forwarded (CopyBoth.trace (CopyBoth.world s')) = ["a"; "b"]%byte).
Proof.
  split; [|split]; eexists _, _;
    (split; [vm_compute; reflexivity|]);
    (split; [vm_compute; reflexivity|]); split; vm_compute; reflexivity.
Qed.

(** C4.  copy-to forwards the payload of a NoticeResponse frame that comes
    behind a CopyData frame in the same chunk: [needPush] is still set. *)
Theorem notice_payload_forwarded :
  exists s,
    CopyTo.run pg [encode d_ab ++ encode N_xy] = Ok s
    /\ pushed (CopyTo.events s) = [["a"; "b"; "x"; "y"]%byte].
Proof. eexists. split; vm_compute; reflexivity. Qed.

(** ** The write side *)

(** C8.  Three chunks written before the acknowledgment, a transport that
    answers every write with [false], then the end of input: the third
    chunk is still queued when the CopyDone frame is written. *)
Theorem final_leaves_chunk_queued :
  exists s',
    CopyBoth.respects pg refusing accepting
      [CopyBoth.DoWritev [["a"]; ["b"]; ["c"]]%byte 0%nat;
       CopyBoth.DoParse (encode W_frame); CopyBoth.DoFinal 1%nat]
      (attached false) = true
    /\ CopyBoth.steps pg refusing accepting
         [CopyBoth.DoWritev [["a"]; ["b"]; ["c"]]%byte 0%nat;
          CopyBoth.DoParse (encode W_frame); CopyBoth.DoFinal 1%nat]
         (attached false) = Ok s'
    /\ sent (CopyBoth.trace (CopyBoth.world s'))
       = [["d"%byte; x00; x00; x00; x05]; ["a"%byte];
          ["d"%byte; x00; x00; x00; x05]; ["b"%byte];
          ["c"%byte; x00; x00; x00; x04]]
    /\ CopyBoth.chunks (CopyBoth.wr s') = [["c"%byte]].
Proof.
  eexists. split; [vm_compute; reflexivity|].
  split; [vm_compute; reflexivity|]. split; vm_compute; reflexivity.
Qed.



(** ** Detach *)

(** C2 fails as stated: copy-to detaches on a CopyDone frame
    with a ReadyForQuery frame behind it in the chunk; it has stepped over
    no byte and replays none. *)
Lemma copy_to_detach_replays_nothing :
  exists s',
    CopyTo.run pg [encode c_frame ++ encode Z_frame] = Ok s'
    /\ CopyTo.piped s' = false
    /\ handedBack (CopyTo.events s') = []
    /\ CopyTo.consumed s' ++ concat (handedBack (CopyTo.events s'))
       <> encode c_frame ++ encode Z_frame.
Proof.
  eexists. split; [vm_compute; reflexivity|].
  split; [vm_compute; reflexivity|]. split; [vm_compute; reflexivity|].
  vm_compute. discriminate.
Qed.

(** C2 on a run: copy-both, a CopyData frame, a CopyDone frame and a
    ReadyForQuery frame in two chunks. *)
Lemma detach_accounting_run :
  exists s',
    CopyBoth.run pg accepting accepting false
      [encode d_ab; encode c_frame ++ encode Z_frame] = Ok s'
    /\ exists fed rest unreadBuffer,
         [encode d_ab; encode c_frame ++ encode Z_frame] = fed ++ rest
         /\ handedBack (CopyBoth.trace (CopyBoth.world s')) = [unreadBuffer]
         /\ CopyBoth.consumed (CopyBoth.world s') ++ unreadBuffer
            = concat fed.
Proof.
  eexists. split; [vm_compute; reflexivity|].
  refine (proj1 (Transfers.detach_accounting pg accepting accepting)
            false _ _ _ _).
  - vm_compute; reflexivity.
  - vm_compute; reflexivity.
Defined.

(** ** ErrorResponse *)



(** ** Codes without a case *)

(** C5 fails as stated: copy-both takes a frame with the code
    of ReadyForQuery for the end of the transfer, and emits no 'error'. *)
Lemma copy_both_unknown_code_ends_quietly :
  exists s',
    CopyBoth.run pg accepting accepting false [encode Z_frame] = Ok s'
    /\ errors (CopyBoth.trace (CopyBoth.world s')) = []
    /\ ended (CopyBoth.trace (CopyBoth.world s')) = true.
Proof.
  eexists. split; [vm_compute; reflexivity|]. split; vm_compute; reflexivity.
Qed.

(** C5 on a run: copy-to, a frame with the code of ReadyForQuery between a
    CopyOutResponse frame and a CopyData frame. *)
Lemma unknown_code_run :
  exists s',
    CopyTo._transform pg (encode_all ([H_frame] ++ Z_frame :: [d_ab])) 0%nat
      (CopyTo.submit CopyTo.init) = Ok s'
    /\ In (UnexpectedMessage "Z") (errors (CopyTo.events s')).
Proof.
  refine (proj1 (Transfers.unknown_code pg accepting accepting)
            [H_frame] Z_frame [d_ab] 0%nat (CopyTo.submit CopyTo.init)
            _ _ _ _).
  - reflexivity.
  - repeat constructor.
  - vm_compute; reflexivity.
  - vm_compute; reflexivity.
Defined.

(** ** Copy start *)

(** C6 fails as stated: copy-both on two CopyBothResponse
    frames emits no 'error' and stays attached. *)
Lemma copy_both_second_start_accepted :
  exists s',
    CopyBoth.run pg accepting accepting false
      [encode W_frame ++ encode W_frame] = Ok s'
    /\ errors (CopyBoth.trace (CopyBoth.world s')) = []
    /\ CopyBoth._gotCopyInResponse (CopyBoth.wr s') = true
    /\ CopyBoth.readableListener (CopyBoth.world s') = true.
Proof.
  eexists. split; [vm_compute; reflexivity|].
  split; [vm_compute; reflexivity|]. split; vm_compute; reflexivity.
Qed.

(** C6 on a run: copy-to, a second CopyOutResponse frame behind a CopyData
    frame. *)
Lemma duplicate_copy_start_run :
  exists s',
    CopyTo._transform pg (encode_all ([H_frame; d_ab] ++ H_frame :: [])) 0%nat
      (CopyTo.submit CopyTo.init) = Ok s'
    /\ In UnexpectedCopyOutResponse (errors (CopyTo.events s')).
Proof.
  refine (proj1 (proj2 (Transfers.duplicate_copy_start pg accepting accepting))
            [H_frame; d_ab] H_frame [] 0%nat (CopyTo.submit CopyTo.init)
            _ _ _ _ _).
  - reflexivity.
  - repeat constructor.
  - vm_compute; reflexivity.
  - vm_compute; reflexivity.
  - reflexivity.
Defined.

(** ** Row mode *)

(** C9 fails as stated: a CopyData frame with an empty
    payload is decoded, and no unit is pushed for it. *)
Lemma row_mode_empty_payload :
  exists s',
    CopyBoth.run pg accepting accepting true [encode d_empty] = Ok s'
    /\ CopyBoth.consumed (CopyBoth.world s') = encode d_empty
    /\ pushed (CopyBoth.trace (CopyBoth.world s')) = []
    /\ pushed (CopyBoth.trace (CopyBoth.world s')) <> map payload [d_empty].
Proof.
  eexists. split; [vm_compute; reflexivity|].
  split; [vm_compute; reflexivity|]. split; [vm_compute; reflexivity|].
  vm_compute. discriminate.
Qed.

(** C9 on a run: five frames, a CopyDone frame and a ReadyForQuery frame,
    cut after 7 bytes and 4 bytes into the CopyDone frame. *)
Definition transfer : Buffer :=
  encode_all [W_frame; d_ab; N_xy; d_c; d_empty]
  ++ encode c_frame ++ encode Z_frame.

Lemma row_mode_units_run :
  exists s',
    CopyBoth.run pg accepting accepting true
      [firstn 7 transfer; firstn 30 (skipn 7 transfer); skipn 37 transfer]
    = Ok s'
    /\ pushed (CopyBoth.trace (CopyBoth.world s'))
       = [["a"; "b"]; ["c"]]%byte
    /\ (CopyBothFacts.Ends c_frame (encode Z_frame) = CopyBothFacts.Open ->
        CopyBoth.readableListener (CopyBoth.world s') = true)
    /\ (CopyBothFacts.Ends c_frame (encode Z_frame) <> CopyBothFacts.Open ->
        CopyBoth.readableListener (CopyBoth.world s') = false).
Proof.
  refine (CopyBothFacts.row_mode_units pg accepting accepting
            [W_frame; d_ab; N_xy; d_c; d_empty]
            (CopyBothFacts.Ends c_frame (encode Z_frame)) _ _ _ _ _ _).
  - vm_compute; reflexivity.
  - repeat constructor.
  - vm_compute; reflexivity.
  - split; [split|]; vm_compute; reflexivity.
  - vm_compute; reflexivity.
Defined.

(** ** Termination *)


End Runs.

(** * More of copy-to.js: the bytes of a transfer *)
Module CopyToCalls.
Import Wire WireFacts CopyTo CopyToFacts.

Lemma firstn_more {A} (a n : nat) : forall l : list A,
  firstn a l ++ firstn n (skipn a l) = firstn (a + n) l.
Proof.
  induction a as [|a IH]; intros l; [reflexivity|].
  destruct l as [|x l]; [destruct n; reflexivity|].
  cbn [firstn skipn Nat.add app]. rewrite IH. reflexivity.
Qed.

(** What [_remainder] holds, [false] and [undefined] being nothing. *)
Definition left_over (s : CopyStreamQuery) : Buffer :=
  match _remainder s with
  | Some r => r
  | None => []
  end.

Section WithCodes.
Variable code : MessageFormats.

Local Abbreviation switch := (switch code).
Local Abbreviation transform_loop := (transform_loop code).
Local Abbreviation _transform := (_transform code).
Local Abbreviation feed := (feed code).
Local Abbreviation run := (run code).

Lemma switch_keeps c cb l s :
  match switch c cb l s with
  | Break_ l1 s1 =>
    offset l1 = offset l /\ consumed s1 = consumed s
    /\ piped s1 = piped s /\ _remainder s1 = _remainder s
  | Return_ s1 =>
    consumed s1 = consumed s /\ piped s1 = false
    /\ _remainder s1 = _remainder s
  end.
Proof.
  unfold CopyTo.switch.
  destruct (is_code c (CopyOutResponse code)).
  { destruct (negb _); repeat split. }
  destruct (is_code c (CopyData code)); [repeat split|].
  destruct (_ || _); [repeat split|].
  destruct (_ || _); [|repeat split].
  unfold pushBufferIfneeded. destruct (_ && _); repeat split.
Qed.

(** The loop steps over a prefix of the chunk, frame by frame. *)
Lemma transform_loop_account fuel : forall chunk cb l s e c0,
  transform_loop fuel chunk cb l s = Ok e ->
  0 <= offset l <= len chunk ->
  consumed s = c0 ++ firstn (Z.to_nat (offset l)) chunk ->
  match e with
  | Fell l' s' =>
    0 <= offset l' <= len chunk
    /\ consumed s' = c0 ++ firstn (Z.to_nat (offset l')) chunk
    /\ piped s' = piped s /\ _remainder s' = _remainder s
  | Returned s' =>
    piped s' = false /\ _remainder s' = _remainder s
    /\ exists k, (k <= length chunk)%nat /\ consumed s' = c0 ++ firstn k chunk
  end.
Proof.
  induction fuel as [|fuel IH]; intros chunk cb l s e c0; [discriminate|].
  cbn [CopyTo.transform_loop]. intros H Ho Hc.
  destruct (len chunk - offset l >=? Byte1Len + Int32Len) eqn:E;
    [|injection H as <-; repeat split; try assumption; apply Ho].
  pose proof (switch_keeps (at_ chunk (offset l)) cb l s) as Hs.
  destruct (switch _ cb l s) as [s1|l1 s1].
  { injection H as <-. destruct Hs as (H1 & H2 & H3).
    split; [exact H2|]. split; [exact H3|].
    exists (Z.to_nat (offset l)). split; [unfold len in Ho; lia|].
    rewrite H1. exact Hc. }
  destruct Hs as (Ho1 & Hc1 & Hp1 & Hr1).
  pose proof (readUInt32BE_range chunk (offset l1 + Byte1Len)) as Hr.
  set (length_ := readUInt32BE chunk (offset l1 + Byte1Len)) in *.
  destruct (len chunk >=? offset l1 + Byte1Len + length_) eqn:E2.
  - unfold Byte1Len, Int32Len in *. apply Z.geb_le in E, E2.
    assert (Hstep : consumed s1
                    ++ slice chunk (offset l1)
                         (offset l1 + (1 + 4) + (length_ - 4))
                    = c0 ++ firstn (Z.to_nat (offset l1 + (1 + 4) + (length_ - 4)))
                              chunk).
    { rewrite Hc1, Hc, Ho1, <- app_assoc. f_equal. unfold slice.
      rewrite firstn_more. f_equal. lia. }
    destruct (needPush l1); apply IH with (c0 := c0) in H;
      cbn [offset consumed consume set_rowCount] in *;
      try (rewrite Ho1; lia); try exact Hstep;
      (destruct e as [s'|l' s'];
       [destruct H as (A1 & A2 & A3); split; [exact A1|];
        split; [rewrite A2; exact Hr1|exact A3]
       |destruct H as (A1 & A2 & A3 & A4); split; [exact A1|];
        split; [exact A2|]; split; [rewrite A3; exact Hp1
                                   |rewrite A4; exact Hr1]]).
  - injection H as <-. rewrite Ho1. repeat split; try apply Ho; try assumption.
    rewrite Hc1. exact Hc.
Qed.

(** One call, on an instance that is piped. *)
Lemma transform_account chunk cb s :
  exists s' k,
    _transform chunk cb s = Ok s'
    /\ (k <= length (left_over s ++ chunk))%nat
    /\ consumed s' = consumed s ++ firstn k (left_over s ++ chunk)
    /\ (piped s' = true -> left_over s' = skipn k (left_over s ++ chunk))
    /\ (piped s = true -> piped s' = false ->
        _remainder s' = _remainder s).
Proof.
  destruct (transform_total code chunk cb s) as (s' & E). exists s'.
  revert E. unfold CopyTo._transform.
  assert (Hin : match _remainder s with Some r => r ++ chunk | None => chunk end
                = left_over s ++ chunk).
  { unfold left_over. destruct (_remainder s); reflexivity. }
  rewrite Hin. set (input := left_over s ++ chunk).
  destruct (transform_loop (S (length input)) input cb (mkLocals 0 false []) s)
    as [e| |] eqn:El; cbn [bind]; try discriminate.
  pose proof (transform_loop_account _ _ _ _ _ _ (consumed s) El) as H.
  cbn [offset] in H. specialize (H (conj (Z.le_refl 0) (len_nonneg input))).
  rewrite app_nil_r in H. specialize (H eq_refl).
  destruct e as [s1|l s1].
  - intros [= <-]. destruct H as (H1 & H2 & k & Hk & H3).
    exists k. split; [reflexivity|]. split; [exact Hk|]. split; [exact H3|].
    split; [rewrite H1; discriminate|]. intros _ _. exact H2.
  - destruct H as (Ho & Hc & Hp & Hr).
    assert (Hpush : offset (fst (pushBufferIfneeded l s1)) = offset l
                    /\ consumed (snd (pushBufferIfneeded l s1)) = consumed s1
                    /\ piped (snd (pushBufferIfneeded l s1)) = piped s1).
    { unfold pushBufferIfneeded. destruct (_ && _); repeat split. }
    destruct (pushBufferIfneeded l s1) as [l2 s2]. cbn [fst snd] in Hpush.
    destruct Hpush as (Ho2 & Hc2 & Hp2). rewrite Ho2.
    intros [= <-]. exists (Z.to_nat (offset l)).
    split; [reflexivity|]. split; [unfold len in Ho; lia|].
    split; [|split].
    + destruct (_ =? 0); cbn [consumed emit set_remainder];
        rewrite Hc2; exact Hc.
    + intros _. unfold left_over.
      destruct (len input - offset l =? 0) eqn:E0;
        cbn [_remainder emit set_remainder].
      * apply Z.eqb_eq in E0. symmetry. apply skipn_all2. unfold len in *. lia.
      * unfold slice. apply firstn_all2. rewrite length_skipn.
        unfold len. lia.
    + intros Hps Hps'. exfalso.
      assert (piped s2 = false)
        by (destruct (_ =? 0); exact Hps').
      congruence.
Qed.

Lemma feed_account cs : forall s,
  piped s = true ->
  exists s',
    feed cs s = Ok s'
    /\ (piped s' = true ->
        consumed s' ++ left_over s'
        = consumed s ++ left_over s ++ concat cs)
    /\ (piped s' = false ->
        exists fed rest k,
          cs = fed ++ rest
          /\ consumed s'
             = consumed s ++ firstn k (left_over s ++ concat fed)).
Proof.
  induction cs as [|c cs IH]; intros s Hp.
  - exists s. split; [reflexivity|]. split; [|congruence].
    intros _. cbn [concat]. rewrite app_nil_r. reflexivity.
  - cbn [CopyTo.feed concat]. rewrite Hp.
    destruct (transform_account c 0%nat s) as (s1 & k & -> & Hk & Hc & Hl & _).
    cbn [bind]. destruct (piped s1) eqn:Hp1.
    + specialize (Hl eq_refl).
      assert (Hall : consumed s1 ++ left_over s1
                     = consumed s ++ left_over s ++ c).
      { rewrite Hc, Hl, <- app_assoc, firstn_skipn. reflexivity. }
      destruct (IH s1 Hp1) as (s' & Hf & Hon & Hoff).
      exists s'. split; [exact Hf|]. split.
      * intros H. rewrite (Hon H), app_assoc, Hall, <- !app_assoc.
        reflexivity.
      * intros H. destruct (Hoff H) as (fed & rest & k' & -> & Hc').
        exists (c :: fed), rest, (k + k')%nat. split; [reflexivity|].
        rewrite Hc', Hc, Hl, <- app_assoc. f_equal. cbn [concat].
        rewrite app_assoc. rewrite <- firstn_more.
        rewrite (firstn_app_le k _ _ Hk), (skipn_app_le k _ _ Hk).
        reflexivity.
    + exists s1. split; [destruct cs; cbn [CopyTo.feed]; rewrite ?Hp1; reflexivity|].
      split; [congruence|]. intros _. exists [c], cs, k.
      split; [reflexivity|]. cbn [concat]. rewrite app_nil_r. exact Hc.
Qed.

(** X1.  copy-to loses no byte between calls.  Every run returns.  As
    long as the instance is piped, the bytes [_transform] has stepped over,
    followed by what it keeps in [_remainder], are the bytes of all the
    chunks written to it, in order; once it has detached, what it has
    stepped over is a prefix of the chunks written until then. *)
Theorem copy_to_accounting cs :
  exists s',
    run cs = Ok s'
    /\ (piped s' = true -> consumed s' ++ left_over s' = concat cs)
    /\ (piped s' = false ->
        exists fed rest k,
          cs = fed ++ rest /\ consumed s' = firstn k (concat fed)).
Proof.
  unfold CopyTo.run.
  destruct (feed_account cs (submit init) eq_refl) as (s' & Hf & Hon & Hoff).
  exists s'. split; [exact Hf|]. split.
  - intros H. exact (Hon H).
  - intros H. exact (Hoff H).
Qed.

(** *** Rows that arrive together *)

(** Frames the [switch] passes by without a push: the start of the
    transfer and the three kinds of asides. *)
Definition silent (f : Frame) : bool :=
  is_code (fcode f) (CopyOutResponse code)
  || is_code (fcode f) (ParameterStatus code)
  || is_code (fcode f) (NoticeResponse code)
  || is_code (fcode f) (NotificationResponse code).

Definition is_row (f : Frame) : bool := is_code (fcode f) (CopyData code).

Lemma called_app t t' : called (t ++ t') = called t ++ called t'.
Proof. apply flat_map_app. Qed.

(** What a step leaves alone when it pushes nothing and calls nothing. *)
Definition quiet (s s1 : CopyStreamQuery) : Prop :=
  pushed (events s1) = pushed (events s)
  /\ called (events s1) = called (events s)
  /\ _remainder s1 = _remainder s /\ piped s1 = piped s.

Lemma quiet_refl s : quiet s s.
Proof. repeat split. Qed.

Lemma quiet_trans s s1 s2 : quiet s s1 -> quiet s1 s2 -> quiet s s2.
Proof.
  intros (A1 & A2 & A3 & A4) (B1 & B2 & B3 & B4).
  repeat split; congruence.
Qed.

Lemma quiet_error e s : quiet s (emit (EmitError e) s).
Proof.
  unfold quiet. cbn [events emit _remainder piped].
  rewrite CopyBothFacts.pushed_app, called_app, !app_nil_r. repeat split.
Qed.

Lemma switch_silent f cb l s :
  distinct code = true -> silent f = true ->
  exists s1,
    switch (fcode f) cb l s = Break_ l s1
    /\ quiet s s1 /\ rowCount s1 = rowCount s.
Proof.
  intros Hd Hs. unfold silent in Hs. unfold CopyTo.switch.
  destruct (is_code (fcode f) (CopyOutResponse code)).
  { destruct (negb _); eexists; (split; [reflexivity|]).
    - split; [repeat split|reflexivity].
    - split; [apply quiet_error|reflexivity]. }
  cbn [orb] in Hs.
  assert (Hrow : is_code (fcode f) (CopyData code) = false).
  { apply orb_prop in Hs. destruct Hs as [Hs|Hs];
      [apply orb_prop in Hs; destruct Hs as [Hs|Hs]|];
      apply is_code_eq in Hs; rewrite Hs.
    - differ Hd 8%nat 5%nat. reflexivity.
    - differ Hd 7%nat 5%nat. reflexivity.
    - differ Hd 6%nat 5%nat. reflexivity. }
  rewrite Hrow, Hs. exists s. split; [reflexivity|].
  split; [apply quiet_refl|reflexivity].
Qed.

Lemma switch_row f cb l s :
  distinct code = true -> is_row f = true ->
  switch (fcode f) cb l s = Break_ (mkLocals (offset l) true (buffer l)) s.
Proof.
  intros Hd Hr. unfold is_row in Hr. unfold CopyTo.switch.
  rewrite Hr. apply is_code_eq in Hr. rewrite Hr.
  differ Hd 5%nat 2%nat. reflexivity.
Qed.

(** The loop over frames that push nothing: the locals only move on. *)
Lemma frames_loop_silent qs : forall fs cb l s,
  distinct code = true -> forallb silent qs = true -> needPush l = false ->
  exists s1,
    frames_loop code (qs ++ fs) cb l s
    = frames_loop code fs cb
        (mkLocals (offset l + len (encode_all qs)) false (buffer l)) s1
    /\ quiet s s1 /\ rowCount s1 = rowCount s.
Proof.
  induction qs as [|q qs IH]; intros fs cb l s Hd Hq Hn.
  - exists s. cbn [app encode_all flat_map]. unfold len at 1. cbn [length].
    rewrite Z.add_0_r. destruct l as [o n b]. cbn in Hn. subst n.
    split; [reflexivity|]. split; [apply quiet_refl|reflexivity].
  - cbn [forallb] in Hq. apply andb_prop in Hq. destruct Hq as [Hq Hqs].
    destruct (switch_silent q cb l s Hd Hq) as (s1 & Es & Hq1 & Hr1).
    cbn [app frames_loop]. rewrite Es. unfold over. rewrite Hn.
    destruct (IH fs cb (mkLocals (offset l + len (encode q)) false (buffer l))
                (consume (encode q) s1) Hd Hqs eq_refl)
      as (s2 & E2 & Hq2 & Hr2).
    exists s2. rewrite E2. cbn [offset buffer encode_all flat_map].
    fold (encode_all qs). rewrite len_app, Z.add_assoc.
    split; [reflexivity|]. split; [|rewrite Hr2; exact Hr1].
    eapply quiet_trans; [exact Hq1|]. eapply quiet_trans; [|exact Hq2].
    repeat split.
Qed.

(** The loop over rows: their payloads are gathered in [buffer]. *)
Lemma frames_loop_rows rows : forall cb l s,
  distinct code = true -> forallb is_row rows = true ->
  exists s1,
    frames_loop code rows cb l s
    = Fell (mkLocals (offset l + len (encode_all rows))
              (needPush l || negb (Nat.eqb (length rows) 0))
              (buffer l ++ concat (map payload rows))) s1
    /\ quiet s s1
    /\ rowCount s1 = rowCount s + Z.of_nat (length rows).
Proof.
  induction rows as [|r rows IH]; intros cb l s Hd Hr.
  - exists s. cbn [frames_loop encode_all flat_map map concat length Nat.eqb negb].
    unfold len at 1. cbn [length]. rewrite Z.add_0_r, orb_false_r, app_nil_r.
    destruct l. split; [reflexivity|]. split; [apply quiet_refl|cbn; lia].
  - cbn [forallb] in Hr. apply andb_prop in Hr. destruct Hr as [Hr Hrs].
    cbn [frames_loop]. rewrite (switch_row r cb l s Hd Hr).
    unfold over. cbn [needPush offset buffer].
    destruct (IH cb (mkLocals (offset l + len (encode r)) true
                       (buffer l ++ payload r))
                (set_rowCount (rowCount s + 1) (consume (encode r) s)) Hd Hrs)
      as (s1 & E1 & Hq1 & Hr1).
    exists s1. rewrite E1.
    cbn [offset needPush buffer encode_all flat_map map concat length Nat.eqb
         negb orb].
    fold (encode_all rows). rewrite len_app, Z.add_assoc, <- app_assoc.
    rewrite orb_true_r.
    split; [reflexivity|]. split.
    + eapply quiet_trans; [|exact Hq1]. repeat split.
    + rewrite Hr1. cbn [rowCount set_rowCount consume]. lia.
Qed.

(** X2.  Rows that arrive in one chunk leave in one push.  When a chunk
    holds whole frames only, first frames that are no rows (the start of
    the transfer, notices, notifications, parameter statuses) and then
    CopyData frames, the call pushes one Buffer, the payloads of the rows
    one after the other (nothing when they are all empty), counts the
    rows in [rowCount], keeps no remainder and calls its callback once. *)
Theorem rows_pushed_together qs rows cb s :
  distinct code = true ->
  _remainder s = None ->
  Forall wf_frame (qs ++ rows) ->
  forallb silent qs = true ->
  forallb is_row rows = true ->
  exists s',
    _transform (encode_all (qs ++ rows)) cb s = Ok s'
    /\ pushed (events s')
       = pushed (events s)
         ++ (if 0 <? len (concat (map payload rows))
             then [concat (map payload rows)] else [])
    /\ rowCount s' = rowCount s + Z.of_nat (length rows)
    /\ _remainder s' = None
    /\ called (events s') = called (events s) ++ [cb]
    /\ piped s' = piped s.
Proof.
  intros Hd Hrem Hwf Hq Hr.
  rewrite (transform_frames code (qs ++ rows) cb s Hrem Hwf).
  eexists. split; [reflexivity|].
  destruct (frames_loop_silent qs rows cb (mkLocals 0 false []) s Hd Hq eq_refl)
    as (s1 & E1 & Hq1 & Hr1).
  cbn [offset buffer] in E1.
  destruct (frames_loop_rows rows cb
              (mkLocals (0 + len (encode_all qs)) false []) s1 Hd Hr)
    as (s2 & E2 & Hq2 & Hr2).
  cbn [offset needPush buffer app orb] in E2.
  rewrite E1, E2. cbn [finish]. unfold pushBufferIfneeded.
  cbn [needPush buffer].
  pose proof (quiet_trans _ _ _ Hq1 Hq2) as (Hp & Hc & Hrm & Hpi).
  assert (Hoff : (len (encode_all (qs ++ rows))
                  - (0 + len (encode_all qs) + len (encode_all rows)) =? 0)
                 = true).
  { apply Z.eqb_eq. unfold encode_all. rewrite flat_map_app, len_app. lia. }
  assert (Hnone : rows = [] ->
                  (0 <? len (concat (map payload rows))) = false).
  { intros ->. reflexivity. }
  destruct (negb (length rows =? 0)%nat) eqn:En; cbn [andb].
  - destruct (0 <? len (concat (map payload rows))); cbn [offset];
      rewrite Hoff; cbn [events emit set_remainder rowCount _remainder piped];
      rewrite ?CopyBothFacts.pushed_app, ?called_app, Hp, Hc, Hr2, Hr1;
      cbn [pushed called flat_map app]; rewrite ?app_nil_r;
      repeat split; try assumption; rewrite <- ?app_assoc; reflexivity.
  - rewrite Hnone by (destruct rows; [reflexivity|discriminate]).
    cbn [offset]. rewrite Hoff.
    cbn [events emit set_remainder rowCount _remainder piped].
    rewrite CopyBothFacts.pushed_app, called_app, Hp, Hc, Hr2, Hr1.
    cbn [pushed called flat_map app]. rewrite !app_nil_r.
    repeat split; assumption.
Qed.

(** *** Rows across chunks

    A stream of rows behind the frames that come before them, cut into
    chunks in any way. *)

(** Frames that are no rows, then rows. *)
Fixpoint tidy (fs : list Frame) : bool :=
  match fs with
  | [] => true
  | f :: fs' => (is_row f && forallb is_row fs') || (silent f && tidy fs')
  end.

Definition rows_of (fs : list Frame) : list Frame := filter is_row fs.

(** The payload bytes of the rows among [fs]. *)
Definition row_bytes (fs : list Frame) : Buffer :=
  concat (map payload (rows_of fs)).

Lemma silent_not_row f :
  distinct code = true -> silent f = true -> is_row f = false.
Proof.
  intros Hd Hs. unfold silent in Hs. unfold is_row.
  apply orb_prop in Hs. destruct Hs as [Hs|Hs];
    [apply orb_prop in Hs; destruct Hs as [Hs|Hs];
     [apply orb_prop in Hs; destruct Hs as [Hs|Hs]|]|];
    apply is_code_eq in Hs; rewrite Hs.
  - differ Hd 2%nat 5%nat. reflexivity.
  - differ Hd 8%nat 5%nat. reflexivity.
  - differ Hd 7%nat 5%nat. reflexivity.
  - differ Hd 6%nat 5%nat. reflexivity.
Qed.

Lemma tidy_rows rows : forallb is_row rows = true -> tidy rows = true.
Proof.
  destruct rows as [|r rows]; [reflexivity|]. cbn [forallb tidy].
  intros H. apply andb_prop in H. destruct H as [-> ->]. reflexivity.
Qed.

Lemma tidy_app qs rows :
  forallb silent qs = true -> forallb is_row rows = true ->
  tidy (qs ++ rows) = true.
Proof.
  intros Hq Hr. induction qs as [|q qs IH]; [apply tidy_rows, Hr|].
  cbn [forallb] in Hq. apply andb_prop in Hq. destruct Hq as [Hq Hqs].
  cbn [app tidy]. rewrite Hq, (IH Hqs). apply orb_true_r.
Qed.

Lemma tidy_split a : forall b,
  tidy (a ++ b) = true -> tidy a = true /\ tidy b = true.
Proof.
  induction a as [|f a IH]; intros b H; [split; [reflexivity|exact H]|].
  cbn [app tidy] in *. apply orb_prop in H. destruct H as [H|H];
    apply andb_prop in H; destruct H as [Hf H].
  - rewrite forallb_app in H. apply andb_prop in H. destruct H as [Ha Hb].
    rewrite Hf, Ha. split; [reflexivity|apply tidy_rows, Hb].
  - destruct (IH b H) as [Ha Hb]. rewrite Hf, Ha.
    split; [apply orb_true_r|exact Hb].
Qed.

Lemma rows_of_all rows : forallb is_row rows = true -> rows_of rows = rows.
Proof.
  intros H. induction rows as [|r rows IH]; [reflexivity|].
  cbn [forallb] in H. apply andb_prop in H. destruct H as [Hr Hrs].
  unfold rows_of in *. cbn [filter]. rewrite Hr, (IH Hrs). reflexivity.
Qed.

Lemma row_bytes_app a b : row_bytes (a ++ b) = row_bytes a ++ row_bytes b.
Proof.
  unfold row_bytes, rows_of. rewrite filter_app, map_app, concat_app.
  reflexivity.
Qed.

Lemma rows_of_app a b : rows_of (a ++ b) = rows_of a ++ rows_of b.
Proof. apply filter_app. Qed.

(** The loop over whole frames that are tidy, from the start of a call. *)
Lemma frames_loop_tidy fs : forall cb l s,
  distinct code = true -> tidy fs = true -> needPush l = false ->
  exists l1 s1,
    frames_loop code fs cb l s = Fell l1 s1
    /\ offset l1 = offset l + len (encode_all fs)
    /\ buffer l1 = buffer l ++ row_bytes fs
    /\ (needPush l1 = false -> rows_of fs = [])
    /\ quiet s s1
    /\ rowCount s1 = rowCount s + Z.of_nat (length (rows_of fs)).
Proof.
  induction fs as [|f fs IH]; intros cb l s Hd Ht Hn.
  - exists l, s. cbn [frames_loop encode_all flat_map]. unfold row_bytes.
    cbn [rows_of filter map concat length]. unfold len at 1. cbn [length].
    rewrite app_nil_r. repeat split; try apply quiet_refl; cbn; lia.
  - cbn [tidy] in Ht. apply orb_prop in Ht. destruct Ht as [Ht|Ht];
      apply andb_prop in Ht; destruct Ht as [Hf Hfs].
    + assert (Hall : forallb is_row (f :: fs) = true)
        by (cbn [forallb]; rewrite Hf, Hfs; reflexivity).
      destruct (frames_loop_rows (f :: fs) cb l s Hd Hall)
        as (s1 & E & Hq & Hr).
      eexists _, s1. split; [exact E|]. cbn [offset buffer needPush].
      unfold row_bytes. rewrite (rows_of_all _ Hall).
      split; [reflexivity|]. split; [reflexivity|].
      split; [rewrite Hn; discriminate|]. split; [exact Hq|exact Hr].
    + destruct (switch_silent f cb l s Hd Hf) as (s1 & Es & Hq1 & Hr1).
      cbn [frames_loop]. rewrite Es. unfold over. rewrite Hn.
      destruct (IH cb (mkLocals (offset l + len (encode f)) false (buffer l))
                  (consume (encode f) s1) Hd Hfs eq_refl)
        as (l2 & s2 & E2 & Ho & Hb & Hnp & Hq2 & Hr2).
      exists l2, s2. split; [exact E2|].
      pose proof (silent_not_row f Hd Hf) as Hnr.
      unfold row_bytes, rows_of in *. cbn [filter]. rewrite Hnr.
      cbn [offset buffer] in Ho, Hb.
      cbn [encode_all flat_map]. fold (encode_all fs).
      split; [rewrite Ho, len_app; lia|]. split; [exact Hb|].
      split; [exact Hnp|]. split.
      * eapply quiet_trans; [exact Hq1|]. eapply quiet_trans; [|exact Hq2].
        repeat split.
      * rewrite Hr2. cbn [rowCount consume]. rewrite Hr1. reflexivity.
Qed.

(** The loop over whole frames, with anything behind them. *)
Lemma transform_loop_over fs : forall fuel pre tail cb l s,
  Forall wf_frame fs -> offset l = len pre ->
  transform_loop (length fs + fuel) (pre ++ encode_all fs ++ tail) cb l s
  = match frames_loop code fs cb l s with
    | Returned s1 => Ok (Returned s1)
    | Fell l1 s1 =>
      transform_loop fuel (pre ++ encode_all fs ++ tail) cb l1 s1
    end.
Proof.
  induction fs as [|f fs IH]; intros fuel pre tail cb l s Hwf Ho;
    [reflexivity|].
  inversion Hwf as [|? ? Hwf1 Hwf2]; subst.
  cbn [length Nat.add encode_all flat_map frames_loop]. fold (encode_all fs).
  rewrite <- app_assoc.
  rewrite (transform_frame code (length fs + fuel) pre f
             (encode_all fs ++ tail) cb l s Hwf1 Ho).
  destruct (switch (fcode f) cb l s) as [s1|l1 s1] eqn:Es; [reflexivity|].
  pose proof (over_offset f l1 s1) as Hov.
  destruct (over f l1 s1) as [l2 s2]. cbn [fst] in Hov.
  apply switch_offset in Es.
  replace (pre ++ encode f ++ encode_all fs ++ tail)
    with ((pre ++ encode f) ++ encode_all fs ++ tail)
    by (rewrite <- app_assoc; reflexivity).
  apply IH; [exact Hwf2|]. rewrite Hov, Es, Ho, len_app. reflexivity.
Qed.

(** A pass over the beginning of a frame, its header being there: the
    [switch] on its code, then [break]. *)
Lemma transform_partial fuel pre f t u cb l s :
  wf_frame f -> t ++ u = encode f -> u <> [] -> 5 <= len t ->
  offset l = len pre ->
  transform_loop (S fuel) (pre ++ t) cb l s
  = match switch (fcode f) cb l s with
    | Return_ s1 => Ok (Returned s1)
    | Break_ l1 s1 => Ok (Fell l1 s1)
    end.
Proof.
  intros [Hdl Hlt] Htu Hu Ht Ho.
  pose proof (len_nonneg (payload f)) as Hpl.
  destruct t as [|c [|e0 [|e1 [|e2 [|e3 t2]]]]];
    try (cbn in Ht; lia).
  unfold encode, header in Htu. cbn [encodeUInt32BE app] in Htu.
  injection Htu as -> -> -> -> -> Hpay.
  assert (Hshort : len t2 < len (payload f)).
  { rewrite <- Hpay, len_app. destruct u; [now elim Hu|].
    rewrite len_cons. pose proof (len_nonneg u). lia. }
  cbn [CopyTo.transform_loop].
  set (chunk := pre ++ _).
  assert (Hlen : len chunk = len pre + 5 + len t2).
  { unfold chunk. rewrite len_app, !len_cons. lia. }
  rewrite Hlen, Ho. unfold Byte1Len, Int32Len.
  pose proof (len_nonneg t2).
  replace (len pre + 5 + len t2 - len pre >=? 1 + 4)
    with true by (symmetry; apply Z.geb_le; lia).
  replace (at_ chunk (len pre)) with (fcode f)
    by (symmetry; apply at_mid).
  destruct (switch (fcode f) cb l s) as [s1|l1 s1] eqn:Es; [reflexivity|].
  apply switch_offset in Es. rewrite Es, Ho.
  assert (Hread : readUInt32BE chunk (len pre + 1) = declaredLength f).
  { unfold chunk.
    change (pre ++ fcode f :: _)
      with (pre ++ [fcode f] ++ encodeUInt32BE (declaredLength f) ++ t2).
    rewrite app_assoc.
    replace (len pre + 1) with (len (pre ++ [fcode f]))
      by (rewrite len_app; reflexivity).
    apply readUInt32BE_mid. lia. }
  rewrite Hread.
  replace (len pre + 5 + len t2 >=? len pre + 1 + declaredLength f)
    with false; [reflexivity|].
  symmetry. destruct (_ >=? _) eqn:E; [apply Z.geb_le in E; lia|reflexivity].
Qed.


(** What [_remainder] is set to behind the loop, [t] being the bytes
    behind the last whole frame. *)
Definition kept_back (t : Buffer) : option Buffer :=
  match t with
  | [] => None
  | _ => Some t
  end.

(** [t] is nothing, or the beginning of the first of the frames [next]
    and not all of it. *)
Definition begins (t : Buffer) (next : list Frame) : Prop :=
  t = [] \/ exists f rest u, next = f :: rest /\ u <> [] /\ t ++ u = encode f.

Lemma left_over_kept_back s t : _remainder s = kept_back t -> left_over s = t.
Proof. unfold left_over. intros ->. destruct t; reflexivity. Qed.

Lemma frames_length fs : (length fs <= length (encode_all fs))%nat.
Proof.
  induction fs as [|f fs IH]; cbn [length encode_all flat_map]; [lia|].
  rewrite length_app. fold (encode_all fs).
  assert (5 <= length (encode f))%nat by (cbn; lia). lia.
Qed.

Lemma forwarded_app t t' : forwarded (t ++ t') = forwarded t ++ forwarded t'.
Proof. unfold forwarded. rewrite CopyBothFacts.pushed_app. apply concat_app. Qed.

Lemma forwarded_push b : forwarded [Push b] = b.
Proof. unfold forwarded. cbn. apply app_nil_r. Qed.

Lemma tidy_head f fs :
  tidy (f :: fs) = true -> is_row f = true \/ silent f = true.
Proof.
  cbn [tidy]. intros H. apply orb_prop in H. destruct H as [H|H];
    apply andb_prop in H; tauto.
Qed.

(** One call of [_transform] on a piece of the stream: the whole frames
    [fsA] that the remainder and the chunk hold, and the beginning [t'] of
    the frame behind them. *)
Lemma transform_call fsA fsB t' chunk cb s :
  distinct code = true ->
  Forall wf_frame (fsA ++ fsB) -> tidy (fsA ++ fsB) = true ->
  begins t' fsB \/ len t' < 5 ->
  left_over s ++ chunk = encode_all fsA ++ t' ->
  exists s',
    _transform chunk cb s = Ok s'
    /\ forwarded (events s') = forwarded (events s) ++ row_bytes fsA
    /\ rowCount s' = rowCount s + Z.of_nat (length (rows_of fsA))
    /\ _remainder s' = kept_back t'
    /\ piped s' = piped s.
Proof.
  intros Hd Hwf Ht Hbeg Hin.
  apply Forall_app in Hwf. destruct Hwf as [HwfA HwfB].
  apply tidy_split in Ht. destruct Ht as [HtA HtB].
  unfold CopyTo._transform.
  assert (Hin' : match _remainder s with Some r => r ++ chunk | None => chunk end
                 = encode_all fsA ++ t').
  { rewrite <- Hin. unfold left_over. destruct (_remainder s); reflexivity. }
  rewrite Hin'. set (input := encode_all fsA ++ t').
  assert (Hlen : len input = len (encode_all fsA) + len t')
    by (unfold input; apply len_app).
  pose proof (len_nonneg t') as Ht'.
  (* the loop *)
  assert (Hloop : exists l2 s2,
    transform_loop (S (length input)) input cb (mkLocals 0 false []) s
    = Ok (Fell l2 s2)
    /\ offset l2 = len (encode_all fsA) /\ buffer l2 = row_bytes fsA
    /\ (needPush l2 = false -> rows_of fsA = [])
    /\ quiet s s2
    /\ rowCount s2 = rowCount s + Z.of_nat (length (rows_of fsA))).
  { pose proof (frames_length fsA) as Hfl.
    assert (Hil : (length (encode_all fsA) <= length input)%nat)
      by (unfold input; rewrite length_app; lia).
    replace (S (length input))
      with (length fsA + S (length input - length fsA))%nat by lia.
    pose proof (transform_loop_over fsA (S (length input - length fsA)) [] t'
                  cb (mkLocals 0 false []) s HwfA eq_refl) as Hover.
    cbn [app] in Hover. fold input in Hover. rewrite Hover. clear Hover.
    destruct (frames_loop_tidy fsA cb (mkLocals 0 false []) s Hd HtA eq_refl)
      as (l1 & s1 & E & Ho & Hb & Hnp & Hq & Hr).
    rewrite E. cbn [offset buffer app] in Ho, Hb.
    destruct (Z_lt_le_dec (len t') 5) as [Hshort|Hlong].
    - exists l1, s1. cbn [CopyTo.transform_loop].
      rewrite Hlen, Ho. unfold Byte1Len, Int32Len.
      replace (len (encode_all fsA) + len t' - (0 + len (encode_all fsA))
               >=? 1 + 4) with false.
      + split; [reflexivity|]. split; [lia|]. split; [exact Hb|].
        split; [exact Hnp|]. split; [exact Hq|exact Hr].
      + symmetry. destruct (_ >=? _) eqn:E5; [apply Z.geb_le in E5; lia|].
        reflexivity.
    - destruct Hbeg as [[->|(f & rest & u & -> & Hu & Htu)]|Hshort];
        [unfold len in Hlong; cbn in Hlong; lia| |lia].
      inversion HwfB as [|? ? Hwf_f _]; subst.
      assert (Ho1 : offset l1 = len (encode_all fsA)) by lia.
      unfold input.
      rewrite (transform_partial _ (encode_all fsA) f t' u cb l1 s1 Hwf_f Htu
                 Hu Hlong Ho1).
      destruct (tidy_head _ _ HtB) as [Hrow|Hsil].
      + rewrite (switch_row f cb l1 s1 Hd Hrow).
        eexists _, s1. split; [reflexivity|]. cbn [offset buffer needPush].
        split; [exact Ho1|]. split; [exact Hb|].
        split; [discriminate|]. split; assumption.
      + destruct (switch_silent f cb l1 s1 Hd Hsil) as (s2 & -> & Hq2 & Hr2).
        exists l1, s2. split; [reflexivity|].
        split; [exact Ho1|]. split; [exact Hb|]. split; [exact Hnp|].
        split; [eapply quiet_trans; eassumption|congruence]. }
  destruct Hloop as (l2 & s2 & -> & Ho & Hb & Hnp & (Hp & _ & _ & Hpi) & Hr).
  cbn [bind].
  (* the push behind the loop *)
  assert (Hpush : exists l3 s3,
    pushBufferIfneeded l2 s2 = (l3, s3) /\ offset l3 = offset l2
    /\ forwarded (events s3) = forwarded (events s) ++ row_bytes fsA
    /\ rowCount s3 = rowCount s2 /\ piped s3 = piped s2).
  { unfold pushBufferIfneeded.
    destruct (needPush l2) eqn:En; cbn [andb].
    - destruct (0 <? len (buffer l2)) eqn:E0.
      + eexists _, _. split; [reflexivity|]. cbn [offset events emit].
        split; [reflexivity|]. split; [|split; reflexivity].
        rewrite forwarded_app, forwarded_push, Hb. unfold forwarded.
        rewrite Hp. reflexivity.
      + exists l2, s2. split; [reflexivity|]. split; [reflexivity|].
        split; [|split; reflexivity].
        unfold forwarded. rewrite Hp, <- Hb.
        destruct (buffer l2) as [|x b]; [rewrite app_nil_r; reflexivity|].
        rewrite len_cons in E0. pose proof (len_nonneg b).
        apply Z.ltb_ge in E0. lia.
    - exists l2, s2. split; [reflexivity|]. split; [reflexivity|].
      split; [|split; reflexivity].
      unfold forwarded, row_bytes. rewrite Hp, (Hnp eq_refl).
      cbn [map concat]. rewrite app_nil_r. reflexivity. }
  destruct Hpush as (l3 & s3 & -> & Ho3 & Hf3 & Hr3 & Hpi3).
  rewrite Ho3, Ho, Hlen.
  eexists. split; [reflexivity|].
  destruct t' as [|x t2].
  - replace (len (encode_all fsA) + len [] - len (encode_all fsA) =? 0)
      with true by (symmetry; apply Z.eqb_eq; unfold len; cbn; lia).
    cbn [events emit set_remainder rowCount _remainder piped kept_back].
    rewrite forwarded_app, Hf3.
    change (forwarded [Call cb]) with (@nil byte). rewrite app_nil_r.
    repeat split; congruence.
  - replace (len (encode_all fsA) + len (x :: t2) - len (encode_all fsA) =? 0)
      with false
      by (symmetry; apply Z.eqb_neq; rewrite len_cons;
          pose proof (len_nonneg t2); lia).
    cbn [events emit set_remainder rowCount _remainder piped kept_back].
    rewrite forwarded_app, Hf3.
    change (forwarded [Call cb]) with (@nil byte). rewrite app_nil_r.
    split; [reflexivity|]. split; [congruence|]. split; [|congruence].
    f_equal. unfold input.
    rewrite <- (app_nil_r (x :: t2)) at 1.
    apply slice_mid. rewrite <- Hlen. unfold input. reflexivity.
Qed.


Lemma encode_all_app a b : encode_all (a ++ b) = encode_all a ++ encode_all b.
Proof. apply flat_map_app. Qed.

Lemma begins_all t fs : begins t fs -> t = encode_all fs -> fs = [].
Proof.
  intros [->|(f & rest & u & -> & Hu & Htu)] Ht.
  - apply CopyBothFacts.encode_all_nil. symmetry. exact Ht.
  - exfalso. cbn [encode_all flat_map] in Ht. subst t.
    apply (f_equal (@length byte)) in Htu. rewrite !length_app in Htu.
    destruct u; [now elim Hu|]. cbn [length] in Htu. lia.
Qed.

(** The chunks that bring the rest of the stream. *)
Lemma feed_rows cs : forall fs2 t s,
  distinct code = true ->
  Forall wf_frame fs2 -> tidy fs2 = true -> begins t fs2 ->
  _remainder s = kept_back t -> piped s = true ->
  t ++ concat cs = encode_all fs2 ->
  exists s',
    feed cs s = Ok s'
    /\ forwarded (events s') = forwarded (events s) ++ row_bytes fs2
    /\ rowCount s' = rowCount s + Z.of_nat (length (rows_of fs2))
    /\ _remainder s' = None /\ piped s' = true.
Proof.
  induction cs as [|c cs IH]; intros fs2 t s Hd Hwf Ht Hbeg Hrem Hp Hall.
  - cbn [concat] in Hall. rewrite app_nil_r in Hall.
    pose proof (begins_all t fs2 Hbeg Hall) as ->. cbn in Hall. subst t.
    exists s. split; [reflexivity|]. unfold row_bytes.
    cbn [rows_of filter map concat length]. rewrite app_nil_r.
    repeat split; try assumption. cbn. lia.
  - cbn [concat] in Hall. rewrite app_assoc in Hall.
    destruct (CopyBothFacts.prefix_frames fs2 (t ++ c) (concat cs) Hall)
      as (fsA & fsB & t' & -> & Hin & Hcase).
    assert (Hbeg' : begins t' fsB).
    { destruct Hcase as [[-> _]|(f & rest & u & -> & Hu & Htu & _)];
        [left; reflexivity|].
      right. exists f, rest, u. repeat split; assumption. }
    assert (Hrest : t' ++ concat cs = encode_all fsB).
    { destruct Hcase as [[-> ->]|(f & rest & u & -> & Hu & Htu & ->)];
        [reflexivity|].
      cbn [encode_all flat_map]. rewrite app_assoc, Htu. reflexivity. }
    rewrite <- (left_over_kept_back s t Hrem) in Hin.
    destruct (transform_call fsA fsB t' c 0%nat s Hd Hwf Ht (or_introl Hbeg')
                Hin)
      as (s1 & E1 & Hf1 & Hr1 & Hrem1 & Hp1).
    apply Forall_app in Hwf. destruct Hwf as [_ HwfB].
    apply tidy_split in Ht. destruct Ht as [_ HtB].
    rewrite Hp in Hp1.
    destruct (IH fsB t' s1 Hd HwfB HtB Hbeg' Hrem1 Hp1 Hrest)
      as (s' & E & Hf & Hr & Hrem' & Hp').
    exists s'. cbn [CopyTo.feed]. rewrite Hp, E1. cbn [bind].
    split; [exact E|].
    split; [rewrite Hf, Hf1, row_bytes_app, app_assoc; reflexivity|].
    split; [|split; assumption].
    rewrite Hr, Hr1, rows_of_app, length_app. lia.
Qed.

Lemma rows_of_silent qs :
  distinct code = true -> forallb silent qs = true -> rows_of qs = [].
Proof.
  intros Hd. induction qs as [|q qs IH]; intros H; [reflexivity|].
  cbn [forallb] in H. apply andb_prop in H. destruct H as [Hq Hqs].
  unfold rows_of in *. cbn [filter].
  rewrite (silent_not_row q Hd Hq). apply IH, Hqs.
Qed.



(** *** Rows, then the end of the transfer *)

(** The codes on which the [switch] ends the transfer. *)
Definition closing_code (x : byte) : bool :=
  is_code x (ErrorResponse code) || is_code x (CopyDone code).

Lemma switch_closing x cb l s :
  distinct code = true -> closing_code x = true ->
  switch x cb l s
  = Return_ (emit (Call cb)
               (emit PushNull (_detach (snd (pushBufferIfneeded l s))))).
Proof.
  intros Hd Hx. unfold closing_code in Hx. apply orb_prop in Hx.
  destruct Hx as [Hx|Hx]; apply is_code_eq in Hx; subst x;
    [apply switch_ErrorResponse, Hd|].
  unfold CopyTo.switch.
  differ Hd 4%nat 2%nat. differ Hd 4%nat 5%nat. differ Hd 4%nat 8%nat.
  differ Hd 4%nat 7%nat. differ Hd 4%nat 6%nat.
  rewrite is_code_refl, orb_true_r.
  destruct (pushBufferIfneeded l s). reflexivity.
Qed.

(** The push of the rows gathered in a call. *)
Lemma push_rows l s s0 fsA :
  buffer l = row_bytes fsA -> (needPush l = false -> rows_of fsA = []) ->
  pushed (events s) = pushed (events s0) ->
  forwarded (events (snd (pushBufferIfneeded l s)))
  = forwarded (events s0) ++ row_bytes fsA
  /\ rowCount (snd (pushBufferIfneeded l s)) = rowCount s
  /\ ended (events (snd (pushBufferIfneeded l s))) = ended (events s).
Proof.
  intros Hb Hnp Hp. unfold pushBufferIfneeded.
  destruct (needPush l) eqn:En; cbn [andb].
  - destruct (0 <? len (buffer l)) eqn:E0; cbn [snd].
    + cbn [events emit rowCount].
      rewrite forwarded_app, forwarded_push, Hb, ended_app. unfold forwarded.
      rewrite Hp. cbn [ended existsb]. rewrite orb_false_r. repeat split.
    + split; [|split; reflexivity]. unfold forwarded. rewrite Hp, <- Hb.
      destruct (buffer l) as [|x b]; [rewrite app_nil_r; reflexivity|].
      rewrite len_cons in E0. pose proof (len_nonneg b).
      apply Z.ltb_ge in E0. lia.
  - cbn [snd]. split; [|split; reflexivity].
    unfold forwarded, row_bytes. rewrite Hp, (Hnp eq_refl).
    cbn [map concat]. rewrite app_nil_r. reflexivity.
Qed.

(** The call that finds the header of the closing frame behind the whole
    frames [fsA]. *)
Lemma transform_end fsA x h more chunk cb s :
  distinct code = true ->
  Forall wf_frame fsA -> tidy fsA = true ->
  length h = 4%nat -> closing_code x = true ->
  left_over s ++ chunk = encode_all fsA ++ x :: h ++ more ->
  exists s',
    _transform chunk cb s = Ok s'
    /\ forwarded (events s') = forwarded (events s) ++ row_bytes fsA
    /\ rowCount s' = rowCount s + Z.of_nat (length (rows_of fsA))
    /\ ended (events s') = true
    /\ piped s' = false.
Proof.
  intros Hd Hwf Ht Hh Hx Hin.
  unfold CopyTo._transform.
  assert (Hin' : match _remainder s with Some r => r ++ chunk | None => chunk end
                 = encode_all fsA ++ x :: h ++ more).
  { rewrite <- Hin. unfold left_over. destruct (_remainder s); reflexivity. }
  rewrite Hin'. set (input := encode_all fsA ++ x :: h ++ more).
  assert (Hlen : len input = len (encode_all fsA) + 5 + len more).
  { unfold input. rewrite len_app, len_cons, len_app. unfold len.
    rewrite Hh. lia. }
  pose proof (len_nonneg more) as Hmore.
  pose proof (frames_length fsA) as Hfl.
  assert (Hil : (length (encode_all fsA) <= length input)%nat)
    by (unfold input; rewrite length_app; lia).
  replace (S (length input))
    with (length fsA + S (length input - length fsA))%nat by lia.
  pose proof (transform_loop_over fsA (S (length input - length fsA)) []
                (x :: h ++ more) cb (mkLocals 0 false []) s Hwf eq_refl)
    as Hover.
  cbn [app] in Hover. fold input in Hover. rewrite Hover. clear Hover.
  destruct (frames_loop_tidy fsA cb (mkLocals 0 false []) s Hd Ht eq_refl)
    as (l1 & s1 & E & Ho & Hb & Hnp & (Hp & _ & _ & Hpi) & Hr).
  rewrite E. cbn [offset buffer app] in Ho, Hb.
  cbn [CopyTo.transform_loop]. rewrite Hlen, Ho. unfold Byte1Len, Int32Len.
  replace (len (encode_all fsA) + 5 + len more - (0 + len (encode_all fsA))
           >=? 1 + 4) with true by (symmetry; apply Z.geb_le; lia).
  replace (at_ input (0 + len (encode_all fsA))) with x
    by (symmetry; apply at_mid).
  rewrite (switch_closing x cb l1 s1 Hd Hx). cbn [bind].
  destruct (push_rows l1 s1 s fsA Hb Hnp Hp) as (Hf & Hrc & _).
  eexists. split; [reflexivity|].
  unfold _detach. cbn [events emit set_piped rowCount piped].
  rewrite !forwarded_app, !ended_app, Hf, Hrc, Hr.
  change (forwarded [Unpipe]) with (@nil byte).
  change (forwarded [ResumeNextTick]) with (@nil byte).
  change (forwarded [PushNull]) with (@nil byte).
  change (forwarded [Call cb]) with (@nil byte).
  rewrite !app_nil_r. cbn [ended existsb]. rewrite !orb_true_r.
  repeat split.
Qed.

Lemma feed_unpiped cs s : piped s = false -> feed cs s = Ok s.
Proof.
  intros H. destruct cs; cbn [CopyTo.feed]; [|rewrite H]; reflexivity.
Qed.

(** The chunks that bring the rest of the stream and the header of the
    closing frame. *)
Lemma feed_to_end x h more :
  distinct code = true -> length h = 4%nat -> closing_code x = true ->
  forall cs fs2 t s,
    Forall wf_frame fs2 -> tidy fs2 = true ->
    begins t fs2 \/ (fs2 = [] /\ len t < 5) ->
    _remainder s = kept_back t -> piped s = true ->
    t ++ concat cs = encode_all fs2 ++ x :: h ++ more ->
    exists s',
      feed cs s = Ok s'
      /\ forwarded (events s') = forwarded (events s) ++ row_bytes fs2
      /\ rowCount s' = rowCount s + Z.of_nat (length (rows_of fs2))
      /\ ended (events s') = true
      /\ piped s' = false.
Proof.
  intros Hd Hh Hx.
  induction cs as [|c cs IH]; intros fs2 t s Hwf Ht Hinv Hrem Hp Hall.
  - exfalso. cbn [concat] in Hall. rewrite app_nil_r in Hall.
    apply (f_equal (@length byte)) in Hall.
    rewrite length_app in Hall. cbn [length] in Hall.
    rewrite length_app, Hh in Hall.
    destruct Hinv as [[->|(f & rest & u & -> & Hu & Htu)]|[-> Hshort]].
    + cbn [length] in Hall. lia.
    + apply (f_equal (@length byte)) in Htu. rewrite length_app in Htu.
      cbn [encode_all flat_map] in Hall. rewrite length_app in Hall.
      destruct u; [now elim Hu|]. cbn [length] in Htu. lia.
    + unfold len in Hshort. cbn [encode_all flat_map length] in Hall. lia.
  - cbn [concat] in Hall. rewrite app_assoc in Hall.
    pose proof (left_over_kept_back s t Hrem) as Hleft.
    cbn [CopyTo.feed]. rewrite Hp.
    apply app_eq_app in Hall.
    destruct Hall as (l & [[Hin Hz]|[Hfs Hcs]]).
    + (* the chunk brings the frames that were missing *)
      destruct (Z_lt_le_dec (len l) 5) as [Hshort|Hlong].
      * rewrite <- Hleft in Hin.
        destruct (transform_call fs2 [] l c 0%nat s Hd)
          as (s1 & -> & Hf1 & Hr1 & Hrem1 & Hp1);
          [rewrite app_nil_r; exact Hwf|rewrite app_nil_r; exact Ht
          |right; exact Hshort|exact Hin|].
        cbn [bind]. rewrite Hp in Hp1.
        destruct (IH [] l s1 (Forall_nil _) eq_refl
                    (or_intror (conj eq_refl Hshort)) Hrem1 Hp1)
          as (s' & E & Hf & Hr & He & Hp').
        { cbn [encode_all flat_map app]. symmetry. exact Hz. }
        exists s'. split; [exact E|].
        unfold row_bytes in Hf. cbn [rows_of filter map concat length] in Hf, Hr.
        rewrite app_nil_r in Hf.
        split; [congruence|]. split; [rewrite Hr, Hr1; lia|].
        split; assumption.
      * assert (Hl : exists more', l = x :: h ++ more').
        { destruct h as [|h0 [|h1 [|h2 [|h3 [|]]]]]; try discriminate.
          destruct l as [|l0 [|l1 [|l2 [|l3 [|l4 l']]]]];
            try (unfold len in Hlong; cbn in Hlong; lia).
          cbn [app] in Hz. injection Hz as -> -> -> -> -> _.
          exists l'. reflexivity. }
        destruct Hl as (more' & ->).
        rewrite <- Hleft in Hin.
        destruct (transform_end fs2 x h more' c 0%nat s Hd Hwf Ht Hh Hx Hin)
          as (s1 & -> & Hf1 & Hr1 & He1 & Hp1).
        cbn [bind]. rewrite (feed_unpiped cs s1 Hp1).
        exists s1. split; [reflexivity|]. repeat split; assumption.
    + (* the chunk ends inside the frames *)
      destruct (CopyBothFacts.prefix_frames fs2 (t ++ c) l (eq_sym Hfs))
        as (fsA & fsB & t' & -> & Hin & Hcase).
      assert (Hbeg' : begins t' fsB).
      { destruct Hcase as [[-> _]|(f & rest & u & -> & Hu & Htu & _)];
          [left; reflexivity|].
        right. exists f, rest, u. repeat split; assumption. }
      assert (Hrest : t' ++ concat cs = encode_all fsB ++ x :: h ++ more).
      { rewrite Hcs.
        destruct Hcase as [[-> ->]|(f & rest & u & -> & Hu & Htu & ->)];
          [reflexivity|].
        cbn [encode_all flat_map]. rewrite <- !app_assoc, (app_assoc t' u), Htu.
        reflexivity. }
      rewrite <- Hleft in Hin.
      destruct (transform_call fsA fsB t' c 0%nat s Hd Hwf Ht (or_introl Hbeg')
                  Hin)
        as (s1 & -> & Hf1 & Hr1 & Hrem1 & Hp1).
      apply Forall_app in Hwf. destruct Hwf as [_ HwfB].
      apply tidy_split in Ht. destruct Ht as [_ HtB].
      rewrite Hp in Hp1. cbn [bind].
      destruct (IH fsB t' s1 HwfB HtB (or_introl Hbeg') Hrem1 Hp1 Hrest)
        as (s' & E & Hf & Hr & He & Hp').
      exists s'. split; [exact E|].
      split; [rewrite Hf, Hf1, row_bytes_app, app_assoc; reflexivity|].
      split; [|split; assumption].
      rewrite Hr, Hr1, rows_of_app, length_app. lia.
Qed.



(** *** The callback of [_transform]

    On any chunk and in any state of the instance. *)

(** Events that neither push nor call. *)
Definition plain (t : Trace) : Prop := called t = [] /\ pushed t = [].

(** At most one Buffer pushed, and not an empty one. *)
Definition one_push (t : Trace) : Prop :=
  called t = []
  /\ (pushed t = [] \/ exists b, b <> [] /\ pushed t = [b]).

Lemma plain_app t t' : plain t -> plain t' -> plain (t ++ t').
Proof.
  intros [A1 A2] [B1 B2]. unfold plain.
  rewrite called_app, CopyBothFacts.pushed_app, A1, A2, B1, B2.
  split; reflexivity.
Qed.

Lemma one_push_app t t' : plain t -> one_push t' -> one_push (t ++ t').
Proof.
  intros [A1 A2] [B1 B2]. unfold one_push.
  rewrite called_app, CopyBothFacts.pushed_app, A1, A2, B1.
  split; [reflexivity|exact B2].
Qed.

Lemma one_push_plain t t' : one_push t -> plain t' -> one_push (t ++ t').
Proof.
  intros [A1 A2] [B1 B2]. unfold one_push.
  rewrite called_app, CopyBothFacts.pushed_app, A1, B1, B2, !app_nil_r.
  split; [reflexivity|exact A2].
Qed.

Lemma push_once l s :
  exists t,
    events (snd (pushBufferIfneeded l s)) = events s ++ t /\ one_push t.
Proof.
  unfold pushBufferIfneeded.
  destruct (needPush l && (0 <? len (buffer l))) eqn:E; cbn [snd].
  - exists [Push (buffer l)]. split; [reflexivity|].
    split; [reflexivity|]. right. exists (buffer l).
    split; [|reflexivity].
    apply andb_prop in E. destruct E as [_ E]. apply Z.ltb_lt in E.
    intros Hb. rewrite Hb in E. unfold len in E. cbn in E. lia.
  - exists []. rewrite app_nil_r. split; [reflexivity|].
    split; [reflexivity|left; reflexivity].
Qed.

Lemma switch_calls x cb l s :
  match switch x cb l s with
  | Break_ l1 s1 => exists t, events s1 = events s ++ t /\ plain t
  | Return_ s1 =>
    exists t, events s1 = events s ++ t ++ [Call cb] /\ one_push t
  end.
Proof.
  unfold CopyTo.switch.
  destruct (is_code x (CopyOutResponse code)).
  { destruct (negb (_gotCopyOutResponse s)).
    - exists []. rewrite app_nil_r. repeat split.
    - exists [EmitError UnexpectedCopyOutResponse]. repeat split. }
  destruct (is_code x (CopyData code));
    [exists []; rewrite app_nil_r; repeat split|].
  destruct (is_code x (ParameterStatus code) || is_code x (NoticeResponse code)
            || is_code x (NotificationResponse code));
    [exists []; rewrite app_nil_r; repeat split|].
  destruct (is_code x (ErrorResponse code) || is_code x (CopyDone code)).
  - destruct (push_once l s) as (t & Ht & Hone).
    destruct (pushBufferIfneeded l s) as [l1 s1]. cbn [snd] in Ht.
    exists (t ++ [Unpipe; ResumeNextTick; PushNull]).
    split; [|apply one_push_plain; [exact Hone|split; reflexivity]].
    unfold _detach. cbn [events emit set_piped]. rewrite Ht, <- !app_assoc.
    reflexivity.
  - exists [EmitError (UnexpectedMessage x)]. repeat split.
Qed.

Lemma transform_loop_calls fuel : forall chunk cb l s e,
  transform_loop fuel chunk cb l s = Ok e ->
  match e with
  | Fell l1 s1 => exists t, events s1 = events s ++ t /\ plain t
  | Returned s1 =>
    exists t, events s1 = events s ++ t ++ [Call cb] /\ one_push t
  end.
Proof.
  induction fuel as [|fuel IH]; intros chunk cb l s e; [discriminate|].
  cbn [CopyTo.transform_loop].
  destruct (len chunk - offset l >=? Byte1Len + Int32Len).
  2:{ intros [= <-]. exists []. rewrite app_nil_r. repeat split. }
  pose proof (switch_calls (at_ chunk (offset l)) cb l s) as Hsw.
  destruct (switch _ cb l s) as [s1|l1 s1].
  { intros [= <-]. exact Hsw. }
  destruct Hsw as (t1 & Ht1 & Hp1).
  destruct (len chunk >=? _).
  2:{ intros [= <-]. exists t1. split; assumption. }
  intros H.
  assert (Hnext : exists l2 s2,
             transform_loop fuel chunk cb l2 s2 = Ok e
             /\ events s2 = events s1).
  { destruct (needPush l1); eexists; eexists; (split; [exact H|reflexivity]). }
  destruct Hnext as (l2 & s2 & H2 & Hev). apply IH in H2.
  destruct e as [s'|l' s']; destruct H2 as (t2 & Ht2 & Hp2).
  - exists (t1 ++ t2). split; [|apply one_push_app; assumption].
    rewrite Ht2, Hev, Ht1, <- !app_assoc. reflexivity.
  - exists (t1 ++ t2). split; [|apply plain_app; assumption].
    rewrite Ht2, Hev, Ht1, <- !app_assoc. reflexivity.
Qed.

(** X15.  [_transform] answers every call.  Whatever the chunk and the
    state of the instance (malformed or unknown frames, a second
    CopyOutResponse, bytes after the end), the call returns, calls the
    callback exactly once, as the last thing it does, and pushes at most
    one Buffer, never an empty one. *)
Theorem transform_calls_back chunk cb s :
  exists s' t,
    _transform chunk cb s = Ok s'
    /\ events s' = events s ++ t ++ [Call cb]
    /\ called t = []
    /\ (pushed t = [] \/ exists b, b <> [] /\ pushed t = [b]).
Proof.
  unfold CopyTo._transform.
  set (c := match _remainder s with Some r => r ++ chunk | None => chunk end).
  destruct (transform_loop_total code (S (length c)) c cb (mkLocals 0 false []) s)
    as (e & E).
  { cbn [offset]. unfold len. lia. }
  rewrite E. cbn [bind]. apply transform_loop_calls in E.
  destruct e as [s1|l s1].
  - destruct E as (t & Ht & Hc & Hp). exists s1, t.
    split; [reflexivity|]. split; [exact Ht|]. split; assumption.
  - destruct E as (t1 & Ht1 & Hp1).
    destruct (push_once l s1) as (t2 & Ht2 & Hp2).
    destruct (pushBufferIfneeded l s1) as [l2 s2]. cbn [snd] in Ht2.
    destruct (one_push_app t1 t2 Hp1 Hp2) as [Hc Hp].
    eexists. exists (t1 ++ t2). split; [reflexivity|].
    split; [|split; assumption].
    destruct (len c - offset l2 =? 0); cbn [events emit set_remainder];
      rewrite Ht2, Ht1, <- !app_assoc; reflexivity.
Qed.


End WithCodes.
End CopyToCalls.

(** * More of copy-both.js: the calls around the decoder *)
Module CopyBothCalls.
Import Wire WireFacts CopyBoth CopyBothFacts.

Section WithEnvironment.
Variable code : MessageFormats.
Variable writeReturns : nat -> bool.
Variable pushReturns : nat -> bool.

Local Abbreviation flush := (flush code writeReturns).
Local Abbreviation _write := (_write code writeReturns).
Local Abbreviation _writev := (_writev code writeReturns).
Local Abbreviation _final := (_final code writeReturns).
Local Abbreviation on_drain := (on_drain code writeReturns).
Local Abbreviation call_listeners := (call_listeners code writeReturns).
Local Abbreviation step := (step code writeReturns pushReturns).
Local Abbreviation steps := (steps code writeReturns pushReturns).
Local Abbreviation flush_state := (flush_state code writeReturns).
Local Abbreviation flushed := (flushed writeReturns).
Local Abbreviation accepted := (accepted writeReturns).
Local Abbreviation frame_writes := (frame_writes code).

(** ** A write under backpressure

    [flush(callback)] hands its callback to 'drain' when the transport
    refuses a write: as [flush] again while chunks are queued, as the
    callback itself once the queue is empty. *)

(** What a call of [_write] or [_writev] queues, and its callback. *)
Definition writing (o : Op) : option (list Buffer * Callback) :=
  match o with
  | DoWrite chunk c => Some ([chunk], c)
  | DoWritev cs c => Some (cs, c)
  | _ => None
  end.

(** The instance between a write and the call of its callback: every
    queued or written chunk is accounted for, and the callback [c] is
    either called (the queue is empty, no listener is left) or held by the
    one 'drain' listener. *)
Definition settling (c : Callback) (total : list Buffer)
  (base : list Callback) (s : CopyStreamQuery) : Prop :=
  writable s
  /\ sent (trace (world s)) ++ flat_map frame_writes (chunks (wr s)) = total
  /\ match drainListeners (world s) with
     | [] => chunks (wr s) = [] /\ called (trace (world s)) = base ++ [c]
     | [FlushAgain c'] =>
       c' = c /\ chunks (wr s) <> [] /\ called (trace (world s)) = base
     | [JustCall c'] =>
       c' = c /\ chunks (wr s) = [] /\ called (trace (world s)) = base
     | _ => False
     end.

(** The number of 'drain' events after which the callback is called at
    the latest. *)
Definition rank (s : CopyStreamQuery) : nat :=
  match drainListeners (world s) with
  | [] => 0
  | _ => S (length (chunks (wr s)))
  end.

Lemma accepted_flushed q : forall n,
  accepted q n = true -> flushed q n = length q.
Proof.
  induction q as [|x q IH]; intros n; cbn [CopyBothFacts.accepted
    CopyBothFacts.flushed length]; [reflexivity|].
  destruct (writeReturns (S n)); [|discriminate].
  intros H. rewrite (IH _ H). reflexivity.
Qed.

Lemma called_flush_state s :
  called (trace (world (flush_state s))) = called (trace (world s)).
Proof.
  unfold CopyBothFacts.flush_state, emits. fields. unfold called.
  rewrite flat_map_app. fold (called (trace (world s))).
  match goal with
  | |- _ ++ flat_map _ (map Write ?bs) = _ =>
    change (flat_map _ (map Write bs)) with (called (map Write bs))
  end.
  rewrite called_writes, app_nil_r. reflexivity.
Qed.

Lemma flush_state_total s :
  sent (trace (world (flush_state s)))
  ++ flat_map frame_writes (chunks (wr (flush_state s)))
  = sent (trace (world s)) ++ flat_map frame_writes (chunks (wr s)).
Proof.
  rewrite flush_state_sent, flush_state_chunks, <- app_assoc, <- flat_map_app,
    firstn_skipn. reflexivity.
Qed.

Lemma sent_call t c : sent (t ++ [Call c]) = sent t.
Proof. rewrite sent_app. apply app_nil_r. Qed.

Lemma called_call t c : called (t ++ [Call c]) = called t ++ [c].
Proof. unfold called. rewrite flat_map_app. reflexivity. Qed.

(** [flush(callback)] on an instance with no 'drain' listener. *)
Lemma flush_settles c s :
  writable s -> drainListeners (world s) = [] ->
  exists s',
    flush (Some c) s = Ok s'
    /\ settling c
         (sent (trace (world s)) ++ flat_map frame_writes (chunks (wr s)))
         (called (trace (world s))) s'
    /\ (rank s' <= length (chunks (wr s)))%nat.
Proof.
  intros Hw Hdl. rewrite (flush_spec code writeReturns (Some c) s Hw).
  eexists. split; [reflexivity|].
  pose proof (flush_state_writable code writeReturns pushReturns s Hw) as Hw'.
  pose proof (flush_state_total s) as Ht.
  pose proof (called_flush_state s) as Hc.
  pose proof (flush_state_chunks code writeReturns s) as Hq.
  assert (Hdl' : drainListeners (world (flush_state s)) = [])
    by exact Hdl.
  destruct (accepted (chunks (wr s)) (writes s)) eqn:Ea.
  - apply accepted_flushed in Ea. rewrite Ea, skipn_all in Hq.
    unfold settling, rank. fields. rewrite Hdl', sent_call, called_call, Hc.
    split; [|lia]. split; [exact Hw'|]. split; [exact Ht|].
    split; [exact Hq|reflexivity].
  - destruct (chunks (wr s)) as [|x q] eqn:Eq; [discriminate|].
    pose proof (flushed_pos writeReturns x q (writes s)) as Hpos.
    assert (Hlen : (length (chunks (wr (flush_state s))) < length (x :: q))%nat).
    { rewrite Hq, length_skipn. cbn [length] in *. lia. }
    destruct (Nat.ltb 0 (length (chunks (wr (flush_state s))))) eqn:El;
      unfold settling, rank; fields; rewrite Hdl'; cbn [app].
    + split; [|lia]. split; [exact Hw'|]. split; [exact Ht|].
      split; [reflexivity|]. split; [|exact Hc].
      apply Nat.ltb_lt in El. intros E. rewrite E in El. cbn in El. lia.
    + apply Nat.ltb_ge in El.
      assert (E0 : chunks (wr (flush_state s)) = [])
        by (destruct (chunks (wr (flush_state s))); [reflexivity|cbn in El; lia]).
      split; [|rewrite E0; cbn [length]; lia].
      split; [exact Hw'|]. split; [exact Ht|].
      split; [reflexivity|]. split; [exact E0|exact Hc].
Qed.

Lemma without_listeners s :
  drainListeners (world s) = [] ->
  with_world (set_drainListeners []) s = s.
Proof.
  destruct s as [r w [co tr dl rl dls inc con]]. cbn. intros ->. reflexivity.
Qed.

(** One 'drain' event. *)
Lemma drain_settles c total base s :
  settling c total base s ->
  exists s',
    on_drain s = Ok s' /\ settling c total base s'
    /\ (rank s' <= pred (rank s))%nat.
Proof.
  intros (Hw & Ht & Hl). unfold CopyBoth.on_drain, rank.
  destruct (drainListeners (world s)) as [|[c'|c'] [|l ls]] eqn:Edl;
    try contradiction.
  - exists s. rewrite (without_listeners s Edl). cbn [CopyBoth.call_listeners].
    split; [reflexivity|]. split; [|unfold rank; rewrite Edl; lia].
    split; [exact Hw|]. split; [exact Ht|]. rewrite Edl. exact Hl.
  - destruct Hl as (-> & Hne & Hc). cbn [CopyBoth.call_listeners].
    destruct (flush_settles c (with_world (set_drainListeners []) s))
      as (s' & E & Hs' & Hr); [exact Hw|reflexivity|].
    rewrite E. cbn [bind]. exists s'. split; [reflexivity|].
    fields. rewrite Ht, Hc in Hs'. split; [exact Hs'|]. cbn [pred]. exact Hr.
  - destruct Hl as (-> & He & Hc). cbn [CopyBoth.call_listeners].
    eexists. split; [reflexivity|]. unfold settling, rank. fields.
    split; [|lia]. split; [exact Hw|].
    rewrite sent_call, called_call, Hc.
    split; [exact Ht|]. split; [exact He|reflexivity].
Qed.

Lemma drains_settle c total base j : forall s,
  settling c total base s ->
  exists s',
    steps (repeat DoDrain j) s = Ok s' /\ settling c total base s'
    /\ (rank s' <= rank s - j)%nat.
Proof.
  induction j as [|j IH]; intros s Hs.
  - exists s. split; [reflexivity|]. split; [exact Hs|lia].
  - destruct (drain_settles c total base s Hs) as (s1 & E1 & Hs1 & Hr1).
    destruct (IH s1 Hs1) as (s' & E & Hs' & Hr).
    exists s'. cbn [repeat CopyBoth.steps CopyBoth.step]. rewrite E1.
    cbn [bind]. split; [exact E|]. split; [exact Hs'|lia].
Qed.

(** X3.  A write is completed by 'drain' events, whatever the transport
    answers.  After the acknowledgment, with no write under way, a call of
    [_write] or [_writev] followed by any number [j] of 'drain' events
    returns; the frames written and the chunks still queued are, in order,
    the queue of before and the chunks of the call; the callback of the
    write is called at most once, and only once the queue is empty; it
    has been called when [j] is the number of chunks at least. *)
Theorem write_settles o cs c s j :
  writing o = Some (cs, c) ->
  writable s -> forallb small cs = true ->
  _gotCopyInResponse (wr s) = true ->
  drainListeners (world s) = [] ->
  exists s',
    steps (o :: repeat DoDrain j) s = Ok s'
    /\ sent (trace (world s')) ++ flat_map frame_writes (chunks (wr s'))
       = sent (trace (world s))
         ++ flat_map frame_writes (chunks (wr s) ++ cs)
    /\ (called (trace (world s')) = called (trace (world s))
        /\ drainListeners (world s') <> []
        \/ called (trace (world s')) = called (trace (world s)) ++ [c]
           /\ chunks (wr s') = [] /\ drainListeners (world s') = [])
    /\ ((length (chunks (wr s) ++ cs) <= j)%nat ->
        called (trace (world s')) = called (trace (world s)) ++ [c]).
Proof.
  intros Ho [Hco Hsm] Hcs Hg Hdl.
  set (s1 := with_wr (fun w => set_chunks (chunks w ++ cs) w) s).
  assert (Hstep : step o s = flush (Some c) s1).
  { destruct o; try discriminate; injection Ho as <- <-;
      cbn [CopyBoth.step]; unfold CopyBoth._write, CopyBoth._writev;
      fold s1; change (_gotCopyInResponse (wr s1))
                 with (_gotCopyInResponse (wr s)); rewrite Hg; reflexivity. }
  assert (Hw1 : writable s1).
  { split; [exact Hco|]. unfold s1. fields. rewrite forallb_app, Hsm, Hcs.
    reflexivity. }
  destruct (flush_settles c s1 Hw1 Hdl) as (s2 & E2 & Hs2 & Hr2).
  destruct (drains_settle c _ _ j s2 Hs2) as (s' & E & (Hw' & Ht & Hl) & Hr).
  exists s'. cbn [CopyBoth.steps]. rewrite Hstep, E2. cbn [bind].
  split; [exact E|]. split; [exact Ht|].
  change (called (trace (world s1))) with (called (trace (world s))) in Hl.
  unfold rank at 1 in Hr. change (chunks (wr s1)) with (chunks (wr s) ++ cs) in Hr2.
  destruct (drainListeners (world s')) as [|[c'|c'] [|l ls]] eqn:Edl;
    try contradiction.
  - destruct Hl as [Hq Hc]. split; [right; repeat split; assumption|].
    intros _. exact Hc.
  - destruct Hl as (-> & Hne & Hc). split; [left; split; [exact Hc|discriminate]|].
    intros Hj. exfalso. lia.
  - destruct Hl as (-> & He & Hc). split; [left; split; [exact Hc|discriminate]|].
    intros Hj. exfalso. lia.
Qed.

(** ** A length field below 4

    The length field counts its own four bytes.  The decoder subtracts 4
    from whatever it reads and tests the result against zero only. *)
Local Abbreviation body := (body code writeReturns pushReturns).
Local Abbreviation parse_loop := (parse_loop code writeReturns pushReturns).
Local Abbreviation parse_with := (parse_with code writeReturns pushReturns).
Local Abbreviation _parse := (_parse code writeReturns pushReturns).

(** The instance after the pass over the header. *)
Definition past_header (c : byte) (v : Z) (b : Buffer) (s : CopyStreamQuery)
  : CopyStreamQuery :=
  consume (encodeUInt32BE v)
    (with_rd (fun r => set_state PG_MESSAGE
                         (set_unreadMessageContentLength (v - 4)
                            (set_buffer (Some b) r)))
       (consume [c]
          (with_rd (fun r => set_state PG_LENGTH
                               (set_buffer (Some (encodeUInt32BE v ++ b)) r))
             (with_rd (set_code (Some c)) s)))).

Lemma short_header_pass c v x rest s :
  _state (rd s) = PG_CODE ->
  _buffer (rd s) = Some (c :: encodeUInt32BE v ++ x :: rest) ->
  is_code c (ErrorResponse code) = false ->
  0 <= v < 4 ->
  body s = Ok (Again false None (past_header c v (x :: rest) s))
  /\ stuck (past_header c v (x :: rest) s).
Proof.
  intros Hst Hb Hc Hv.
  assert (Hbe : be32 (byte.of_Z (v / 2 ^ 24)) (byte.of_Z (v / 2 ^ 16))
                  (byte.of_Z (v / 2 ^ 8)) (byte.of_Z v) = v)
    by (apply be32_encode; lia).
  split.
  - unfold CopyBoth.body, CopyBoth.block_code. rewrite Hst, Hb, Hc.
    cbn [DecoderState_eqb bind]. unfold CopyBoth.block_length. fields.
    cbn [DecoderState_eqb encodeUInt32BE app bind]. rewrite Hbe.
    unfold CopyBoth.block_message, CopyBoth.take_content. fields.
    cbn [DecoderState_eqb].
    replace (0 <? v - 4) with false by (symmetry; apply Z.ltb_ge; lia).
    cbn [andb bind]. fields.
    replace (v - 4 =? 0) with false by (symmetry; apply Z.eqb_neq; lia).
    reflexivity.
  - unfold stuck, past_header, size. fields.
    split; [reflexivity|]. split; [lia|discriminate].
Qed.

(** X4.  A length field below 4 with a byte behind it: [_parse] does not
    return.  On an instance at a frame boundary with nothing unread, a
    chunk that starts with a code other than ErrorResponse, a length field
    of 0 to 3 and at least one more byte leaves the loop of [_parse]
    without a pass that ends it: no number of passes is enough. *)
Theorem short_length_hangs c v x rest s :
  _state (rd s) = PG_CODE ->
  _buffer (rd s) = Some [] ->
  is_code c (ErrorResponse code) = false ->
  0 <= v < 4 ->
  _parse (c :: encodeUInt32BE v ++ x :: rest) s = Diverge
  /\ forall fuel,
       parse_with fuel (c :: encodeUInt32BE v ++ x :: rest) s = Diverge.
Proof.
  intros Hst Hb Hc Hv.
  assert (H : forall fuel,
            parse_with fuel (c :: encodeUInt32BE v ++ x :: rest) s = Diverge).
  { intros fuel. unfold CopyBoth.parse_with. rewrite Hb. cbn [app].
    set (s0 := with_rd _ s).
    destruct (short_header_pass c v x rest s0 Hst eq_refl Hc Hv)
      as [Hbody Hstuck].
    destruct fuel as [|fuel]; [reflexivity|].
    cbn [CopyBoth.parse_loop]. unfold s0 at 1. fields.
    rewrite Hbody. cbn [bind assigned].
    rewrite (stuck_forever code writeReturns pushReturns _ Hstuck).
    reflexivity. }
  split; [|exact H].
  unfold CopyBoth._parse. rewrite Hb. apply H.
Qed.


(** ** What is written can be read

    The frames [flushChunk] writes are the frames the decoder reads. *)
Definition data_frame (chunk : Buffer) : Frame := frame (CopyData code) chunk.

Definition not_empty (b : Buffer) : bool := negb (Nat.eqb (length b) 0).

Lemma frame_writes_encode cs :
  concat (flat_map frame_writes cs) = encode_all (map data_frame cs).
Proof.
  induction cs as [|chunk cs IH]; [reflexivity|].
  cbn [flat_map map encode_all]. fold (encode_all (map data_frame cs)).
  rewrite concat_app, IH. unfold CopyBothFacts.frame_writes at 1.
  cbn [concat]. rewrite app_nil_r. reflexivity.
Qed.

Lemma classify_data : distinct code = true -> classify code (CopyData code) = Data.
Proof.
  intros Hd. unfold classify. differ Hd 5%nat 0%nat. differ Hd 5%nat 3%nat.
  rewrite is_code_refl. reflexivity.
Qed.

Lemma data_frames_ok cs :
  distinct code = true -> forallb small cs = true ->
  Forall wf_frame (map data_frame cs)
  /\ forallb (ongoing code) (map data_frame cs) = true
  /\ flat_map (units code) (map data_frame cs) = filter not_empty cs.
Proof.
  intros Hd. induction cs as [|chunk cs IH]; intros Hs.
  - split; [constructor|]. split; reflexivity.
  - cbn [forallb] in Hs. apply andb_prop in Hs. destruct Hs as [Hs1 Hs2].
    destruct (IH Hs2) as (IH1 & IH2 & IH3).
    cbn [map forallb flat_map filter]. split; [|split].
    + constructor; [|exact IH1]. split; [reflexivity|].
      unfold small in Hs1. apply Z.ltb_lt in Hs1. exact Hs1.
    + rewrite IH2. unfold ongoing, data_frame, frame. cbn [fcode].
      rewrite (classify_data Hd). reflexivity.
    + rewrite IH3. unfold units, data_frame, frame. cbn [fcode payload].
      rewrite (classify_data Hd). destruct chunk; reflexivity.
Qed.

(** X5.  What one instance writes, another reads back in row mode.
    Chunks written before the acknowledgment to a transport that accepts
    every write go out at the CopyBothResponse frame, each as a CopyData
    frame; a decoder in row mode that is fed these bytes, cut in any way,
    pushes the chunks that are not empty, each as one unit, in order, and
    stays attached. *)
Theorem written_frames_read_back rm cs c w wire
  (writeReturns' pushReturns' : nat -> bool) :
  distinct code = true ->
  (forall k, writeReturns k = true) ->
  forallb small cs = true ->
  wf_frame w -> fcode w = CopyBothResponse code ->
  exists sS,
    (let* s0 := submit code writeReturns pushReturns (new rm) in
     steps [DoWritev cs c; DoParse (encode w)] s0) = Ok sS
    /\ (concat wire = concat (sent (trace (world sS))) ->
        exists sR,
          run code writeReturns' pushReturns' true wire = Ok sR
          /\ pushed (trace (world sR)) = filter not_empty cs
          /\ readableListener (world sR) = true).
Proof.
  intros Hd Hacc Hsmall Hwf Hw.
  destruct (submit_new code writeReturns pushReturns rm) as (s0 & E & _).
  rewrite E. cbn [bind].
  destruct (write_then_ack code writeReturns pushReturns rm cs c w s0
              Hd E Hsmall Hwf Hw) as (sS & Esteps & Hsent & _).
  exists sS. split; [exact Esteps|]. intros Hwire.
  rewrite Hsent, (flushed_all writeReturns cs Hacc), firstn_all,
    frame_writes_encode in Hwire.
  destruct (data_frames_ok cs Hd Hsmall) as (Hwfs & Hon & Hunits).
  unfold CopyBoth.run.
  destruct (submit_new code writeReturns' pushReturns' true)
    as (r0 & Er & Hst & Hrow & Hb & Hcd & Hwr & Hr & Htr & _).
  assert (Hh : _pgDataHandler (rd r0) = true)
    by (injection Er as <-; reflexivity).
  rewrite Er. cbn [bind].
  destruct (row_stream_feed code writeReturns' pushReturns'
              (map data_frame cs) Open r0 Hd
              (conj Hst (conj Hrow (conj Hcd (conj Hwr Hr)))) Hb Hh Hwfs Hon I
              wire [] r0)
    as (sR & Hfeed & Hp & Hopen & _).
  { rewrite append_nil. apply L_empty, Hb. }
  { cbn [app closing]. rewrite app_nil_r. exact Hwire. }
  exists sR. split; [exact Hfeed|]. rewrite Hp, Htr, Hunits.
  split; [reflexivity|]. apply Hopen. reflexivity.
Qed.


(** ** The end of the query

    [handleReadyForQuery] calls [this.cb_flush], which the constructor
    does not set: [_final] does. *)
Definition no_final (os : list Op) : bool :=
  forallb (fun o => match o with DoFinal _ => false | _ => true end) os.

Definition same_cb_flush (s s' : CopyStreamQuery) : Prop :=
  cb_flush (wr s') = cb_flush (wr s).

Lemma flush_cb_flush callback s s' :
  flush callback s = Ok s' -> same_cb_flush s s'.
Proof.
  intros H. apply (flush_inv code writeReturns) in H. subst s'.
  unfold same_cb_flush, flush_result.
  destruct callback as [c|]; [|reflexivity].
  destruct (accepted _ _); [reflexivity|].
  destruct (Nat.ltb _ _); reflexivity.
Qed.

Lemma startCopyIn_state_cb_flush s :
  same_cb_flush s (startCopyIn_state code writeReturns s).
Proof.
  unfold same_cb_flush, startCopyIn_state. destruct (cb (wr s)); reflexivity.
Qed.

Lemma micros_cb_flush s s' :
  Micros code writeReturns s s' -> same_cb_flush s s'.
Proof.
  apply (micros_preserve code writeReturns same_cb_flush).
  - reflexivity.
  - unfold same_cb_flush. intros. congruence.
  - intros s1 s2 H. destruct H; try reflexivity.
    apply startCopyIn_state_cb_flush.
Qed.

Lemma parse_cb_flush chunk s r s' :
  _parse chunk s = Ok (r, s') -> same_cb_flush s s'.
Proof.
  intros H. apply parse_parsed in H.
  destruct H as [dr s' Hm|dr s2 b2 Hm Hb2|s1 c b Hm Hst Hb1 Hc];
    exact (micros_cb_flush _ _ Hm).
Qed.

Lemma call_listeners_cb_flush ls : forall s s',
  call_listeners ls s = Ok s' -> same_cb_flush s s'.
Proof.
  induction ls as [|[c|c] ls IH]; intros s s'; cbn [CopyBoth.call_listeners].
  - intros [= <-]. reflexivity.
  - destruct (flush (Some c) s) as [s1| |] eqn:E; cbn [bind]; try discriminate.
    intros H. apply IH in H. apply flush_cb_flush in E.
    unfold same_cb_flush in *. congruence.
  - intros H. apply IH in H. exact H.
Qed.

Lemma step_cb_flush o s s' :
  no_final [o] = true -> step o s = Ok s' -> same_cb_flush s s'.
Proof.
  destruct o as [chunk c|cs c|c|chunk|]; cbn [no_final forallb CopyBoth.step];
    try discriminate; intros _.
  - unfold CopyBoth._write. destruct (_gotCopyInResponse _);
      [|intros [= <-]; reflexivity].
    intros H. apply flush_cb_flush in H. exact H.
  - unfold CopyBoth._writev. destruct (_gotCopyInResponse _);
      [|intros [= <-]; reflexivity].
    intros H. apply flush_cb_flush in H. exact H.
  - destruct (_parse chunk s) as [[r s1]| |] eqn:E; cbn [bind];
      try discriminate.
    intros [= <-]. exact (parse_cb_flush _ _ _ _ E).
  - unfold CopyBoth.on_drain. intros H.
    apply call_listeners_cb_flush in H. exact H.
Qed.

Lemma steps_cb_flush os : forall s s',
  no_final os = true -> steps os s = Ok s' -> same_cb_flush s s'.
Proof.
  induction os as [|o os IH]; intros s s' Hn; cbn [CopyBoth.steps].
  - intros [= <-]. reflexivity.
  - cbn [no_final forallb] in Hn. apply andb_prop in Hn.
    destruct Hn as [Ho Hos].
    destruct (step o s) as [s1| |] eqn:E; cbn [bind]; try discriminate.
    intros H. apply (IH _ _ Hos) in H.
    assert (H1 : same_cb_flush s s1).
    { apply (step_cb_flush o); [cbn [no_final forallb]; rewrite Ho|]; trivial. }
    unfold same_cb_flush in *. congruence.
Qed.

(** X6.  [handleReadyForQuery] needs [_final] to have come first.  After
    [submit] and any writes, chunks from the connection and 'drain'
    events, but no [_final], [handleReadyForQuery] throws a TypeError
    ([this.cb_flush] is not a function).  After [_final(cb)], and whatever
    such calls follow it, [handleReadyForQuery] clears the connection and
    calls [cb], the callback [_final] itself did not call. *)
Theorem ready_for_query_needs_final :
  (forall rm os s0 s,
     submit code writeReturns pushReturns (new rm) = Ok s0 ->
     no_final os = true -> steps os s0 = Ok s ->
     handleReadyForQuery s = Throw TypeError)
  /\ (forall c s s1 os s2,
        _final c s = Ok s1 -> no_final os = true -> steps os s1 = Ok s2 ->
        called (trace (world s1)) = called (trace (world s))
        /\ handleReadyForQuery s2
           = Ok (emit (Call c) (with_world (set_connection false) s2))).
Proof.
  split.
  - intros rm os s0 s Hs Hn H. apply (steps_cb_flush _ _ _ Hn) in H.
    assert (H0 : cb_flush (wr s0) = None).
    { revert Hs. unfold CopyBoth.submit.
      destruct (_attach _ _ _ _) as [s1| |] eqn:E; cbn [bind];
        try discriminate.
      intros [= <-]. revert E. unfold CopyBoth._attach. fields.
      cbn [CopyBoth.new dataListeners world Nat.eqb].
      unfold CopyBoth._forward. fields. cbn [CopyBoth.new rd _forwarding
        _drained negb orb]. intros [= <-]. reflexivity. }
    unfold CopyBoth.handleReadyForQuery, same_cb_flush in *. fields.
    rewrite H, H0. reflexivity.
  - intros c s s1 os s2 Hf Hn H. apply (steps_cb_flush _ _ _ Hn) in H.
    revert Hf. unfold CopyBoth._final.
    destruct (flush None s) as [sa| |] eqn:Ef; cbn [bind]; try discriminate.
    destruct (stream_write _ _ sa) as [[ok sb]| |] eqn:Ew; cbn [bind];
      try discriminate.
    intros [= <-]. apply (flush_inv code writeReturns) in Ef.
    apply stream_write_inv in Ew. destruct Ew as (_ & _ & ->). subst sa.
    split.
    + cbn [flush_result]. fields. unfold called at 1. rewrite flat_map_app.
      cbn [flat_map app]. rewrite app_nil_r. apply called_flush_state.
    + unfold CopyBoth.handleReadyForQuery, same_cb_flush in *. fields.
      rewrite H. reflexivity.
Qed.


(** ** The listeners on the connection stream

    [_attach] takes the connection's 'data' listener off the stream and
    puts the instance's 'readable' listener on; [_detach] does the
    reverse. *)
Local Abbreviation feed := (feed code writeReturns pushReturns).
Local Abbreviation forward_loop := (forward_loop code writeReturns pushReturns).
Local Abbreviation _forward := (_forward code writeReturns pushReturns).
Local Abbreviation _read := (_read code writeReturns pushReturns).

(** What the decoder leaves alone for as long as it stays attached. *)
Definition around (s s' : CopyStreamQuery) : Prop :=
  incoming (world s') = incoming (world s)
  /\ _forwarding (rd s') = _forwarding (rd s)
  /\ connection (world s') = connection (world s)
  /\ readableListener (world s') = readableListener (world s)
  /\ dataListeners (world s') = dataListeners (world s).

Lemma around_refl s : around s s.
Proof. repeat split. Qed.

Lemma around_trans s s1 s2 : around s s1 -> around s1 s2 -> around s s2.
Proof.
  intros (A1 & A2 & A3 & A4 & A5) (B1 & B2 & B3 & B4 & B5).
  repeat split; congruence.
Qed.

Lemma micros_around s s' : Micros code writeReturns s s' -> around s s'.
Proof.
  apply (micros_preserve code writeReturns around);
    [apply around_refl|apply around_trans|].
  intros s1 s2 H. destruct H; try (repeat split; fail).
  unfold around, startCopyIn_state.
  match goal with
  | |- context [cb (wr ?x)] => destruct (cb (wr x))
  end; repeat split.
Qed.

(** One call of [_parse]: the instance stays attached, or it detaches,
    and then it has returned [undefined] or has cleaned up. *)
Lemma parse_around chunk s r s' :
  _parse chunk s = Ok (r, s') ->
  incoming (world s') = incoming (world s)
  /\ _forwarding (rd s') = _forwarding (rd s)
  /\ connection (world s') = connection (world s)
  /\ (readableListener (world s') = readableListener (world s)
      /\ dataListeners (world s') = dataListeners (world s)
      \/ readableListener (world s') = false
         /\ dataListeners (world s') = S (dataListeners (world s))
         /\ (r = None \/ _buffer (rd s') = None)).
Proof.
  intros H. apply parse_parsed in H.
  destruct H as [dr s' Hm|dr s2 b2 Hm Hb2|s1 c b Hm Hst Hb1 Hc];
    destruct (micros_around _ _ Hm) as (A1 & A2 & A3 & A4 & A5);
    (split; [exact A1|]); (split; [exact A2|]); (split; [exact A3|]).
  - left. split; assumption.
  - right. split; [reflexivity|]. split; [|right; reflexivity].
    unfold CopyBoth._cleanup, detach_state. fields. f_equal. exact A5.
  - right. split; [reflexivity|]. split; [|left; reflexivity].
    unfold detach_state. fields. f_equal. exact A5.
Qed.

(** A transfer on a connection stream that has [n] 'data' listeners. *)
Definition transfer_on (n : nat) (rm : bool) (cs : list Buffer)
  : Result CopyStreamQuery :=
  let* s0 := submit code writeReturns pushReturns
               (with_world (set_dataListeners n) (new rm)) in
  feed cs s0.

Definition exclusive (s : CopyStreamQuery) : Prop :=
  readableListener (world s) = true /\ dataListeners (world s) = 0%nat
  \/ readableListener (world s) = false /\ dataListeners (world s) = 1%nat.

Lemma feed_exclusive cs : forall s s',
  exclusive s -> feed cs s = Ok s' -> exclusive s'.
Proof.
  induction cs as [|c cs IH]; intros s s' Hs; cbn [CopyBoth.feed].
  - intros [= <-]. exact Hs.
  - destruct (readableListener (world s)) eqn:Hr; [|intros [= <-]; exact Hs].
    destruct (_parse c s) as [[r s1]| |] eqn:E; cbn [bind]; try discriminate.
    apply IH. destruct Hs as [[_ Hd]|[Hf _]]; [|congruence].
    destruct (parse_around _ _ _ _ E) as (_ & _ & _ & [[H1 H2]|(H1 & H2 & _)]).
    + left. split; congruence.
    + right. split; [exact H1|]. rewrite H2, Hd. reflexivity.
Qed.

(** X7.  One listener at a time.  [submit] throws an AssertionError
    unless the connection stream has exactly one 'data' listener.  When it
    has, then after [submit] and any chunks either the instance listens
    for 'readable' and the stream has no 'data' listener, or the instance
    has detached and the stream has its one 'data' listener again: never
    both, never neither. *)
Theorem listeners_exclusive n rm cs :
  (n <> 1%nat -> transfer_on n rm cs = Throw AssertionError)
  /\ (forall s', transfer_on n rm cs = Ok s' -> exclusive s').
Proof.
  unfold transfer_on, CopyBoth.submit, CopyBoth._attach. fields.
  cbn [CopyBoth.new world connection dataListeners].
  destruct (Nat.eqb n 1) eqn:En.
  - apply Nat.eqb_eq in En. subst n. split; [intros H; now elim H|].
    unfold CopyBoth._forward. fields.
    cbn [CopyBoth.new rd _forwarding _drained negb orb bind].
    intros s'. apply feed_exclusive. left. split; reflexivity.
  - split; [reflexivity|]. cbn [bind]. discriminate.
Qed.

(** ** Reading from the connection stream

    [_read] sets [_drained] and forwards: chunks are read off the
    connection stream and parsed for as long as [_parse] returns a true
    value. *)

Lemma forward_loop_stop q s :
  _drained (rd s) = false -> forward_loop q s = Ok s.
Proof.
  intros H. destruct q; cbn [CopyBoth.forward_loop]; rewrite H; reflexivity.
Qed.

Lemma forward_loop_spec q : forall s s' b,
  incoming (world s) = q ->
  _buffer (rd s) = Some b -> readableListener (world s) = true ->
  forward_loop q s = Ok s' ->
  exists k,
    (k <= length q)%nat
    /\ incoming (world s') = skipn k q
    /\ _forwarding (rd s') = _forwarding (rd s)
    /\ (skipn k q <> [] -> _drained (rd s') = false)
    /\ (readableListener (world s') = true
        /\ handedBack (trace (world s')) = handedBack (trace (world s))
        /\ consumed (world s') ++ held s'
           = consumed (world s) ++ b ++ concat (firstn k q)
        \/ readableListener (world s') = false
           /\ exists unreadBuffer,
                handedBack (trace (world s'))
                = handedBack (trace (world s)) ++ [unreadBuffer]
                /\ consumed (world s') ++ unreadBuffer
                   = consumed (world s) ++ b ++ concat (firstn k q)).
Proof.
  induction q as [|c q IH]; intros s s' b Hq Hb Hr.
  - cbn [CopyBoth.forward_loop]. intros H.
    assert (s' = s) by (destruct (_drained (rd s)); congruence). subst s'.
    exists 0%nat. cbn [skipn firstn concat length]. rewrite !app_nil_r.
    split; [lia|]. split; [exact Hq|]. split; [reflexivity|].
    split; [intros H0; now elim H0|]. left. unfold held. rewrite Hb.
    repeat split. exact Hr.
  - cbn [CopyBoth.forward_loop].
    destruct (_drained (rd s)) eqn:Hd.
    2:{ intros [= <-]. exists 0%nat. cbn [skipn firstn concat length].
        rewrite !app_nil_r.
        split; [lia|]. split; [exact Hq|]. split; [reflexivity|].
        split; [intros _; exact Hd|]. left. unfold held. rewrite Hb.
        repeat split. exact Hr. }
    set (s0 := with_world (set_incoming q) s).
    destruct (_parse c s0) as [[r s1]| |] eqn:E; cbn [bind]; try discriminate.
    set (s2 := with_rd (set_drained (truthy r)) s1).
    intros H.
    destruct (parse_around _ _ _ _ E) as (Hin & Hfw & _ & Hls).
    assert (Hin2 : incoming (world s2) = q) by exact Hin.
    destruct (parse_accounting code writeReturns pushReturns c s0 r s1 b Hb E)
      as [(Ha & Hh & Hsome & Hacc)|(Hdet & ub & Hh & Hacc)].
    + (* still attached *)
      destruct (_buffer (rd s1)) as [b1|] eqn:Hb1; [|now elim Hsome].
      assert (Ha2 : readableListener (world s2) = true)
        by (rewrite <- Hr; exact Ha).
      destruct (IH s2 s' b1 Hin2 Hb1 Ha2 H)
        as (k & Hk & Hi & Hf & Hdr & Hacc').
      exists (S k). cbn [length skipn firstn concat].
      split; [lia|]. split; [exact Hi|]. split; [rewrite Hf; exact Hfw|].
      split; [exact Hdr|].
      unfold held in Hacc. rewrite Hb1 in Hacc.
      change (consumed (world s2)) with (consumed (world s1)) in Hacc'.
      change (handedBack (trace (world s2)))
        with (handedBack (trace (world s1))) in Hacc'.
      change (consumed (world s0)) with (consumed (world s)) in Hacc.
      change (handedBack (trace (world s0)))
        with (handedBack (trace (world s))) in Hh.
      destruct Hacc' as [(H1 & H2 & H3)|(H1 & ub & H2 & H3)].
      * left. split; [exact H1|]. split; [congruence|].
        rewrite H3, app_assoc, Hacc, <- !app_assoc. reflexivity.
      * right. split; [exact H1|]. exists ub. split; [congruence|].
        rewrite H3, app_assoc, Hacc, <- !app_assoc. reflexivity.
    + (* detached by this chunk: the loop ends here *)
      destruct Hls as [[H1 _]|(_ & _ & Hend)].
      { change (readableListener (world s0)) with (readableListener (world s))
          in H1. congruence. }
      assert (Hstop : s' = s2).
      { destruct Hend as [-> |Hnone].
        - rewrite forward_loop_stop in H by reflexivity. congruence.
        - destruct q as [|c' q']; cbn [CopyBoth.forward_loop] in H.
          + destruct (_drained (rd s2)); congruence.
          + destruct (_drained (rd s2)); [|congruence].
            unfold CopyBoth._parse in H. fields.
            change (_buffer (rd s2)) with (_buffer (rd s1)) in H.
            rewrite Hnone in H. discriminate. }
      subst s'. exists 1%nat. cbn [length skipn firstn concat].
      rewrite app_nil_r.
      split; [lia|]. split; [exact Hin2|]. split; [exact Hfw|].
      split.
      * intros Hne. destruct Hend as [-> |Hnone]; [reflexivity|].
        destruct q as [|c' q']; [now elim Hne|].
        cbn [CopyBoth.forward_loop] in H.
        destruct (_drained (rd s2)) eqn:Hd2; [|reflexivity].
        unfold CopyBoth._parse in H. fields.
        change (_buffer (rd s2)) with (_buffer (rd s1)) in H.
        rewrite Hnone in H. discriminate.
      * right. split; [exact Hdet|]. exists ub. split; [exact Hh|exact Hacc].
Qed.

(** X8.  [_read] takes the chunks of the connection stream in order and
    loses none.  On an attached instance that is not forwarding already,
    a call of [_read] that returns has read some first chunks of what the
    connection stream held and left the others there; when it leaves any,
    [_drained] is false; and the bytes of the chunks read, behind what
    was in [_buffer], are the bytes the decoder has consumed and those
    still in [_buffer], or those it handed back when it detached. *)
Theorem read_takes_in_order s s' b :
  connection (world s) = true -> _forwarding (rd s) = false ->
  readableListener (world s) = true -> _buffer (rd s) = Some b ->
  _read s = Ok s' ->
  exists k,
    (k <= length (incoming (world s)))%nat
    /\ incoming (world s') = skipn k (incoming (world s))
    /\ _forwarding (rd s') = false
    /\ (incoming (world s') <> [] -> _drained (rd s') = false)
    /\ (readableListener (world s') = true
        /\ handedBack (trace (world s')) = handedBack (trace (world s))
        /\ consumed (world s') ++ held s'
           = consumed (world s) ++ b
             ++ concat (firstn k (incoming (world s)))
        \/ readableListener (world s') = false
           /\ exists unreadBuffer,
                handedBack (trace (world s'))
                = handedBack (trace (world s)) ++ [unreadBuffer]
                /\ consumed (world s') ++ unreadBuffer
                   = consumed (world s) ++ b
                     ++ concat (firstn k (incoming (world s)))).
Proof.
  intros Hc Hf Hr Hb. unfold CopyBoth._read, CopyBoth._forward. fields.
  rewrite Hf, Hc. cbn [negb orb].
  set (s1 := with_rd (set_forwarding true) (with_rd (set_drained true) s)).
  destruct (forward_loop (incoming (world s)) s1) as [s2| |] eqn:E;
    cbn [bind]; try discriminate.
  intros [= <-].
  destruct (forward_loop_spec _ s1 s2 b eq_refl Hb Hr E)
    as (k & Hk & Hi & _ & Hdr & Hacc).
  exists k. split; [exact Hk|]. split; [exact Hi|]. split; [reflexivity|].
  split; [|exact Hacc].
  intros Hne. apply Hdr. fields. rewrite <- Hi. exact Hne.
Qed.


(** ** Outside row mode

    Outside row mode the [switch] leaves the payload of a CopyData frame
    in [_copyDataChunks]; [_parse] flushes it once, behind its loop. *)
Local Abbreviation Loops := (Loops code writeReturns pushReturns).
Local Abbreviation Micros := (Micros code writeReturns).
Local Abbreviation units := (units code).
Local Abbreviation ongoing := (ongoing code).
Local Abbreviation switch := (CopyBoth.switch code writeReturns pushReturns).
Local Abbreviation _flushCopyData := (_flushCopyData pushReturns).

(** The payload bytes of the CopyData frames among [fs]. *)
Definition data (fs : list Frame) : Buffer := concat (flat_map units fs).

Definition raw_ready (s : CopyStreamQuery) : Prop :=
  frame_ready s /\ rowMode (rd s) = false
  /\ readableListener (world s) = true.

Lemma units_bytes f :
  concat (units f)
  = match classify code (fcode f) with Data => payload f | _ => [] end.
Proof.
  unfold CopyBothFacts.units. destruct (classify code (fcode f)); try reflexivity.
  destruct (payload f); [reflexivity|]. cbn [concat]. apply app_nil_r.
Qed.

Lemma frame_raw s f rest cd :
  distinct code = true ->
  raw_ready s -> _copyDataChunks (rd s) = Some cd ->
  _buffer (rd s) = Some (encode f ++ rest) ->
  wf_frame f -> ongoing f = true ->
  exists dr s',
    body s = Ok (Again false dr s') /\ raw_ready s'
    /\ _buffer (rd s') = Some rest
    /\ _copyDataChunks (rd s') = Some (cd ++ concat (units f))
    /\ pushed (trace (world s')) = pushed (trace (world s)).
Proof.
  intros Hd ((Hst & Hcdn & Hw & Hh) & Hrow & Hr) Hcd Hb Hwf Hon.
  pose proof (ongoing_not_error code _ Hon) as HE.
  rewrite (frame_pass code writeReturns pushReturns s f rest Hst Hb Hwf HE Hcdn).
  assert (Hwd : writable (decoded code f rest s)) by exact Hw.
  rewrite units_bytes.
  unfold CopyBoth.switch, CopyBothFacts.ongoing, CopyBoth.classify in *.
  rewrite HE in *.
  change (_code (rd (decoded code f rest s))) with (Some (fcode f)).
  change (rowMode (rd (decoded code f rest s))) with (rowMode (rd s)).
  cbn [code_is]. rewrite Hrow.
  destruct (is_code (fcode f) (CopyBothResponse code)) eqn:EW.
  - assert (Hnd : is_code (fcode f) (CopyData code) = false).
    { apply is_code_eq in EW. rewrite EW.
      apply (codes_differ code 3 5 Hd); lia. }
    rewrite (startCopyIn_spec code writeReturns _ Hwd). cbn [bind rmap close].
    eexists _, _. split; [reflexivity|]. fields.
    split; [|split; [|split]].
    + unfold raw_ready, frame_ready. fields.
      rewrite !rd_startCopyIn_state, readable_startCopyIn_state.
      split; [|split; [exact Hrow|exact Hr]].
      split; [reflexivity|]. split; [|split; [|exact Hh]].
      * unfold decoded. fields. rewrite Hnd. exact Hcdn.
      * exact (startCopyIn_state_writable code writeReturns pushReturns _ Hwd).
    + rewrite rd_startCopyIn_state. reflexivity.
    + rewrite rd_startCopyIn_state. unfold decoded. fields.
      rewrite Hnd, Hcd, app_nil_r. reflexivity.
    + rewrite pushed_startCopyIn_state. reflexivity.
  - destruct (is_code (fcode f) (CopyData code)) eqn:Ed.
    + cbn [bind rmap close]. eexists _, _. split; [reflexivity|].
      unfold decoded. fields. rewrite Ed, Hcd. cbn [option_map].
      split; [|repeat split].
      unfold raw_ready, frame_ready. fields.
      split; [|split; [exact Hrow|exact Hr]].
      split; [reflexivity|].
      split; [first [exact Hcdn|rewrite Hcd; discriminate]|].
      split; [exact Hw|exact Hh].
    + destruct (_ || _); [|discriminate]. cbn [bind rmap close].
      eexists _, _. split; [reflexivity|].
      unfold decoded. fields. rewrite Ed, Hcd, app_nil_r.
      split; [|repeat split].
      unfold raw_ready, frame_ready. fields.
      split; [|split; [exact Hrow|exact Hr]].
      split; [reflexivity|].
      split; [first [exact Hcdn|rewrite Hcd; discriminate]|].
      split; [exact Hw|exact Hh].
Qed.

(** A run of whole frames at the head of the accumulator. *)
Lemma frames_raw fs : forall s tail cd,
  distinct code = true ->
  raw_ready s -> _copyDataChunks (rd s) = Some cd ->
  _buffer (rd s) = Some (encode_all fs ++ tail) ->
  Forall wf_frame fs -> forallb ongoing fs = true ->
  exists s',
    raw_ready s' /\ _buffer (rd s') = Some tail
    /\ _copyDataChunks (rd s') = Some (cd ++ data fs)
    /\ pushed (trace (world s')) = pushed (trace (world s))
    /\ Micros s s'
    /\ forall r, Loops false s r <-> Loops false s' r.
Proof.
  induction fs as [|f fs IH]; intros s tail cd Hd Hready Hcd Hb Hwf Hon.
  - exists s. unfold data. cbn [flat_map concat]. rewrite app_nil_r.
    split; [exact Hready|]. split; [exact Hb|]. split; [exact Hcd|].
    split; [reflexivity|]. split; [apply ms_refl|]. intros r. reflexivity.
  - cbn [encode_all flat_map] in Hb. rewrite <- app_assoc in Hb.
    inversion Hwf as [|? ? Hwf1 Hwf2]; subst.
    cbn [forallb] in Hon. apply andb_prop in Hon. destruct Hon as [Hon1 Hon2].
    destruct (frame_raw s f _ cd Hd Hready Hcd Hb Hwf1 Hon1)
      as (dr & s1 & Hbody & Hready1 & Hb1 & Hcd1 & Hp1).
    destruct (IH s1 tail _ Hd Hready1 Hcd1 Hb1 Hwf2 Hon2)
      as (s' & Hready' & Hb' & Hcd' & Hp' & Hm & Hiff).
    exists s'. split; [exact Hready'|]. split; [exact Hb'|].
    split; [|split; [|split]].
    + rewrite Hcd'. unfold data. cbn [flat_map]. rewrite concat_app, app_assoc.
      reflexivity.
    + congruence.
    + eapply micros_trans; [|exact Hm].
      exact (body_micro code writeReturns pushReturns s _ Hbody).
    + intros r.
      rewrite (loops_again_iff code writeReturns pushReturns s false dr s1 r
                 (size_encode _ _ _ Hb) Hbody).
      apply Hiff.
Qed.

(** X9.  Outside row mode, one chunk of whole frames.  The payloads of
    its CopyData frames are pushed as one Buffer when [_parse] has gone
    through the chunk (nothing is pushed when they are all empty).  When
    an ErrorResponse code byte follows the frames in the same chunk,
    [_parse] returns from inside its loop: nothing is pushed, the
    payloads stay in [_copyDataChunks], and the connection's parser is
    handed the ErrorResponse byte and what is behind it. *)
Theorem raw_mode_chunk fs rest s :
  distinct code = true ->
  raw_ready s -> _buffer (rd s) = Some [] ->
  _copyDataChunks (rd s) = Some [] ->
  Forall wf_frame fs -> forallb ongoing fs = true ->
  (exists dr s',
     _parse (encode_all fs) s = Ok (Some dr, s')
     /\ pushed (trace (world s'))
        = pushed (trace (world s))
          ++ (if 0 <? len (data fs) then [data fs] else [])
     /\ _copyDataChunks (rd s') = Some []
     /\ readableListener (world s') = true)
  /\ (exists s',
        _parse (encode_all fs ++ ErrorResponse code :: rest) s = Ok (None, s')
        /\ pushed (trace (world s')) = pushed (trace (world s))
        /\ _copyDataChunks (rd s') = Some (data fs)
        /\ handedBack (trace (world s'))
           = handedBack (trace (world s)) ++ [ErrorResponse code :: rest]
        /\ readableListener (world s') = false).
Proof.
  intros Hd Hready Hb Hcd Hwf Hon.
  assert (Hsome : _buffer (rd s) <> None) by (rewrite Hb; discriminate).
  split.
  - assert (Hba : _buffer (rd (append (encode_all fs) s))
                  = Some (encode_all fs ++ [])).
    { rewrite (append_buffer _ _ _ Hb), app_nil_r. reflexivity. }
    destruct (frames_raw fs (append (encode_all fs) s) [] [] Hd Hready Hcd Hba
                Hwf Hon) as (s1 & Hready1 & Hb1 & Hcd1 & Hp1 & _ & Hiff).
    assert (HL : Loops false (append (encode_all fs) s) (Ok (Some false, s1)))
      by (apply Hiff, L_empty, Hb1).
    destruct (parse_on code writeReturns pushReturns _ s s1 Hsome HL)
      as (d0 & ->).
    destruct Hready1 as (_ & Hrow1 & Hr1). rewrite Hrow1. cbn [negb].
    unfold CopyBoth._flushCopyData. rewrite Hcd1. cbn [app].
    change (trace (world (append (encode_all fs) s))) with (trace (world s))
      in Hp1.
    destruct (0 <? len (data fs)) eqn:E; cbn [push bind fst snd].
    + eexists _, _. split; [reflexivity|]. fields.
      rewrite pushed_app, Hp1. repeat split. exact Hr1.
    + eexists _, _. split; [reflexivity|]. rewrite Hp1, app_nil_r.
      split; [reflexivity|]. split; [|exact Hr1].
      rewrite Hcd1. f_equal. cbn [app].
      destruct (data fs) as [|x l]; [reflexivity|].
      rewrite len_cons in E. pose proof (len_nonneg l).
      apply Z.ltb_ge in E. lia.
  - set (chunk := encode_all fs ++ ErrorResponse code :: rest).
    assert (Hba : _buffer (rd (append chunk s))
                  = Some (encode_all fs ++ ErrorResponse code :: rest))
      by (rewrite (append_buffer _ _ _ Hb); reflexivity).
    destruct (frames_raw fs (append chunk s) _ [] Hd Hready Hcd Hba Hwf Hon)
      as (s1 & Hready1 & Hb1 & Hcd1 & Hp1 & Hm & Hiff).
    destruct Hready1 as ((Hst1 & _ & [Hconn1 _] & Hh1) & _ & _).
    pose proof (error_pass code writeReturns pushReturns s1 _ rest Hst1 Hb1
                  (is_code_refl _) Hconn1 Hh1) as Hbody.
    assert (HL : Loops false (append chunk s)
                   (Ok (None, detach_state (ErrorResponse code :: rest)
                                (with_rd (set_code (Some (ErrorResponse code)))
                                   s1)))).
    { apply Hiff. apply L_left; [|exact Hbody].
      unfold size. rewrite Hb1. discriminate. }
    rewrite (parse_left code writeReturns pushReturns chunk s _ Hsome HL).
    eexists. split; [reflexivity|].
    destruct (micros_steady code writeReturns _ _ Hm) as (_ & Hhb & _).
    change (trace (world (append chunk s))) with (trace (world s)) in Hp1, Hhb.
    rewrite pushed_detach_state. unfold detach_state. fields.
    rewrite !handedBack_app, Hhb. cbn [handedBack flat_map app].
    rewrite app_nil_r.
    split; [exact Hp1|]. split; [exact Hcd1|]. split; reflexivity.
Qed.


(** ** Outside row mode: the stream, however it is cut

    Outside row mode the loop of [_parse] pushes nothing and does not
    look at what [_copyDataChunks] holds: it behaves as if no payload had
    been pushed yet and all of it were still in [_copyDataChunks]. *)
Local Abbreviation stream_write := (stream_write writeReturns).
Local Abbreviation flushChunk := (flushChunk code writeReturns).
Local Abbreviation flush_loop := (flush_loop code writeReturns).
Local Abbreviation _startCopyIn := (_startCopyIn code writeReturns).
Local Abbreviation block_code := (block_code code).
Local Abbreviation take_content := (take_content code).
Local Abbreviation block_message :=
  (block_message code writeReturns pushReturns).

Definition not_push (e : Event) : bool :=
  match e with
  | Push _ => false
  | _ => true
  end.

(** The instance with its pushes undone: what was pushed is back at the
    head of [_copyDataChunks], and the trace has no [Push]. *)
Definition unpushed (s : CopyStreamQuery) : CopyStreamQuery :=
  {| rd := set_copyDataChunks
             (option_map (app (forwarded (trace (world s))))
                (_copyDataChunks (rd s))) (rd s);
     wr := wr s;
     world := set_trace (filter not_push (trace (world s))) (world s) |}.

Lemma forwarded_more t t' :
  forwarded (t ++ t') = forwarded t ++ forwarded t'.
Proof. unfold forwarded. rewrite pushed_app. apply concat_app. Qed.

Lemma sent_hidden t : sent (filter not_push t) = sent t.
Proof.
  induction t as [|e t IH]; [reflexivity|].
  destruct e; cbn [filter not_push sent flat_map app] in *;
    fold (sent t); fold (sent (filter not_push t)); rewrite ?IH; reflexivity.
Qed.

Lemma unpushed_emit e s :
  not_push e = true -> unpushed (emit e s) = emit e (unpushed s).
Proof.
  intros He. unfold unpushed, emit. fields.
  rewrite filter_app, forwarded_more. cbn [filter]. rewrite He.
  replace (forwarded [e]) with (@nil byte)
    by (destruct e; try reflexivity; discriminate).
  rewrite app_nil_r. reflexivity.
Qed.

Lemma stream_write_unpushed b s :
  stream_write b (unpushed s) = rmap (on_snd unpushed) (stream_write b s).
Proof.
  unfold CopyBoth.stream_write.
  change (connection (world (unpushed s))) with (connection (world s)).
  destruct (connection (world s)); [|reflexivity].
  unfold rmap, on_snd. cbn [fst snd].
  rewrite (unpushed_emit (Write b) s eq_refl).
  unfold unpushed at 1. fields. rewrite sent_hidden. reflexivity.
Qed.

Lemma flushChunk_unpushed chunk s :
  flushChunk chunk (unpushed s)
  = rmap (on_snd unpushed) (flushChunk chunk s).
Proof.
  unfold CopyBoth.flushChunk.
  destruct (writeUInt32BE (len chunk + Int32Len)) as [field| |];
    cbn [bind rmap]; try reflexivity.
  rewrite stream_write_unpushed.
  destruct (stream_write (CopyData code :: field) s) as [[ok s1]| |];
    cbn [bind rmap on_snd fst snd]; try reflexivity.
  apply stream_write_unpushed.
Qed.

Lemma flush_loop_unpushed q : forall ok s,
  flush_loop q ok (unpushed s)
  = rmap (on_snd unpushed) (flush_loop q ok s).
Proof.
  induction q as [|chunk q IH]; intros ok s; destruct ok;
    cbn [CopyBoth.flush_loop]; try reflexivity.
  change (with_wr (set_chunks q) (unpushed s))
    with (unpushed (with_wr (set_chunks q) s)).
  rewrite flushChunk_unpushed.
  destruct (flushChunk chunk (with_wr (set_chunks q) s)) as [[ok1 s1]| |];
    cbn [bind rmap on_snd fst snd]; try reflexivity.
  apply IH.
Qed.

Lemma flush_unpushed callback s :
  flush callback (unpushed s) = rmap unpushed (flush callback s).
Proof.
  unfold CopyBoth.flush.
  change (chunks (wr (unpushed s))) with (chunks (wr s)).
  rewrite flush_loop_unpushed.
  destruct (flush_loop (chunks (wr s)) true s) as [[ok s1]| |];
    cbn [bind rmap on_snd fst snd]; try reflexivity.
  destruct callback as [c|]; [|reflexivity].
  destruct ok; unfold rmap;
    [rewrite (unpushed_emit (Call c) s1 eq_refl); reflexivity|].
  change (chunks (wr (unpushed s1))) with (chunks (wr s1)).
  destruct (Nat.ltb 0 (length (chunks (wr s1)))); reflexivity.
Qed.

Lemma startCopyIn_unpushed s :
  _startCopyIn (unpushed s) = rmap unpushed (_startCopyIn s).
Proof.
  unfold CopyBoth._startCopyIn.
  change (with_wr (set_gotCopyInResponse true) (unpushed s))
    with (unpushed (with_wr (set_gotCopyInResponse true) s)).
  rewrite <- (unpushed_emit Uncork _ eq_refl), flush_unpushed.
  destruct (flush None (emit Uncork (with_wr (set_gotCopyInResponse true) s)))
    as [s3| |]; cbn [bind rmap]; try reflexivity.
  change (cb (wr (unpushed s3))) with (cb (wr s3)).
  destruct (cb (wr s3)) as [c|]; [|reflexivity].
  change (with_wr (set_cb None) (unpushed s3))
    with (unpushed (with_wr (set_cb None) s3)).
  rewrite <- (unpushed_emit (Call c) _ eq_refl). reflexivity.
Qed.

Lemma detach_unpushed s :
  _detach (unpushed s) = rmap unpushed (_detach s).
Proof.
  unfold CopyBoth._detach.
  change (connection (world (unpushed s))) with (connection (world s)).
  destruct (connection (world s)); [|reflexivity].
  change (_buffer (rd (unpushed s))) with (_buffer (rd s)).
  destruct (_buffer (rd s)) as [b|]; [|reflexivity]. fields.
  change (_pgDataHandler (rd (unpushed s))) with (_pgDataHandler (rd s)).
  destruct (_pgDataHandler (rd s)); [|reflexivity].
  cbn [rmap]. rewrite (unpushed_emit ResumeNextTick _ eq_refl),
    (unpushed_emit (HandBack b) _ eq_refl).
  reflexivity.
Qed.

Definition on_step (f : CopyStreamQuery -> CopyStreamQuery) (r : Step) : Step :=
  match r with
  | Next s => Next (f s)
  | Break s => Break (f s)
  | Return s => Return (f s)
  end.

Definition on_pass (f : CopyStreamQuery -> CopyStreamQuery) (p : Pass) : Pass :=
  match p with
  | Again d dr s => Again d dr (f s)
  | Broke s => Broke (f s)
  | Left s => Left (f s)
  end.

Lemma block_code_unpushed s :
  block_code (unpushed s) = rmap (on_step unpushed) (block_code s).
Proof.
  unfold CopyBoth.block_code.
  change (_state (rd (unpushed s))) with (_state (rd s)).
  destruct (DecoderState_eqb PG_CODE (_state (rd s))); [|reflexivity].
  change (_buffer (rd (unpushed s))) with (_buffer (rd s)).
  destruct (_buffer (rd s)) as [[|c b]|]; try reflexivity.
  destruct (is_code c (ErrorResponse code)); [|reflexivity].
  change (with_rd (set_code (Some c)) (unpushed s))
    with (unpushed (with_rd (set_code (Some c)) s)).
  rewrite detach_unpushed.
  destruct (_detach (with_rd (set_code (Some c)) s)); reflexivity.
Qed.

Lemma block_length_unpushed s :
  block_length (unpushed s) = rmap (on_step unpushed) (block_length s).
Proof.
  unfold CopyBoth.block_length.
  change (_state (rd (unpushed s))) with (_state (rd s)).
  destruct (DecoderState_eqb PG_LENGTH (_state (rd s))); [|reflexivity].
  change (_buffer (rd (unpushed s))) with (_buffer (rd s)).
  destruct (_buffer (rd s)) as [[|b0 [|b1 [|b2 [|b3 b]]]]|]; reflexivity.
Qed.

Lemma take_content_unpushed s :
  take_content (unpushed s) = rmap unpushed (take_content s).
Proof.
  unfold CopyBoth.take_content.
  change (_buffer (rd (unpushed s))) with (_buffer (rd s)).
  destruct (_buffer (rd s)) as [b|]; [|reflexivity].
  change (_unreadMessageContentLength (rd (unpushed s)))
    with (_unreadMessageContentLength (rd s)).
  destruct (_ && _); [|reflexivity]. fields.
  change (_code (rd (unpushed s))) with (_code (rd s)).
  destruct (code_is (_code (rd s)) (CopyData code)); [|reflexivity].
  unfold unpushed at 1. fields.
  destruct (_copyDataChunks (rd s)) as [cd|]; [|reflexivity].
  cbn [option_map rmap]. unfold unpushed. fields. cbn [option_map].
  rewrite app_assoc. reflexivity.
Qed.

Lemma switch_unpushed s :
  rowMode (rd s) = false ->
  switch (unpushed s) = rmap (on_third unpushed) (switch s).
Proof.
  intros Hrow. unfold CopyBoth.switch.
  change (_code (rd (unpushed s))) with (_code (rd s)).
  change (rowMode (rd (unpushed s))) with (rowMode (rd s)). rewrite Hrow.
  destruct (code_is _ (CopyBothResponse code)).
  { rewrite startCopyIn_unpushed. destruct (_startCopyIn s); reflexivity. }
  destruct (code_is _ (CopyData code)); [reflexivity|].
  destruct (_ || _); reflexivity.
Qed.

Lemma block_message_unpushed s :
  rowMode (rd s) = false ->
  block_message (unpushed s) = rmap (on_third unpushed) (block_message s).
Proof.
  intros Hrow. unfold CopyBoth.block_message.
  change (_state (rd (unpushed s))) with (_state (rd s)).
  destruct (DecoderState_eqb PG_MESSAGE (_state (rd s))); [|reflexivity].
  rewrite take_content_unpushed.
  destruct (take_content s) as [s1| |] eqn:E; cbn [bind rmap];
    try reflexivity.
  change (_unreadMessageContentLength (rd (unpushed s1)))
    with (_unreadMessageContentLength (rd s1)).
  destruct (_ =? 0); [|reflexivity].
  assert (Hrow1 : rowMode (rd s1) = false).
  { destruct (micros_kept code writeReturns _ _
                (take_content_micro code writeReturns _ _ E)) as (_ & _ & H).
    congruence. }
  rewrite (switch_unpushed s1 Hrow1).
  destruct (switch s1) as [[[d dr] s2]| |]; reflexivity.
Qed.


Lemma body_unpushed s :
  rowMode (rd s) = false ->
  body (unpushed s) = rmap (on_pass unpushed) (body s).
Proof.
  intros Hrow. unfold CopyBoth.body. rewrite block_code_unpushed.
  destruct (block_code s) as [[s1|s1|s1]| |] eqn:E1; cbn [bind rmap on_step];
    try reflexivity.
  assert (Hrow1 : rowMode (rd s1) = false).
  { destruct (micros_kept code writeReturns _ _
                (block_code_micro code writeReturns _ _ E1)) as (_ & _ & H).
    congruence. }
  rewrite block_length_unpushed.
  destruct (CopyBoth.block_length s1) as [[s2|s2|s2]| |] eqn:E2;
    cbn [bind rmap on_step]; try reflexivity.
  assert (Hrow2 : rowMode (rd s2) = false).
  { destruct (micros_kept code writeReturns _ _
                (block_length_micro code writeReturns _ _ E2)) as (_ & _ & H).
    congruence. }
  rewrite (block_message_unpushed s2 Hrow2).
  destruct (block_message s2) as [[[d dr] s3]| |]; reflexivity.
Qed.

Lemma size_unpushed s : size (unpushed s) = size s.
Proof. reflexivity. Qed.

(** The loop on the instance with its pushes undone is the loop on the
    instance. *)
Lemma loops_unpushed d s' r' :
  Loops d s' r' ->
  forall a, s' = unpushed a -> rowMode (rd a) = false ->
  exists r, Loops d a r /\ r' = rmap (on_snd unpushed) r.
Proof.
  induction 1 as [s|s Hn|s He|s e Hsz Hb|s s1 Hsz Hb|s s1 Hsz Hb
                  |s d dr s1 r0 Hsz Hb H IH]; intros a -> Hrow.
  - exists (Ok (Some true, a)). split; [apply L_done|reflexivity].
  - exists (Throw TypeError). split; [apply L_null, Hn|reflexivity].
  - exists (Ok (Some false, a)). split; [apply L_empty, He|reflexivity].
  - rewrite (body_unpushed a Hrow) in Hb.
    destruct (body a) as [p|e'|] eqn:E; cbn [rmap] in Hb; try discriminate.
    injection Hb as ->. exists (Throw e).
    split; [apply L_throw; assumption|reflexivity].
  - rewrite (body_unpushed a Hrow) in Hb.
    destruct (body a) as [[dd ddr a1|a1|a1]| |] eqn:E; cbn [rmap on_pass] in Hb;
      try discriminate.
    injection Hb as <-. exists (Ok (Some false, a1)).
    split; [apply L_broke; assumption|reflexivity].
  - rewrite (body_unpushed a Hrow) in Hb.
    destruct (body a) as [[dd ddr a1|a1|a1]| |] eqn:E; cbn [rmap on_pass] in Hb;
      try discriminate.
    injection Hb as <-. exists (Ok (None, a1)).
    split; [apply L_left; assumption|reflexivity].
  - rewrite (body_unpushed a Hrow) in Hb.
    destruct (body a) as [[dd ddr a1|a1|a1]| |] eqn:E; cbn [rmap on_pass] in Hb;
      try discriminate.
    injection Hb as <- <- <-.
    assert (Hrow1 : rowMode (rd a1) = false).
    { destruct (micros_kept code writeReturns _ _
                  (body_micro code writeReturns pushReturns a _ E))
        as (_ & _ & Hk).
      congruence. }
    destruct (IH a1 eq_refl Hrow1) as (r & HL & ->).
    exists r. split; [|reflexivity].
    eapply L_again; [exact Hsz|exact E|exact HL].
Qed.

(** The flush behind the loop does not show once the pushes are
    undone. *)
Lemma flushCopyData_unpushed s cd :
  _copyDataChunks (rd s) = Some cd ->
  exists d s',
    _flushCopyData s = Ok (d, s') /\ unpushed s' = unpushed s
    /\ _copyDataChunks (rd s') = Some []
    /\ forwarded (trace (world s')) = forwarded (trace (world s)) ++ cd
    /\ rd s' = set_copyDataChunks (Some []) (rd s)
    /\ wr s' = wr s
    /\ readableListener (world s') = readableListener (world s)
    /\ connection (world s') = connection (world s)
    /\ handedBack (trace (world s')) = handedBack (trace (world s)).
Proof.
  intros Hcd. unfold CopyBoth._flushCopyData. rewrite Hcd.
  destruct (0 <? len cd) eqn:E.
  - eexists _, _. split; [reflexivity|]. cbn [push snd].
    assert (Hf : forwarded (trace (world s) ++ [Push cd])
                 = forwarded (trace (world s)) ++ cd)
      by (rewrite forwarded_more, CopyToCalls.forwarded_push; reflexivity).
    unfold unpushed. fields. rewrite Hcd, filter_app, Hf, handedBack_app.
    cbn [filter not_push option_map handedBack flat_map].
    rewrite !app_nil_r. repeat split.
  - assert (cd = []).
    { destruct cd as [|x cd]; [reflexivity|]. rewrite len_cons in E.
      pose proof (len_nonneg cd). apply Z.ltb_ge in E. lia. }
    subst cd. exists true, s. rewrite app_nil_r.
    repeat split; try assumption.
    destruct s as [[st b u cd c h dr fw rm] w e]. cbn in Hcd. subst cd.
    reflexivity.
Qed.


Lemma micros_holds s s' :
  Micros s s' -> _copyDataChunks (rd s) <> None ->
  _copyDataChunks (rd s') <> None.
Proof.
  induction 1 as [|s s1 s2 Hstep _ IH]; [tauto|].
  intros H. apply IH. destruct Hstep; fields; try discriminate; try exact H.
  rewrite rd_startCopyIn_state. exact H.
Qed.

Lemma raw_ready_append y s : raw_ready s -> raw_ready (append y s).
Proof. intros H. exact H. Qed.

Lemma data_app a b : data (a ++ b) = data a ++ data b.
Proof. unfold data. rewrite flat_map_app. apply concat_app. Qed.

(** The loop over a prefix of a stream of frames, outside row mode: it is
    left for want of bytes, with the instance still attached; once the
    whole stream is there, the payloads are in [_copyDataChunks]. *)
Lemma raw_prefix fs p q s0 :
  distinct code = true ->
  raw_ready s0 -> _buffer (rd s0) = Some [] ->
  _copyDataChunks (rd s0) = Some [] ->
  Forall wf_frame fs -> forallb ongoing fs = true ->
  p ++ q = encode_all fs ->
  exists s1,
    Loops false (append p s0) (Ok (Some false, s1))
    /\ rowMode (rd s1) = false
    /\ readableListener (world s1) = true
    /\ _buffer (rd s1) <> None
    /\ _copyDataChunks (rd s1) <> None
    /\ (q = [] -> _copyDataChunks (rd s1) = Some (data fs)).
Proof.
  intros Hd Hready Hb0 Hcd0 Hwf Hon Hpq.
  destruct (prefix_frames fs p q Hpq) as (fs1 & fs2 & t & -> & -> & Hcase).
  apply Forall_app in Hwf. destruct Hwf as [Hwf1 Hwf2].
  rewrite forallb_app in Hon. apply andb_prop in Hon. destruct Hon as [Hon1 Hon2].
  assert (Hb : _buffer (rd (append (encode_all fs1 ++ t) s0))
               = Some (encode_all fs1 ++ t)).
  { rewrite (append_buffer _ _ _ Hb0). reflexivity. }
  destruct (frames_raw fs1 _ t [] Hd (raw_ready_append _ _ Hready) Hcd0 Hb
              Hwf1 Hon1) as (s1 & Hready1 & Hb1 & Hcd1 & _ & _ & Hiff).
  cbn [app] in Hcd1.
  destruct Hready1 as ((Hst & Hcdn & _ & _) & Hrow & Hr).
  destruct Hcase as [[-> ->]|(f & fs3 & u & -> & Hu & Htu & ->)].
  - exists s1. split; [apply Hiff, L_empty, Hb1|].
    split; [exact Hrow|]. split; [exact Hr|].
    split; [rewrite Hb1; discriminate|]. split; [exact Hcdn|].
    intros Hq. apply encode_all_nil in Hq. subst fs2.
    rewrite app_nil_r. exact Hcd1.
  - inversion Hwf2 as [|? ? Hwf_f _]; subst.
    cbn [forallb] in Hon2. apply andb_prop in Hon2. destruct Hon2 as [Hon_f _].
    destruct (partial_frame code writeReturns pushReturns s1 f t u Hst Hb1
                Hcdn Htu Hu Hwf_f (ongoing_not_error code _ Hon_f))
      as (s2 & HL & _ & Hrow2 & Hr2 & Hb2).
    exists s2. split; [apply Hiff, HL|].
    split; [rewrite Hrow2; exact Hrow|]. split; [rewrite Hr2; exact Hr|].
    split; [exact Hb2|]. split.
    + apply (micros_holds s1); [|exact Hcdn].
      exact (loops_micro code writeReturns pushReturns _ _ _ HL).
    + intros Hq. destruct u; [now elim Hu|discriminate].
Qed.

(** Where the loop stands after a prefix of the stream, outside row mode,
    [q] being the rest of the stream and [D] the payload bytes of its
    CopyData frames. *)
Inductive Arrived (c : Closing) (D : Buffer) (q : Buffer)
  : option bool -> CopyStreamQuery -> Prop :=
| a_waiting s1 :
    rowMode (rd s1) = false -> readableListener (world s1) = true ->
    _buffer (rd s1) <> None -> _copyDataChunks (rd s1) <> None ->
    (q = [] -> c = Open /\ _copyDataChunks (rd s1) = Some D) ->
    Arrived c D q (Some false) s1
| a_done s1 b :
    rowMode (rd s1) = false -> connection (world s1) = true ->
    _pgDataHandler (rd s1) = true -> _buffer (rd s1) = Some b ->
    _copyDataChunks (rd s1) = Some D ->
    (exists f rest, c = Ends f rest) ->
    Arrived c D q (Some true) s1
| a_error s1 :
    readableListener (world s1) = false ->
    _copyDataChunks (rd s1) = Some D ->
    (exists rest, c = Fails rest) ->
    Arrived c D q None s1.

Lemma raw_stream_prefix fs c p q s0 :
  distinct code = true ->
  raw_ready s0 -> _buffer (rd s0) = Some [] ->
  _copyDataChunks (rd s0) = Some [] ->
  Forall wf_frame fs -> forallb ongoing fs = true -> closes code c ->
  p ++ q = encode_all fs ++ closing code c ->
  exists r s1,
    Loops false (append p s0) (Ok (r, s1)) /\ Arrived c (data fs) q r s1.
Proof.
  intros Hd Hready Hb0 Hcd0 Hwf Hon Hc Hpq.
  assert (Hwait : forall l,
    p ++ l = encode_all fs -> q = l ++ closing code c ->
    exists r s1,
      Loops false (append p s0) (Ok (r, s1)) /\ Arrived c (data fs) q r s1).
  { intros l Hpl Hq.
    destruct (raw_prefix fs p l s0 Hd Hready Hb0 Hcd0 Hwf Hon Hpl)
      as (s1 & HL & Hrow & Hr & Hb & Hcdn & Hcd).
    exists (Some false), s1. split; [exact HL|].
    apply a_waiting; try assumption.
    intros ->. symmetry in Hq. apply app_eq_nil in Hq. destruct Hq as [-> Hq].
    split; [apply (closing_nil code), Hq|apply Hcd; reflexivity]. }
  apply app_eq_app in Hpq.
  destruct Hpq as (l & [[Hp Hcl]|[Hfs Hq]]); [|exact (Hwait l (eq_sym Hfs) Hq)].
  destruct l as [|l0 l'].
  { apply (Hwait []); [rewrite Hp, !app_nil_r; reflexivity|].
    cbn [app] in *. symmetry. exact Hcl. }
  assert (Hb : _buffer (rd (append p s0)) = Some (encode_all fs ++ l0 :: l'))
    by (rewrite (append_buffer _ _ _ Hb0), Hp; reflexivity).
  destruct (frames_raw fs _ (l0 :: l') [] Hd (raw_ready_append _ _ Hready)
              Hcd0 Hb Hwf Hon) as (s1 & Hready1 & Hb1 & Hcd1 & _ & _ & Hiff).
  cbn [app] in Hcd1.
  destruct Hready1 as ((Hst1 & Hcdn1 & [Hconn1 Hsm1] & Hh1) & Hrow1 & Hr1).
  assert (Hsz1 : size s1 <> 0%nat) by (unfold size; rewrite Hb1; discriminate).
  destruct c as [|f rest|rest]; cbn [closing closes] in *.
  - discriminate.
  - (* a frame that ends the transfer *)
    destruct Hc as [Hwf_f Hend].
    assert (Hcodes : is_code (fcode f) (ErrorResponse code) = false
                     /\ is_code (fcode f) (CopyBothResponse code) = false
                     /\ is_code (fcode f) (CopyData code) = false
                     /\ is_code (fcode f) (ParameterStatus code)
                        || is_code (fcode f) (NoticeResponse code)
                        || is_code (fcode f) (NotificationResponse code)
                        = false).
    { unfold CopyBoth.classify in Hend.
      destruct (is_code (fcode f) (ErrorResponse code)); [discriminate|].
      destruct (is_code (fcode f) (CopyBothResponse code)); [discriminate|].
      destruct (is_code (fcode f) (CopyData code)); [discriminate|].
      destruct (_ || _); [discriminate|]. repeat split. }
    destruct Hcodes as (HE & HW & Hdt & Hinfo).
    assert (Hdone : forall m,
      _buffer (rd s1) = Some (encode f ++ m) ->
      exists r s2,
        Loops false (append p s0) (Ok (r, s2))
        /\ Arrived (Ends f rest) (data fs) q r s2).
    { intros m Hb1'.
      pose proof (frame_pass code writeReturns pushReturns s1 f m Hst1 Hb1'
                    Hwf_f HE Hcdn1) as Hbody.
      unfold CopyBoth.switch in Hbody.
      change (_code (rd (decoded code f m s1))) with (Some (fcode f)) in Hbody.
      cbn [code_is] in Hbody. rewrite HW, Hdt, Hinfo in Hbody.
      cbn [rmap close] in Hbody.
      exists (Some true), (with_rd (set_state PG_CODE) (decoded code f m s1)).
      split.
      - apply Hiff. eapply L_again; [exact Hsz1|exact Hbody|apply L_done].
      - apply (a_done _ _ _ _ m); try assumption; try reflexivity.
        + unfold decoded. fields. rewrite Hdt. exact Hcd1.
        + exists f, rest. reflexivity. }
    apply app_eq_app in Hcl.
    destruct Hcl as (m & [[Hf Hrest]|[Hl Hrest]]).
    + destruct m as [|m0 m'].
      * apply (Hdone []). rewrite Hb1, app_nil_r, Hf, app_nil_r. reflexivity.
      * destruct (partial_frame code writeReturns pushReturns s1 f (l0 :: l')
                    (m0 :: m') Hst1 Hb1 Hcdn1 (eq_sym Hf))
          as (s2 & HL2 & Htr2 & Hrow2 & Hr2 & Hb2);
          [discriminate|exact Hwf_f|exact HE|].
        exists (Some false), s2. split; [apply Hiff, HL2|].
        apply a_waiting; [congruence|congruence|exact Hb2| |].
        -- apply (micros_holds s1); [|exact Hcdn1].
           exact (loops_micro code writeReturns pushReturns _ _ _ HL2).
        -- intros ->. discriminate.
    + apply (Hdone m). rewrite Hb1, Hl. reflexivity.
  - (* an ErrorResponse code byte *)
    injection Hcl as Hl0 Hrest. subst l0.
    pose proof (error_pass code writeReturns pushReturns s1 _ l' Hst1 Hb1
                  (is_code_refl _) Hconn1 Hh1) as Hbody.
    eexists None, _. split.
    + apply Hiff. apply L_left; [exact Hsz1|exact Hbody].
    + apply a_error; [reflexivity|exact Hcd1|exists rest; reflexivity].
Qed.


(** What [_copyDataChunks] holds ([null] holds nothing). *)
Definition unflushed (s : CopyStreamQuery) : Buffer :=
  match _copyDataChunks (rd s) with
  | Some cd => cd
  | None => []
  end.

Lemma unpushed_data a D :
  _copyDataChunks (rd (unpushed a)) = Some D ->
  exists cd,
    _copyDataChunks (rd a) = Some cd /\ forwarded (trace (world a)) ++ cd = D.
Proof.
  unfold unpushed. fields. destruct (_copyDataChunks (rd a)) as [cd|];
    [|discriminate].
  intros [= <-]. exists cd. split; reflexivity.
Qed.

(** The chunks that bring the rest of the stream, [A] being the instance
    and [S] where the loop over the whole prefix [p] is left. *)
Lemma raw_stream_feed fs c s0 :
  distinct code = true ->
  raw_ready s0 -> _buffer (rd s0) = Some [] ->
  _copyDataChunks (rd s0) = Some [] ->
  Forall wf_frame fs -> forallb ongoing fs = true -> closes code c ->
  forall cs p A,
    Loops false (append p s0) (Ok (Some false, unpushed A)) ->
    rowMode (rd A) = false -> _copyDataChunks (rd A) = Some [] ->
    readableListener (world A) = true -> _buffer (rd A) <> None ->
    p ++ concat cs = encode_all fs ++ closing code c ->
    exists s',
      feed cs A = Ok s'
      /\ forwarded (trace (world s')) ++ unflushed s' = data fs
      /\ ((forall rest, c <> Fails rest) -> unflushed s' = [])
      /\ (c = Open -> readableListener (world s') = true)
      /\ (c <> Open -> readableListener (world s') = false).
Proof.
  intros Hd Hready Hb0 Hcd0 Hwf Hon Hc.
  induction cs as [|ch cs IH]; intros p A HL Hrow HcdA Hr HbA Hp.
  - cbn [concat] in Hp. cbn [CopyBoth.feed]. exists A. split; [reflexivity|].
    destruct (raw_stream_prefix fs c p [] s0 Hd Hready Hb0 Hcd0 Hwf Hon Hc Hp)
      as (r & s1 & HL1 & HA).
    pose proof (loops_deterministic code writeReturns pushReturns _ _ _ HL
                  _ HL1) as E.
    injection E as -> ->.
    inversion HA as [s2 _ _ _ _ Hq| |]; subst.
    destruct (Hq eq_refl) as [-> Hcd].
    destruct (unpushed_data A _ Hcd) as (cd & Hcd' & Hdata).
    unfold unflushed. rewrite Hcd'. rewrite HcdA in Hcd'.
    injection Hcd' as <-.
    split; [exact Hdata|]. split; [reflexivity|].
    split; [intros _; exact Hr|]. intros Hne. now elim Hne.
  - cbn [concat] in Hp. cbn [CopyBoth.feed]. rewrite Hr.
    rewrite app_assoc in Hp.
    destruct (raw_stream_prefix fs c (p ++ ch) (concat cs) s0 Hd Hready Hb0
                Hcd0 Hwf Hon Hc Hp) as (r' & S' & HL' & HA).
    assert (HL2 : Loops false (unpushed (append ch A)) (Ok (r', S'))).
    { change (unpushed (append ch A)) with (append ch (unpushed A)).
      apply (loops_append code writeReturns pushReturns _ _ HL ch).
      rewrite append_append. exact HL'. }
    destruct (loops_unpushed _ _ _ HL2 (append ch A) eq_refl Hrow)
      as (r & HLa & Er).
    destruct r as [[ra a']| |]; cbn [rmap on_snd fst snd] in Er;
      try discriminate.
    injection Er as -> ->.
    inversion HA as [s2 Hrow' Hr' Hb' Hcdn' Hq'
                    |s2 b Hrow' Hconn' Hh' Hb' Hcd' Hends
                    |s2 Hr' Hcd' Hfails]; subst.
    + (* the transfer goes on *)
      destruct (parse_on code writeReturns pushReturns ch A a' HbA HLa)
        as (d0 & ->).
      change (rowMode (rd (unpushed a'))) with (rowMode (rd a')) in Hrow'.
      rewrite Hrow'. cbn [negb].
      destruct (_copyDataChunks (rd a')) as [x|] eqn:Hx;
        [|exfalso; apply Hcdn'; unfold unpushed; fields; rewrite Hx;
          reflexivity].
      destruct (flushCopyData_unpushed a' x Hx)
        as (d & A' & -> & HU & HcdA' & _ & Hrd & _ & Hrl & _).
      cbn [bind].
      apply (IH (p ++ ch) A').
      * rewrite HU. exact HL'.
      * rewrite Hrd. exact Hrow'.
      * exact HcdA'.
      * rewrite Hrl. exact Hr'.
      * rewrite Hrd. exact Hb'.
      * exact Hp.
    + (* it is over *)
      destruct (parse_done code writeReturns pushReturns ch A a' HbA HLa)
        as (d0 & ->).
      change (rowMode (rd (unpushed a'))) with (rowMode (rd a')) in Hrow'.
      rewrite Hrow'. cbn [negb].
      destruct (unpushed_data a' _ Hcd') as (x & Hx & Hdata).
      destruct (flushCopyData_unpushed a' x Hx)
        as (d & A3 & -> & _ & _ & Hfw & Hrd & _ & _ & Hconn & _).
      cbn [bind].
      rewrite (detach_spec A3 b).
      * cbn [bind]. rewrite feed_detached by reflexivity.
        eexists. split; [reflexivity|].
        destruct Hends as (f & rest & ->).
        unfold unflushed, CopyBoth._cleanup. fields.
        rewrite app_nil_r, forwarded_more.
        change (forwarded [PushNull]) with (@nil byte). rewrite app_nil_r.
        unfold forwarded. rewrite pushed_detach_state.
        fold (forwarded (trace (world A3))). rewrite Hfw.
        split; [exact Hdata|]. split; [reflexivity|].
        split; [discriminate|reflexivity].
      * rewrite Hconn. exact Hconn'.
      * rewrite Hrd. exact Hh'.
      * rewrite Hrd. exact Hb'.
    + (* an ErrorResponse was intercepted *)
      rewrite (parse_left code writeReturns pushReturns ch A a' HbA HLa).
      cbn [bind].
      change (readableListener (world (unpushed a')))
        with (readableListener (world a')) in Hr'.
      rewrite (feed_detached code writeReturns pushReturns cs a' Hr').
      eexists. split; [reflexivity|].
      destruct (unpushed_data a' _ Hcd') as (x & Hx & Hdata).
      destruct Hfails as (rest & ->).
      unfold unflushed. rewrite Hx.
      split; [exact Hdata|]. split; [intros H; now elim (H rest)|].
      split; [discriminate|]. intros _. exact Hr'.
Qed.

(** X11.  Outside row mode, the payload bytes come through however the
    stream is cut.  Take a stream of well-formed frames that leave the
    transfer going on, and then nothing more yet, or a frame that ends
    the transfer, or an ErrorResponse code byte, with any bytes behind.
    However the stream is cut into chunks, the run returns, and the bytes
    pushed, followed by what [_copyDataChunks] still holds, are the
    payloads of the CopyData frames, in order.  [_copyDataChunks] holds
    nothing unless the stream closes with an ErrorResponse byte (then it
    holds the payload bytes that came in the same chunk, which are
    never pushed).  The instance is detached if and only if the stream
    has come to its closing part. *)
Theorem raw_mode_stream fs c cs :
  distinct code = true ->
  Forall wf_frame fs -> forallb ongoing fs = true -> closes code c ->
  concat cs = encode_all fs ++ closing code c ->
  exists s',
    run code writeReturns pushReturns false cs = Ok s'
    /\ forwarded (trace (world s')) ++ unflushed s' = data fs
    /\ ((forall rest, c <> Fails rest) -> unflushed s' = [])
    /\ (c = Open -> readableListener (world s') = true)
    /\ (c <> Open -> readableListener (world s') = false).
Proof.
  intros Hd Hwf Hon Hc Hcs. unfold CopyBoth.run.
  destruct (submit_new code writeReturns pushReturns false)
    as (s0 & E & Hst & Hrow & Hb & Hcd & Hw & Hr & Htr & _).
  assert (Hh : _pgDataHandler (rd s0) = true)
    by (injection E as <-; reflexivity).
  assert (HU : unpushed s0 = s0) by (injection E as <-; reflexivity).
  rewrite E. cbn [bind].
  assert (Hready : raw_ready s0).
  { split; [|split; [exact Hrow|exact Hr]].
    split; [exact Hst|]. split; [rewrite Hcd; discriminate|].
    split; [exact Hw|exact Hh]. }
  apply (raw_stream_feed fs c s0 Hd Hready Hb Hcd Hwf Hon Hc cs [] s0);
    try assumption.
  - rewrite HU, append_nil. apply L_empty, Hb.
  - rewrite Hb. discriminate.
Qed.


(** ** The order of what is written

    Every chunk given to [_write] or [_writev] goes to the end of
    [this.chunks], and [flush] takes from its head only. *)

(** The chunks that the calls [os] hand over, in order. *)
Definition written (os : list Op) : list Buffer :=
  flat_map (fun o => match o with
                     | DoWrite chunk _ => [chunk]
                     | DoWritev cs _ => cs
                     | _ => []
                     end) os.

(** The frames sent, then the frames of the chunks still queued. *)
Definition outstanding (s : CopyStreamQuery) : list Buffer :=
  sent (trace (world s)) ++ flat_map frame_writes (chunks (wr s)).

Lemma outstanding_flush_result callback s :
  outstanding (flush_result code writeReturns callback s) = outstanding s.
Proof.
  unfold flush_result.
  destruct callback as [c|]; [|apply flush_state_total].
  destruct (accepted _ _).
  - unfold outstanding. fields. rewrite sent_call. apply flush_state_total.
  - destruct (Nat.ltb _ _); apply flush_state_total.
Qed.

Lemma outstanding_queued cs s :
  outstanding (with_wr (fun w => set_chunks (chunks w ++ cs) w) s)
  = outstanding s ++ flat_map frame_writes cs.
Proof.
  unfold outstanding. fields. rewrite flat_map_app, app_assoc. reflexivity.
Qed.

Lemma outstanding_startCopyIn_state s :
  outstanding (startCopyIn_state code writeReturns s) = outstanding s.
Proof.
  unfold outstanding.
  rewrite startCopyIn_state_sent, startCopyIn_state_chunks, <- app_assoc,
    <- flat_map_app, firstn_skipn.
  reflexivity.
Qed.

Lemma micros_outstanding s s' : Micros s s' -> outstanding s' = outstanding s.
Proof.
  apply (micros_preserve code writeReturns
           (fun s s' => outstanding s' = outstanding s)).
  - reflexivity.
  - intros. congruence.
  - intros s1 s2 H. destruct H; try reflexivity.
    + apply outstanding_startCopyIn_state.
    + unfold outstanding. fields. rewrite sent_app. cbn [sent flat_map app].
      rewrite app_nil_r. reflexivity.
Qed.

Lemma outstanding_detach_state b s :
  outstanding (detach_state b s) = outstanding s.
Proof.
  unfold outstanding, detach_state. fields. rewrite !sent_app.
  cbn [sent flat_map app]. rewrite !app_nil_r. reflexivity.
Qed.

Lemma parse_outstanding chunk s r s' :
  _parse chunk s = Ok (r, s') -> outstanding s' = outstanding s.
Proof.
  intros H. apply parse_parsed in H.
  destruct H as [dr s' Hm|dr s2 b2 Hm Hb2|s1 c b Hm Hst Hb1 Hc];
    pose proof (micros_outstanding _ _ Hm) as Ho;
    change (outstanding (append chunk s)) with (outstanding s) in Ho.
  - exact Ho.
  - rewrite <- Ho, <- (outstanding_detach_state b2 s2).
    unfold outstanding, CopyBoth._cleanup. fields. rewrite sent_app.
    cbn [sent flat_map app]. rewrite app_nil_r. reflexivity.
  - rewrite outstanding_detach_state. exact Ho.
Qed.

Lemma call_listeners_outstanding ls : forall s s',
  call_listeners ls s = Ok s' -> outstanding s' = outstanding s.
Proof.
  induction ls as [|[c|c] ls IH]; intros s s'; cbn [CopyBoth.call_listeners].
  - intros [= <-]. reflexivity.
  - destruct (flush (Some c) s) as [s1| |] eqn:E; cbn [bind]; try discriminate.
    intros H. apply IH in H. apply (flush_inv code writeReturns) in E.
    subst s1. rewrite H. apply outstanding_flush_result.
  - intros H. apply IH in H. rewrite H.
    unfold outstanding. fields. rewrite sent_call. reflexivity.
Qed.

Lemma step_outstanding o s s' :
  no_final [o] = true -> step o s = Ok s' ->
  outstanding s' = outstanding s ++ flat_map frame_writes (written [o]).
Proof.
  destruct o as [chunk c|cs c|c|chunk|]; cbn [no_final forallb CopyBoth.step];
    try discriminate; intros _.
  - replace (written [DoWrite chunk c]) with [chunk] by reflexivity.
    unfold CopyBoth._write.
    rewrite <- (outstanding_queued [chunk] s).
    destruct (_gotCopyInResponse _); [|intros [= <-]; reflexivity].
    intros H. apply (flush_inv code writeReturns) in H. subst s'.
    apply outstanding_flush_result.
  - replace (written [DoWritev cs c]) with cs
      by (unfold written; cbn [flat_map]; rewrite app_nil_r; reflexivity).
    unfold CopyBoth._writev.
    rewrite <- (outstanding_queued cs s).
    destruct (_gotCopyInResponse _); [|intros [= <-]; reflexivity].
    intros H. apply (flush_inv code writeReturns) in H. subst s'.
    apply outstanding_flush_result.
  - cbn [written flat_map]. rewrite app_nil_r.
    destruct (_parse chunk s) as [[r s1]| |] eqn:E; cbn [bind];
      try discriminate.
    intros [= <-]. exact (parse_outstanding _ _ _ _ E).
  - cbn [written flat_map]. rewrite app_nil_r.
    unfold CopyBoth.on_drain. intros H.
    apply call_listeners_outstanding in H. exact H.
Qed.

Lemma steps_outstanding os : forall s s',
  no_final os = true -> steps os s = Ok s' ->
  outstanding s' = outstanding s ++ flat_map frame_writes (written os).
Proof.
  induction os as [|o os IH]; intros s s' Hn; cbn [CopyBoth.steps].
  - intros [= <-]. cbn [written flat_map]. rewrite app_nil_r. reflexivity.
  - cbn [no_final forallb] in Hn. apply andb_prop in Hn.
    destruct Hn as [Ho Hos].
    destruct (step o s) as [s1| |] eqn:E; cbn [bind]; try discriminate.
    intros H. apply (IH _ _ Hos) in H. rewrite H.
    rewrite (step_outstanding o s s1); [|cbn [no_final forallb]; rewrite Ho;
                                         reflexivity|exact E].
    replace (written (o :: os)) with (written [o] ++ written os)
      by (unfold written; cbn [flat_map]; rewrite app_nil_r; reflexivity).
    rewrite flat_map_app, app_assoc. reflexivity.
Qed.

(** X12.  Nothing written is lost, doubled or reordered.  After [submit]
    and any sequence of [_write], [_writev], chunks from the connection
    and 'drain' events, whatever the transport answers: the Buffers
    written to the connection stream, followed by the frames of the chunks
    still in [this.chunks], are the CopyData frames (header, then payload)
    of all the chunks handed over so far, in the order of the calls. *)
Theorem write_order rm os s0 s :
  submit code writeReturns pushReturns (new rm) = Ok s0 ->
  no_final os = true -> steps os s0 = Ok s ->
  sent (trace (world s)) ++ flat_map frame_writes (chunks (wr s))
  = flat_map frame_writes (written os).
Proof.
  intros Hs Hn H. apply (steps_outstanding _ _ _ Hn) in H.
  destruct (submit_new code writeReturns pushReturns rm)
    as (s0' & E & _ & _ & _ & _ & _ & _ & Htr & _ & _ & Hq & _).
  rewrite E in Hs. injection Hs as ->.
  unfold outstanding in H. rewrite H, Htr, Hq. reflexivity.
Qed.


(** *** The end of input

    [_final] flushes once, without a callback, and writes the CopyDone
    frame whatever the flush has left in [this.chunks]. *)

Lemma writable_flush_result callback s :
  writable s -> writable (flush_result code writeReturns callback s).
Proof.
  intros Hw. pose proof (flush_state_writable code writeReturns pushReturns s Hw) as H.
  unfold flush_result. destruct callback as [c|]; [|exact H].
  destruct (accepted _ _); [exact H|].
  destruct (Nat.ltb _ _); exact H.
Qed.

Lemma micros_writable s s' : Micros s s' -> writable s -> writable s'.
Proof.
  apply (micros_preserve code writeReturns
           (fun s s' => writable s -> writable s')).
  - intros s1 H. exact H.
  - intros s1 s2 s3 H1 H2 H. exact (H2 (H1 H)).
  - intros s1 s2 H. destruct H; try (intros Hw; exact Hw).
    apply (startCopyIn_state_writable code writeReturns pushReturns).
Qed.

Lemma parse_writable chunk s r s' :
  _parse chunk s = Ok (r, s') -> writable s -> writable s'.
Proof.
  intros H Hw. apply parse_parsed in H.
  assert (Hw0 : writable (append chunk s)) by exact Hw.
  destruct H as [dr s' Hm|dr s2 b2 Hm Hb2|s1 c b Hm Hst Hb1 Hc];
    pose proof (micros_writable _ _ Hm Hw0) as H; exact H.
Qed.

Lemma call_listeners_writable ls : forall s s',
  call_listeners ls s = Ok s' -> writable s -> writable s'.
Proof.
  induction ls as [|[c|c] ls IH]; intros s s'; cbn [CopyBoth.call_listeners].
  - intros [= <-] H. exact H.
  - destruct (flush (Some c) s) as [s1| |] eqn:E; cbn [bind]; try discriminate.
    intros H Hw. apply IH in H; [exact H|].
    apply (flush_inv code writeReturns) in E. subst s1.
    apply writable_flush_result, Hw.
  - intros H Hw. apply IH in H; [exact H|exact Hw].
Qed.

Lemma writable_queued cs s :
  writable s -> forallb small cs = true ->
  writable (with_wr (fun w => set_chunks (chunks w ++ cs) w) s).
Proof.
  intros [Hc Hs] Hcs. split; [exact Hc|].
  fields. rewrite forallb_app, Hs, Hcs. reflexivity.
Qed.

Lemma steps_writable os : forall s s',
  no_final os = true -> forallb small (written os) = true ->
  steps os s = Ok s' -> writable s -> writable s'.
Proof.
  induction os as [|o os IH]; intros s s' Hn Hsm; cbn [CopyBoth.steps].
  - intros [= <-] H. exact H.
  - destruct (step o s) as [s1| |] eqn:E; cbn [bind]; try discriminate.
    replace (written (o :: os)) with (written [o] ++ written os) in Hsm
      by (unfold written; cbn [flat_map]; rewrite app_nil_r; reflexivity).
    rewrite forallb_app in Hsm. apply andb_prop in Hsm.
    destruct Hsm as [Hso Hsos].
    cbn [no_final forallb] in Hn. apply andb_prop in Hn.
    destruct Hn as [Ho Hos].
    intros H Hw. apply (IH s1 s' Hos Hsos H). clear H IH.
    destruct o as [chunk c|cs c|c|chunk|]; cbn [CopyBoth.step] in E;
      try discriminate.
    + pose proof (writable_queued [chunk] s Hw Hso) as Hq.
      unfold CopyBoth._write in E.
      destruct (_gotCopyInResponse _); [|injection E as <-; exact Hq].
      apply (flush_inv code writeReturns) in E. subst s1.
      apply writable_flush_result, Hq.
    + assert (Hcs : forallb small cs = true)
        by (unfold written in Hso; cbn [flat_map] in Hso;
            rewrite app_nil_r in Hso; exact Hso).
      pose proof (writable_queued cs s Hw Hcs) as Hq.
      unfold CopyBoth._writev in E.
      destruct (_gotCopyInResponse _); [|injection E as <-; exact Hq].
      apply (flush_inv code writeReturns) in E. subst s1.
      apply writable_flush_result, Hq.
    + destruct (_parse chunk s) as [[r s2]| |] eqn:E2; cbn [bind] in E;
        try discriminate.
      injection E as <-. exact (parse_writable _ _ _ _ E2 Hw).
    + unfold CopyBoth.on_drain in E.
      apply call_listeners_writable in E; [exact E|exact Hw].
Qed.

Lemma frame_writes_length cs :
  length (flat_map frame_writes cs) = (2 * length cs)%nat.
Proof.
  induction cs as [|c cs IH]; [reflexivity|].
  cbn [flat_map CopyBothFacts.frame_writes app length]. lia.
Qed.

Lemma frame_writes_inj a : forall b,
  flat_map frame_writes a = flat_map frame_writes b -> a = b.
Proof.
  induction a as [|x a IH]; intros [|y b];
    cbn [flat_map CopyBothFacts.frame_writes app]; try discriminate;
    [reflexivity|].
  intros H.
  assert (Hxy : x = y)
    by (apply (f_equal (fun l => nth 1 l [])) in H; exact H).
  assert (Hab : flat_map frame_writes a = flat_map frame_writes b)
    by (apply (f_equal (skipn 2)) in H; exact H).
  rewrite Hxy, (IH b Hab). reflexivity.
Qed.

(** A sequence of Buffers that the frames of [cs] complete to the frames
    of [w] is the frames of the chunks of [w] before [cs]. *)
Lemma frames_split w : forall pre cs,
  pre ++ flat_map frame_writes cs = flat_map frame_writes w ->
  exists k, pre = flat_map frame_writes (firstn k w) /\ cs = skipn k w.
Proof.
  induction w as [|x w IH]; intros pre cs H.
  - cbn [flat_map] in H. apply app_eq_nil in H. destruct H as [-> H].
    exists 0%nat. split; [reflexivity|].
    destruct cs; [reflexivity|discriminate].
  - destruct pre as [|p0 [|p1 pre]].
    + exists 0%nat. split; [reflexivity|]. apply frame_writes_inj, H.
    + exfalso. apply (f_equal (@length Buffer)) in H.
      cbn [app length] in H. rewrite !frame_writes_length in H.
      cbn [length] in H. lia.
    + cbn [flat_map CopyBothFacts.frame_writes app] in H.
      assert (H0 : p0 = CopyData code :: encodeUInt32BE (len x + 4))
        by (apply (f_equal (fun l => nth 0 l [])) in H; exact H).
      assert (H1 : p1 = x)
        by (apply (f_equal (fun l => nth 1 l [])) in H; exact H).
      assert (H2 : pre ++ flat_map frame_writes cs = flat_map frame_writes w)
        by (apply (f_equal (skipn 2)) in H; exact H).
      destruct (IH pre cs H2) as (k & -> & ->). subst p0 p1.
      exists (S k). split; reflexivity.
Qed.

Lemma firstn_then j : forall k (w : list Buffer),
  firstn k w ++ firstn j (skipn k w) = firstn (k + j) w.
Proof.
  induction k as [|k IH]; intros w; [reflexivity|].
  destruct w as [|x w]; [cbn; rewrite firstn_nil; reflexivity|].
  cbn [Nat.add firstn skipn app]. rewrite IH. reflexivity.
Qed.

(** X14.  What [_final] sends.  After [submit] and any sequence of
    [_write], [_writev], chunks from the connection and 'drain' events
    that returns, with chunks shorter than 2^32 - 4 bytes, [_final]
    returns, and then the Buffers written to the connection stream are
    the CopyData frames (header, then payload) of the first [k] chunks
    handed over, in order, and last the CopyDone frame [c 0 0 0 4];
    the other chunks are still in [this.chunks].  On a transport that
    never answers [false] no chunk is left. *)
Theorem final_sends rm os c s0 s :
  submit code writeReturns pushReturns (new rm) = Ok s0 ->
  no_final os = true -> forallb small (written os) = true ->
  steps os s0 = Ok s ->
  exists k s1,
    _final c s = Ok s1
    /\ sent (trace (world s1))
       = flat_map frame_writes (firstn k (written os))
         ++ [[CopyDone code; x00; x00; x00; x04]]
    /\ chunks (wr s1) = skipn k (written os)
    /\ ((forall n, writeReturns n = true) -> chunks (wr s1) = []).
Proof.
  intros Hs Hn Hsm H.
  destruct (submit_new code writeReturns pushReturns rm)
    as (s0' & E & _ & _ & _ & _ & Hw0 & _ & Htr & _ & _ & Hq & _).
  rewrite E in Hs. injection Hs as ->.
  pose proof (steps_writable _ _ _ Hn Hsm H Hw0) as Hw.
  apply (steps_outstanding _ _ _ Hn) in H.
  unfold outstanding in H. rewrite Htr, Hq in H. cbn [sent flat_map app] in H.
  destruct (frames_split _ _ _ H) as (k0 & Hsent & Hch).
  set (j := flushed (chunks (wr s)) (writes s)).
  exists (k0 + j)%nat.
  unfold CopyBoth._final. rewrite (flush_spec code writeReturns None s Hw).
  cbn [bind]. unfold CopyBoth.stream_write.
  destruct (flush_state_writable code writeReturns pushReturns s Hw) as [Hc' _].
  rewrite Hc'. cbn [bind].
  eexists. split; [reflexivity|].
  split; [|split].
  - fields. rewrite sent_app, flush_state_sent. fold j.
    rewrite Hsent, Hch, <- flat_map_app, firstn_then. reflexivity.
  - fields. rewrite flush_state_chunks. fold j. rewrite Hch.
    rewrite skipn_skipn, Nat.add_comm. reflexivity.
  - intros Hall. fields. rewrite flush_state_chunks.
    rewrite (flushed_all writeReturns _ Hall). apply skipn_all.
Qed.


End WithEnvironment.
End CopyBothCalls.

(** * The added theorems on concrete transfers *)
Module MoreRuns.
Import Wire WireFacts Runs.

(** ** copy-to *)

(** X2 on a run: a CopyOutResponse frame and two rows in one chunk. *)
Lemma rows_pushed_together_run :
  exists s',
    CopyTo._transform pg (encode_all ([H_frame] ++ [d_ab; d_c])) 0%nat
      (CopyTo.submit CopyTo.init) = Ok s'
    /\ pushed (CopyTo.events s') = [["a"; "b"; "c"]%byte]
    /\ CopyTo.rowCount s' = 2
    /\ CopyTo._remainder s' = None
    /\ called (CopyTo.events s') = [0%nat]
    /\ CopyTo.piped s' = true.
Proof.
  refine (CopyToCalls.rows_pushed_together pg [H_frame] [d_ab; d_c] 0%nat
            (CopyTo.submit CopyTo.init) _ _ _ _ _).
  - vm_compute; reflexivity.
  - reflexivity.
  - repeat constructor.
  - vm_compute; reflexivity.
  - vm_compute; reflexivity.
Defined.

(** A CopyOutResponse frame and two rows, cut inside the first payload
    and inside a header. *)
Definition rows_cut : list Buffer :=
  [["H"; x00; x00; x00; x07; x00];
   [x00; x00; "d"; x00; x00; x00; x06; "a"];
   ["b"; "d"; x00; x00]; [x00; x05; "c"]]%byte.


(** ** copy-both: the write side *)

(** The instance once the CopyBothResponse frame has come, on a transport
    that answers every write with [false]. *)
Definition acknowledged : CopyBoth.CopyStreamQuery :=
  match CopyBoth.steps pg refusing accepting
          [CopyBoth.DoParse (encode W_frame)] (attached false) with
  | Ok s => s
  | _ => attached false
  end.

(** X3 on a run: two chunks written at once to that transport; the
    callback is called at the second 'drain'. *)
Lemma write_settles_run :
  exists s',
    CopyBoth.steps pg refusing accepting
      (CopyBoth.DoWritev [["a"]; ["b"]]%byte 7%nat
       :: repeat CopyBoth.DoDrain 2) acknowledged = Ok s'
    /\ sent (CopyBoth.trace (CopyBoth.world s'))
       ++ flat_map (CopyBothFacts.frame_writes pg)
            (CopyBoth.chunks (CopyBoth.wr s'))
       = sent (CopyBoth.trace (CopyBoth.world acknowledged))
         ++ flat_map (CopyBothFacts.frame_writes pg)
              (CopyBoth.chunks (CopyBoth.wr acknowledged)
               ++ [["a"]; ["b"]]%byte)
    /\ (called (CopyBoth.trace (CopyBoth.world s'))
        = called (CopyBoth.trace (CopyBoth.world acknowledged))
        /\ CopyBoth.drainListeners (CopyBoth.world s') <> []
        \/ called (CopyBoth.trace (CopyBoth.world s'))
           = called (CopyBoth.trace (CopyBoth.world acknowledged)) ++ [7%nat]
           /\ CopyBoth.chunks (CopyBoth.wr s') = []
           /\ CopyBoth.drainListeners (CopyBoth.world s') = [])
    /\ ((length (CopyBoth.chunks (CopyBoth.wr acknowledged)
                 ++ [["a"]; ["b"]]%byte) <= 2)%nat ->
        called (CopyBoth.trace (CopyBoth.world s'))
        = called (CopyBoth.trace (CopyBoth.world acknowledged)) ++ [7%nat]).
Proof.
  refine (CopyBothCalls.write_settles pg refusing accepting
            (CopyBoth.DoWritev [["a"]; ["b"]]%byte 7%nat)
            [["a"]; ["b"]]%byte 7%nat acknowledged 2 _ _ _ _ _).
  - reflexivity.
  - split; vm_compute; reflexivity.
  - vm_compute; reflexivity.
  - vm_compute; reflexivity.
  - vm_compute; reflexivity.
Defined.

(** X5 on a run: three chunks, one of them empty, read back from the
    bytes cut in two places. *)
Lemma written_frames_read_back_run :
  exists sS,
    (let* s0 := CopyBoth.submit pg accepting accepting (CopyBoth.new false) in
     CopyBoth.steps pg accepting accepting
       [CopyBoth.DoWritev [["a"]; []; ["b"; "c"]]%byte 0%nat;
        CopyBoth.DoParse (encode W_frame)] s0) = Ok sS
    /\ (concat [["d"; x00; x00]; [x00; x05; "a"; "d"; x00; x00; x00; x04; "d"];
                [x00; x00; x00; x06; "b"; "c"]]%byte
        = concat (sent (CopyBoth.trace (CopyBoth.world sS))) ->
        exists sR,
          CopyBoth.run pg refusing refusing true
            [["d"; x00; x00]; [x00; x05; "a"; "d"; x00; x00; x00; x04; "d"];
             [x00; x00; x00; x06; "b"; "c"]]%byte = Ok sR
          /\ pushed (CopyBoth.trace (CopyBoth.world sR))
             = filter CopyBothCalls.not_empty [["a"]; []; ["b"; "c"]]%byte
          /\ CopyBoth.readableListener (CopyBoth.world sR) = true).
Proof.
  refine (CopyBothCalls.written_frames_read_back pg accepting accepting false
            [["a"]; []; ["b"; "c"]]%byte 0%nat W_frame _ refusing refusing
            _ _ _ _ _).
  - vm_compute; reflexivity.
  - reflexivity.
  - vm_compute; reflexivity.
  - split; vm_compute; reflexivity.
  - reflexivity.
Defined.

(** X6 on a run: a write and the acknowledgment, then
    [handleReadyForQuery]. *)
Lemma ready_for_query_needs_final_run :
  CopyBoth.handleReadyForQuery acknowledged = Throw TypeError.
Proof.
  refine (proj1 (CopyBothCalls.ready_for_query_needs_final pg refusing
                   accepting)
            false [CopyBoth.DoParse (encode W_frame)] (attached false)
            acknowledged _ _ _).
  - reflexivity.
  - reflexivity.
  - vm_compute; reflexivity.
Defined.

(** ** copy-both: the read side *)

(** X4 on a run: a CopyData header that declares 3, and a byte. *)
Lemma short_length_hangs_run :
  CopyBoth._parse pg accepting accepting
    ("d" :: encodeUInt32BE 3 ++ ["a"])%byte (attached false) = Diverge
  /\ forall fuel,
       CopyBoth.parse_with pg accepting accepting fuel
         ("d" :: encodeUInt32BE 3 ++ ["a"])%byte (attached false) = Diverge.
Proof.
  refine (CopyBothCalls.short_length_hangs pg accepting accepting
            "d"%byte 3 "a"%byte [] (attached false) _ _ _ _).
  - reflexivity.
  - reflexivity.
  - reflexivity.
  - lia.
Defined.

(** A transfer that ends with a CopyDone frame. *)
Definition ended_transfer : CopyBoth.CopyStreamQuery :=
  match CopyBothCalls.transfer_on pg accepting accepting 1 false
          [encode W_frame; encode d_ab ++ encode c_frame] with
  | Ok s => s
  | _ => attached false
  end.

(** X7 on a run: the instance has detached, and the connection stream has
    its 'data' listener again. *)
Lemma listeners_exclusive_run : CopyBothCalls.exclusive ended_transfer.
Proof.
  refine (proj2 (CopyBothCalls.listeners_exclusive pg accepting accepting
                   1 false [encode W_frame; encode d_ab ++ encode c_frame])
            ended_transfer _).
  vm_compute; reflexivity.
Defined.

(** The attached instance with two chunks waiting in the connection
    stream, and a consumer that is never drained. *)
Definition two_waiting : CopyBoth.CopyStreamQuery :=
  CopyBoth.with_world
    (CopyBoth.set_incoming [encode d_ab; encode d_c]) (attached true).

Definition after_read : CopyBoth.CopyStreamQuery :=
  match CopyBoth._read pg accepting refusing two_waiting with
  | Ok s => s
  | _ => two_waiting
  end.

(** X8 on a run: the first push returns [false]; the second chunk stays
    in the connection stream. *)
Lemma read_takes_in_order_run :
  exists k,
    (k <= length (CopyBoth.incoming (CopyBoth.world two_waiting)))%nat
    /\ CopyBoth.incoming (CopyBoth.world after_read)
       = skipn k (CopyBoth.incoming (CopyBoth.world two_waiting))
    /\ CopyBoth._forwarding (CopyBoth.rd after_read) = false
    /\ (CopyBoth.incoming (CopyBoth.world after_read) <> [] ->
        CopyBoth._drained (CopyBoth.rd after_read) = false)
    /\ (CopyBoth.readableListener (CopyBoth.world after_read) = true
        /\ handedBack (CopyBoth.trace (CopyBoth.world after_read))
           = handedBack (CopyBoth.trace (CopyBoth.world two_waiting))
        /\ CopyBoth.consumed (CopyBoth.world after_read)
           ++ CopyBothFacts.held after_read
           = CopyBoth.consumed (CopyBoth.world two_waiting) ++ []
             ++ concat (firstn k (CopyBoth.incoming
                                    (CopyBoth.world two_waiting)))
        \/ CopyBoth.readableListener (CopyBoth.world after_read) = false
           /\ exists unreadBuffer,
                handedBack (CopyBoth.trace (CopyBoth.world after_read))
                = handedBack (CopyBoth.trace (CopyBoth.world two_waiting))
                  ++ [unreadBuffer]
                /\ CopyBoth.consumed (CopyBoth.world after_read)
                   ++ unreadBuffer
                   = CopyBoth.consumed (CopyBoth.world two_waiting) ++ []
                     ++ concat (firstn k (CopyBoth.incoming
                                            (CopyBoth.world two_waiting)))).
Proof.
  refine (CopyBothCalls.read_takes_in_order pg accepting refusing
            two_waiting after_read [] _ _ _ _ _).
  - reflexivity.
  - reflexivity.
  - reflexivity.
  - reflexivity.
  - vm_compute; reflexivity.
Defined.

(** X9 on a run: two rows and a notice, and the same with an
    ErrorResponse byte behind. *)
Lemma raw_mode_chunk_run :
  (exists dr s',
     CopyBoth._parse pg accepting accepting
       (encode_all [d_ab; N_xy; d_c]) (attached false) = Ok (Some dr, s')
     /\ pushed (CopyBoth.trace (CopyBoth.world s'))
        = pushed (CopyBoth.trace (CopyBoth.world (attached false)))
          ++ [["a"; "b"; "c"]%byte]
     /\ CopyBoth._copyDataChunks (CopyBoth.rd s') = Some []
     /\ CopyBoth.readableListener (CopyBoth.world s') = true)
  /\ (exists s',
        CopyBoth._parse pg accepting accepting
          (encode_all [d_ab; N_xy; d_c] ++ ErrorResponse pg :: [x00])
          (attached false) = Ok (None, s')
        /\ pushed (CopyBoth.trace (CopyBoth.world s'))
           = pushed (CopyBoth.trace (CopyBoth.world (attached false)))
        /\ CopyBoth._copyDataChunks (CopyBoth.rd s')
           = Some (CopyBothCalls.data pg [d_ab; N_xy; d_c])
        /\ handedBack (CopyBoth.trace (CopyBoth.world s'))
           = handedBack (CopyBoth.trace (CopyBoth.world (attached false)))
             ++ [ErrorResponse pg :: [x00]]
        /\ CopyBoth.readableListener (CopyBoth.world s') = false).
Proof.
  refine (CopyBothCalls.raw_mode_chunk pg accepting accepting
            [d_ab; N_xy; d_c] [x00] (attached false) _ _ _ _ _ _).
  - vm_compute; reflexivity.
  - split; [|split; reflexivity].
    split; [reflexivity|]. split; [discriminate|].
    split; [split; reflexivity|reflexivity].
  - reflexivity.
  - reflexivity.
  - repeat constructor.
  - vm_compute; reflexivity.
Defined.

(** The acknowledgment, two rows with a notice between them and a
    CopyDone frame, cut inside a payload and inside a header. *)
Definition transfer_cut : list Buffer :=
  [encode W_frame ++ ["d"; x00; x00; x00; x06; "a"];
   ["b"] ++ encode N_xy ++ ["d"; x00];
   [x00; x00; x05; "c"] ++ encode c_frame]%byte.

(** X11 on a run. *)
Lemma raw_mode_stream_run :
  exists s',
    CopyBoth.run pg accepting accepting false transfer_cut = Ok s'
    /\ forwarded (CopyBoth.trace (CopyBoth.world s'))
       ++ CopyBothCalls.unflushed s'
       = CopyBothCalls.data pg [W_frame; d_ab; N_xy; d_c]
    /\ ((forall rest, CopyBothFacts.Ends c_frame [] <> CopyBothFacts.Fails rest)
        -> CopyBothCalls.unflushed s' = [])
    /\ (CopyBothFacts.Ends c_frame [] = CopyBothFacts.Open ->
        CopyBoth.readableListener (CopyBoth.world s') = true)
    /\ (CopyBothFacts.Ends c_frame [] <> CopyBothFacts.Open ->
        CopyBoth.readableListener (CopyBoth.world s') = false).
Proof.
  refine (CopyBothCalls.raw_mode_stream pg accepting accepting
            [W_frame; d_ab; N_xy; d_c] (CopyBothFacts.Ends c_frame [])
            transfer_cut _ _ _ _ _).
  - vm_compute; reflexivity.
  - repeat constructor.
  - vm_compute; reflexivity.
  - split; [split; reflexivity|vm_compute; reflexivity].
  - vm_compute; reflexivity.
Defined.

(** ** The end of a copy-to transfer, and the order of the writes *)

(** A CopyOutResponse frame, two rows and a CopyDone frame, cut inside the
    first payload, inside a header and before the length of the last
    frame. *)
Definition rows_and_end : list Buffer :=
  [["H"; x00; x00; x00; x07; x00];
   [x00; x00; "d"; x00; x00; x00; x06; "a"];
   ["b"; "d"; x00; x00]; [x00; x05; "c"; "c"];
   [x00; x00; x00; x04]]%byte.


(** Two chunks written before the CopyBothResponse frame has come, one
    after it, and a 'drain', on a transport that answers every write with
    [false]. *)
Definition three_written : list CopyBoth.Op :=
  [CopyBoth.DoWritev [["a"]; ["b"]]%byte 0%nat;
   CopyBoth.DoParse (encode W_frame);
   CopyBoth.DoWrite ["c"]%byte 1%nat;
   CopyBoth.DoDrain].

Definition after_three : CopyBoth.CopyStreamQuery :=
  match CopyBoth.steps pg refusing accepting three_written (attached false)
  with
  | Ok s => s
  | _ => attached false
  end.

(** X12 on a run. *)
Lemma write_order_run :
  sent (CopyBoth.trace (CopyBoth.world after_three))
  ++ flat_map (CopyBothFacts.frame_writes pg)
       (CopyBoth.chunks (CopyBoth.wr after_three))
  = flat_map (CopyBothFacts.frame_writes pg)
      (CopyBothCalls.written three_written).
Proof.
  refine (CopyBothCalls.write_order pg refusing accepting false three_written
            (attached false) after_three _ _ _).
  - reflexivity.
  - reflexivity.
  - vm_compute; reflexivity.
Defined.

(** Three chunks written at once before the CopyBothResponse frame has
    come, and that frame. *)
Definition written_early : list CopyBoth.Op :=
  [CopyBoth.DoWritev [["a"]; ["b"]; ["c"]]%byte 0%nat;
   CopyBoth.DoParse (encode W_frame)].

Definition before_final : CopyBoth.CopyStreamQuery :=
  match CopyBoth.steps pg accepting accepting written_early (attached false)
  with
  | Ok s => s
  | _ => attached false
  end.

(** X14 on a run. *)
Lemma final_sends_run :
  exists k s1,
    CopyBoth._final pg accepting 5%nat before_final = Ok s1
    /\ sent (CopyBoth.trace (CopyBoth.world s1))
       = flat_map (CopyBothFacts.frame_writes pg)
           (firstn k (CopyBothCalls.written written_early))
         ++ [[CopyDone pg; x00; x00; x00; x04]]
    /\ CopyBoth.chunks (CopyBoth.wr s1)
       = skipn k (CopyBothCalls.written written_early)
    /\ ((forall n, accepting n = true) -> CopyBoth.chunks (CopyBoth.wr s1) = []).
Proof.
  refine (CopyBothCalls.final_sends pg accepting accepting false
            written_early 5%nat (attached false) before_final _ _ _ _).
  - reflexivity.
  - reflexivity.
  - vm_compute; reflexivity.
  - vm_compute; reflexivity.
Defined.
End MoreRuns.
